(** * OCRV: the arithmetic reconciliation engine and the OCR pipeline

    A shallow embedding of [server/index.js] (numeric normalisation, rounding,
    line-item repair, document-level derivation) and of the OCR front end
    (bitmap preprocessing, pass scoring, TIFF assembly), followed by the
    properties the specification states about them.

    JavaScript numbers are IEEE 754 binary64 values: they are modelled by
    Rocq's primitive [float]s, whose operations are the same correctly
    rounded binary64 operations.  [null] is [None] wherever the code keeps a
    "number or null" in a local variable.  What a sum, a product or a
    quotient is rounded to is derived from [SpecFloat]'s definition of the
    operations, in the section on binary64 rounding. *)

From Stdlib Require Import ZArith List String Ascii Bool Lia Floats Uint63.
From Stdlib Require Import DecimalString.
Import ListNotations.
Set Warnings "-inexact-float,-register-all".

Open Scope Z_scope.

(* ================================================================== *)
(** * Part I - definitions                                              *)
(* ================================================================== *)

(** ** Exceptions *)

Inductive exn : Type :=
| TypeError (msg : string)
| Error (msg : string)
| DOMException (msg : string).

Inductive result (A : Type) : Type :=
| Ok (a : A)
| Throw (e : exn).

Arguments Ok {A} a.
Arguments Throw {A} e.

Definition bind {A B : Type} (r : result A) (k : A -> result B) : result B :=
  match r with
  | Ok a => k a
  | Throw e => Throw e
  end.

Notation "x <- e ;; k" := (bind e (fun x => k))
  (at level 61, e at next level, right associativity).

Fixpoint mapM {A B : Type} (f : A -> result B) (l : list A) : result (list B) :=
  match l with
  | [] => Ok []
  | a :: r => b <- f a ;; bs <- mapM f r ;; Ok (b :: bs)
  end.

Fixpoint foldM {A B : Type} (f : B -> A -> result B) (l : list A) (acc : B) : result B :=
  match l with
  | [] => Ok acc
  | a :: r => acc' <- f acc a ;; foldM f r acc'
  end.

(** ** JavaScript numbers *)

Module JsNumber.

(** [Number.EPSILON], 2^-52. *)
Definition EPSILON : float := 0x1p-52%float.

(** An integer as a number (exact below 2^53 in magnitude). *)
Definition of_int (z : Z) : float :=
  if z <? 0 then PrimFloat.opp (of_uint63 (Uint63.of_Z (- z)))
  else of_uint63 (Uint63.of_Z z).

(** [Number.isFinite] on a number. *)
Definition isFinite (x : float) : bool := PrimFloat.is_finite x.

(** [x !== 0] on a number: both zeros are [=== 0], NaN is not. *)
Definition nonzero (x : float) : bool := negb (PrimFloat.eqb x 0%float).

(** Truthiness of a number: neither a zero nor NaN. *)
Definition truthy (x : float) : bool :=
  negb (PrimFloat.eqb x 0%float) && negb (PrimFloat.is_nan x).

(** [Math.round]: the nearest integer, ties towards +infinity; the sign of a
    zero result is that of the argument; NaN, the infinities, the zeros and
    integral values are returned as they are.  A finite non-zero [x] is
    [(-1)^s * m * 2^e]; for [e < 0] the result is
    [floor (x + 1/2) = floor ((2 * (+-m) + 2^-e) / 2^(1-e))]. *)
Definition Math_round (x : float) : float :=
  match Prim2SF x with
  | S754_finite s m e =>
      if 0 <=? e then x
      else
        let n := if s then Z.neg m else Z.pos m in
        let k := Z.shiftr (2 * n + Z.shiftl 1 (- e)) (1 - e) in
        if k =? 0 then (if s then neg_zero else zero) else of_int k
  | _ => x
  end.

Definition Math_abs (x : float) : float := PrimFloat.abs x.

(** [Math.min] of two numbers: NaN if either is NaN, and -0 below +0. *)
Definition Math_min (a b : float) : float :=
  if PrimFloat.is_nan a then a
  else if PrimFloat.is_nan b then b
  else if PrimFloat.ltb a b then a
  else if PrimFloat.ltb b a then b
  else if PrimFloat.get_sign a then a else b.

(** [Math.max] of two numbers. *)
Definition Math_max (a b : float) : float :=
  if PrimFloat.is_nan a then a
  else if PrimFloat.is_nan b then b
  else if PrimFloat.ltb a b then b
  else if PrimFloat.ltb b a then a
  else if PrimFloat.get_sign a then b else a.

(** The number nearest to [num / den] (ties to even), with sign [neg]. *)
Definition ratio_to_number (neg : bool) (num den : Z) : float :=
  match num, den with
  | Zpos p, Zpos q =>
      SF2Prim (SFdiv prec emax (S754_finite neg p 0) (S754_finite false q 0))
  | _, _ => if neg then neg_zero else zero
  end.

(** *** [Number(s)] on a string of the characters [0-9], [.] and [-] *)

Definition is_digit (c : ascii) : bool :=
  let n := N_of_ascii c in ((48 <=? n) && (n <=? 57))%N.

Fixpoint digits_value (acc : Z) (s : string) : option Z :=
  match s with
  | EmptyString => Some acc
  | String c r =>
      if is_digit c then digits_value (10 * acc + (Z.of_N (N_of_ascii c) - 48)) r
      else None
  end.

Fixpoint split_dot (s : string) : string * option string :=
  match s with
  | EmptyString => (EmptyString, None)
  | String c r =>
      if Ascii.eqb c "."%char then (EmptyString, Some r)
      else let (a, b) := split_dot r in (String c a, b)
  end.

(** StringToNumber restricted to the alphabet that [toNumber] leaves: an
    optional leading minus, then [digits], [digits.], [digits.digits] or
    [.digits]; anything else is NaN.  The empty string is handled by the
    caller. *)
Definition StringToNumber (s : string) : float :=
  let (neg, body) :=
    match s with
    | String "-" r => (true, r)
    | _ => (false, s)
    end in
  let (ip, fp) := split_dot body in
  let fp' := match fp with Some f => f | None => EmptyString end in
  match digits_value 0 ip, digits_value 0 fp' with
  | Some _, Some _ =>
      if (String.length ip + String.length fp' =? 0)%nat then nan
      else
        match digits_value 0 (ip ++ fp') with
        | Some m => ratio_to_number neg m (10 ^ Z.of_nat (String.length fp'))
        | None => nan
        end
  | _, _ => nan
  end.

(** *** [Number::toString], radix 10 *)

Definition dec_of_Z (z : Z) : string :=
  NilZero.string_of_uint (N.to_uint (Z.to_N z)).

(** For [v = num/den > 0], the [n] with [10^(n-1) <= v < 10^n]. *)
Fixpoint dec_exp_up (fuel : nat) (num den : Z) (n : Z) : Z :=
  match fuel with
  | O => n
  | S f => if num <? den then n else dec_exp_up f num (10 * den) (n + 1)
  end.

Fixpoint dec_exp_down (fuel : nat) (num den : Z) (n : Z) : Z :=
  match fuel with
  | O => n
  | S f => if den <=? 10 * num then n else dec_exp_down f (10 * num) den (n - 1)
  end.

Definition dec_exp (num den : Z) : Z :=
  if den <=? num then dec_exp_up 400 num den 0 else dec_exp_down 400 num den 0.

Definition roundtrips (x : float) (s j : Z) : bool :=
  let (a, b) := if 0 <=? j then (s * 10 ^ j, 1) else (s, 10 ^ (- j)) in
  PrimFloat.eqb (ratio_to_number false a b) x.

(** The [k]-digit decimal [s * 10^(n-k)] that converts back to [x], the one
    nearest to [v = num/den] when two do. *)
Definition shortest_at (x : float) (num den n k : Z) : option (Z * Z) :=
  let j := n - k in
  let lo := if 0 <=? j then num / (den * 10 ^ j) else (num * 10 ^ (- j)) / den in
  let hi := lo + 1 in
  let oklo := roundtrips x lo j && (10 ^ (k - 1) <=? lo) in
  let okhi := roundtrips x hi j in
  let side :=
      if 0 <=? j then 2 * num - (lo + hi) * 10 ^ j * den
      else 2 * num * 10 ^ (- j) - (lo + hi) * den in
  let pick_hi := if hi =? 10 ^ k then (10 ^ (k - 1), n + 1) else (hi, n) in
  match oklo, okhi with
  | true, true =>
      if side <? 0 then Some (lo, n)
      else if 0 <? side then Some pick_hi
      else if Z.even lo then Some (lo, n) else Some pick_hi
  | true, false => Some (lo, n)
  | false, true => Some pick_hi
  | false, false => None
  end.

Fixpoint shortest (fuel : nat) (x : float) (num den n k : Z) : Z * Z * Z :=
  match fuel with
  | O => (0, n, k)
  | S f =>
      match shortest_at x num den n k with
      | Some (s, n') => (s, n', k)
      | None => shortest f x num den n (k + 1)
      end
  end.

Fixpoint zeros (n : nat) : string :=
  match n with
  | O => EmptyString
  | S k => String "0" (zeros k)
  end.

Definition format_decimal (s n k : Z) : string :=
  let ds := dec_of_Z s in
  if (k <=? n) && (n <=? 21) then (ds ++ zeros (Z.to_nat (n - k)))%string
  else if (0 <? n) && (n <=? 21) then
    (substring 0 (Z.to_nat n) ds ++ "."
       ++ substring (Z.to_nat n) (Z.to_nat (k - n)) ds)%string
  else if (-6 <? n) && (n <=? 0) then
    ("0." ++ zeros (Z.to_nat (- n)) ++ ds)%string
  else
    let e := n - 1 in
    let sg := if e <? 0 then "-"%string else "+"%string in
    let es := (sg ++ dec_of_Z (Z.abs e))%string in
    if k =? 1 then (ds ++ "e" ++ es)%string
    else (substring 0 1 ds ++ "." ++ substring 1 (Z.to_nat (k - 1)) ds
            ++ "e" ++ es)%string.

Definition Number_toString (x : float) : string :=
  match Prim2SF x with
  | S754_nan => "NaN"
  | S754_zero _ => "0"
  | S754_infinity s => if s then "-Infinity" else "Infinity"
  | S754_finite sg m e =>
      let num := if 0 <=? e then Z.pos m * 2 ^ e else Z.pos m in
      let den := if 0 <=? e then 1 else 2 ^ (- e) in
      let n := dec_exp num den in
      let '(s, n', k) := shortest 17 (PrimFloat.abs x) num den n 1 in
      let body := format_decimal s n' k in
      if sg then String "-" body else body
  end.

End JsNumber.

Import JsNumber.

(** ** JSON values

    The record handed to [reconcileMath] is the result of [JSON.parse]: a
    JSON value.  An object is the list of its own properties in insertion
    order; a missing property reads as [undefined], modelled by [None]. *)

Inductive json : Type :=
| JNull
| JBool (b : bool)
| JNum (x : float)
| JStr (s : string)
| JArr (l : list json)
| JObj (fields : list (string * json)).

Module Obj.

(** [o[k]] on the own properties. *)
Fixpoint get (k : string) (fs : list (string * json)) : option json :=
  match fs with
  | [] => None
  | (k', v) :: r => if String.eqb k k' then Some v else get k r
  end.

(** [o[k] = v]: an existing property keeps its place, a new one goes last. *)
Fixpoint set (k : string) (v : json) (fs : list (string * json))
  : list (string * json) :=
  match fs with
  | [] => [(k, v)]
  | (k', v') :: r =>
      if String.eqb k k' then (k', v) :: r else (k', v') :: set k v r
  end.

Definition keys (fs : list (string * json)) : list string := map fst fs.

(** Whether [k] is an own property. *)
Definition has (k : string) (fs : list (string * json)) : bool :=
  match get k fs with
  | Some _ => true
  | None => false
  end.

End Obj.

(** [v.k] for a property name [k] that no prototype defines: a [TypeError] on
    [null], the own property on an object, [undefined] on anything else. *)
Definition getProp (v : json) (k : string) : result (option json) :=
  match v with
  | JNull =>
      Throw (TypeError ("Cannot read properties of null (reading '" ++ k ++ "')"))
  | JObj fs => Ok (Obj.get k fs)
  | _ => Ok None
  end.

(** What [String(v)] throws on an object that neither [toString] nor
    [valueOf] turns into a primitive. *)
Definition noPrimitive : exn :=
  TypeError "Cannot convert object to primitive value".

(** [String(v)].  An object is converted by calling its [toString]: the
    inherited one gives ["[object Object]"]; an own property [toString],
    which in a JSON value is no function, hides it, and [valueOf] (inherited,
    it returns the object itself; own, it is no function either) yields no
    primitive, so the conversion throws.  An array joins the strings of its
    elements with commas, from left to right, [null] elements giving the
    empty string. *)
Fixpoint ToString (v : json) : result string :=
  match v with
  | JNull => Ok "null"%string
  | JBool b => Ok (if b then "true" else "false")%string
  | JNum x => Ok (Number_toString x)
  | JStr s => Ok s
  | JObj fs =>
      if Obj.has "toString" fs then Throw noPrimitive
      else Ok "[object Object]"%string
  | JArr l =>
      (fix join (l : list json) : result string :=
         match l with
         | [] => Ok EmptyString
         | x :: r =>
             sx <- match x with
                   | JNull => Ok EmptyString
                   | _ => ToString x
                   end ;;
             match r with
             | [] => Ok sx
             | _ :: _ => rest <- join r ;; Ok (sx ++ "," ++ rest)%string
             end
         end) l
  end.

(** A number-or-null local as a JSON value. *)
Definition ofNum (n : option float) : json :=
  match n with
  | Some x => JNum x
  | None => JNull
  end.

(** ** [server/index.js] *)

Module Server.

Fixpoint filter_chars (keep : ascii -> bool) (s : string) : string :=
  match s with
  | EmptyString => EmptyString
  | String c r =>
      if keep c then String c (filter_chars keep r) else filter_chars keep r
  end.

(** [/[, ]+/g] : runs of commas and spaces. *)
Definition is_grouping (c : ascii) : bool :=
  Ascii.eqb c ","%char || Ascii.eqb c " "%char.

(** [/[^0-9.-]/g] : everything but digits, the dot and the minus. *)
Definition is_numeric_char (c : ascii) : bool :=
  is_digit c || Ascii.eqb c "."%char || Ascii.eqb c "-"%char.

(** [toNumber(x)]; the argument is [None] for [undefined].  It returns
    [null] or a number, or throws what [String(x)] throws. *)
Definition toNumber (x : option json) : result (option float) :=
  match x with
  | None => Ok None
  | Some JNull => Ok None
  | Some (JNum n) => Ok (if isFinite n then Some n else None)
  | Some v =>
      str <- ToString v ;;
      let s := filter_chars is_numeric_char
                 (filter_chars (fun c => negb (is_grouping c)) str) in
      Ok (match s with
          | EmptyString => None
          | _ =>
              let n := StringToNumber s in
              if isFinite n then Some n else None
          end)
  end.

(** [round2] on a number. *)
Definition round2_num (n : float) : float :=
  (Math_round ((n + EPSILON) * 100) / 100)%float.

(** [round2(n)]: [null] stays [null]. *)
Definition round2 (n : option float) : option float :=
  match n with
  | None => None
  | Some x => Some (round2_num x)
  end.

(** [approxEqual(a, b, tol)]; the default tolerance 0.05 is written out at
    the calls that leave it out. *)
Definition approxEqual (a b : option float) (tol : float) : bool :=
  match a, b with
  | Some x, Some y => (Math_abs (x - y) <=? tol)%float
  | _, _ => false
  end.

(** The body of the [line_items.map] callback after the three fields are
    read: the four repair steps on the locals [qty], [unit], [amt]. *)
Definition repairLine (qty unit amt : option float)
  : option float * option float * option float :=
  (* fill missing amount *)
  let amt :=
    match amt, qty, unit with
    | None, Some q, Some u => round2 (Some (q * u)%float)
    | _, _, _ => amt
    end in
  (* fill missing unit *)
  let unit :=
    match unit, qty, amt with
    | None, Some q, Some a =>
        if nonzero q then round2 (Some (a / q)%float) else unit
    | _, _, _ => unit
    end in
  (* fill missing qty (prefer integer) *)
  let qty :=
    match qty, unit, amt with
    | None, Some u, Some a =>
        if nonzero u then
          let q := (a / u)%float in
          let qInt := Math_round q in
          if (Math_abs (q - qInt) <? 0.02)%float then Some qInt
          else round2 (Some q)
        else qty
    | _, _, _ => qty
    end in
  (* all three known but inconsistent *)
  match qty, unit, amt with
  | Some q0, Some u, Some a =>
      let calc := round2 (Some (q0 * u)%float) in
      if negb (approxEqual calc amt 0.05) then
        let q := (a / u)%float in
        let qInt := Math_round q in
        let calc2 := round2 (Some (qInt * u)%float) in
        if (Math_abs (q - qInt) <? 0.05)%float && approxEqual calc2 amt 0.1
        then (Some qInt, unit, amt)
        else if nonzero q0 then (qty, round2 (Some (a / q0)%float), amt)
        else (qty, unit, amt)
      else (qty, unit, amt)
  | _, _, _ => (qty, unit, amt)
  end.

(** [x ?? null] on a property read. *)
Definition orNull (x : option json) : json :=
  match x with
  | None => JNull
  | Some JNull => JNull
  | Some v => v
  end.

(** The [line_items.map] callback. *)
Definition repairItem (it : json) : result json :=
  p_qty <- getProp it "qty" ;;
  qty <- toNumber p_qty ;;
  p_unit <- getProp it "unit_price" ;;
  unit <- toNumber p_unit ;;
  p_amt <- getProp it "amount" ;;
  amt <- toNumber p_amt ;;
  let '(qty, unit, amt) := repairLine qty (round2 unit) (round2 amt) in
  p_name <- getProp it "product_or_service" ;;
  p_desc <- getProp it "description" ;;
  Ok (JObj [ ("product_or_service", orNull p_name);
             ("description", orNull p_desc);
             ("qty", ofNum qty);
             ("unit_price", ofNum unit);
             ("amount", ofNum amt) ]%string).

(** The [reduce] callback of the subtotal derivation:
    [s + (toNumber(it.amount) || 0)]. *)
Definition addAmount (s : float) (it : json) : result float :=
  p_amt <- getProp it "amount" ;;
  amt <- toNumber p_amt ;;
  Ok (match amt with
      | Some a => if truthy a then (s + a)%float else (s + 0)%float
      | None => (s + 0)%float
      end).

Definition isNull (x : option json) : bool :=
  match x with
  | Some JNull => true
  | _ => false
  end.

(** The number held by a property that the code has just normalised to
    "number or null" and tested against [null]. *)
Definition numberOf (x : option json) : float :=
  match x with
  | Some (JNum n) => n
  | _ => nan
  end.

(** The four assignments that normalise the top-level numbers, in their
    order. *)
Definition normaliseTotals (fs : list (string * json))
  : result (list (string * json)) :=
  subtotal <- toNumber (Obj.get "subtotal" fs) ;;
  let fs := Obj.set "subtotal" (ofNum (round2 subtotal)) fs in
  tax_rate <- toNumber (Obj.get "tax_rate" fs) ;;
  let fs := Obj.set "tax_rate" (ofNum tax_rate) fs in
  tax_amount <- toNumber (Obj.get "tax_amount" fs) ;;
  let fs := Obj.set "tax_amount" (ofNum (round2 tax_amount)) fs in
  total <- toNumber (Obj.get "total" fs) ;;
  Ok (Obj.set "total" (ofNum (round2 total)) fs).

(** The three guarded assignments that derive the missing totals. *)
Definition deriveTotals (sumItems : float) (fs : list (string * json))
  : list (string * json) :=
  (* derive subtotal from items if missing *)
  let fs :=
    if isNull (Obj.get "subtotal" fs) && truthy sumItems
    then Obj.set "subtotal" (JNum sumItems) fs else fs in
  (* derive tax amount if missing but have subtotal + rate *)
  let fs :=
    if isNull (Obj.get "tax_amount" fs)
       && negb (isNull (Obj.get "subtotal" fs))
       && negb (isNull (Obj.get "tax_rate" fs))
    then Obj.set "tax_amount"
           (JNum (round2_num (numberOf (Obj.get "subtotal" fs)
                              * (numberOf (Obj.get "tax_rate" fs) / 100))%float)) fs
    else fs in
  (* derive total if missing *)
  if isNull (Obj.get "total" fs)
     && negb (isNull (Obj.get "subtotal" fs))
     && negb (isNull (Obj.get "tax_amount" fs))
  then Obj.set "total"
         (JNum (round2_num (numberOf (Obj.get "subtotal" fs)
                            + numberOf (Obj.get "tax_amount" fs))%float)) fs
  else fs.

(** [reconcileMath(structured)].  A falsy or non-object argument is returned
    as it is.  An array argument only gains named properties, which are no
    elements of it: the model returns the array itself. *)
Definition reconcileMath (structured : json) : result json :=
  match structured with
  | JObj fs =>
      fs <- normaliseTotals fs ;;
      let items :=
        match Obj.get "line_items" fs with
        | Some (JArr l) => l
        | _ => []
        end in
      items' <- mapM repairItem items ;;
      let fs := Obj.set "line_items" (JArr items') fs in
      sum <- foldM addAmount items' 0%float ;;
      Ok (JObj (deriveTotals (round2_num sum) fs))
  | _ => Ok structured
  end.

End Server.

(** ** The OCR front end *)

Module Frontend.

(** A JavaScript string: its UTF-16 code units. *)
Definition ustring : Type := list N.

Definition units_of_string (s : string) : ustring :=
  map N_of_ascii (list_ascii_of_string s).

(** WhiteSpace and LineTerminator code units, as [String.prototype.trim]
    removes them. *)
Definition is_white_space (c : N) : bool :=
  ((9 <=? c) && (c <=? 13) || (c =? 32) || (c =? 160) || (c =? 5760)
   || (8192 <=? c) && (c <=? 8202) || (c =? 8232) || (c =? 8233)
   || (c =? 8239) || (c =? 8287) || (c =? 12288) || (c =? 65279))%N.

Fixpoint trimStart (t : ustring) : ustring :=
  match t with
  | [] => []
  | c :: r => if is_white_space c then trimStart r else t
  end.

Definition trimEnd (t : ustring) : ustring := rev (trimStart (rev t)).

Definition trim (t : ustring) : ustring := trimEnd (trimStart t).

(** [/[A-Za-z]/], [/[0-9]/] and the replacement glyph U+FFFD. *)
Definition is_letter (c : N) : bool :=
  ((65 <=? c) && (c <=? 90) || (97 <=? c) && (c <=? 122))%N.

Definition is_digit_unit (c : N) : bool := ((48 <=? c) && (c <=? 57))%N.

Definition is_replacement (c : N) : bool := (c =? 65533)%N.

(** [(t.match(re) || []).length] for a one-character class. *)
Definition count (p : N -> bool) (t : ustring) : Z :=
  Z.of_nat (List.length (filter p t)).

(** The value of [scoreOcrText] from its four counts. *)
Definition scoreOf (letters digits bad len : Z) : float :=
  (of_int letters + of_int digits - of_int bad * 5
   + Math_min 200 (of_int len / 5))%float.

(** [scoreOcrText(text)]. *)
Definition scoreOcrText (text : ustring) : float :=
  let t := trim text in
  match t with
  | [] => 0%float
  | _ :: _ =>
      scoreOf (count is_letter t) (count is_digit_unit t)
              (count is_replacement t) (Z.of_nat (List.length t))
  end.

(** *** Bitmaps *)

(** The pixels of a canvas, as [getImageData] and [putImageData] exchange
    them: [4 * width * height] bytes, RGBA, row by row. *)
Record ImageData : Type := mkImage {
  width : nat;
  height : nat;
  data : list Z
}.

Record PreprocessConfig : Type := mkConfig {
  upscale : float;
  contrast : float;
  threshold : float;
  grayscale : bool;
  sharpen : bool;
  invert : bool
}.

(** The defaults of [preprocessCanvas]'s second parameter. *)
Definition defaultConfig : PreprocessConfig :=
  mkConfig 1.7 35 165 true true false.

(** What the browser provides: whether a 2D context can be had, and the
    smoothed resampling [drawImage(src, 0, 0, w, h)] of a canvas. *)
Record Browser : Type := mkBrowser {
  has2d : bool;
  drawImage : ImageData -> nat -> nat -> list Z
}.

(** [floor] of a number as an integer; 0 for NaN and the infinities. *)
Definition floorZ (x : float) : Z :=
  match Prim2SF x with
  | S754_finite s m e =>
      let n := if s then Z.neg m else Z.pos m in
      if 0 <=? e then n * 2 ^ e else Z.shiftr n (- e)
  | _ => 0
  end.

(** [Math.max(1, Math.floor(size * upscale))] as a canvas dimension; 0
    where it is NaN or [Infinity], which are no dimension. *)
Definition scaledSize (size : nat) (up : float) : nat :=
  let f := (of_int (Z.of_nat size) * up)%float in
  if PrimFloat.is_nan f || (f =? infinity)%float then 0%nat
  else Z.to_nat (Z.max 1 (floorZ f)).

(** One pixel of the grayscale + contrast + threshold loop. *)
Definition binarizePixel (cfg : PreprocessConfig) (r g b : Z) : Z :=
  let c := (contrast cfg / 100 + 1)%float in
  let intercept := (128 * (1 - c))%float in
  let r := of_int r in
  let g := of_int g in
  let b := of_int b in
  let gray := (0.299 * r + 0.587 * g + 0.114 * b)%float in
  let r := if grayscale cfg then gray else r in
  let g := if grayscale cfg then gray else g in
  let b := if grayscale cfg then gray else b in
  let r := (r * c + intercept)%float in
  let g := (g * c + intercept)%float in
  let b := (b * c + intercept)%float in
  let v := if (threshold cfg <=? (r + g + b) / 3)%float then 255 else 0 in
  if invert cfg then 255 - v else v.

(** The loop [for (i = 0; i < d.length; i += 4)]; the alpha byte stays.  The
    length of an [ImageData] buffer is a multiple of 4. *)
Fixpoint binarize (cfg : PreprocessConfig) (d : list Z) : list Z :=
  match d with
  | r :: g :: b :: a :: rest =>
      let v := binarizePixel cfg r g b in
      v :: v :: v :: a :: binarize cfg rest
  | _ => d
  end.

(** [idx(x, y)]. *)
Definition idx (w x y : nat) : nat := ((y * w + x) * 4)%nat.

(** A read of a byte array. *)
Definition rd (a : list Z) (i : nat) : Z := nth i a 0.

(** A write to a byte array; out of range it is ignored. *)
Fixpoint wr (a : list Z) (i : nat) (v : Z) : list Z :=
  match a, i with
  | [], _ => []
  | _ :: r, O => v :: r
  | x :: r, S j => x :: wr r j v
  end.

(** [Math.max(0, Math.min(255, v))]. *)
Definition clamp255 (v : Z) : Z := Z.max 0 (Z.min 255 v).

(** The body of the two sharpening loops at the pixel [(x, y)]. *)
Definition sharpenPixel (w : nat) (src dst : list Z) (x y : nat) : list Z :=
  let i := idx w x y in
  let dst :=
    fold_left
      (fun dst ch =>
         let v := 5 * rd src (i + ch)
                  - rd src (idx w (x - 1) y + ch)
                  - rd src (idx w (x + 1) y + ch)
                  - rd src (idx w x (y - 1) + ch)
                  - rd src (idx w x (y + 1) + ch) in
         wr dst (i + ch) (clamp255 v))
      [0; 1; 2]%nat dst in
  wr dst (i + 3) (rd src (i + 3)).

(** The sharpening step: [out] is a fresh [createImageData(w, h)], all
    zeros; the loops run over [1 <= y < h - 1] and [1 <= x < w - 1]; then
    [putImageData(out, 0, 0)] replaces the canvas. *)
Definition sharpenPass (w h : nat) (src : list Z) : list Z :=
  let out := repeat 0 (4 * w * h) in
  fold_left
    (fun dst y =>
       fold_left (fun dst x => sharpenPixel w src dst x y) (seq 1 (w - 2)) dst)
    (seq 1 (h - 2)) out.

(** What [getImageData] reads after [putImageData]: the canvas keeps its
    colours premultiplied by alpha, so a pixel of alpha 0 comes back as
    transparent black, whatever colour was put; the black and the white that
    the loops of [preprocessCanvas] write come back as they are at every
    other alpha. *)
Fixpoint readBack (d : list Z) : list Z :=
  match d with
  | r :: g :: b :: a :: rest =>
      if a =? 0 then 0 :: 0 :: 0 :: 0 :: readBack rest
      else r :: g :: b :: a :: readBack rest
  | _ => d
  end.

(** [preprocessCanvas(srcCanvas, cfg)]: the pixels of the canvas returned.
    With a width or height that is NaN or [Infinity], [drawImage] does
    nothing and [getImageData] raises; [drawImage] raises on a source canvas
    without pixels; [getImageData] raises on a width or height beyond
    2^31 - 1, the largest [long]. *)
Definition preprocessCanvas (env : Browser) (srcCanvas : ImageData)
    (cfg : PreprocessConfig) : result ImageData :=
  let w := scaledSize (width srcCanvas) (upscale cfg) in
  let h := scaledSize (height srcCanvas) (upscale cfg) in
  if negb (has2d env) then Throw (Error "Canvas 2D context not available.")
  else if ((w =? 0) || (h =? 0))%nat then
    Throw (DOMException "The source width or height is 0.")
  else if ((width srcCanvas =? 0) || (height srcCanvas =? 0))%nat then
    Throw (DOMException "The image argument is a canvas element with a width or height of 0.")
  else if (2 ^ 31 <=? Z.of_nat w) || (2 ^ 31 <=? Z.of_nat h) then
    Throw (TypeError "Value is outside the 'long' value range.")
  else
    let d := readBack (binarize cfg (drawImage env srcCanvas w h)) in
    let d := if sharpen cfg then readBack (sharpenPass w h d) else d in
    Ok (mkImage w h d).

(** The four bytes of the pixel [(x, y)]. *)
Definition pixel (img : ImageData) (x y : nat) : list Z :=
  let i := idx (width img) x y in
  [rd (data img) i; rd (data img) (i + 1); rd (data img) (i + 2);
   rd (data img) (i + 3)]%nat.

Definition onBorder (w h x y : nat) : bool :=
  ((x =? 0) || (y =? 0) || (x =? w - 1) || (y =? h - 1))%nat.

(** *** The recognition driver *)

(** The recognition engine: a pass with a page segmentation mode either
    yields text or fails. *)
Definition Engine : Type := string -> ImageData -> result ustring.

(** [canvasToOcrText(canvas, {preprocess, psmPrimary, psmFallback})]: the
    second text wins only with a strictly higher score. *)
Definition canvasToOcrText (env : Browser) (worker : Engine)
    (canvas : ImageData) (cfg : PreprocessConfig)
    (psmPrimary psmFallback : string) : result ustring :=
  cleaned <- preprocessCanvas env canvas cfg ;;
  t1 <- worker psmPrimary cleaned ;;
  t2 <- worker psmFallback cleaned ;;
  Ok (if (scoreOcrText t1 <? scoreOcrText t2)%float then t2 else t1).

(** *** The TIFF assembler *)

(** A decoded frame (an IFD after [UTIF.decodeImage]): the dimensions it
    reports ([None] for [undefined]) and what [UTIF.toRGBA8] does on it:
    it throws a message, or returns a buffer ([None] for a nullish
    return). *)
Record Ifd : Type := mkIfd {
  ifd_width : option N;
  ifd_height : option N;
  toRGBA8 : string + option (list Z)
}.

(** The UTIF module as imported: which of its functions exist. *)
Record Utif : Type := mkUtif {
  has_decode : bool;
  has_toRGBA8 : bool;
  has_decodeImages : bool;
  has_decodeImage : bool
}.

Definition dec_of_N (n : N) : string := NilZero.string_of_uint (N.to_uint n).

(** A dimension inside a template literal. *)
Definition showDim (d : option N) : string :=
  match d with
  | None => "undefined"
  | Some n => dec_of_N n
  end.

(** [!w] on a dimension. *)
Definition falsyDim (d : option N) : bool :=
  match d with
  | None => true
  | Some n => (n =? 0)%N
  end.

Definition pageBreak : ustring :=
  units_of_string (String "010" (String "010" "--- PAGE BREAK ---"
                     ++ String "010" (String "010" EmptyString))).

(** [allText.filter(Boolean).join(sep)]. *)
Fixpoint join (sep : ustring) (l : list ustring) : ustring :=
  match l with
  | [] => []
  | [t] => t
  | t :: r => t ++ sep ++ join sep r
  end.

Definition nonEmpty (t : ustring) : bool :=
  match t with
  | [] => false
  | _ :: _ => true
  end.

Definition tiffConfig : PreprocessConfig := mkConfig 1.8 40 165 true true false.

(** The body of the frame loop of [ocrTiff] for the frame of index [i]
    (0-based): the text pushed on [allText]. *)
Definition ocrTiffPage (env : Browser) (worker : Engine) (i : nat) (page : Ifd)
  : result ustring :=
  let n := dec_of_N (N.of_nat (i + 1)) in
  let w := ifd_width page in
  let h := ifd_height page in
  if falsyDim w || falsyDim h then
    Throw (Error ("TIFF page " ++ n ++ " has invalid dimensions ("
                    ++ showDim w ++ "x" ++ showDim h ++ ")."))
  else
    match toRGBA8 page with
    | inl msg => Throw (Error ("TIFF page " ++ n ++ " toRGBA8 failed: " ++ msg))
    | inr None => Throw (Error ("TIFF page " ++ n ++ " produced empty pixel data."))
    | inr (Some []) => Throw (Error ("TIFF page " ++ n ++ " produced empty pixel data."))
    | inr (Some rgba) =>
        let w := match w with Some x => N.to_nat x | None => 0%nat end in
        let h := match h with Some x => N.to_nat x | None => 0%nat end in
        if negb (has2d env) then Throw (Error "Canvas 2D context not available.")
        else if negb (List.length rgba =? 4 * w * h)%nat then
          Throw (DOMException "The input data length is not equal to (4 * width * height).")
        else
          text <- canvasToOcrText env worker (mkImage w h (map clamp255 rgba))
                    tiffConfig "6" "11" ;;
          Ok (trim text)
    end.

Fixpoint ocrTiffPages (env : Browser) (worker : Engine) (i : nat) (ifds : list Ifd)
  : result (list ustring) :=
  match ifds with
  | [] => Ok []
  | page :: rest =>
      t <- ocrTiffPage env worker i page ;;
      ts <- ocrTiffPages env worker (S i) rest ;;
      Ok (t :: ts)
  end.

(** [ocrTiff(file)]: [ifds] is what [UTIF.decode] returns for the file,
    each frame as [decodeImages] / [decodeImage] leaves it. *)
Definition ocrTiff (utif : Utif) (env : Browser) (worker : Engine)
    (ifds : list Ifd) : result ustring :=
  if negb (has_decode utif) then
    Throw (Error "UTIF.decode is not available. UTIF import failed.")
  else if negb (has_toRGBA8 utif) then
    Throw (Error "UTIF.toRGBA8 is not available. UTIF import failed.")
  else
    match ifds with
    | [] => Throw (Error "TIFF decode failed: no pages (IFDs) found.")
    | _ :: _ =>
        if negb (has_decodeImages utif) && negb (has_decodeImage utif) then
          Throw (Error "UTIF decode function not found (need decodeImages or decodeImage).")
        else
          allText <- ocrTiffPages env worker 0 ifds ;;
          Ok (join pageBreak (filter nonEmpty allText))
    end.

End Frontend.

(** ** Vocabulary of the statements *)

Import Server.

(** The array the code maps over: [line_items] when it is an array. *)
Definition itemsOf (fs : list (string * json)) : list json :=
  match Obj.get "line_items" fs with
  | Some (JArr l) => l
  | _ => []
  end.

Definition isJNull (v : json) : bool :=
  match v with
  | JNull => true
  | _ => false
  end.

(** No element of [line_items] is [null]. *)
Definition noNullItem (fs : list (string * json)) : bool :=
  forallb (fun it => negb (isJNull it)) (itemsOf fs).

(** [it.k] on an element that is not [null]. *)
Definition propOf (it : json) (k : string) : option json :=
  match it with
  | JObj gs => Obj.get k gs
  | _ => None
  end.

(** [String(v)] returns: [v] is no object with an own property
    [toString], and no array that holds such an object at any depth. *)
Fixpoint convertible (v : json) : bool :=
  match v with
  | JObj fs => negb (Obj.has "toString" fs)
  | JArr l =>
      (fix all (l : list json) : bool :=
         match l with
         | [] => true
         | x :: r => convertible x && all r
         end) l
  | _ => true
  end.

(** [toNumber(x)] returns. *)
Definition readableValue (x : option json) : bool :=
  match x with
  | Some v => convertible v
  | None => true
  end.

(** The number [toNumber(x)] returns, where it returns. *)
Definition numberIn (x : option json) : option float :=
  match toNumber x with
  | Ok n => n
  | Throw _ => None
  end.

(** [round2] after a read. *)
Definition rounded (r : result (option float)) : result (option float) :=
  n <- r ;; Ok (round2 n).

(** The three numbers of a line item can be read. *)
Definition readableItem (it : json) : bool :=
  readableValue (propOf it "qty") && readableValue (propOf it "unit_price")
  && readableValue (propOf it "amount").

(** All the numbers [reconcileMath] reads in a record can be read. *)
Definition readableRecord (fs : list (string * json)) : bool :=
  readableValue (Obj.get "subtotal" fs)
  && readableValue (Obj.get "tax_rate" fs)
  && readableValue (Obj.get "tax_amount" fs)
  && readableValue (Obj.get "total" fs)
  && forallb readableItem (itemsOf fs).

(** The three numbers of a line item after normalisation and repair. *)
Definition repairedNumbers (it : json) : option float * option float * option float :=
  repairLine (numberIn (propOf it "qty"))
             (round2 (numberIn (propOf it "unit_price")))
             (round2 (numberIn (propOf it "amount"))).

(** The object the [map] callback returns for an element that is not
    [null]. *)
Definition repairedItem (it : json) : json :=
  let '(qty, unit, amt) := repairedNumbers it in
  JObj [ ("product_or_service", orNull (propOf it "product_or_service"));
         ("description", orNull (propOf it "description"));
         ("qty", ofNum qty);
         ("unit_price", ofNum unit);
         ("amount", ofNum amt) ]%string.

(** The keys [reconcileMath] assigns. *)
Definition reconciledKeys : list string :=
  ["subtotal"; "tax_rate"; "tax_amount"; "total"; "line_items"]%string.

(** The keys of a returned line item, in order. *)
Definition itemKeys : list string :=
  ["product_or_service"; "description"; "qty"; "unit_price"; "amount"]%string.

(** What an amount contributes to the derived subtotal: itself when it is
    a finite non-zero number, 0 otherwise ([toNumber(it.amount) || 0]). *)
Definition amountOrZero (it : json) : float :=
  match it with
  | JObj gs =>
      match numberIn (Obj.get "amount" gs) with
      | Some a => if truthy a then a else 0%float
      | None => 0%float
      end
  | _ => 0%float
  end.

(** The rounded sum of the line-item amounts. *)
Definition sumItems (items : list json) : float :=
  round2_num (fold_left (fun s it => (s + amountOrZero it)%float) items 0%float).

(** The document-level derivation as the specification words it, on the
    normalised [subtotal], [taxRate], [taxAmount], [total] and the rounded
    sum of the amounts: each target is filled only while it is still null. *)
Definition deriveSubtotal (subtotal : option float) (sum : float) : option float :=
  match subtotal with
  | Some s => Some s
  | None => if truthy sum then Some sum else None
  end.

Definition deriveTaxAmount (taxAmount subtotal taxRate : option float) : option float :=
  match taxAmount, subtotal, taxRate with
  | Some t, _, _ => Some t
  | None, Some s, Some r => Some (round2_num (s * (r / 100))%float)
  | None, _, _ => None
  end.

Definition deriveTotal (total subtotal taxAmount : option float) : option float :=
  match total, subtotal, taxAmount with
  | Some t, _, _ => Some t
  | None, Some s, Some t => Some (round2_num (s + t)%float)
  | None, _, _ => None
  end.

(** The fields of the record [reconcileMath] returns for the object with
    the fields [fs], when it returns, step by step as the code assigns
    them. *)
Definition reconciled (fs : list (string * json)) : list (string * json) :=
  let s0 := round2 (numberIn (Obj.get "subtotal" fs)) in
  let r0 := numberIn (Obj.get "tax_rate" fs) in
  let t0 := round2 (numberIn (Obj.get "tax_amount" fs)) in
  let tot0 := round2 (numberIn (Obj.get "total" fs)) in
  let items' := map repairedItem (itemsOf fs) in
  let s1 := deriveSubtotal s0 (sumItems items') in
  let t1 := deriveTaxAmount t0 s1 r0 in
  let tot1 := deriveTotal tot0 s1 t1 in
  Obj.set "total" (ofNum tot1)
    (Obj.set "tax_amount" (ofNum t1)
       (Obj.set "subtotal" (ofNum s1)
          (Obj.set "line_items" (JArr items')
             (Obj.set "total" (ofNum tot0)
                (Obj.set "tax_amount" (ofNum t0)
                   (Obj.set "tax_rate" (ofNum r0)
                      (Obj.set "subtotal" (ofNum s0) fs))))))).

(** The quantity the code derives from [amount / unitPrice]. *)
Definition snapQty (tol : float) (a u : float) : float :=
  let q := (a / u)%float in
  let qInt := Math_round q in
  if (Math_abs (q - qInt) <? tol)%float then qInt else round2_num q.

(** The inconsistency repair adopts the integer quantity [qInt]. *)
Definition retryAdopts (qty u a : float) : bool :=
  let q := (a / u)%float in
  let qInt := Math_round q in
  negb (approxEqual (round2 (Some (qty * u)%float)) (Some a) 0.05)
  && (Math_abs (q - qInt) <? 0.05)%float
  && approxEqual (round2 (Some (qInt * u)%float)) (Some a) 0.1.

(** A money field of a returned record that a second pass reads back as it
    is: null, or a finite number that [round2] leaves alone. *)
Definition stableMoney (v : option json) : Prop :=
  v = Some JNull \/
  exists x, v = Some (JNum x) /\ isFinite x = true /\ round2_num x = x.

Definition finiteOrNull (v : option json) : Prop :=
  v = Some JNull \/ exists x, v = Some (JNum x) /\ isFinite x = true.

(** A returned line item whose quantity is null or finite and whose unit
    price and amount are null or finite and at two decimals. *)
Definition normalItem (it : json) : Prop :=
  exists gs, it = JObj gs /\
    finiteOrNull (Obj.get "qty" gs) /\
    stableMoney (Obj.get "unit_price" gs) /\
    stableMoney (Obj.get "amount" gs).

(** A returned record whose numbers a second pass reads back as they
    are. *)
Definition normalised (y : json) : Prop :=
  match y with
  | JObj fs =>
      stableMoney (Obj.get "subtotal" fs) /\
      finiteOrNull (Obj.get "tax_rate" fs) /\
      stableMoney (Obj.get "tax_amount" fs) /\
      stableMoney (Obj.get "total" fs) /\
      Forall normalItem (itemsOf fs)
  | _ => True
  end.

(** The inconsistency repair would not change the quantity of the line
    item: where quantity, unit price and amount are all known and the repair
    adopts the integer nearest to [amount / unitPrice], that integer is the
    quantity the item has. *)
Definition keepsQty (it : json) : Prop :=
  forall q u a,
    propOf it "qty" = Some (JNum q) ->
    propOf it "unit_price" = Some (JNum u) ->
    propOf it "amount" = Some (JNum a) ->
    retryAdopts q u a = true -> Math_round (a / u)%float = q.

(** No line item of the record would have its quantity changed. *)
Definition keepsQuantities (y : json) : Prop :=
  match y with
  | JObj fs => Forall keepsQty (itemsOf fs)
  | _ => True
  end.

(** A frame that reports a zero or missing width or height, or whose
    pixel buffer is missing or empty. *)
Definition malformedFrame (p : Frontend.Ifd) : bool :=
  Frontend.falsyDim (Frontend.ifd_width p)
  || Frontend.falsyDim (Frontend.ifd_height p)
  || match Frontend.toRGBA8 p with
     | inr None => true
     | inr (Some []) => true
     | _ => false
     end.

(** The UTIF functions [ocrTiff] needs are there. *)
Definition usableUtif (u : Frontend.Utif) : bool :=
  Frontend.has_decode u && Frontend.has_toRGBA8 u
  && (Frontend.has_decodeImages u || Frontend.has_decodeImage u).

(** *** Exact values of numbers

    Every finite binary64 number is a whole number of units of 2^-1074; the
    statements about rounding count in them. *)

(** The value of the finite number [(-1)^s * m * 2^e] in units of [2^B],
    for [B] at most [e]; an infinity and NaN count 0. *)
Definition Zv (B : Z) (f : spec_float) : Z :=
  match f with
  | S754_finite s m e => cond_Zopp s (Z.pos m * 2 ^ (e - B))
  | _ => 0
  end.

(** A zero, or a normal number below the top binade: the numbers the
    rounding lemmas speak about. *)
Definition nice (f : spec_float) : bool :=
  match f with
  | S754_zero _ => true
  | S754_finite _ m e =>
      (Z.pos (digits2_pos m) =? prec) && (emin <=? e) && (e <=? emax - prec - 1)
  | _ => false
  end.

(** The number [(-1)^s * m * 2^e] with its mantissa aligned on 53 bits. *)
Definition canon (s : bool) (m : positive) (e : Z) : spec_float :=
  let (mz, ez) := shl_align m e (fexp prec emax (Z.pos (digits2_pos m) + e)) in
  S754_finite s mz ez.

Definition canonZ (M e : Z) : spec_float :=
  match M with
  | Z0 => S754_zero false
  | Zpos m => canon false m e
  | Zneg m => canon true m e
  end.

(** The exact value of a number, in units of 2^-1074. *)
Definition fv (x : float) : Z := Zv emin (Prim2SF x).

Definition fnice (x : float) : bool := nice (Prim2SF x).

(** An integer mantissa and an exponent that [canonZ] aligns. *)
Definition repr (M e : Z) : Prop := Z.abs M < 2 ^ prec /\ -1022 <= e <= 970.

(** 1 and 1/2 in units of 2^-1074. *)
Definition unitOne : Z := 2 ^ (- emin).

Definition unitHalf : Z := 2 ^ (-1 - emin).

(** *** Characters of a scored text *)

(** A plain alphanumeric character: [A-Za-z0-9]. *)
Definition alphanumeric (c : N) : bool :=
  Frontend.is_letter c || Frontend.is_digit_unit c.

(** A character [scoreOcrText] does not count and [trim] does not remove. *)
Definition ordinary (c : N) : bool :=
  negb (Frontend.is_white_space c) && negb (Frontend.is_letter c)
  && negb (Frontend.is_digit_unit c) && negb (Frontend.is_replacement c).

(** U+FFFD. *)
Definition replacementGlyph : N := 65533%N.

(** ** Sample inputs *)

(** An invoice with a vendor, notes and a line item that carries an extra
    key. *)
Definition sampleInvoice : list (string * json) :=
  [ ("doc_type", JStr "invoice");
    ("vendor_or_sender", JStr "ACME");
    ("line_items",
      JArr [ JObj [ ("sku", JStr "X-1"); ("qty", JNum 2);
                    ("unit_price", JStr "$1,250.50"); ("amount", JNull) ] ]);
    ("notes", JStr "net 30") ]%string.

(** The specification's tax and total chain. *)
Definition taxChain : list (string * json) :=
  [ ("subtotal", JNum 100); ("tax_rate", JNum 13);
    ("tax_amount", JNull); ("total", JNull) ]%string.

(** A record whose derived subtotal, tax amount and total all need the
    rounding: the amounts add up to 10.010000000000002. *)
Definition roundingChain : list (string * json) :=
  [ ("tax_rate", JNum 13);
    ("line_items",
      JArr [ JObj [ ("amount", JNum 0.1) ]; JObj [ ("amount", JNum 0.2) ];
             JObj [ ("amount", JStr "9.71") ] ]) ]%string.

(** A line item whose descriptive fields are an empty string and absent. *)
Definition blankItem : json :=
  JObj [ ("description", JStr ""); ("qty", JNum 1);
         ("unit_price", JNum 2); ("amount", JNum 2) ]%string.

(** A record whose [line_items] hold a [null]. *)
Definition nullItemRecord : json :=
  JObj [ ("line_items", JArr [JNull]) ]%string.

(** A line item with the fields [qty], [unit_price], [amount]. *)
Definition lineItem (qty unit amt : json) : json :=
  JObj [ ("qty", qty); ("unit_price", unit); ("amount", amt) ]%string.

(** A returned line item without descriptive fields. *)
Definition returnedItem (qty unit amt : json) : json :=
  JObj [ ("product_or_service", JNull); ("description", JNull);
         ("qty", qty); ("unit_price", unit); ("amount", amt) ]%string.

(** Three line items that stay outside the tolerance 0.05, or came from
    the integer repair, and that a second pass returns as they are. *)
Definition unevenInvoice : json :=
  JObj [ ("line_items",
           JArr [ lineItem (JNum 20) (JNum 3) (JNum 10.1);
                  lineItem (JNum 24) (JNum 3) (JNum 100);
                  lineItem (JNum 5) (JNum 10) (JNum 20.08) ]) ]%string.

(** A record whose only line item is wrong twice: 1000 x 3 against 14. *)
Definition oscillating : json :=
  JObj [ ("line_items", JArr [ lineItem (JNum 1000) (JNum 3) (JNum 14) ]) ]%string.

(** What [reconcileMath] returns for a record that has [line_items] only,
    and is left with these items, this subtotal and no tax. *)
Definition returnedRecord (items : list json) (subtotal : json) : json :=
  JObj [ ("line_items", JArr items); ("subtotal", subtotal);
         ("tax_rate", JNull); ("tax_amount", JNull); ("total", JNull) ]%string.

(** The quantity [reconcileMath] returns for a line item without
    quantity, with unit price [u] and amount [a] after normalisation: the
    snapped or rounded quotient, which the inconsistency repair replaces by
    the nearest integer when it adopts it. *)
Definition filledQty (a u : float) : float :=
  let qty := snapQty 0.02 a u in
  if retryAdopts qty u a then Math_round (a / u)%float else qty.

(** The specification's example, and the item at the boundary of the
    snapping tolerance. *)
Definition snapExample : json := lineItem JNull (JNum 5) (JNum 15.02).

Definition boundaryItem : json := lineItem JNull (JNum 1) (JNum 0.02).

(** A line item whose quotient is 1/32 away from an integer and whose
    amount is so large that products lose the cents. *)
Definition hugeItemAmount : float := 281474976710682.56%float.

(** A browser that draws a canvas at its own size by copying it. *)
Definition copyBrowser : Frontend.Browser :=
  Frontend.mkBrowser true (fun src _ _ => Frontend.data src).

(** A 3 x 3 bitmap, white and opaque. *)
Definition whiteSquare : Frontend.ImageData :=
  Frontend.mkImage 3 3 (repeat 255 36).

(** The default configuration without upscaling. *)
Definition noUpscale : Frontend.PreprocessConfig :=
  Frontend.mkConfig 1 35 165 true true false.

(** A UTIF module with all its functions, an engine that reads "A" on
    every page, a one-pixel frame and a frame that reports width 0. *)
Definition fullUtif : Frontend.Utif := Frontend.mkUtif true true true true.

Definition constantEngine : Frontend.Engine :=
  fun _ _ => Ok (Frontend.units_of_string "A").

Definition onePixelFrame : Frontend.Ifd :=
  Frontend.mkIfd (Some 1%N) (Some 1%N) (inr (Some [255; 255; 255; 255])).

Definition zeroWidthFrame : Frontend.Ifd :=
  Frontend.mkIfd (Some 0%N) (Some 5%N) (inr (Some [])).

(** An engine whose recognition fails, and a browser without a 2D
    context. *)
Definition failingEngine : Frontend.Engine :=
  fun _ _ => Throw (Error "Worker terminated.").

Definition noContextBrowser : Frontend.Browser :=
  Frontend.mkBrowser false (fun src _ _ => Frontend.data src).

(** The letter [a] and 34 number signs. *)
Definition smudged : Frontend.ustring := 97%N :: repeat 35%N 34.

(** ** Further vocabulary *)

(** The numbers of a line item as the [map] callback reads them. *)
Definition readQty (it : json) : result (option float) :=
  toNumber (propOf it "qty").

Definition readUnit (it : json) : result (option float) :=
  rounded (toNumber (propOf it "unit_price")).

Definition readAmount (it : json) : result (option float) :=
  rounded (toNumber (propOf it "amount")).

(** How many of three numbers are known. *)
Definition known (x : option float) : nat :=
  match x with
  | Some _ => 1%nat
  | None => 0%nat
  end.

(** The error of reading [qty] of [null]. *)
Definition nullItemError : exn :=
  TypeError "Cannot read properties of null (reading 'qty')".

(** A two-level pixel buffer: in every whole pixel the three colour bytes
    are equal and are 0 or 255. *)
Definition twoLevel (d : list Z) : Prop :=
  forall p, (4 * p + 3 < List.length d)%nat ->
    (Frontend.rd d (4 * p) = 0 \/ Frontend.rd d (4 * p) = 255) /\
    Frontend.rd d (4 * p + 1) = Frontend.rd d (4 * p) /\
    Frontend.rd d (4 * p + 2) = Frontend.rd d (4 * p).

(** The same configuration with the sharpening step switched off. *)
Definition withoutSharpen (cfg : Frontend.PreprocessConfig)
  : Frontend.PreprocessConfig :=
  Frontend.mkConfig (Frontend.upscale cfg) (Frontend.contrast cfg)
    (Frontend.threshold cfg) (Frontend.grayscale cfg) false (Frontend.invert cfg).

(** A 3 x 3 bitmap: a black cross on white, opaque. *)
Definition crossBitmap : Frontend.ImageData :=
  Frontend.mkImage 3 3
    [ 255; 255; 255; 255;   0;   0;   0; 255; 255; 255; 255; 255;
        0;   0;   0; 255;   0;   0;   0; 255;   0;   0;   0; 255;
      255; 255; 255; 255;   0;   0;   0; 255; 255; 255; 255; 255 ].

(** What [preprocessCanvas] returns for it without upscaling: the centre,
    inside a blanked border. *)
Definition crossSharpened : Frontend.ImageData :=
  Frontend.mkImage 3 3 (repeat 0 16 ++ [0; 0; 0; 255] ++ repeat 0 16).

(** A text that does not start with white space. *)
Definition headOk (t : Frontend.ustring) : bool :=
  match t with
  | [] => true
  | a :: _ => negb (Frontend.is_white_space a)
  end.

(** A text of 1200 letters [a]. *)
Definition longText : Frontend.ustring := repeat 97%N 1200.

(** ** The file router of the OCR library and the upload filter *)

Module Router.

Import Frontend.

(** What [ocrAny] and [addFiles] read of a [File]: its MIME type and its
    name, as strings of code units. *)
Record File : Type := mkFile {
  file_type : ustring;
  file_name : ustring
}.

(** [a === b] on strings. *)
Fixpoint ustring_eqb (a b : ustring) : bool :=
  match a, b with
  | [], [] => true
  | x :: a', y :: b' => (x =? y)%N && ustring_eqb a' b'
  | _, _ => false
  end.

(** [String.prototype.toLowerCase] on one code unit below 128: the letters
    [A-Z] go to [a-z]. *)
Definition lowerUnit (c : N) : N :=
  if ((65 <=? c) && (c <=? 90))%N then (c + 32)%N else c.

(** [s.toLowerCase()] for a string of code units below 128.  (The case
    mapping of the other code units is not modelled: the statements about
    [toLowerCase] assume [isAscii].) *)
Definition toLowerCase (s : ustring) : ustring := map lowerUnit s.

Definition isAscii (s : ustring) : bool := forallb (fun c => (c <? 128)%N) s.

(** [s.endsWith(suffix)]. *)
Definition endsWith (s suffix : ustring) : bool :=
  let n := List.length s in
  let m := List.length suffix in
  (m <=? n)%nat && ustring_eqb (skipn (n - m) s) suffix.

(** The three handlers [ocrAny] chooses from. *)
Inductive Route : Type := ToPdf | ToTiff | ToImage.

(** The tests of [ocrAny], in their order. *)
Definition route (file : File) : Route :=
  let t := file_type file in
  if ustring_eqb t (units_of_string "application/pdf") then ToPdf
  else if ustring_eqb t (units_of_string "image/tiff")
          || ustring_eqb t (units_of_string "image/tif")
          || endsWith (toLowerCase (file_name file)) (units_of_string ".tif")
          || endsWith (toLowerCase (file_name file)) (units_of_string ".tiff")
  then ToTiff
  else ToImage.

(** [ocrAny(file, onProgress)], over the three functions it calls. *)
Definition ocrAny {A : Type} (ocrPdf ocrTiff ocrImage : File -> A) (file : File) : A :=
  match route file with
  | ToPdf => ocrPdf file
  | ToTiff => ocrTiff file
  | ToImage => ocrImage file
  end.

(** [ALLOWED] of [App.jsx]. *)
Definition ALLOWED : list ustring :=
  map units_of_string
    ["application/pdf"; "image/tiff"; "image/png"; "image/jpeg"; "image/jpg"]%string.

(** One character of a pattern under the flag [i]: the letter [lower] or
    its capital. *)
Definition letterCI (lower c : N) : bool := ((c =? lower) || (c =? lower - 32))%N.

(** [\.tif{1,2}$] tried at the start of [s]: a dot, [t], [i], one or two
    [f], then the end of the string. *)
Definition tifAtEnd (s : ustring) : bool :=
  match s with
  | [d; t; i; f] =>
      (d =? 46)%N && letterCI 116 t && letterCI 105 i && letterCI 102 f
  | [d; t; i; f; f'] =>
      (d =? 46)%N && letterCI 116 t && letterCI 105 i && letterCI 102 f
      && letterCI 102 f'
  | _ => false
  end.

(** [/\.tif{1,2}$/i.test(name)]: the pattern is tried at every position,
    from the left. *)
Fixpoint tifTest (name : ustring) : bool :=
  match name with
  | [] => false
  | _ :: r => tifAtEnd name || tifTest r
  end.

(** The callback of [files.filter] in [addFiles]. *)
Definition accepted (f : File) : bool :=
  existsb (ustring_eqb (file_type f)) ALLOWED || tifTest (file_name f).

End Router.

(** A scan named in capitals, and a scan that the browser reports as PNG. *)
Definition scanName : Frontend.ustring := Frontend.units_of_string "Scan 01.TIFF".
Definition misnamedScan : Router.File :=
  Router.mkFile (Frontend.units_of_string "image/png") (Frontend.units_of_string "page.Tif").

(** ** The shared Tesseract worker *)

Module WorkerCache.

Section Cache.

(** A Tesseract worker; [create k] is how the [k]-th run of the creating
    function ends ([createWorker] followed by [setParameters]), and
    [terminate] how [worker.terminate()] ends. *)
Variable Worker : Type.
Variable create : nat -> result Worker.
Variable terminate : Worker -> result unit.

(** The module variable [workerPromise] ([None] is [null]; a promise is kept
    as what it settles to), and how many times a worker has been asked for
    from Tesseract. *)
Record State : Type := mkState {
  workerPromise : option (result Worker);
  created : nat
}.

Definition getWorker (st : State) : result Worker * State :=
  match workerPromise st with
  | Some p => (p, st)
  | None =>
      let p := create (created st) in
      (p, mkState (Some p) (S (created st)))
  end.

Definition terminateOcrWorker (st : State) : result unit * State :=
  match workerPromise st with
  | None => (Ok tt, st)
  | Some (Throw e) => (Throw e, st)
  | Some (Ok worker) =>
      match terminate worker with
      | Throw e => (Throw e, st)
      | Ok _ => (Ok tt, mkState None (created st))
      end
  end.

(** Calls that do not overlap, and what each one settles to. *)
Inductive Call : Type := Get | Terminate.

Inductive Outcome : Type :=
| Got (w : Worker)
| Done
| Failed (e : exn).

Definition call (c : Call) (st : State) : Outcome * State :=
  match c with
  | Get =>
      let '(r, st') := getWorker st in
      (match r with Ok w => Got w | Throw e => Failed e end, st')
  | Terminate =>
      let '(r, st') := terminateOcrWorker st in
      (match r with Ok _ => Done | Throw e => Failed e end, st')
  end.

Fixpoint calls (cs : list Call) (st : State) : list Outcome * State :=
  match cs with
  | [] => ([], st)
  | c :: r =>
      let '(o, st1) := call c st in
      let '(os, st2) := calls r st1 in
      (o :: os, st2)
  end.

Definition isTerminate (c : Call) : bool :=
  match c with Terminate => true | Get => false end.

(** How many workers a first call of [getWorker] would create. *)
Definition missing (st : State) : nat :=
  match workerPromise st with Some _ => 0 | None => 1 end.

End Cache.

Arguments mkState {Worker} _ _.
Arguments workerPromise {Worker} _.
Arguments created {Worker} _.
Arguments Got {Worker} _.
Arguments Done {Worker}.
Arguments Failed {Worker} _.

End WorkerCache.

(** A Tesseract that cannot start the first time and would start the second
    time. *)
Definition flakyStart (k : nat) : result nat :=
  match k with
  | O => Throw (Error "NetworkError: failed to load eng.traineddata")
  | S _ => Ok k
  end.

(** ** The PDF assembler *)

Module Pdf.

Import Frontend.

(** A page of the document as [pdf.js] serves it: [getPage] rejects, or
    the page is there and [canvas] is what [page.render] settles to, the
    canvas of [floor(viewport.width)] by [floor(viewport.height)] pixels at
    scale 3 once the page is painted on it. *)
Inductive Page : Type :=
| NoPage (e : exn)
| Rendered (canvas : result ImageData).

Definition pdfConfig : PreprocessConfig := mkConfig 1.6 35 165 true true false.

(** The body of the page loop of [ocrPdf]: the text pushed on [allText].
    A canvas with a zero dimension cannot be drawn from: [drawImage] in
    [preprocessCanvas] raises on it. *)
Definition ocrPdfPage (env : Browser) (worker : Engine) (page : Page)
  : result ustring :=
  match page with
  | NoPage e => Throw e
  | Rendered rendered =>
      if negb (has2d env) then Throw (Error "Canvas 2D context not available.")
      else
        canvas <- rendered ;;
        if ((width canvas =? 0) || (height canvas =? 0))%nat then
          Throw (DOMException "The image argument is a canvas element with a width or height of 0.")
        else
          text <- canvasToOcrText env worker canvas pdfConfig "6" "11" ;;
          Ok (trim text)
  end.

(** [ocrPdf(file)]: [pdf] is what [getDocument] settles to for the file,
    as the list of its pages [1 .. numPages]. *)
Definition ocrPdf (env : Browser) (worker : Engine) (pdf : result (list Page))
  : result ustring :=
  pages <- pdf ;;
  allText <- mapM (ocrPdfPage env worker) pages ;;
  Ok (join pageBreak (filter nonEmpty allText)).

End Pdf.

(** A page painted white, and a page that [pdf.js] cannot paint. *)
Definition whitePage : Pdf.Page := Pdf.Rendered (Ok whiteSquare).
Definition brokenPage : Pdf.Page :=
  Pdf.Rendered (Throw (Error "Invalid page content stream.")).

(** ** The [/api/structure] handler and the origin check *)

Module Api.

Import Frontend.

(** [allowedOrigins]. *)
Definition allowedOrigins : list string :=
  ["http://localhost:5173"; "http://127.0.0.1:5173"; "https://ocrv-3nl6.vercel.app"]%string.

(** [s.endsWith(suffix)] on strings. *)
Definition endsWith (s suffix : string) : bool :=
  let n := String.length s in
  let m := String.length suffix in
  (m <=? n)%nat && String.eqb (substring (n - m) m s) suffix.

(** [isAllowedOrigin(origin)]; [None] is a request without an [Origin]
    header. *)
Definition isAllowedOrigin (origin : option string) : bool :=
  match origin with
  | None => true
  | Some EmptyString => true
  | Some o =>
      if existsb (String.eqb o) allowedOrigins then true
      else if endsWith o ".vercel.app" then true
      else false
  end.

(** The [origin] callback handed to [cors]: what it passes to [cb]. *)
Definition corsOrigin (origin : option string) : result bool :=
  if isAllowedOrigin origin then Ok true
  else
    Throw (Error ("CORS blocked: "
                    ++ match origin with Some o => o | None => "undefined" end)).

(** What the handler answers: a status and a JSON body. *)
Record Response : Type := mkResponse {
  status : nat;
  payload : json
}.

Definition errorBody (msg : string) : json := JObj [("error"%string, JStr msg)].

(** A property read by the destructuring [const { text, fileName } =
    req.body]; [None] is an [undefined] body. *)
Definition destructure (body : option json) (k : string) : result (option json) :=
  match body with
  | None =>
      Throw (TypeError ("Cannot destructure property '" ++ k
                          ++ "' of 'req.body' as it is undefined."))
  | Some JNull =>
      Throw (TypeError ("Cannot destructure property '" ++ k
                          ++ "' of 'req.body' as it is null."))
  | Some (JObj fs) => Ok (Obj.get k fs)
  | Some _ => Ok None
  end.

Definition noTrim : exn := TypeError "text.trim is not a function".

(** The test [!text || !text.trim()]: [Ok None] when it holds, the text
    when it does not; a truthy [text] that is not a string has no [trim]. *)
Definition usableText (text : option json) : result (option string) :=
  match text with
  | None => Ok None
  | Some JNull => Ok None
  | Some (JBool b) => if b then Throw noTrim else Ok None
  | Some (JNum x) => if truthy x then Throw noTrim else Ok None
  | Some (JStr s) =>
      match trim (units_of_string s) with
      | [] => Ok None
      | _ :: _ => Ok (Some s)
      end
  | Some (JArr _) => Throw noTrim
  | Some (JObj _) => Throw noTrim
  end.

(** [fileName || "unknown"] inside the template literal of the prompt:
    a truthy file name is converted by [String]. *)
Definition fileLabel (fileName : option json) : result string :=
  match fileName with
  | None => Ok "unknown"%string
  | Some JNull => Ok "unknown"%string
  | Some (JBool false) => Ok "unknown"%string
  | Some (JNum x) => if truthy x then ToString (JNum x) else Ok "unknown"%string
  | Some (JStr EmptyString) => Ok "unknown"%string
  | Some v => ToString v
  end.

(** [content || "{}"]. *)
Definition rawReply (content : option string) : string :=
  match content with
  | None => "{}"
  | Some EmptyString => "{}"
  | Some s => s
  end.

Section Handler.

(** Whether [GROQ_API_KEY] is set; what the completion request settles to
    for the prompt built from [fileName] and [text] (the [content] of the
    first choice, [None] when there is none); and [JSON.parse].  The prompt
    is built before the key is looked at. *)
Variable hasKey : bool.
Variable groq : option json -> string -> result (option string).
Variable parse : string -> result json.

(** The body of the [try] block. *)
Definition attempt (body : option json) : result Response :=
  text <- destructure body "text" ;;
  fileName <- destructure body "fileName" ;;
  usable <- usableText text ;;
  match usable with
  | None => Ok (mkResponse 400 (errorBody "No OCR text provided."))
  | Some s =>
      label <- fileLabel fileName ;;
      if negb hasKey then
        Ok (mkResponse 500 (errorBody "Missing GROQ_API_KEY in env."))
      else
        content <- groq fileName s ;;
        parsed <- parse (rawReply content) ;;
        reconciled <- reconcileMath parsed ;;
        Ok (mkResponse 200 (JObj [("structured"%string, reconciled)]))
  end.

(** The handler of [POST /api/structure]. *)
Definition structureHandler (body : option json) : Response :=
  match attempt body with
  | Ok r => r
  | Throw _ => mkResponse 500 (errorBody "Failed to structure OCR output.")
  end.

End Handler.

End Api.

(** ** The OCR queue of the application *)

Module App.

Import Frontend.

Inductive Status : Type := pending | ocr_done | struct_done | error.

Inductive Tab : Type := tab_ocr | tab_structured | tab_json.

Section Queue.

(** The files, and what [ocrAny] settles to on each. *)
Variable File : Type.
Variable ocrAny : File -> result ustring.

Record Item : Type := mkItem {
  id : string;
  file : File;
  status : Status;
  ocrText : ustring;
  structured : option json;
  err : option string
}.

(** The state of [App] that [runOcr] reads and sets. *)
Record State : Type := mkApp {
  items : list Item;
  busy : bool;
  activeId : option string;
  tab : Tab
}.

Definition isPending (x : Item) : bool :=
  match status x with
  | pending => true
  | _ => false
  end.

(** [!activeId]. *)
Definition unset (a : option string) : bool :=
  match a with
  | None => true
  | Some s => String.eqb s EmptyString
  end.

(** [e?.message || "OCR failed."]. *)
Definition errText (e : exn) : string :=
  match e with
  | TypeError EmptyString | Error EmptyString | DOMException EmptyString => "OCR failed."
  | TypeError m | Error m | DOMException m => m
  end.

(** The two updaters handed to [setItems]. *)
Definition setText (i : string) (text : ustring) (x : Item) : Item :=
  if String.eqb (id x) i
  then mkItem (id x) (file x) ocr_done text (structured x) (err x)
  else x.

Definition setError (i : string) (msg : string) (x : Item) : Item :=
  if String.eqb (id x) i
  then mkItem (id x) (file x) error (ocrText x) (structured x) (Some msg)
  else x.

(** One turn of the loop over the items.  [captured] is the [activeId] of
    the render that created [runOcr]: the loop keeps reading that one. *)
Definition turn (captured : option string) (st : State) (it : Item) : State :=
  if negb (isPending it) then st
  else
    match ocrAny (file it) with
    | Ok text =>
        mkApp (map (setText (id it) text) (items st)) (busy st)
              (if unset captured then Some (id it) else activeId st)
              tab_ocr
    | Throw e =>
        mkApp (map (setError (id it) (errText e)) (items st)) (busy st)
              (activeId st) (tab st)
    end.

(** [runOcr()], with nothing else touching the state while it runs. *)
Definition runOcr (st : State) : State :=
  if negb (existsb isPending (items st)) then st
  else
    let st' :=
      fold_left (turn (activeId st)) (items st)
        (mkApp (items st) true (activeId st) (tab st)) in
    mkApp (items st') false (activeId st') (tab st').

(** An item once its file has been through [ocrAny]. *)
Definition afterOcr (x : Item) : Item :=
  if isPending x then
    match ocrAny (file x) with
    | Ok text => mkItem (id x) (file x) ocr_done text (structured x) (err x)
    | Throw e => mkItem (id x) (file x) error (ocrText x) (structured x) (Some (errText e))
    end
  else x.

(** The pending items that [ocrAny] reads. *)
Definition readable (x : Item) : bool :=
  isPending x && match ocrAny (file x) with Ok _ => true | Throw _ => false end.

End Queue.

Arguments mkItem {File} _ _ _ _ _ _.
Arguments mkApp {File} _ _ _ _.
Arguments id {File} _.
Arguments file {File} _.
Arguments status {File} _.
Arguments ocrText {File} _.
Arguments structured {File} _.
Arguments err {File} _.
Arguments items {File} _.
Arguments busy {File} _.
Arguments activeId {File} _.
Arguments tab {File} _.
Arguments isPending {File} _.
Arguments setText {File} _ _ _.
Arguments setError {File} _ _ _.

End App.

(** A request with a text, a model that answers with a record holding a
    [null] line item, and a parser that knows that one reply. *)
Definition receiptRequest : option json :=
  Some (JObj [("fileName"%string, JStr "till.png"); ("text"%string, JStr "MILK 2 x 1.50")]).

Definition nullItemReply : string :=
  ("{" ++ String "034" "line_items" ++ String "034" ": [null]}")%string.

Definition sampleGroq : option json -> string -> result (option string) :=
  fun _ _ => Ok (Some nullItemReply).

Definition sampleParse : string -> result json :=
  fun s => if String.eqb s nullItemReply then Ok nullItemRecord
           else Throw (Error "Unexpected token").

(** A queue of three files, the second of which cannot be read, with no
    file selected. *)
Definition sampleOcr (f : nat) : result Frontend.ustring :=
  match f with
  | 1%nat => Throw (Error "")
  | _ => Ok (Frontend.units_of_string "TOTAL 3.00")
  end.

Definition sampleQueue : App.State nat :=
  App.mkApp
    [App.mkItem "a" 0%nat App.pending [] None None;
     App.mkItem "b" 1%nat App.pending [] None None;
     App.mkItem "c" 2%nat App.pending [] None None]
    false None App.tab_structured.

(* ================================================================== *)
(** * Part II - properties                                              *)
(* ================================================================== *)

(** ** Objects *)

Lemma get_set_same : forall k v fs, Obj.get k (Obj.set k v fs) = Some v.
Proof.
  induction fs as [|[k' v'] r IH]; simpl.
  - now rewrite String.eqb_refl.
  - destruct (String.eqb k k') eqn:E; simpl; rewrite E; auto.
Qed.

Lemma get_set_other : forall k k' v fs,
  String.eqb k k' = false -> Obj.get k (Obj.set k' v fs) = Obj.get k fs.
Proof.
  intros k k' v fs Hne.
  induction fs as [|[k0 v0] r IH]; simpl.
  - now rewrite Hne.
  - destruct (String.eqb k' k0) eqn:E; simpl.
    + apply String.eqb_eq in E. subst k0. now rewrite Hne.
    + destruct (String.eqb k k0); auto.
Qed.

Lemma set_get_id : forall k v fs, Obj.get k fs = Some v -> Obj.set k v fs = fs.
Proof.
  induction fs as [|[k' v'] r IH]; simpl; intros H.
  - discriminate.
  - destruct (String.eqb k k') eqn:E.
    + now inversion H.
    + now rewrite IH.
Qed.

Lemma set_set_same : forall k v v' fs,
  Obj.set k v (Obj.set k v' fs) = Obj.set k v fs.
Proof.
  induction fs as [|[k0 v0] r IH]; simpl.
  - now rewrite String.eqb_refl.
  - destruct (String.eqb k k0) eqn:E; simpl; rewrite E; auto.
    now rewrite IH.
Qed.

(** ** The error monad *)

Lemma mapM_ok_length : forall (A B : Type) (f : A -> result B) l l',
  mapM f l = Ok l' -> List.length l' = List.length l.
Proof.
  induction l as [|a r IH]; simpl; intros l' H.
  - now inversion H.
  - destruct (f a); simpl in H; try discriminate.
    destruct (mapM f r); simpl in H; try discriminate.
    inversion H; subst; simpl. now rewrite (IH _ eq_refl).
Qed.

Lemma mapM_ok_Forall2 : forall (A B : Type) (f : A -> result B) l l',
  mapM f l = Ok l' -> Forall2 (fun a b => f a = Ok b) l l'.
Proof.
  induction l as [|a r IH]; simpl; intros l' H.
  - inversion H. constructor.
  - destruct (f a) eqn:Ea; simpl in H; try discriminate.
    destruct (mapM f r) eqn:Er; simpl in H; try discriminate.
    inversion H; subst. constructor; auto.
Qed.

Lemma mapM_fixed : forall (A : Type) (f : A -> result A) l,
  Forall (fun a => f a = Ok a) l -> mapM f l = Ok l.
Proof.
  induction 1 as [|a r Ha Hr IH]; simpl; auto.
  now rewrite Ha, IH.
Qed.

(** ** Reading numbers *)

(** Induction on a JSON value, through the elements of arrays. *)
Lemma json_array_ind : forall P : json -> Prop,
  P JNull -> (forall b, P (JBool b)) -> (forall x, P (JNum x)) ->
  (forall s, P (JStr s)) -> (forall l, Forall P l -> P (JArr l)) ->
  (forall fs, P (JObj fs)) ->
  forall v, P v.
Proof.
  intros P Hnull Hbool Hnum Hstr Harr Hobj.
  fix IH 1. intros [ | b | x | s | l | fs ].
  - exact Hnull.
  - apply Hbool.
  - apply Hnum.
  - apply Hstr.
  - apply Harr. induction l as [|y r IHl]; constructor.
    + apply IH.
    + exact IHl.
  - apply Hobj.
Qed.

(** [String(v)] returns on the convertible values and throws on the
    others. *)
Lemma ToString_cases : forall v,
  if convertible v then exists s, ToString v = Ok s
  else ToString v = Throw noPrimitive.
Proof.
  induction v as [ | b | x | s | l IH | fs ] using json_array_ind;
    try (cbn; eexists; reflexivity).
  - cbn [convertible ToString].
    induction IH as [|y r Hy Hr IHr]; [cbn; eexists; reflexivity|].
    assert (Hy' : if convertible y
                  then exists s, match y with
                                 | JNull => Ok EmptyString
                                 | _ => ToString y
                                 end = Ok s
                  else match y with
                       | JNull => Ok EmptyString
                       | _ => ToString y
                       end = Throw noPrimitive).
    { destruct y; try exact Hy. cbn. eexists. reflexivity. }
    clear Hy. destruct (convertible y); cbn [andb].
    + destruct Hy' as [sy ->]. cbn [bind].
      destruct r as [|z r']; [cbn; eexists; reflexivity|].
      match type of IHr with
      | if ?c then _ else _ => destruct c
      end.
      * destruct IHr as [sr ->]. cbn [bind]. eexists. reflexivity.
      * rewrite IHr. reflexivity.
    + rewrite Hy'. reflexivity.
  - cbn [convertible ToString]. destruct (Obj.has "toString" fs); cbn.
    + reflexivity.
    + eexists. reflexivity.
Qed.

Lemma toNumber_readable : forall x,
  readableValue x = true -> toNumber x = Ok (numberIn x).
Proof.
  intros x H. unfold numberIn.
  destruct x as [v|]; [|reflexivity]. cbn [readableValue] in H.
  pose proof (ToString_cases v) as Hs. rewrite H in Hs. destruct Hs as [s Hs].
  destruct v; try reflexivity; unfold toNumber; rewrite Hs; reflexivity.
Qed.

Lemma toNumber_unreadable : forall x,
  readableValue x = false -> toNumber x = Throw noPrimitive.
Proof.
  intros x H. destruct x as [v|]; [|discriminate]. cbn [readableValue] in H.
  pose proof (ToString_cases v) as Hs. rewrite H in Hs.
  destruct v; try discriminate; unfold toNumber; rewrite Hs; reflexivity.
Qed.

Lemma toNumber_returns : forall x n, toNumber x = Ok n -> readableValue x = true.
Proof.
  intros x n H. destruct (readableValue x) eqn:E; [reflexivity|].
  rewrite (toNumber_unreadable x E) in H. discriminate.
Qed.

Lemma numberIn_returned : forall x n, toNumber x = Ok n -> numberIn x = n.
Proof. intros x n H. unfold numberIn. now rewrite H. Qed.

Lemma readable_ofNum : forall n, readableValue (Some (ofNum n)) = true.
Proof. intros [x|]; reflexivity. Qed.

(** ** Line items *)

Lemma getProp_not_null : forall it k,
  isJNull it = false -> getProp it k = Ok (propOf it k).
Proof.
  intros it k H. destruct it; simpl in *; try reflexivity. discriminate.
Qed.

(** The callback on an element whose three numbers are read. *)
Lemma repairItem_reads : forall it q u a,
  isJNull it = false ->
  toNumber (propOf it "qty") = Ok q ->
  toNumber (propOf it "unit_price") = Ok u ->
  toNumber (propOf it "amount") = Ok a ->
  repairItem it = Ok (repairedItem it)
  /\ repairedNumbers it = repairLine q (round2 u) (round2 a).
Proof.
  intros it q u a H Hq Hu Ha. unfold repairItem, repairedItem, repairedNumbers.
  rewrite !(getProp_not_null _ _ H). cbn [bind].
  rewrite Hq, Hu, Ha. cbn [bind].
  rewrite (numberIn_returned _ _ Hq), (numberIn_returned _ _ Hu),
          (numberIn_returned _ _ Ha).
  destruct (repairLine _ _ _) as [[q' u'] a']. split; reflexivity.
Qed.

Lemma repairItem_not_null : forall it,
  isJNull it = false -> readableItem it = true ->
  repairItem it = Ok (repairedItem it).
Proof.
  intros it H Hr. unfold readableItem in Hr.
  apply andb_true_iff in Hr as [Hr Ha]. apply andb_true_iff in Hr as [Hq Hu].
  apply (repairItem_reads it _ _ _ H (toNumber_readable _ Hq)
           (toNumber_readable _ Hu) (toNumber_readable _ Ha)).
Qed.

(** The callback throws on an element one of whose numbers cannot be
    read. *)
Lemma repairItem_unreadable : forall it,
  isJNull it = false -> readableItem it = false ->
  repairItem it = Throw noPrimitive.
Proof.
  intros it H Hr. unfold repairItem.
  rewrite !(getProp_not_null _ _ H). cbn [bind]. unfold readableItem in Hr.
  destruct (readableValue (propOf it "qty")) eqn:Eq.
  - rewrite (toNumber_readable _ Eq). cbn [bind].
    destruct (readableValue (propOf it "unit_price")) eqn:Eu.
    + rewrite (toNumber_readable _ Eu). cbn [bind].
      cbn [andb] in Hr. rewrite (toNumber_unreadable _ Hr). reflexivity.
    + rewrite (toNumber_unreadable _ Eu). reflexivity.
  - rewrite (toNumber_unreadable _ Eq). reflexivity.
Qed.

Lemma repairItem_null : repairItem JNull = Throw nullItemError.
Proof. reflexivity. Qed.

Lemma mapM_repairItem_ok : forall items,
  forallb (fun it => negb (isJNull it)) items = true ->
  forallb readableItem items = true ->
  mapM repairItem items = Ok (map repairedItem items).
Proof.
  induction items as [|it r IH]; simpl; intros H Hr; auto.
  apply andb_true_iff in H. destruct H as [H1 H2].
  apply andb_true_iff in Hr. destruct Hr as [Hr1 Hr2].
  apply negb_true_iff in H1.
  rewrite (repairItem_not_null _ H1 Hr1). simpl.
  rewrite (IH H2 Hr2). reflexivity.
Qed.

Lemma mapM_repairItem_throws : forall items,
  forallb (fun it => negb (isJNull it)) items = false
  \/ forallb readableItem items = false ->
  exists e, mapM repairItem items = Throw e
            /\ (e = nullItemError \/ e = noPrimitive).
Proof.
  induction items as [|it r IH]; simpl; intros H.
  { destruct H; discriminate. }
  destruct (isJNull it) eqn:E.
  - destruct it; try discriminate. eexists. split; [reflexivity | now left].
  - destruct (readableItem it) eqn:Er.
    + rewrite (repairItem_not_null _ E Er). simpl in *.
      destruct (IH H) as [e [He Hc]]. rewrite He. eexists. split; [reflexivity | exact Hc].
    + rewrite (repairItem_unreadable _ E Er). eexists. split; [reflexivity | now right].
Qed.

Lemma repairedItem_keys : forall it,
  exists gs, repairedItem it = JObj gs /\ Obj.keys gs = itemKeys.
Proof.
  intros it. unfold repairedItem.
  destruct (repairedNumbers it) as [[q u] a].
  eexists. split; reflexivity.
Qed.

Lemma addAmount_obj : forall s gs,
  readableValue (Obj.get "amount" gs) = true ->
  addAmount s (JObj gs) = Ok (s + amountOrZero (JObj gs))%float.
Proof.
  intros s gs Hr. unfold addAmount, amountOrZero. cbn [getProp bind].
  rewrite (toNumber_readable _ Hr). cbn [bind].
  destruct (numberIn (Obj.get "amount" gs)) as [a|]; auto.
  destruct (truthy a); auto.
Qed.

Lemma foldM_addAmount : forall items s,
  Forall (fun it => exists gs, it = JObj gs
                               /\ readableValue (Obj.get "amount" gs) = true) items ->
  foldM addAmount items s
  = Ok (fold_left (fun s it => (s + amountOrZero it)%float) items s).
Proof.
  induction items as [|it r IH]; simpl; intros s H; auto.
  inversion H as [|? ? [gs [-> Hr]] Hrest]; subst.
  rewrite (addAmount_obj _ _ Hr). simpl. apply IH; auto.
Qed.

(** A returned line item holds numbers and nulls, which can be read
    again. *)
Lemma repairedItem_readable : forall it,
  exists gs, repairedItem it = JObj gs
    /\ readableValue (Obj.get "qty" gs) = true
    /\ readableValue (Obj.get "unit_price" gs) = true
    /\ readableValue (Obj.get "amount" gs) = true.
Proof.
  intros it. unfold repairedItem.
  destruct (repairedNumbers it) as [[q u] a].
  eexists. split; [reflexivity|]. cbn [Obj.get String.eqb Ascii.eqb Bool.eqb].
  repeat split; apply readable_ofNum.
Qed.

Lemma repaired_items_objects : forall items,
  Forall (fun it => exists gs, it = JObj gs
                               /\ readableValue (Obj.get "amount" gs) = true)
         (map repairedItem items).
Proof.
  induction items as [|it r IH]; simpl; constructor; auto.
  destruct (repairedItem_readable it) as (gs & H & _ & _ & Ha). eauto.
Qed.

(** ** The whole record *)

Ltac getset :=
  repeat first
    [ rewrite get_set_same
    | rewrite get_set_other by reflexivity ].

(** A guarded assignment [if (o.k === null && c) o.k = v] as one
    assignment of the derived value. *)
Lemma guarded_set : forall k fs cur c v,
  Obj.get k fs = Some (ofNum cur) ->
  (if isNull (Obj.get k fs) && c then Obj.set k (JNum v) fs else fs)
  = Obj.set k (ofNum (match cur with
                      | Some x => Some x
                      | None => if c then Some v else None
                      end)) fs.
Proof.
  intros k fs cur c v H. rewrite H.
  destruct cur as [x|]; simpl.
  - symmetry. now apply set_get_id.
  - destruct c; auto. symmetry. now apply set_get_id.
Qed.

Lemma deriveTotals_closed_form : forall sum fs s0 r0 t0 tot0,
  Obj.get "subtotal" fs = Some (ofNum s0) ->
  Obj.get "tax_rate" fs = Some (ofNum r0) ->
  Obj.get "tax_amount" fs = Some (ofNum t0) ->
  Obj.get "total" fs = Some (ofNum tot0) ->
  let s1 := deriveSubtotal s0 sum in
  let t1 := deriveTaxAmount t0 s1 r0 in
  let tot1 := deriveTotal tot0 s1 t1 in
  deriveTotals sum fs
  = Obj.set "total" (ofNum tot1)
      (Obj.set "tax_amount" (ofNum t1) (Obj.set "subtotal" (ofNum s1) fs)).
Proof.
  intros sum fs s0 r0 t0 tot0 Hs0 Hr0 Ht0 Htot0 s1 t1 tot1.
  unfold deriveTotals.
  rewrite (guarded_set "subtotal" fs s0) by exact Hs0.
  fold (deriveSubtotal s0 sum). fold s1.
  set (f2 := Obj.set "subtotal" _ fs).
  assert (Hs : Obj.get "subtotal" f2 = Some (ofNum s1))
    by (subst f2; getset; reflexivity).
  assert (Hr : Obj.get "tax_rate" f2 = Some (ofNum r0))
    by (subst f2; getset; exact Hr0).
  assert (Ht : Obj.get "tax_amount" f2 = Some (ofNum t0))
    by (subst f2; getset; exact Ht0).
  assert (Htot : Obj.get "total" f2 = Some (ofNum tot0))
    by (subst f2; getset; exact Htot0).
  clearbody f2.
  rewrite <- (andb_assoc (isNull (Obj.get "tax_amount" f2))).
  rewrite (guarded_set "tax_amount" f2 t0) by exact Ht.
  replace (match t0 with
           | Some x => Some x
           | None => if negb (isNull (Obj.get "subtotal" f2))
                        && negb (isNull (Obj.get "tax_rate" f2))
                     then Some _ else None
           end) with t1
    by (subst t1; rewrite Hs, Hr; destruct t0, s1, r0; reflexivity).
  set (f3 := Obj.set "tax_amount" _ f2).
  assert (Hs3 : Obj.get "subtotal" f3 = Some (ofNum s1))
    by (subst f3; getset; exact Hs).
  assert (Ht3 : Obj.get "tax_amount" f3 = Some (ofNum t1))
    by (subst f3; getset; reflexivity).
  assert (Htot3 : Obj.get "total" f3 = Some (ofNum tot0))
    by (subst f3; getset; exact Htot).
  clearbody f3.
  rewrite <- (andb_assoc (isNull (Obj.get "total" f3))).
  rewrite (guarded_set "total" f3 tot0) by exact Htot3.
  replace (match tot0 with
           | Some x => Some x
           | None => if negb (isNull (Obj.get "subtotal" f3))
                        && negb (isNull (Obj.get "tax_amount" f3))
                     then Some _ else None
           end) with tot1
    by (subst tot1; rewrite Hs3, Ht3; destruct tot0, s1, t1; reflexivity).
  reflexivity.
Qed.

Lemma normaliseTotals_reads : forall fs s r t tot,
  toNumber (Obj.get "subtotal" fs) = Ok s ->
  toNumber (Obj.get "tax_rate" fs) = Ok r ->
  toNumber (Obj.get "tax_amount" fs) = Ok t ->
  toNumber (Obj.get "total" fs) = Ok tot ->
  normaliseTotals fs
  = Ok (Obj.set "total" (ofNum (round2 tot))
         (Obj.set "tax_amount" (ofNum (round2 t))
            (Obj.set "tax_rate" (ofNum r)
               (Obj.set "subtotal" (ofNum (round2 s)) fs)))).
Proof.
  intros fs s r t tot Hs Hr Ht Htot. unfold normaliseTotals.
  rewrite Hs. cbn [bind].
  set (f1 := Obj.set "subtotal" _ fs).
  replace (Obj.get "tax_rate" f1) with (Obj.get "tax_rate" fs)
    by (subst f1; getset; reflexivity).
  rewrite Hr. cbn [bind].
  set (f2 := Obj.set "tax_rate" _ f1).
  replace (Obj.get "tax_amount" f2) with (Obj.get "tax_amount" fs)
    by (subst f2 f1; getset; reflexivity).
  rewrite Ht. cbn [bind].
  set (f3 := Obj.set "tax_amount" _ f2).
  replace (Obj.get "total" f3) with (Obj.get "total" fs)
    by (subst f3 f2 f1; getset; reflexivity).
  rewrite Htot. reflexivity.
Qed.

(** The normalisation throws when one of the four numbers cannot be
    read. *)
Lemma normaliseTotals_unreadable : forall fs,
  readableValue (Obj.get "subtotal" fs) && readableValue (Obj.get "tax_rate" fs)
  && readableValue (Obj.get "tax_amount" fs) && readableValue (Obj.get "total" fs) = false ->
  normaliseTotals fs = Throw noPrimitive.
Proof.
  intros fs H. unfold normaliseTotals.
  destruct (readableValue (Obj.get "subtotal" fs)) eqn:Es;
    [ rewrite (toNumber_readable _ Es)
    | now rewrite (toNumber_unreadable _ Es) ].
  cbn [bind].
  set (f1 := Obj.set "subtotal" _ fs).
  replace (Obj.get "tax_rate" f1) with (Obj.get "tax_rate" fs)
    by (subst f1; getset; reflexivity).
  destruct (readableValue (Obj.get "tax_rate" fs)) eqn:Er;
    [ rewrite (toNumber_readable _ Er)
    | now rewrite (toNumber_unreadable _ Er) ].
  cbn [bind].
  set (f2 := Obj.set "tax_rate" _ f1).
  replace (Obj.get "tax_amount" f2) with (Obj.get "tax_amount" fs)
    by (subst f2 f1; getset; reflexivity).
  destruct (readableValue (Obj.get "tax_amount" fs)) eqn:Et;
    [ rewrite (toNumber_readable _ Et)
    | now rewrite (toNumber_unreadable _ Et) ].
  cbn [bind].
  set (f3 := Obj.set "tax_amount" _ f2).
  replace (Obj.get "total" f3) with (Obj.get "total" fs)
    by (subst f3 f2 f1; getset; reflexivity).
  cbn [andb] in H. now rewrite (toNumber_unreadable _ H).
Qed.

Lemma readableRecord_split : forall fs,
  readableRecord fs
  = (readableValue (Obj.get "subtotal" fs) && readableValue (Obj.get "tax_rate" fs)
     && readableValue (Obj.get "tax_amount" fs) && readableValue (Obj.get "total" fs))
    && forallb readableItem (itemsOf fs).
Proof. reflexivity. Qed.

Lemma normaliseTotals_closed_form : forall fs,
  readableRecord fs = true ->
  normaliseTotals fs
  = Ok (Obj.set "total" (ofNum (round2 (numberIn (Obj.get "total" fs))))
         (Obj.set "tax_amount" (ofNum (round2 (numberIn (Obj.get "tax_amount" fs))))
            (Obj.set "tax_rate" (ofNum (numberIn (Obj.get "tax_rate" fs)))
               (Obj.set "subtotal"
                  (ofNum (round2 (numberIn (Obj.get "subtotal" fs)))) fs)))).
Proof.
  intros fs H. rewrite readableRecord_split in H.
  apply andb_true_iff in H as [H _].
  apply andb_true_iff in H as [H Htot]. apply andb_true_iff in H as [H Ht].
  apply andb_true_iff in H as [Hs Hr].
  apply normaliseTotals_reads; now apply toNumber_readable.
Qed.

Lemma itemsOf_normalised : forall fs a b c d,
  itemsOf (Obj.set "total" a (Obj.set "tax_amount" b
             (Obj.set "tax_rate" c (Obj.set "subtotal" d fs))))
  = itemsOf fs.
Proof. intros. unfold itemsOf. getset. reflexivity. Qed.

Lemma reconcileMath_obj : forall fs,
  reconcileMath (JObj fs)
  = (fs <- normaliseTotals fs ;;
     items' <- mapM repairItem (itemsOf fs) ;;
     sum <- foldM addAmount items' 0%float ;;
     Ok (JObj (deriveTotals (round2_num sum)
                 (Obj.set "line_items" (JArr items') fs)))).
Proof. reflexivity. Qed.

Lemma reconcile_closed_form : forall fs,
  noNullItem fs = true -> readableRecord fs = true ->
  reconcileMath (JObj fs) = Ok (JObj (reconciled fs)).
Proof.
  intros fs Hnn Hrd. rewrite reconcileMath_obj.
  rewrite (normaliseTotals_closed_form _ Hrd). cbn [bind].
  rewrite itemsOf_normalised.
  rewrite readableRecord_split in Hrd. apply andb_true_iff in Hrd as [_ Hri].
  rewrite (mapM_repairItem_ok _ Hnn Hri). cbn [bind].
  rewrite (foldM_addAmount _ _ (repaired_items_objects _)). cbn [bind].
  fold (sumItems (map repairedItem (itemsOf fs))).
  rewrite (deriveTotals_closed_form _ _
             (round2 (numberIn (Obj.get "subtotal" fs)))
             (numberIn (Obj.get "tax_rate" fs))
             (round2 (numberIn (Obj.get "tax_amount" fs)))
             (round2 (numberIn (Obj.get "total" fs))))
    by (getset; reflexivity).
  reflexivity.
Qed.

(** What [reconcileMath] throws, and when: the conversion error at the
    first number that cannot be read, or the property read on a [null]
    item. *)
Lemma reconcile_throws : forall fs,
  noNullItem fs = false \/ readableRecord fs = false ->
  exists e, reconcileMath (JObj fs) = Throw e
            /\ (e = nullItemError \/ e = noPrimitive).
Proof.
  intros fs H. rewrite reconcileMath_obj.
  destruct (readableValue (Obj.get "subtotal" fs) && readableValue (Obj.get "tax_rate" fs)
            && readableValue (Obj.get "tax_amount" fs)
            && readableValue (Obj.get "total" fs)) eqn:Et.
  - assert (Hn : normaliseTotals fs
                 = Ok (Obj.set "total" (ofNum (round2 (numberIn (Obj.get "total" fs))))
                        (Obj.set "tax_amount" (ofNum (round2 (numberIn (Obj.get "tax_amount" fs))))
                           (Obj.set "tax_rate" (ofNum (numberIn (Obj.get "tax_rate" fs)))
                              (Obj.set "subtotal"
                                 (ofNum (round2 (numberIn (Obj.get "subtotal" fs)))) fs))))).
    { apply andb_true_iff in Et as [Et Htot]. apply andb_true_iff in Et as [Et Ht].
      apply andb_true_iff in Et as [Hs Hr].
      apply normaliseTotals_reads; now apply toNumber_readable. }
    rewrite Hn. cbn [bind].
    rewrite itemsOf_normalised.
    assert (Hi : forallb (fun it => negb (isJNull it)) (itemsOf fs) = false
                 \/ forallb readableItem (itemsOf fs) = false).
    { destruct H as [H|H]; [now left|right].
      rewrite readableRecord_split, Et in H. exact H. }
    destruct (mapM_repairItem_throws _ Hi) as [e [He Hc]].
    rewrite He. exists e. split; [reflexivity | exact Hc].
  - rewrite (normaliseTotals_unreadable _ Et). eexists.
    split; [reflexivity | now right].
Qed.

(** The reads of a record on which nothing throws. *)
Lemma reads_return : forall fs s r t tot items',
  toNumber (Obj.get "subtotal" fs) = Ok s ->
  toNumber (Obj.get "tax_rate" fs) = Ok r ->
  toNumber (Obj.get "tax_amount" fs) = Ok t ->
  toNumber (Obj.get "total" fs) = Ok tot ->
  mapM repairItem (itemsOf fs) = Ok items' ->
  noNullItem fs = true /\ readableRecord fs = true
  /\ items' = map repairedItem (itemsOf fs).
Proof.
  intros fs s r t tot items' Hs Hr Ht Htot Hit.
  assert (Hn : forallb (fun it => negb (isJNull it)) (itemsOf fs) = true).
  { destruct (forallb _ (itemsOf fs)) eqn:E; [reflexivity|].
    destruct (mapM_repairItem_throws (itemsOf fs) (or_introl E)) as [e [He _]].
    rewrite He in Hit. discriminate. }
  assert (Hri : forallb readableItem (itemsOf fs) = true).
  { destruct (forallb readableItem (itemsOf fs)) eqn:E; [reflexivity|].
    destruct (mapM_repairItem_throws (itemsOf fs) (or_intror E)) as [e [He _]].
    rewrite He in Hit. discriminate. }
  split; [exact Hn|]. split.
  - rewrite readableRecord_split, Hri.
    rewrite (toNumber_returns _ _ Hs), (toNumber_returns _ _ Hr),
            (toNumber_returns _ _ Ht), (toNumber_returns _ _ Htot). reflexivity.
  - rewrite (mapM_repairItem_ok _ Hn Hri) in Hit. now injection Hit.
Qed.

Lemma reconciled_get_totals : forall fs,
  let s0 := round2 (numberIn (Obj.get "subtotal" fs)) in
  let r0 := numberIn (Obj.get "tax_rate" fs) in
  let t0 := round2 (numberIn (Obj.get "tax_amount" fs)) in
  let tot0 := round2 (numberIn (Obj.get "total" fs)) in
  let items' := map repairedItem (itemsOf fs) in
  let s1 := deriveSubtotal s0 (sumItems items') in
  let t1 := deriveTaxAmount t0 s1 r0 in
  let tot1 := deriveTotal tot0 s1 t1 in
  Obj.get "subtotal" (reconciled fs) = Some (ofNum s1) /\
  Obj.get "tax_rate" (reconciled fs) = Some (ofNum r0) /\
  Obj.get "tax_amount" (reconciled fs) = Some (ofNum t1) /\
  Obj.get "total" (reconciled fs) = Some (ofNum tot1) /\
  Obj.get "line_items" (reconciled fs) = Some (JArr items').
Proof.
  intros. unfold reconciled. repeat split; getset; reflexivity.
Qed.

Lemma reconciled_get_other : forall fs k,
  ~ In k reconciledKeys -> Obj.get k (reconciled fs) = Obj.get k fs.
Proof.
  intros fs k Hk. unfold reconciledKeys in Hk. simpl in Hk.
  assert (Hne : forall k', In k' reconciledKeys -> String.eqb k k' = false).
  { intros k' Hin. apply String.eqb_neq. intros ->. apply Hk. exact Hin. }
  unfold reconciled.
  repeat rewrite get_set_other by (apply Hne; simpl; tauto).
  reflexivity.
Qed.

Lemma itemsOf_reconciled : forall fs,
  itemsOf (reconciled fs) = map repairedItem (itemsOf fs).
Proof.
  intros fs. unfold itemsOf at 1.
  destruct (reconciled_get_totals fs) as (_ & _ & _ & _ & H).
  rewrite H. reflexivity.
Qed.

(** ** C10 - what the reconciliation leaves alone *)

(** C10.  For every input record on which [reconcileMath] returns (its
    [line_items] hold no [null], and none of the numbers it reads is an
    object that cannot be converted to a string), the returned record has
    every top-level field other than [subtotal], [tax_rate], [tax_amount],
    [total] and [line_items] exactly as the input had it, and every returned
    line item is an object with exactly the five keys [product_or_service],
    [description], [qty], [unit_price], [amount]: extra keys of an input
    item are dropped. *)
Theorem reconcile_frame : forall fs,
  noNullItem fs = true ->
  readableRecord fs = true ->
  exists fs' items',
    reconcileMath (JObj fs) = Ok (JObj fs') /\
    (forall k, ~ In k reconciledKeys -> Obj.get k fs' = Obj.get k fs) /\
    Obj.get "line_items" fs' = Some (JArr items') /\
    List.length items' = List.length (itemsOf fs) /\
    Forall (fun it => exists gs, it = JObj gs /\ Obj.keys gs = itemKeys) items'.
Proof.
  intros fs Hnn Hrd.
  exists (reconciled fs), (map repairedItem (itemsOf fs)).
  split; [ now apply reconcile_closed_form | ].
  split; [ intros k Hk; now apply reconciled_get_other | ].
  split; [ apply (reconciled_get_totals fs) | ].
  split; [ apply length_map | ].
  apply Forall_forall. intros it Hin.
  apply in_map_iff in Hin. destruct Hin as [it0 [<- _]].
  apply repairedItem_keys.
Qed.

Lemma reconcile_frame_witness :
  exists fs' items',
    reconcileMath (JObj sampleInvoice) = Ok (JObj fs') /\
    (forall k, ~ In k reconciledKeys -> Obj.get k fs' = Obj.get k sampleInvoice) /\
    Obj.get "line_items" fs' = Some (JArr items') /\
    List.length items' = List.length (itemsOf sampleInvoice) /\
    Forall (fun it => exists gs, it = JObj gs /\ Obj.keys gs = itemKeys) items'.
Proof. apply (reconcile_frame sampleInvoice); reflexivity. Defined.

(** ** C2 - document-level derivation *)

(** C2.  On every record on which [reconcileMath] returns, the four totals
    are read, the line items are repaired, and the derivation then fills only
    what is still null after normalisation.  With [r2 n] the number
    [Math.round((n + Number.EPSILON) * 100) / 100]: [subtotal] becomes [r2]
    of the sum of the repaired amounts (amounts that are null or zero count
    as 0) when it is null and that rounded sum is non-zero; then
    [tax_amount], when null with subtotal and rate known, becomes
    [r2 (subtotal * (tax_rate / 100))]; then [total], when null with
    subtotal and tax amount known, becomes [r2 (subtotal + tax_amount)]; a
    value already present is kept. *)
Theorem document_level_derivation : forall fs,
  noNullItem fs = true ->
  readableRecord fs = true ->
  exists fs' items' s r t tot,
    reconcileMath (JObj fs) = Ok (JObj fs') /\
    toNumber (Obj.get "subtotal" fs) = Ok s /\
    toNumber (Obj.get "tax_rate" fs) = Ok r /\
    toNumber (Obj.get "tax_amount" fs) = Ok t /\
    toNumber (Obj.get "total" fs) = Ok tot /\
    mapM repairItem (itemsOf fs) = Ok items' /\
    Obj.get "line_items" fs' = Some (JArr items') /\
    let r2 := fun n : float => (Math_round ((n + EPSILON) * 100) / 100)%float in
    let subtotal := option_map r2 s in
    let taxRate := r in
    let taxAmount := option_map r2 t in
    let total := option_map r2 tot in
    let sum :=
      r2 (fold_left (fun acc it => (acc + amountOrZero it)%float) items' 0%float) in
    let subtotal' :=
      match subtotal with
      | Some x => Some x
      | None => if truthy sum then Some sum else None
      end in
    let taxAmount' :=
      match taxAmount, subtotal', taxRate with
      | Some x, _, _ => Some x
      | None, Some sub, Some rate => Some (r2 (sub * (rate / 100))%float)
      | None, _, _ => None
      end in
    let total' :=
      match total, subtotal', taxAmount' with
      | Some x, _, _ => Some x
      | None, Some sub, Some tax => Some (r2 (sub + tax)%float)
      | None, _, _ => None
      end in
    Obj.get "subtotal" fs' = Some (ofNum subtotal') /\
    Obj.get "tax_rate" fs' = Some (ofNum taxRate) /\
    Obj.get "tax_amount" fs' = Some (ofNum taxAmount') /\
    Obj.get "total" fs' = Some (ofNum total').
Proof.
  intros fs Hnn Hrd.
  exists (reconciled fs), (map repairedItem (itemsOf fs)),
         (numberIn (Obj.get "subtotal" fs)), (numberIn (Obj.get "tax_rate" fs)),
         (numberIn (Obj.get "tax_amount" fs)), (numberIn (Obj.get "total" fs)).
  destruct (reconciled_get_totals fs) as (Hs & Hr & Ht & Htot & Hit).
  split; [ now apply reconcile_closed_form | ].
  pose proof Hrd as Hrd'. rewrite readableRecord_split in Hrd'.
  apply andb_true_iff in Hrd' as [H4 Hri].
  apply andb_true_iff in H4 as [H4 Hrtot]. apply andb_true_iff in H4 as [H4 Hrt].
  apply andb_true_iff in H4 as [Hrs Hrr].
  split; [ now apply toNumber_readable | ].
  split; [ now apply toNumber_readable | ].
  split; [ now apply toNumber_readable | ].
  split; [ now apply toNumber_readable | ].
  split; [ now apply mapM_repairItem_ok | ].
  split; [ exact Hit | ].
  cbv zeta. repeat split.
  - rewrite Hs. reflexivity.
  - exact Hr.
  - rewrite Ht. reflexivity.
  - rewrite Htot. reflexivity.
Qed.

(** The specification's chain: [subtotal:100, taxRate:13] with the tax
    amount and the total null gives 13.00, then 113.00.  And a record where
    each derived value is rounded: the amounts 0.1, 0.2 and 9.71 add up to
    10.010000000000002, the subtotal is 10.01; 13 % of it is 1.3013, the tax
    amount is 1.3; the total is 11.31. *)
Lemma tax_total_chain :
  (exists fs',
     reconcileMath (JObj taxChain) = Ok (JObj fs') /\
     Obj.get "subtotal" fs' = Some (JNum 100) /\
     Obj.get "tax_amount" fs' = Some (JNum 13) /\
     Obj.get "total" fs' = Some (JNum 113)) /\
  (exists fs',
     reconcileMath (JObj roundingChain) = Ok (JObj fs') /\
     Obj.get "subtotal" fs' = Some (JNum 10.01) /\
     Obj.get "tax_amount" fs' = Some (JNum 1.3) /\
     Obj.get "total" fs' = Some (JNum 11.31)).
Proof.
  split.
  - destruct (document_level_derivation taxChain eq_refl eq_refl)
      as (fs' & items' & s & r & t & tot
          & Hrec & Es & Er & Et & Etot & Hitems & _ & Hs & _ & Ht & Htot).
    exists fs'. split; [ exact Hrec | ].
    vm_compute in Es, Er, Et, Etot, Hitems.
    injection Es as <-. injection Er as <-. injection Et as <-.
    injection Etot as <-. injection Hitems as <-.
    vm_compute in Hs, Ht, Htot. auto.
  - destruct (document_level_derivation roundingChain eq_refl eq_refl)
      as (fs' & items' & s & r & t & tot
          & Hrec & Es & Er & Et & Etot & Hitems & _ & Hs & _ & Ht & Htot).
    exists fs'. split; [ exact Hrec | ].
    vm_compute in Es, Er, Et, Etot, Hitems.
    injection Es as <-. injection Er as <-. injection Et as <-.
    injection Etot as <-. injection Hitems as <-.
    vm_compute in Hs, Ht, Htot. auto.
Defined.

(** ** C9 - descriptive fields *)

(** C9 as the code has it.  For every line item that is not [null] and
    whose quantity, unit price and amount are read (the callback reads them
    first, and throws when one is an object that cannot be converted to a
    string), the returned item has both descriptive fields (never
    [undefined]); a field that is absent or [null] in the input is [null];
    any other value, the empty string included, is returned as it is. *)
Theorem descriptive_fields : forall it k,
  isJNull it = false ->
  readableItem it = true ->
  k = "product_or_service"%string \/ k = "description"%string ->
  exists gs,
    repairItem it = Ok (JObj gs) /\
    (exists v, Obj.get k gs = Some v) /\
    (propOf it k = None \/ propOf it k = Some JNull -> Obj.get k gs = Some JNull) /\
    (forall v, propOf it k = Some v -> Obj.get k gs = Some v).
Proof.
  intros it k Hnn Hrd Hk.
  rewrite (repairItem_not_null _ Hnn Hrd). unfold repairedItem.
  destruct (repairedNumbers it) as [[q u] a].
  eexists. split; [ reflexivity | ].
  destruct Hk as [-> | ->]; simpl.
  - split; [ eauto | ]. split.
    + intros [-> | ->]; reflexivity.
    + intros v ->. destruct v; reflexivity.
  - split; [ eauto | ]. split.
    + intros [-> | ->]; reflexivity.
    + intros v ->. destruct v; reflexivity.
Qed.

Lemma descriptive_fields_witness :
  exists gs,
    repairItem blankItem = Ok (JObj gs) /\
    (exists v, Obj.get "product_or_service" gs = Some v) /\
    (propOf blankItem "product_or_service" = None
     \/ propOf blankItem "product_or_service" = Some JNull ->
     Obj.get "product_or_service" gs = Some JNull) /\
    (forall v, propOf blankItem "product_or_service" = Some v ->
               Obj.get "product_or_service" gs = Some v).
Proof.
  apply (descriptive_fields blankItem "product_or_service").
  - reflexivity.
  - reflexivity.
  - left. reflexivity.
Defined.

(** An empty description in the input is an empty description in the
    output: the claim's "never the empty string" fails. *)
Lemma empty_description_survives :
  repairItem blankItem
  = Ok (JObj [ ("product_or_service", JNull); ("description", JStr "");
               ("qty", JNum 1); ("unit_price", JNum 2); ("amount", JNum 2) ]%string).
Proof. vm_compute. reflexivity. Qed.

(** ** C8 - totality *)

(** C8, at the failing input: a [null] among the line items makes the
    [map] callback read a property of [null]. *)
Theorem reconcile_null_item_throws :
  reconcileMath nullItemRecord
  = Throw (TypeError "Cannot read properties of null (reading 'qty')").
Proof. vm_compute. reflexivity. Qed.

(** [reconcileMath] throws exactly on the objects whose [line_items] hold a
    [null] or in which a number it reads cannot be converted; on everything
    else it returns. *)
Lemma reconcile_throws_iff : forall x,
  (exists e, reconcileMath x = Throw e)
  <-> (exists fs, x = JObj fs
                  /\ (noNullItem fs = false \/ readableRecord fs = false)).
Proof.
  intros x. split.
  - intros [e He]. destruct x; try discriminate.
    exists fields. split; auto.
    destruct (noNullItem fields) eqn:E; auto.
    destruct (readableRecord fields) eqn:Er; auto.
    rewrite (reconcile_closed_form _ E Er) in He. discriminate.
  - intros (fs & -> & H). destruct (reconcile_throws _ H) as [e [He _]]. eauto.
Qed.

(** What [toNumber] returns is [null] or a finite number. *)
Lemma toNumber_finite : forall x n,
  toNumber x = Ok (Some n) -> isFinite n = true.
Proof.
  intros x n. unfold toNumber.
  destruct x as [v|]; try discriminate.
  destruct v; try discriminate;
    try (destruct (ToString _) as [str|e]; cbn [bind]; try discriminate);
    repeat match goal with
           | |- context [match ?s with EmptyString => _ | String _ _ => _ end] =>
               destruct s; try discriminate
           | |- context [if isFinite ?y then _ else _] =>
               destruct (isFinite y) eqn:E; try discriminate
           end;
    intros H; inversion H; subst; assumption.
Qed.

(** ** C1 - idempotence *)

(** The inconsistency repair, run again on what it returned, returns it
    again unless it adopts another integer quantity. *)
Lemma repair_again : forall q1 u1 a1 q u a,
  repairLine (Some q1) (Some u1) (Some a1) = (Some q, Some u, Some a) ->
  (retryAdopts q u a = true -> Math_round (a / u)%float = q) ->
  repairLine (Some q) (Some u) (Some a) = (Some q, Some u, Some a).
Proof.
  intros q1 u1 a1 q u a H Hk. unfold retryAdopts in Hk. cbv zeta in Hk.
  revert H. unfold repairLine. cbv zeta.
  destruct (approxEqual (round2 (Some (q1 * u1)%float)) (Some a1) 0.05) eqn:E1;
    cbn [negb].
  - intros H. injection H as <- <- <-. rewrite E1. reflexivity.
  - destruct ((Math_abs (a1 / u1 - Math_round (a1 / u1)) <? 0.05)%float
              && approxEqual (round2 (Some (Math_round (a1 / u1) * u1)%float))
                             (Some a1) 0.1) eqn:E2.
    + intros H. injection H as <- <- <-.
      destruct (approxEqual (round2 (Some (Math_round (a1 / u1) * u1)%float))
                            (Some a1) 0.05); cbn [negb]; [reflexivity|].
      rewrite E2. reflexivity.
    + destruct (nonzero q1) eqn:E3; intros H; injection H as <- <- <-.
      * destruct (approxEqual (round2 (Some (q1 * round2_num (a1 / q1))%float))
                              (Some a1) 0.05) eqn:E4;
          cbn [negb]; [reflexivity|].
        cbn [round2] in *. cbn [negb andb] in Hk.
        match goal with
        | |- (if ?c then _ else _) = _ => destruct c eqn:E5
        end.
        -- rewrite (Hk eq_refl). reflexivity.
        -- rewrite E3. reflexivity.
      * rewrite E1. cbn [negb]. rewrite E2, E3. reflexivity.
Qed.

(** Three numbers that are all known after the repair were all known when
    the inconsistency repair ran. *)
Lemma repairLine_known : forall q0 u0 a0 q u a,
  repairLine q0 u0 a0 = (Some q, Some u, Some a) ->
  exists q1 u1 a1,
    repairLine (Some q1) (Some u1) (Some a1) = (Some q, Some u, Some a).
Proof.
  assert (Hsame : forall (A : Type) (x y out : A), x = y -> x = out -> y = out)
    by (intros; congruence).
  intros [q0|] [u0|] [a0|] q u a.
  - intros H. eauto.
  - intros H. exists q0, u0, (round2_num (q0 * u0)). exact H.
  - destruct (nonzero q0) eqn:E.
    + intros H. exists q0, (round2_num (a0 / q0)), a0.
      refine (Hsame _ _ _ _ _ H). unfold repairLine. cbv zeta. cbn [round2].
      rewrite E.
      repeat match goal with
             | |- context [if ?c then _ else _] => destruct c
             end; reflexivity.
    + unfold repairLine. cbv zeta. rewrite E. intros H. discriminate.
  - intros H. discriminate.
  - destruct (nonzero u0) eqn:E.
    + destruct (Math_abs (a0 / u0 - Math_round (a0 / u0)) <? 0.02)%float eqn:E2.
      * intros H. exists (Math_round (a0 / u0)), u0, a0.
        refine (Hsame _ _ _ _ _ H). unfold repairLine. cbv zeta. cbn [round2].
        rewrite E, E2. reflexivity.
      * intros H. exists (round2_num (a0 / u0)), u0, a0.
        refine (Hsame _ _ _ _ _ H). unfold repairLine. cbv zeta. cbn [round2].
        rewrite E, E2. reflexivity.
    + unfold repairLine. cbv zeta. rewrite E. intros H. discriminate.
  - intros H. discriminate.
  - intros H. discriminate.
  - intros H. discriminate.
Qed.

(** A second repair of repaired numbers changes nothing, unless the
    numbers are all known and the repair adopts another integer
    quantity. *)
Lemma repairLine_settled : forall q0 u0 a0 q u a,
  repairLine q0 u0 a0 = (q, u, a) ->
  (forall q' u' a', q = Some q' -> u = Some u' -> a = Some a' ->
     retryAdopts q' u' a' = true -> Math_round (a' / u')%float = q') ->
  repairLine q u a = (q, u, a).
Proof.
  intros q0 u0 a0 q u a Hrep Hk.
  destruct q as [q'|], u as [u'|], a as [a'|].
  1: { destruct (repairLine_known _ _ _ _ _ _ Hrep) as (q1 & u1 & a1 & H1).
       apply (repair_again _ _ _ _ _ _ H1). now apply Hk. }
  all: clear Hk; revert Hrep; unfold repairLine;
    destruct q0 as [q0'|], u0 as [u0'|], a0 as [a0'|]; simpl;
    repeat match goal with
           | |- context [if ?c then _ else _] => destruct c eqn:?; simpl
           end;
    intros Hrep; inversion Hrep; subst; simpl;
    repeat match goal with
           | H : ?c = _ |- context [if ?c then _ else _] => rewrite H; simpl
           end;
    try reflexivity; try discriminate; congruence.
Qed.

Lemma stableMoney_roundtrip : forall v,
  stableMoney (Some (ofNum v)) -> round2 (numberIn (Some (ofNum v))) = v.
Proof.
  intros [x|] H; simpl; auto.
  destruct H as [H | (y & Hy & Hfin & Hst)]; try discriminate.
  injection Hy as ->. unfold numberIn. cbn [toNumber]. rewrite Hfin.
  simpl. now rewrite Hst.
Qed.

Lemma finiteOrNull_roundtrip : forall v,
  finiteOrNull (Some (ofNum v)) -> numberIn (Some (ofNum v)) = v.
Proof.
  intros [x|] H; simpl; auto.
  destruct H as [H | (y & Hy & Hfin)]; try discriminate.
  injection Hy as ->. unfold numberIn. cbn [toNumber]. now rewrite Hfin.
Qed.

Lemma orNull_idempotent : forall p, orNull (Some (orNull p)) = orNull p.
Proof. intros [[]|]; reflexivity. Qed.

(** The numbers a second pass reads from a returned line item that is
    normal are the numbers it holds. *)
Lemma repairedItem_reread : forall it q u a,
  repairedNumbers it = (q, u, a) ->
  normalItem (repairedItem it) ->
  repairedNumbers (repairedItem it) = repairLine q u a.
Proof.
  intros it q u a Hnum (gs & Hgs & Hq & Hu & Ha).
  unfold repairedItem in Hgs |- *. rewrite Hnum in Hgs |- *.
  injection Hgs as <-. simpl in Hq, Hu, Ha.
  unfold repairedNumbers. simpl propOf.
  rewrite (finiteOrNull_roundtrip _ Hq).
  rewrite (stableMoney_roundtrip _ Hu), (stableMoney_roundtrip _ Ha).
  reflexivity.
Qed.

Lemma repairedItem_settled : forall it,
  normalItem (repairedItem it) -> keepsQty (repairedItem it) ->
  repairedItem (repairedItem it) = repairedItem it.
Proof.
  intros it Hn Hk.
  destruct (repairedNumbers it) as [[q u] a] eqn:Hnum.
  pose proof (repairedItem_reread it q u a Hnum Hn) as Hre.
  assert (Hfix : repairLine q u a = (q, u, a)).
  { pose proof Hnum as Hnum'. unfold repairedNumbers in Hnum'.
    apply (repairLine_settled _ _ _ _ _ _ Hnum').
    intros q' u' a' -> -> ->. apply Hk.
    all: unfold repairedItem; rewrite Hnum; reflexivity. }
  unfold repairedItem at 1. rewrite Hre, Hfix.
  unfold repairedItem. rewrite Hnum. simpl propOf.
  now rewrite !orNull_idempotent.
Qed.

(** A returned line item that a second pass returns as it is keeps its
    quantity. *)
Lemma repairedItem_fixed_keeps : forall it,
  normalItem (repairedItem it) ->
  repairedItem (repairedItem it) = repairedItem it ->
  keepsQty (repairedItem it).
Proof.
  intros it Hn Hfix q u a Hq Hu Ha Had.
  destruct (repairedNumbers it) as [[q0 u0] a0] eqn:Hnum.
  pose proof (repairedItem_reread it q0 u0 a0 Hnum Hn) as Hre.
  unfold repairedItem in Hq, Hu, Ha. rewrite Hnum in Hq, Hu, Ha.
  simpl in Hq, Hu, Ha.
  destruct q0 as [q0|]; try discriminate. injection Hq as ->.
  destruct u0 as [u0|]; try discriminate. injection Hu as ->.
  destruct a0 as [a0|]; try discriminate. injection Ha as ->.
  assert (Hline : repairLine (Some q) (Some u) (Some a)
                  = (Some (Math_round (a / u)%float), Some u, Some a)).
  { unfold retryAdopts in Had. cbv zeta in Had.
    apply andb_true_iff in Had as [Had H3]. apply andb_true_iff in Had as [H1 H2].
    unfold repairLine. cbv zeta. rewrite H1, H2, H3. reflexivity. }
  rewrite Hline in Hre.
  apply (f_equal (fun v => propOf v "qty")) in Hfix.
  unfold repairedItem at 1 in Hfix. rewrite Hre in Hfix.
  unfold repairedItem in Hfix. rewrite Hnum in Hfix. simpl in Hfix.
  now injection Hfix.
Qed.

Lemma deriveSubtotal_idempotent : forall s sum,
  deriveSubtotal (deriveSubtotal s sum) sum = deriveSubtotal s sum.
Proof.
  intros [s|] sum; simpl; auto.
  destruct (truthy sum) eqn:E; simpl; now rewrite ?E.
Qed.

Lemma deriveTaxAmount_idempotent : forall t s r,
  deriveTaxAmount (deriveTaxAmount t s r) s r = deriveTaxAmount t s r.
Proof. intros [t|] [s|] [r|]; reflexivity. Qed.

Lemma deriveTotal_idempotent : forall tot s t,
  deriveTotal (deriveTotal tot s t) s t = deriveTotal tot s t.
Proof. intros [tot|] [s|] [t|]; reflexivity. Qed.

Lemma noNullItem_reconciled : forall fs, noNullItem (reconciled fs) = true.
Proof.
  intros fs. unfold noNullItem. rewrite itemsOf_reconciled.
  apply forallb_forall. intros it Hin.
  apply in_map_iff in Hin. destruct Hin as [it0 [<- _]].
  destruct (repairedItem_keys it0) as [gs [-> _]]. reflexivity.
Qed.

(** What [reconcileMath] returns can be read again. *)
Lemma readableRecord_reconciled : forall fs, readableRecord (reconciled fs) = true.
Proof.
  intros fs. unfold readableRecord.
  destruct (reconciled_get_totals fs) as (Gs & Gr & Gt & Gtot & _).
  cbv zeta in Gs, Gr, Gt, Gtot. rewrite Gs, Gr, Gt, Gtot.
  rewrite !readable_ofNum. cbn [andb].
  rewrite itemsOf_reconciled.
  apply forallb_forall. intros it Hin.
  apply in_map_iff in Hin. destruct Hin as [it0 [<- _]].
  destruct (repairedItem_readable it0) as (gs & -> & Hq & Hu & Ha).
  unfold readableItem. cbn [propOf]. now rewrite Hq, Hu, Ha.
Qed.

Lemma reconciled_settled : forall fs,
  normalised (JObj (reconciled fs)) -> keepsQuantities (JObj (reconciled fs)) ->
  reconciled (reconciled fs) = reconciled fs.
Proof.
  intros fs (Hs & Hr & Ht & Htot & Hitems) Hkeep.
  destruct (reconciled_get_totals fs) as (Gs & Gr & Gt & Gtot & Git).
  cbv zeta in Gs, Gr, Gt, Gtot, Git.
  cbn [keepsQuantities] in Hkeep.
  rewrite itemsOf_reconciled in Hitems, Hkeep.
  rewrite Gs in Hs. rewrite Gr in Hr. rewrite Gt in Ht. rewrite Gtot in Htot.
  unfold reconciled at 1.
  rewrite Gs, Gr, Gt, Gtot, itemsOf_reconciled.
  rewrite (stableMoney_roundtrip _ Hs), (finiteOrNull_roundtrip _ Hr),
          (stableMoney_roundtrip _ Ht), (stableMoney_roundtrip _ Htot).
  assert (Hmap : map repairedItem (map repairedItem (itemsOf fs))
                 = map repairedItem (itemsOf fs)).
  { rewrite map_map. apply map_ext_in. intros it Hin.
    rewrite Forall_forall in Hitems, Hkeep.
    apply repairedItem_settled; [apply Hitems | apply Hkeep]; now apply in_map. }
  rewrite Hmap.
  rewrite deriveSubtotal_idempotent, deriveTaxAmount_idempotent,
          deriveTotal_idempotent.
  rewrite (set_get_id _ _ _ Gs), (set_get_id _ _ _ Gr),
          (set_get_id _ _ _ Gt), (set_get_id _ _ _ Gtot),
          (set_get_id _ _ _ Git), (set_get_id _ _ _ Gs),
          (set_get_id _ _ _ Gt), (set_get_id _ _ _ Gtot).
  reflexivity.
Qed.

Lemma map_fixed_Forall : forall (A : Type) (f : A -> A) l,
  map f l = l -> Forall (fun a => f a = a) l.
Proof.
  induction l as [|a r IH]; simpl; intros H; constructor.
  - now injection H.
  - apply IH. now injection H.
Qed.

(** A returned record that a second pass returns as it is keeps the
    quantities of its line items. *)
Lemma reconciled_fixed_keeps : forall fs,
  normalised (JObj (reconciled fs)) ->
  reconciled (reconciled fs) = reconciled fs ->
  keepsQuantities (JObj (reconciled fs)).
Proof.
  intros fs (_ & _ & _ & _ & Hitems) Hfix.
  cbn [keepsQuantities]. rewrite itemsOf_reconciled in Hitems |- *.
  apply (f_equal itemsOf) in Hfix. rewrite !itemsOf_reconciled in Hfix.
  apply map_fixed_Forall in Hfix.
  rewrite Forall_forall in Hitems, Hfix |- *.
  intros it' Hin. pose proof (Hitems _ Hin) as Hn. pose proof (Hfix _ Hin) as Hf.
  apply in_map_iff in Hin. destruct Hin as [it [<- _]].
  now apply repairedItem_fixed_keeps.
Qed.

(** C1 as the code has it.  Take a record [x] whose reconciled form is
    normalised: its money fields are null or finite numbers that [round2]
    leaves alone.  Then [reconcile(reconcile(x))] equals [reconcile(x)]
    exactly when the inconsistency repair of the second pass changes no
    quantity: no returned line item with quantity, unit price and amount all
    known is one where [round2(qty * unitPrice)] is more than 0.05 from the
    amount while the integer nearest to [amount / unitPrice], within 0.05 of
    that quotient and with [round2(integer * unitPrice)] within 0.1 of the
    amount, is another number than [qty].  (Where [reconcileMath] throws,
    both sides throw.) *)
Theorem reconcile_idempotent_settled : forall x,
  (forall y, reconcileMath x = Ok y -> normalised y) ->
  ((y <- reconcileMath x ;; reconcileMath y) = reconcileMath x
   <-> (forall y, reconcileMath x = Ok y -> keepsQuantities y)).
Proof.
  intros x Hset.
  destruct x as [ | b | n | s | l | fs ];
    try (split; [ intros _ y H; injection H as <-; exact I | reflexivity ]).
  destruct (noNullItem fs) eqn:Hnn; [destruct (readableRecord fs) eqn:Hrd|].
  - rewrite (reconcile_closed_form _ Hnn Hrd) in *.
    cbn [bind].
    rewrite (reconcile_closed_form _ (noNullItem_reconciled fs)
               (readableRecord_reconciled fs)).
    specialize (Hset _ eq_refl). split.
    + intros H y Hy. injection Hy as <-. injection H as H.
      now apply reconciled_fixed_keeps.
    + intros H. rewrite reconciled_settled; auto.
  - destruct (reconcile_throws fs (or_intror Hrd)) as [e [He _]]. rewrite He.
    split; [ intros _ y H; discriminate | reflexivity ].
  - destruct (reconcile_throws fs (or_introl Hnn)) as [e [He _]]. rewrite He.
    split; [ intros _ y H; discriminate | reflexivity ].
Qed.

Lemma float_neq : forall a b : float, PrimFloat.Leibniz.eqb a b = false -> a <> b.
Proof.
  intros a b H Heq. apply FloatAxioms.Leibniz.eqb_spec in Heq. congruence.
Qed.

Ltac stable_field :=
  first [ left; reflexivity
        | right; eexists; repeat split; vm_compute; reflexivity ].

(** Three items on which idempotence holds although the returned numbers
    stay more than 0.05 apart: 20 x 0.51 against 10.1 (the second pass
    repeats the last resort), 24 x 4.17 against 100 and 2 x 10 against 20.08
    (the second pass adopts the integer the item already has). *)
Lemma reconcile_idempotent_witness :
  reconcileMath unevenInvoice
  = Ok (returnedRecord [ returnedItem (JNum 20) (JNum 0.51) (JNum 10.1);
                         returnedItem (JNum 24) (JNum 4.17) (JNum 100);
                         returnedItem (JNum 2) (JNum 10) (JNum 20.08) ]
                       (JNum 130.18))
  /\ (y <- reconcileMath unevenInvoice ;; reconcileMath y)
     = reconcileMath unevenInvoice.
Proof.
  split; [ vm_compute; reflexivity | ].
  apply (reconcile_idempotent_settled unevenInvoice).
  - intros y H. vm_compute in H. injection H as <-.
    unfold normalised. simpl Obj.get. unfold itemsOf. simpl Obj.get.
    repeat split; try stable_field.
    repeat constructor;
      (eexists; split; [ reflexivity | ]; simpl Obj.get;
       repeat split; stable_field).
  - intros y H. vm_compute in H. injection H as <-.
    unfold keepsQuantities, itemsOf. simpl Obj.get.
    repeat constructor;
      (intros q u a Hq Hu Ha _;
       injection Hq as <-; injection Hu as <-; injection Ha as <-;
       vm_compute; reflexivity).
Defined.

(** The claim fails where the last-resort repair leaves an inconsistent
    item: 1000 x 3 against 14 becomes 1000 x 0.01, and a second pass turns
    the quantity into 1400. *)
Lemma reconcile_not_idempotent :
  reconcileMath oscillating
  = Ok (returnedRecord [returnedItem (JNum 1000) (JNum 0.01) (JNum 14)] (JNum 14))
  /\ reconcileMath
       (returnedRecord [returnedItem (JNum 1000) (JNum 0.01) (JNum 14)] (JNum 14))
     = Ok (returnedRecord [returnedItem (JNum 1400) (JNum 0.01) (JNum 14)] (JNum 14))
  /\ (y <- reconcileMath oscillating ;; reconcileMath y) <> reconcileMath oscillating.
Proof.
  split; [ vm_compute; reflexivity | ].
  split; [ vm_compute; reflexivity | ].
  intros H.
  apply (f_equal (fun r => match r with
                           | Ok (JObj fs) =>
                               match itemsOf fs with
                               | JObj gs :: _ => Obj.get "qty" gs
                               | _ => None
                               end
                           | _ => None
                           end)) in H.
  vm_compute in H.
  apply (f_equal (fun v => match v with Some (JNum q) => q | _ => 0%float end)) in H.
  revert H. apply float_neq. vm_compute. reflexivity.
Qed.

(** ** C3 - filling a missing quantity *)

Lemma rounded_inv : forall r v,
  rounded r = Ok v -> exists n, r = Ok n /\ round2 n = v.
Proof.
  intros [n|e] v H; [|discriminate].
  exists n. split; [reflexivity|]. now injection H.
Qed.

Lemma repairLine_fill_qty : forall u a,
  nonzero u = true ->
  fst (fst (repairLine None (Some u) (Some a))) = Some (filledQty a u).
Proof.
  intros u a Hu. unfold repairLine, filledQty, retryAdopts, snapQty.
  rewrite Hu. cbv zeta.
  set (q := (a / u)%float).
  set (qInt := Math_round q).
  destruct (Math_abs (q - qInt) <? 0.02)%float eqn:Esnap; cbn [round2].
  - destruct (negb (approxEqual (Some (round2_num (qInt * u))) (Some a) 0.05));
      cbn [andb]; auto.
    destruct ((Math_abs (q - qInt) <? 0.05)%float
              && approxEqual (Some (round2_num (qInt * u))) (Some a) 0.1);
      cbn [fst]; auto.
    destruct (nonzero qInt); reflexivity.
  - destruct (negb (approxEqual (Some (round2_num (round2_num q * u))) (Some a) 0.05));
      cbn [andb]; auto.
    destruct ((Math_abs (q - qInt) <? 0.05)%float
              && approxEqual (Some (round2_num (qInt * u))) (Some a) 0.1);
      cbn [fst]; auto.
    destruct (nonzero (round2_num q)); reflexivity.
Qed.

(** C3 as the code has it.  For every line item whose quantity normalises to
    null while the unit price [u] is known and non-zero and the amount [a]
    is known, the returned quantity is the nearest integer of [q = a / u]
    whenever [|q - nearest| < 0.02] strictly; otherwise it is [round2 q],
    unless the inconsistency repair that follows adopts the nearest integer
    ([retryAdopts]). *)
Theorem fill_missing_qty : forall gs u a,
  toNumber (Obj.get "qty" gs) = Ok None ->
  rounded (toNumber (Obj.get "unit_price" gs)) = Ok (Some u) ->
  nonzero u = true ->
  rounded (toNumber (Obj.get "amount" gs)) = Ok (Some a) ->
  exists gs',
    repairItem (JObj gs) = Ok (JObj gs') /\
    Obj.get "qty" gs' = Some (JNum (filledQty a u)) /\
    ((Math_abs (a / u - Math_round (a / u)) <? 0.02)%float = true ->
     filledQty a u = Math_round (a / u)%float) /\
    ((Math_abs (a / u - Math_round (a / u)) <? 0.02)%float = false ->
     filledQty a u = round2_num (a / u)%float
     \/ filledQty a u = Math_round (a / u)%float).
Proof.
  intros gs u a Hq Hu Hnz Ha.
  apply rounded_inv in Hu as (nu & Hu & Eu).
  apply rounded_inv in Ha as (na & Ha & Ea).
  destruct (repairItem_reads (JObj gs) _ _ _ eq_refl Hq Hu Ha) as [Hrep Hnum].
  rewrite Hrep. unfold repairedItem. rewrite Hnum, Eu, Ea.
  pose proof (repairLine_fill_qty u a Hnz) as Hfill.
  destruct (repairLine None (Some u) (Some a)) as [[q' u'] a'].
  cbn [fst] in Hfill. subst q'.
  eexists. split; [ reflexivity | ].
  split; [ reflexivity | ].
  unfold filledQty, snapQty. cbv zeta.
  split; intros ->.
  - destruct (retryAdopts _ _ _); reflexivity.
  - destruct (retryAdopts _ _ _); auto.
Qed.

(** The specification's example: [{qty:null, unitPrice:5, amount:15.02}]
    gives [q = 3.004], within 0.02 of 3, hence [qty == 3]. *)
Lemma fill_missing_qty_example :
  exists gs',
    repairItem snapExample = Ok (JObj gs') /\
    Obj.get "qty" gs' = Some (JNum 3).
Proof.
  destruct (fill_missing_qty
              [("qty", JNull); ("unit_price", JNum 5); ("amount", JNum 15.02)]%string
              5 15.02 eq_refl eq_refl eq_refl eq_refl)
    as (gs' & Hrep & Hqty & _).
  exists gs'. split; [ exact Hrep | ].
  vm_compute in Hqty. exact Hqty.
Defined.

(** At a distance of exactly 0.02 the quantity is not snapped: for
    [{qty:null, unitPrice:1, amount:0.02}] the quotient is 0.02, its nearest
    integer is 0, and the code returns 0.02. *)
Lemma qty_not_snapped_at_tolerance :
  Math_abs (0.02 / 1 - Math_round (0.02 / 1))%float = 0.02%float
  /\ Math_round (0.02 / 1)%float = 0%float
  /\ repairItem boundaryItem
     = Ok (returnedItem (JNum 0.02) (JNum 1) (JNum 0.02)).
Proof. repeat split; vm_compute; reflexivity. Qed.

(** In binary64 the inconsistency repair does adopt the nearest integer
    after a quantity that was not snapped: here [q] is 1/32 away from it. *)
Lemma retry_adopts_after_fill :
  (Math_abs (hugeItemAmount / 2.5 - Math_round (hugeItemAmount / 2.5)) <? 0.02)%float
  = false
  /\ filledQty hugeItemAmount 2.5 = Math_round (hugeItemAmount / 2.5)%float
  /\ filledQty hugeItemAmount 2.5 <> round2_num (hugeItemAmount / 2.5)%float.
Proof.
  split; [ vm_compute; reflexivity | ].
  split; [ vm_compute; reflexivity | ].
  apply float_neq. vm_compute. reflexivity.
Qed.

(** ** C5 - the border under sharpening *)

Import Frontend.

Lemma rd_wr_other : forall a i j v, i <> j -> rd (wr a i v) j = rd a j.
Proof.
  unfold rd. induction a as [|x r IH]; intros i j v Hne; simpl.
  - reflexivity.
  - destruct i, j; simpl; auto; try congruence.
Qed.

Lemma rd_repeat_zero : forall n j, rd (repeat 0 n) j = 0.
Proof.
  unfold rd. induction n; intros [|j]; simpl; auto.
Qed.

(** A fold keeps a cell that none of its steps writes. *)
Lemma fold_left_keeps : forall (f : list Z -> nat -> list Z) (P : nat -> Prop) j,
  (forall d x, P x -> rd (f d x) j = rd d j) ->
  forall l d, Forall P l -> rd (fold_left f l d) j = rd d j.
Proof.
  intros f P j Hf. induction l as [|x r IH]; intros d Hl; simpl; auto.
  inversion Hl; subst. rewrite IH; auto.
Qed.

(** [sharpenPixel] writes the four bytes of its pixel only. *)
Lemma sharpenPixel_keeps : forall w src dst x y j,
  (j < idx w x y \/ idx w x y + 3 < j)%nat ->
  rd (sharpenPixel w src dst x y) j = rd dst j.
Proof.
  intros w src dst x y j Hj. unfold sharpenPixel. cbv zeta. simpl fold_left.
  repeat rewrite rd_wr_other by lia. reflexivity.
Qed.

(** Distinct pixels of a row-major bitmap do not overlap. *)
Lemma idx_separate : forall w x y x' y' c,
  (x < w)%nat -> (x' < w)%nat -> (c < 4)%nat -> (x, y) <> (x', y') ->
  (idx w x y + c < idx w x' y' \/ idx w x' y' + 3 < idx w x y + c)%nat.
Proof.
  intros w x y x' y' c Hx Hx' Hc Hne. unfold idx.
  assert (Hlin : (y * w + x <> y' * w + x')%nat).
  { intros Heq.
    assert (y = y') by nia. subst y'.
    assert (x = x') by lia. subst x'. now apply Hne. }
  lia.
Qed.

Lemma sharpenPass_border : forall w h src x y c,
  (x < w)%nat -> (y < h)%nat -> onBorder w h x y = true -> (c < 4)%nat ->
  rd (sharpenPass w h src) (idx w x y + c) = 0.
Proof.
  intros w h src x y c Hx Hy Hb Hc. unfold sharpenPass. cbv zeta.
  rewrite (fold_left_keeps _ (fun y' => 1 <= y' < h - 1)%nat).
  - apply rd_repeat_zero.
  - intros d y' Hy'.
    apply (fold_left_keeps _ (fun x' => 1 <= x' < w - 1)%nat).
    + intros d' x' Hx'. apply sharpenPixel_keeps.
      apply idx_separate; try lia.
      intros Heq. injection Heq as -> ->.
      unfold onBorder in Hb.
      repeat (apply orb_true_iff in Hb; destruct Hb as [Hb | Hb]);
        apply Nat.eqb_eq in Hb; lia.
    + apply Forall_forall. intros x' Hin. apply in_seq in Hin. lia.
  - apply Forall_forall. intros y' Hin. apply in_seq in Hin. lia.
Qed.

Lemma rd_skip4 : forall x1 x2 x3 x4 d i,
  rd (x1 :: x2 :: x3 :: x4 :: d) (4 + i) = rd d i.
Proof. reflexivity. Qed.

(** Reading a canvas back, pixel by pixel. *)
Lemma readBack_length : forall d, List.length (readBack d) = List.length d.
Proof.
  fix IH 1. intros d.
  destruct d as [|r [|g [|b [|a rest]]]]; try reflexivity.
  cbn [readBack]. destruct (a =? 0); cbn [List.length]; now rewrite IH.
Qed.

Lemma readBack_rd : forall p d c,
  (4 * p + 3 < List.length d)%nat -> (c < 4)%nat ->
  rd (readBack d) (4 * p + c)
  = if rd d (4 * p + 3) =? 0 then 0 else rd d (4 * p + c).
Proof.
  induction p as [|p IH]; intros d c Hlen Hc;
    destruct d as [|r [|g [|b [|a rest]]]]; cbn [List.length] in Hlen; try lia.
  - cbn [readBack]. change (rd (r :: g :: b :: a :: rest) (4 * 0 + 3)) with a.
    destruct (a =? 0); destruct c as [|[|[|[|c]]]]; try lia; reflexivity.
  - replace (4 * S p + c)%nat with (4 + (4 * p + c))%nat by lia.
    replace (4 * S p + 3)%nat with (4 + (4 * p + 3))%nat by lia.
    rewrite !rd_skip4. cbn [readBack].
    destruct (a =? 0); rewrite rd_skip4; apply IH; lia.
Qed.

(** A pixel of four zeros is read back as four zeros. *)
Lemma readBack_zero : forall p d c,
  (c < 4)%nat -> (forall c', (c' < 4)%nat -> rd d (4 * p + c') = 0) ->
  rd (readBack d) (4 * p + c) = 0.
Proof.
  induction p as [|p IH]; intros d c Hc Hz.
  - destruct d as [|r [|g [|b [|a rest]]]];
      try (cbn [readBack]; now apply Hz).
    pose proof (Hz 0%nat ltac:(lia)) as H0. pose proof (Hz 1%nat ltac:(lia)) as H1.
    pose proof (Hz 2%nat ltac:(lia)) as H2. pose proof (Hz 3%nat ltac:(lia)) as H3.
    cbn in H0, H1, H2, H3. subst. cbn [readBack Z.eqb].
    destruct c as [|[|[|[|c]]]]; try lia; reflexivity.
  - destruct d as [|r [|g [|b [|a rest]]]];
      try (cbn [readBack]; now apply Hz).
    replace (4 * S p + c)%nat with (4 + (4 * p + c))%nat by lia.
    cbn [readBack].
    destruct (a =? 0); rewrite rd_skip4; apply IH; auto;
      intros c' Hc'; specialize (Hz c' Hc');
      replace (4 * S p + c')%nat with (4 + (4 * p + c'))%nat in Hz by lia;
      now rewrite rd_skip4 in Hz.
Qed.

(** C5, what the code does instead.  With sharpening enabled, every border
    pixel of the bitmap [preprocessCanvas] returns is transparent black,
    [(0, 0, 0, 0)], whatever the bitmap was after binarization: the loops
    skip the border of a fresh all-zero buffer, which then replaces the
    canvas. *)
Theorem sharpen_blanks_border : forall env src cfg out x y,
  sharpen cfg = true ->
  preprocessCanvas env src cfg = Ok out ->
  (x < width out)%nat -> (y < height out)%nat ->
  onBorder (width out) (height out) x y = true ->
  pixel out x y = [0; 0; 0; 0].
Proof.
  intros env src cfg out x y Hsh Hrun Hx Hy Hb.
  unfold preprocessCanvas in Hrun. cbv zeta in Hrun.
  destruct (negb (has2d env)); try discriminate.
  destruct (_ || _)%bool; try discriminate.
  destruct (_ || _)%bool; try discriminate.
  destruct (_ || _)%bool; try discriminate.
  rewrite Hsh in Hrun. injection Hrun as <-.
  cbn [width height data] in *. unfold pixel. cbn [width data].
  set (w := scaledSize (width src) (upscale cfg)) in *.
  set (h := scaledSize (height src) (upscale cfg)) in *.
  set (d := sharpenPass w h _).
  assert (Hz : forall c, (c < 4)%nat -> rd (readBack d) (idx w x y + c) = 0).
  { intros c Hc. unfold idx.
    replace ((y * w + x) * 4)%nat with (4 * (y * w + x))%nat by lia.
    apply readBack_zero; [exact Hc|].
    intros c' Hc'.
    replace (4 * (y * w + x))%nat with (idx w x y) by (unfold idx; lia).
    subst d. apply sharpenPass_border; auto. }
  rewrite <- (Nat.add_0_r (idx w x y)) at 1.
  rewrite !Hz by lia. reflexivity.
Qed.

(** The failing input: a white opaque 3 x 3 bitmap keeps its centre and
    loses its border, which was [(255, 255, 255, 255)] before the
    sharpening step. *)
Lemma sharpen_blanks_border_witness :
  preprocessCanvas copyBrowser whiteSquare noUpscale
  = Ok (mkImage 3 3 (repeat 0 16 ++ [255; 255; 255; 255] ++ repeat 0 16))
  /\ binarize noUpscale (data whiteSquare) = repeat 255 36
  /\ pixel (mkImage 3 3 (repeat 0 16 ++ [255; 255; 255; 255] ++ repeat 0 16)) 0 0
     = [0; 0; 0; 0].
Proof.
  split; [ vm_compute; reflexivity | ].
  split; [ vm_compute; reflexivity | ].
  apply (sharpen_blanks_border copyBrowser whiteSquare noUpscale).
  - reflexivity.
  - vm_compute. reflexivity.
  - simpl. lia.
  - simpl. lia.
  - reflexivity.
Defined.

(** ** C7 - malformed TIFF frames *)

Lemma ocrTiffPages_app : forall env worker pre post i,
  ocrTiffPages env worker i (pre ++ post)
  = (ts <- ocrTiffPages env worker i pre ;;
     ts' <- ocrTiffPages env worker (i + List.length pre) post ;;
     Ok (ts ++ ts')).
Proof.
  induction pre as [|p r IH]; intros post i; simpl.
  - rewrite Nat.add_0_r. destruct (ocrTiffPages env worker i post); reflexivity.
  - destruct (ocrTiffPage env worker i p); simpl; auto.
    rewrite IH. replace (S i + List.length r)%nat with (i + S (List.length r))%nat by lia.
    destruct (ocrTiffPages env worker (S i) r); simpl; auto.
    destruct (ocrTiffPages env worker _ post); reflexivity.
Qed.

(** The error of the frame loop at a malformed frame: one of the two
    messages, with the 1-based page number. *)
Lemma ocrTiffPage_malformed : forall env worker i p,
  malformedFrame p = true ->
  let n := dec_of_N (N.of_nat (i + 1)) in
  ocrTiffPage env worker i p
  = Throw (Error (if falsyDim (ifd_width p) || falsyDim (ifd_height p)
                  then "TIFF page " ++ n ++ " has invalid dimensions ("
                         ++ showDim (ifd_width p) ++ "x"
                         ++ showDim (ifd_height p) ++ ")."
                  else "TIFF page " ++ n ++ " produced empty pixel data.")).
Proof.
  intros env worker i p Hbad. unfold ocrTiffPage. cbv zeta.
  unfold malformedFrame in Hbad.
  destruct (falsyDim (ifd_width p) || falsyDim (ifd_height p))%bool eqn:Edim.
  - reflexivity.
  - simpl in Hbad.
    destruct (toRGBA8 p) as [msg | [[|b r]|]]; try discriminate; reflexivity.
Qed.

Lemma usableUtif_run : forall utif env worker ifds,
  usableUtif utif = true -> ifds <> [] ->
  ocrTiff utif env worker ifds
  = (allText <- ocrTiffPages env worker 0 ifds ;;
     Ok (join pageBreak (filter nonEmpty allText))).
Proof.
  intros utif env worker ifds Hu Hne. unfold usableUtif in Hu.
  apply andb_true_iff in Hu. destruct Hu as [Hu H3].
  apply andb_true_iff in Hu. destruct Hu as [H1 H2].
  unfold ocrTiff. rewrite H1, H2. cbn [negb].
  destruct ifds as [|p r]; [congruence|].
  replace (negb (has_decodeImages utif) && negb (has_decodeImage utif))%bool
    with false
    by (destruct (has_decodeImages utif), (has_decodeImage utif);
        simpl in *; congruence).
  reflexivity.
Qed.

(** C7 as the code has it.  If a frame of a TIFF reports a zero or missing
    width or height, or yields a missing or empty pixel buffer, [ocrTiff]
    throws: it returns no text, not even that of the frames before.  With
    the UTIF functions there, the error is the one of the first frame that
    fails: when the frames before the malformed one were read, it is the
    error raised for that frame, whose message is
    "TIFF page N has invalid dimensions (WxH)." for a zero or missing
    dimension and "TIFF page N produced empty pixel data." otherwise, with
    [N] the 1-based index of the frame; when a frame before it failed, it is
    the error of that earlier frame. *)
Theorem tiff_malformed_frame_aborts : forall utif env worker pre p post,
  malformedFrame p = true ->
  (exists e, ocrTiff utif env worker (pre ++ p :: post) = Throw e)
  /\ (usableUtif utif = true ->
      (forall texts, ocrTiffPages env worker 0 pre = Ok texts ->
       let n := dec_of_N (N.of_nat (List.length pre + 1)) in
       ocrTiff utif env worker (pre ++ p :: post)
       = Throw (Error (if falsyDim (ifd_width p) || falsyDim (ifd_height p)
                       then "TIFF page " ++ n ++ " has invalid dimensions ("
                              ++ showDim (ifd_width p) ++ "x"
                              ++ showDim (ifd_height p) ++ ")."
                       else "TIFF page " ++ n ++ " produced empty pixel data.")))
      /\ (forall e, ocrTiffPages env worker 0 pre = Throw e ->
          ocrTiff utif env worker (pre ++ p :: post) = Throw e)).
Proof.
  intros utif env worker pre p post Hbad.
  assert (Hpages : forall i,
             exists e, ocrTiffPages env worker i (pre ++ p :: post) = Throw e).
  { intros i. rewrite ocrTiffPages_app.
    destruct (ocrTiffPages env worker i pre) as [ts|e]; [ | eexists; reflexivity ].
    cbn [bind ocrTiffPages].
    rewrite (ocrTiffPage_malformed env worker (i + List.length pre) p Hbad).
    eexists. reflexivity. }
  split.
  - unfold ocrTiff.
    destruct (negb (has_decode utif)); [ eexists; reflexivity | ].
    destruct (negb (has_toRGBA8 utif)); [ eexists; reflexivity | ].
    destruct (pre ++ p :: post) eqn:El; [ eexists; reflexivity | ].
    destruct (_ && _)%bool; [ eexists; reflexivity | ].
    destruct (Hpages 0%nat) as [e ->].
    eexists. reflexivity.
  - clear Hpages. intros Hu.
    assert (Hne : pre ++ p :: post <> []) by (destruct pre; discriminate).
    rewrite (usableUtif_run _ _ _ _ Hu Hne), ocrTiffPages_app.
    split.
    + intros texts Hpre. rewrite Hpre. cbn [bind ocrTiffPages Nat.add].
      rewrite (ocrTiffPage_malformed env worker (List.length pre) p Hbad).
      reflexivity.
    + intros e Hpre. rewrite Hpre. reflexivity.
Qed.

(** A two-frame file whose second frame reports width 0: the first frame is
    read, and the document is rejected for page 2. *)
Lemma tiff_malformed_frame_witness :
  ocrTiffPages copyBrowser constantEngine 0 [onePixelFrame]
  = Ok [units_of_string "A"]
  /\ ocrTiff fullUtif copyBrowser constantEngine ([onePixelFrame] ++ zeroWidthFrame :: [])
     = Throw (Error "TIFF page 2 has invalid dimensions (0x5).").
Proof.
  split; [ vm_compute; reflexivity | ].
  apply (tiff_malformed_frame_aborts fullUtif copyBrowser constantEngine
           [onePixelFrame] zeroWidthFrame []) with (texts := [units_of_string "A"]).
  - reflexivity.
  - reflexivity.
  - vm_compute. reflexivity.
Defined.

(** The claim fails where a frame before the malformed one fails: the
    document is rejected with the error of that frame, which names no page
    and is not about the malformed frame.  Here the first frame is sound;
    the recognition fails on it, or the browser has no 2D context. *)
Lemma tiff_earlier_failure_names_no_page :
  malformedFrame zeroWidthFrame = true
  /\ malformedFrame onePixelFrame = false
  /\ ocrTiff fullUtif copyBrowser failingEngine [onePixelFrame; zeroWidthFrame]
     = Throw (Error "Worker terminated.")
  /\ ocrTiff fullUtif noContextBrowser constantEngine [onePixelFrame; zeroWidthFrame]
     = Throw (Error "Canvas 2D context not available.").
Proof. repeat split; vm_compute; reflexivity. Qed.

(** ** Binary64 rounding

    Where the sum, the product and the quotient of two numbers land: between
    any two numbers that bracket the exact result. *)

(** *** Digits *)
Lemma digits2_pos_bounds : forall p,
  2 ^ (Z.pos (digits2_pos p) - 1) <= Z.pos p < 2 ^ Z.pos (digits2_pos p).
Proof.
  induction p as [p IH | p IH | ]; simpl digits2_pos.
  - rewrite Pos2Z.inj_succ.
    replace (Z.succ (Z.pos (digits2_pos p)) - 1) with (Z.succ (Z.pos (digits2_pos p) - 1)) by lia.
    rewrite !Z.pow_succ_r by lia. lia.
  - rewrite Pos2Z.inj_succ.
    replace (Z.succ (Z.pos (digits2_pos p)) - 1) with (Z.succ (Z.pos (digits2_pos p) - 1)) by lia.
    rewrite !Z.pow_succ_r by lia. lia.
  - simpl. lia.
Qed.

Lemma digits2_pos_unique : forall p d,
  2 ^ (d - 1) <= Z.pos p < 2 ^ d -> Z.pos (digits2_pos p) = d.
Proof.
  intros p d [Hlo Hhi].
  destruct (digits2_pos_bounds p) as [Blo Bhi].
  set (k := Z.pos (digits2_pos p)) in *.
  assert (0 < d).
  { destruct (Z_lt_le_dec 0 d); auto.
    assert (2 ^ d <= 2 ^ 0) by (destruct (Z_lt_le_dec d 0);
      [ rewrite Z.pow_neg_r by lia; simpl; lia | apply Z.pow_le_mono_r; lia ]).
    simpl in *. lia. }
  destruct (Z_lt_le_dec k d).
  - assert (2 ^ k <= 2 ^ (d - 1)) by (apply Z.pow_le_mono_r; lia). lia.
  - destruct (Z_lt_le_dec d k); try lia.
    assert (2 ^ d <= 2 ^ (k - 1)) by (apply Z.pow_le_mono_r; lia). lia.
Qed.

(** *** Iterated right shift *)
Lemma iter_pos_nat : forall (A : Type) (f : A -> A) p x,
  iter_pos f p x = Nat.iter (Pos.to_nat p) f x.
Proof.
  intros A f. induction p as [p IH | p IH | ]; intros x; simpl iter_pos.
  - rewrite !IH. rewrite Pos2Nat.inj_xI.
    replace (S (2 * Pos.to_nat p))%nat with (Pos.to_nat p + (Pos.to_nat p + 1))%nat by lia.
    rewrite !Nat.iter_add. simpl. reflexivity.
  - rewrite !IH. rewrite Pos2Nat.inj_xO.
    replace (2 * Pos.to_nat p)%nat with (Pos.to_nat p + Pos.to_nat p)%nat by lia.
    rewrite Nat.iter_add. reflexivity.
  - reflexivity.
Qed.

Lemma shr_1_m : forall mrs, 0 <= shr_m mrs -> shr_m (shr_1 mrs) = shr_m mrs / 2.
Proof.
  intros [m r s] Hm. simpl in *.
  destruct m as [|[p|p|]|p]; cbn [shr_1 shr_m]; try lia.
  - reflexivity.
  - apply Z.div_unique with 1; lia.
  - apply Z.div_unique with 0; lia.
  - reflexivity.
Qed.

Lemma shr_1_exact : forall mrs,
  0 <= shr_m mrs -> shr_r mrs = false -> shr_s mrs = false ->
  shr_m mrs mod 2 = 0 ->
  shr_r (shr_1 mrs) = false /\ shr_s (shr_1 mrs) = false.
Proof.
  intros [m r s] Hm Hr Hs Hmod. simpl in *. subst.
  destruct m as [|[p|p|]|p]; cbn [shr_1 shr_r shr_s orb]; auto; try lia.
  - exfalso. assert (Z.pos p~1 mod 2 = 1); [ | lia ].
    symmetry. apply Z.mod_unique with (Z.pos p); lia.
  - discriminate.
Qed.

Lemma shr_iter_m : forall k mrs,
  0 <= shr_m mrs -> shr_m (Nat.iter k shr_1 mrs) = shr_m mrs / 2 ^ Z.of_nat k.
Proof.
  induction k as [|k IH]; intros mrs Hm.
  - simpl. now rewrite Z.div_1_r.
  - rewrite Nat2Z.inj_succ, Z.pow_succ_r by lia. simpl Nat.iter.
    rewrite shr_1_m.
    + rewrite IH by auto. rewrite Z.div_div by lia.
      f_equal. lia.
    + rewrite IH by auto. apply Z.div_pos; lia.
Qed.

Lemma shr_iter_exact : forall k mrs,
  0 <= shr_m mrs -> shr_r mrs = false -> shr_s mrs = false ->
  shr_m mrs mod 2 ^ Z.of_nat k = 0 ->
  shr_r (Nat.iter k shr_1 mrs) = false /\ shr_s (Nat.iter k shr_1 mrs) = false.
Proof.
  induction k as [|k IH]; intros mrs Hm Hr Hs Hmod.
  - simpl. auto.
  - rewrite Nat2Z.inj_succ, Z.pow_succ_r in Hmod by lia. simpl Nat.iter.
    assert (Hk : shr_m mrs mod 2 ^ Z.of_nat k = 0).
    { apply Z.mod_divide in Hmod; try lia. apply Z.mod_divide; try lia.
      destruct Hmod as [c Hc]. exists (c * 2). lia. }
    destruct (IH mrs Hm Hr Hs Hk) as [Hr' Hs'].
    apply shr_1_exact; auto.
    + rewrite shr_iter_m by auto. apply Z.div_pos; lia.
    + rewrite shr_iter_m by auto.
      apply Z.mod_divide in Hmod; try lia. destruct Hmod as [c Hc].
      rewrite Hc. replace (c * (2 * 2 ^ Z.of_nat k)) with ((c * 2) * 2 ^ Z.of_nat k) by lia.
      rewrite Z.div_mul by lia. apply Z.mod_mul. lia.
Qed.

(** *** One rounding *)
Lemma loc_of_record_of_loc : forall m l,
  loc_of_shr_record (shr_record_of_loc m l) = l.
Proof. intros m [|[]]; reflexivity. Qed.

Lemma round_nearest_even_cases : forall m l,
  (round_nearest_even m l = m \/ round_nearest_even m l = m + 1)
  /\ (l = loc_Exact -> round_nearest_even m l = m).
Proof.
  intros m [|[]]; simpl; auto; split; auto; try discriminate.
  destruct (Z.even m); auto.
Qed.

Lemma fexp_normal : forall e, emin <= e - prec -> fexp prec emax e = e - prec.
Proof. intros e H. unfold fexp. fold emin. lia. Qed.

(** The first shift of [binary_round_aux]. *)
Lemma shr_fexp_spec : forall (mx : positive) ex lx,
  let d := Z.pos (digits2_pos mx) in
  prec <= d -> emin <= ex + d - prec ->
  let n := d - prec in
  exists mrs,
    shr_fexp prec emax (Z.pos mx) ex lx = (mrs, ex + n) /\
    shr_m mrs = Z.pos mx / 2 ^ n /\
    (lx = loc_Exact -> Z.pos mx mod 2 ^ n = 0 -> loc_of_shr_record mrs = loc_Exact).
Proof.
  intros mx ex lx d Hd Hnorm n.
  unfold shr_fexp. cbn [Zdigits2]. fold d.
  rewrite fexp_normal by lia.
  replace (d + ex - prec - ex) with n by (unfold n; lia).
  unfold shr. destruct n as [|p|p] eqn:En.
  - eexists. split; [ rewrite Z.add_0_r; reflexivity | ].
    split.
    + destruct lx as [|[]]; simpl; now rewrite Z.div_1_r.
    + intros -> _. reflexivity.
  - eexists. split; [ reflexivity | ].
    rewrite iter_pos_nat.
    split.
    + rewrite shr_iter_m.
      * rewrite positive_nat_Z. destruct lx as [|[]]; reflexivity.
      * destruct lx as [|[]]; simpl; lia.
    + intros -> Hmod.
      destruct (shr_iter_exact (Pos.to_nat p) (shr_record_of_loc (Z.pos mx) loc_Exact))
        as [Hr Hs].
      * simpl. lia.
      * reflexivity.
      * reflexivity.
      * rewrite positive_nat_Z. exact Hmod.
      * destruct (Nat.iter _ _ _) as [m r s]. simpl in *. subst. reflexivity.
  - exfalso. unfold n in En. lia.
Qed.

Lemma div_pow_bounds : forall m d n,
  0 <= n -> n < d -> 2 ^ (d - 1) <= m < 2 ^ d ->
  2 ^ (d - n - 1) <= m / 2 ^ n < 2 ^ (d - n).
Proof.
  intros m d n Hn Hd [Hlo Hhi].
  assert (Hp : 0 < 2 ^ n) by (apply Z.pow_pos_nonneg; lia).
  split.
  - apply Z.div_le_lower_bound; auto.
    rewrite <- Z.pow_add_r by lia. replace (n + (d - n - 1)) with (d - 1) by lia. auto.
  - apply Z.div_lt_upper_bound; auto.
    rewrite <- Z.pow_add_r by lia. replace (n + (d - n)) with d by lia. auto.
Qed.

(** One rounding of a mantissa of [d >= 53] digits in the normal range: the
    result has 53 digits and is the truncated mantissa or the next one. *)
Lemma bra_spec : forall sx (mx : positive) ex lx,
  let d := Z.pos (digits2_pos mx) in
  prec <= d -> emin <= ex + d - prec -> ex + d <= emax - 1 ->
  let n := d - prec in
  let m' := Z.pos mx / 2 ^ n in
  exists mr er,
    binary_round_aux prec emax sx (Z.pos mx) ex lx = S754_finite sx mr er /\
    Z.pos (digits2_pos mr) = prec /\
    ex + n <= er <= Z.min (emax - prec) (ex + n + 1) /\
    (Z.pos mr * 2 ^ (er - (ex + n)) = m' \/ Z.pos mr * 2 ^ (er - (ex + n)) = m' + 1) /\
    (lx = loc_Exact -> Z.pos mx mod 2 ^ n = 0 -> Z.pos mr * 2 ^ (er - (ex + n)) = m').
Proof.
  intros sx mx ex lx d Hd Hnorm Hover n m'.
  unfold binary_round_aux.
  destruct (shr_fexp_spec mx ex lx Hd Hnorm) as (mrs & E1 & Hm & Hex).
  fold d in E1, Hm, Hex. fold n in E1, Hm, Hex. fold m' in Hm.
  rewrite E1.
  assert (Hm'b : 2 ^ (prec - 1) <= m' < 2 ^ prec).
  { unfold m'. destruct (digits2_pos_bounds mx) as [Blo Bhi]. fold d in Blo, Bhi.
    destruct (Z.eq_dec n 0) as [En | En].
    - rewrite En, Z.div_1_r. replace prec with d by (unfold n in En; lia). auto.
    - pose proof (div_pow_bounds (Z.pos mx) d n) as H.
      replace (d - n - 1) with (prec - 1) in H by (unfold n; lia).
      replace (d - n) with prec in H by (unfold n; lia).
      apply H; unfold n in *; unfold prec in *; lia. }
  destruct (round_nearest_even_cases (shr_m mrs) (loc_of_shr_record mrs)) as [Hcase Hexact].
  set (m2 := round_nearest_even (shr_m mrs) (loc_of_shr_record mrs)) in *.
  rewrite Hm in Hcase, Hexact.
  assert (Hm2pos : 0 < m2) by (unfold prec in *; lia).
  destruct m2 as [|q|q] eqn:Em2; try lia.
  assert (Hq : 2 ^ (prec - 1) <= Z.pos q <= 2 ^ prec) by lia.
  destruct (Z.eq_dec (Z.pos q) (2 ^ prec)) as [Ecarry | Ecarry].
  - (* carry *)
    assert (Hdq : Z.pos (digits2_pos q) = prec + 1).
    { apply digits2_pos_unique. rewrite Ecarry.
      replace (prec + 1 - 1) with prec by lia. split; try lia.
      apply Z.pow_lt_mono_r; unfold prec; lia. }
    destruct (shr_fexp_spec q (ex + n) loc_Exact) as (mrs2 & E2 & Hm2 & _).
    { rewrite Hdq. lia. }
    { rewrite Hdq. unfold n. lia. }
    rewrite Hdq in E2, Hm2. replace (prec + 1 - prec) with 1 in E2, Hm2 by lia.
    rewrite E2.
    assert (Hval : shr_m mrs2 = 2 ^ (prec - 1)).
    { rewrite Hm2, Ecarry. unfold prec. reflexivity. }
    rewrite Hval. unfold prec at 1. cbn [Z.sub Z.pow Z.pow_pos Pos.iter Z.mul Pos.mul Z.pos_sub Z.opp].
    replace (ex + n + 1 <=? emax - prec) with true
      by (symmetry; apply Z.leb_le; unfold n; lia).
    eexists _, _. split; [ reflexivity | ].
    split; [ reflexivity | ].
    split; [ unfold n; lia | ].
    replace (ex + n + 1 - (ex + n)) with 1 by lia.
    assert (Hm'' : m' + 1 = 2 ^ prec) by lia.
    split.
    + right. rewrite Hm''. reflexivity.
    + intros Hl Hmod. exfalso.
      specialize (Hex Hl Hmod). specialize (Hexact Hex). lia.
  - (* no carry *)
    assert (Hdq : Z.pos (digits2_pos q) = prec).
    { apply digits2_pos_unique. lia. }
    destruct (shr_fexp_spec q (ex + n) loc_Exact) as (mrs2 & E2 & Hm2 & _).
    { rewrite Hdq. lia. }
    { rewrite Hdq. unfold n. lia. }
    rewrite Hdq in E2, Hm2. replace (prec - prec) with 0 in E2, Hm2 by lia.
    rewrite E2, Z.add_0_r.
    rewrite Z.div_1_r in Hm2. rewrite Hm2.
    replace (ex + n <=? emax - prec) with true
      by (symmetry; apply Z.leb_le; unfold n; lia).
    exists q, (ex + n). split; [ reflexivity | ].
    split; [ exact Hdq | ].
    split; [ unfold n; lia | ].
    rewrite Z.sub_diag, Z.mul_1_r.
    split; [ exact Hcase | ].
    intros Hl Hmod. apply Hexact. now apply Hex.
Qed.

(** *** Values *)

Lemma pow_split : forall a b B, B <= a -> a <= b ->
  2 ^ (b - B) = 2 ^ (b - a) * 2 ^ (a - B).
Proof.
  intros a b B H1 H2. rewrite <- Z.pow_add_r by lia. f_equal. lia.
Qed.

Lemma pow_pos : forall k, 0 <= k -> 0 < 2 ^ k.
Proof. intros. apply Z.pow_pos_nonneg; lia. Qed.

Lemma normal_bounds : forall m e B,
  Z.pos (digits2_pos m) = prec -> B <= e ->
  2 ^ (prec - 1 + e - B) <= Z.pos m * 2 ^ (e - B) < 2 ^ (prec + e - B).
Proof.
  intros m e B Hd HB.
  destruct (digits2_pos_bounds m) as [Blo Bhi]. rewrite Hd in Blo, Bhi.
  assert (Hp := pow_pos (e - B) ltac:(lia)).
  replace (prec - 1 + e - B) with ((prec - 1) + (e - B)) by lia.
  replace (prec + e - B) with (prec + (e - B)) by lia.
  rewrite !Z.pow_add_r by (unfold prec; lia). nia.
Qed.

(** Where the rounding of a positive [mx * 2^ex] lands with respect to
    the normal floats below and above it. *)
Lemma bra_lower : forall B sx (mx : positive) ex lx ml el,
  let d := Z.pos (digits2_pos mx) in
  prec <= d -> emin <= ex + d - prec -> ex + d <= emax - 1 -> B <= ex ->
  Z.pos (digits2_pos ml) = prec -> B <= el ->
  Z.pos ml * 2 ^ (el - B) <= Z.pos mx * 2 ^ (ex - B) ->
  exists mr er,
    binary_round_aux prec emax sx (Z.pos mx) ex lx = S754_finite sx mr er /\
    Z.pos (digits2_pos mr) = prec /\ ex <= er <= ex + (d - prec) + 1 /\
    er <= emax - prec /\
    Z.pos ml * 2 ^ (el - B) <= Z.pos mr * 2 ^ (er - B).
Proof.
  intros B sx mx ex lx ml el d Hd Hnorm Hover HB Hdl HBl Hle.
  destruct (bra_spec sx mx ex lx Hd Hnorm Hover) as (mr & er & Hr & Hdr & Her & Hcase & _).
  fold d in Hcase, Her. set (n := d - prec) in *. set (m' := Z.pos mx / 2 ^ n) in *.
  exists mr, er. split; auto. split; auto. split; [ lia | ]. split; [ lia | ].
  set (e' := ex + n) in *.
  assert (Hn : 0 <= n) by (unfold n; lia).
  assert (Hpn := pow_pos n Hn).
  assert (Hm'lo : m' * 2 ^ n <= Z.pos mx).
  { unfold m'. rewrite Z.mul_comm. apply Z.mul_div_le. lia. }
  assert (Hm'b : 2 ^ (prec - 1) <= m').
  { destruct (digits2_pos_bounds mx) as [Blo _]. fold d in Blo.
    unfold m'. apply Z.div_le_lower_bound; auto.
    rewrite <- Z.pow_add_r by (unfold prec; lia).
    replace (n + (prec - 1)) with (d - 1) by (unfold n; lia). auto. }
  assert (HR : m' * 2 ^ (e' - B) <= Z.pos mr * 2 ^ (er - B)).
  { rewrite (pow_split e' er B) by (unfold e'; lia).
    assert (0 < 2 ^ (e' - B)) by (apply pow_pos; unfold e'; lia).
    rewrite Z.mul_assoc. apply Z.mul_le_mono_nonneg_r; lia. }
  eapply Z.le_trans; [ | exact HR ].
  destruct (Z_le_gt_dec e' el) as [Hel | Hel].
  - rewrite (pow_split e' el B) by (unfold e'; lia).
    assert (Hp : 0 < 2 ^ (e' - B)) by (apply pow_pos; unfold e'; lia).
    rewrite Z.mul_assoc. apply Z.mul_le_mono_nonneg_r; try lia.
    unfold m'. apply Z.div_le_lower_bound; auto.
    rewrite (pow_split e' el B) in Hle by (unfold e'; lia).
    rewrite (pow_split ex e' B) in Hle by (unfold e'; lia).
    replace (e' - ex) with n in Hle by (unfold e'; lia).
    assert (Hq : 0 < 2 ^ (ex - B)) by (apply pow_pos; lia).
    assert (0 <= 2 ^ (el - e')) by (apply Z.pow_nonneg; lia).
    nia.
  - destruct (normal_bounds ml el B Hdl HBl) as [_ Hhi].
    assert (2 ^ (prec + el - B) <= 2 ^ (prec - 1 + (e' - B)))
      by (apply Z.pow_le_mono_r; lia).
    rewrite Z.pow_add_r in H by (unfold prec, e'; lia).
    assert (0 < 2 ^ (e' - B)) by (apply pow_pos; unfold e'; lia).
    nia.
Qed.

Lemma normal_exponent_le : forall m1 e1 m2 e2 B,
  Z.pos (digits2_pos m1) = prec -> Z.pos (digits2_pos m2) = prec ->
  B <= e1 -> B <= e2 ->
  Z.pos m1 * 2 ^ (e1 - B) <= Z.pos m2 * 2 ^ (e2 - B) -> e1 <= e2.
Proof.
  intros m1 e1 m2 e2 B H1 H2 HB1 HB2 Hle.
  destruct (normal_bounds m1 e1 B H1 HB1) as [L1 _].
  destruct (normal_bounds m2 e2 B H2 HB2) as [_ U2].
  destruct (Z_le_gt_dec e1 e2); auto. exfalso.
  assert (2 ^ (prec + e2 - B) <= 2 ^ (prec - 1 + e1 - B))
    by (apply Z.pow_le_mono_r; lia).
  lia.
Qed.

(** The same from above, for an exact mantissa. *)
Lemma bra_upper : forall B sx (mx : positive) ex mh eh,
  let d := Z.pos (digits2_pos mx) in
  prec <= d -> emin <= ex + d - prec -> B <= ex ->
  Z.pos (digits2_pos mh) = prec -> B <= eh -> eh <= emax - prec - 1 ->
  Z.pos mx * 2 ^ (ex - B) <= Z.pos mh * 2 ^ (eh - B) ->
  exists mr er,
    binary_round_aux prec emax sx (Z.pos mx) ex loc_Exact = S754_finite sx mr er /\
    Z.pos (digits2_pos mr) = prec /\ ex <= er <= eh /\
    Z.pos mr * 2 ^ (er - B) <= Z.pos mh * 2 ^ (eh - B).
Proof.
  intros B sx mx ex mh eh d Hd Hnorm HB Hdh HBh Heh Hle.
  assert (Hover : ex + d <= emax - 1).
  { destruct (digits2_pos_bounds mx) as [Blo _]. fold d in Blo.
    destruct (normal_bounds mh eh B Hdh HBh) as [_ Hhi].
    assert (Hp : 0 < 2 ^ (ex - B)) by (apply pow_pos; lia).
    assert (2 ^ (d - 1 + (ex - B)) < 2 ^ (prec + eh - B)).
    { rewrite Z.pow_add_r by (unfold prec in *; lia). nia. }
    apply Z.pow_lt_mono_r_iff in H; unfold prec in *; lia. }
  destruct (bra_spec sx mx ex loc_Exact Hd Hnorm Hover)
    as (mr & er & Hr & Hdr & Her & Hcase & Hexact).
  fold d in Hcase, Her, Hexact. set (n := d - prec) in *.
  set (m' := Z.pos mx / 2 ^ n) in *.
  specialize (Hexact eq_refl).
  set (e' := ex + n) in *.
  assert (Hn : 0 <= n) by (unfold n; lia).
  assert (Hpn := pow_pos n Hn).
  assert (Hm'lo : m' * 2 ^ n <= Z.pos mx).
  { unfold m'. rewrite Z.mul_comm. apply Z.mul_div_le. lia. }
  assert (Hm'b : 2 ^ (prec - 1) <= m').
  { destruct (digits2_pos_bounds mx) as [Blo _]. fold d in Blo.
    unfold m'. apply Z.div_le_lower_bound; auto.
    rewrite <- Z.pow_add_r by (unfold prec; lia).
    replace (n + (prec - 1)) with (d - 1) by (unfold n; lia). auto. }
  assert (Hpe : 0 < 2 ^ (e' - B)) by (apply pow_pos; unfold e'; lia).
  assert (Hpx : 0 < 2 ^ (ex - B)) by (apply pow_pos; lia).
  assert (HR : Z.pos mr * 2 ^ (er - B) = Z.pos mr * 2 ^ (er - e') * 2 ^ (e' - B)).
  { rewrite (pow_split e' er B) by (unfold e'; lia). ring. }
  assert (HX : 2 ^ (e' - B) = 2 ^ n * 2 ^ (ex - B)).
  { rewrite (pow_split ex e' B) by (unfold e'; lia). f_equal. f_equal. unfold e'. lia. }
  assert (Hmain : Z.pos mr * 2 ^ (er - B) <= Z.pos mh * 2 ^ (eh - B)).
  { rewrite HR.
    destruct (Z_le_gt_dec e' eh) as [Hel | Hel].
    - rewrite (pow_split e' eh B) by (unfold e'; lia).
      rewrite Z.mul_assoc. apply Z.mul_le_mono_nonneg_r; try lia.
      set (Hq := Z.pos mh * 2 ^ (eh - e')).
      assert (HmxH : Z.pos mx <= Hq * 2 ^ n).
      { rewrite (pow_split e' eh B) in Hle by (unfold e'; lia).
        rewrite HX in Hle. unfold Hq.
        assert (0 <= 2 ^ (eh - e')) by (apply Z.pow_nonneg; lia). nia. }
      assert (Hm'H : m' <= Hq).
      { unfold m'. apply Z.div_le_upper_bound; lia. }
      destruct Hcase as [-> | Hc]; auto.
      rewrite Hc.
      destruct (Z.eq_dec m' Hq) as [Heq | Hne]; try lia.
      exfalso.
      assert (Z.pos mx = Hq * 2 ^ n) by lia.
      assert (Hmod : Z.pos mx mod 2 ^ n = 0).
      { rewrite H. apply Z.mod_mul. lia. }
      specialize (Hexact Hmod). lia.
    - exfalso.
      destruct (normal_bounds mh eh B Hdh HBh) as [_ Hhi].
      assert (2 ^ (prec + eh - B) <= 2 ^ (prec - 1 + (e' - B)))
        by (apply Z.pow_le_mono_r; lia).
      rewrite Z.pow_add_r in H by (unfold prec, e'; lia).
      rewrite HX in *. nia. }
  exists mr, er. split; auto. split; auto. split; auto.
  split; [ lia | ].
  apply (normal_exponent_le mr er mh eh B); auto. lia.
Qed.

(** *** [binary_round]: alignment, then one rounding *)
Lemma iter_xO_pow : forall k m, Z.pos (Pos.iter xO m k) = Z.pos m * 2 ^ Z.pos k.
Proof.
  induction k as [|k IH] using Pos.peano_ind; intros m.
  - simpl. lia.
  - rewrite Pos.iter_succ, Pos2Z.inj_xO, IH, Pos2Z.inj_succ, Z.pow_succ_r by lia. ring.
Qed.

(** [shl_align] keeps the value. *)
Lemma shl_align_spec : forall B (mx : positive) ex,
  let d := Z.pos (digits2_pos mx) in
  emin <= d + ex - prec -> B <= emin -> B <= ex ->
  exists mz ez,
    shl_align mx ex (fexp prec emax (d + ex)) = (mz, ez) /\
    Z.pos mz * 2 ^ (ez - B) = Z.pos mx * 2 ^ (ex - B) /\
    prec <= Z.pos (digits2_pos mz) /\
    ez + Z.pos (digits2_pos mz) = ex + d /\ B <= ez /\ ez <= ex.
Proof.
  intros B mx ex d Hnorm HB HBx.
  unfold shl_align. rewrite fexp_normal by lia.
  destruct (d + ex - prec - ex) as [|k|k] eqn:Ek.
  - exists mx, ex. fold d. split; [ reflexivity | ]. repeat split; lia.
  - exists mx, ex. fold d. split; [ reflexivity | ]. repeat split; lia.
  - assert (Hk : Z.pos k = prec - d) by lia.
    assert (Hdz : Z.pos (digits2_pos (Pos.iter xO mx k)) = prec).
    { apply digits2_pos_unique. rewrite iter_xO_pow, Hk.
      destruct (digits2_pos_bounds mx) as [Blo Bhi]. fold d in Blo, Bhi.
      assert (0 < d) by (unfold d; lia).
      replace (prec - 1) with ((d - 1) + (prec - d)) by lia.
      replace (2 ^ prec) with (2 ^ (d + (prec - d))) by (f_equal; lia).
      rewrite !Z.pow_add_r by lia.
      assert (0 < 2 ^ (prec - d)) by (apply pow_pos; lia). nia. }
    exists (Pos.iter xO mx k), (d + ex - prec).
    split; [ reflexivity | ].
    rewrite Hdz. repeat split; try lia.
    rewrite iter_xO_pow, Hk.
    rewrite (pow_split (d + ex - prec) ex B) by lia.
    replace (ex - (d + ex - prec)) with (prec - d) by lia. ring.
Qed.

(** [binary_round] of a positive value lands between any two normal
    floats that bracket it. *)
Lemma binary_round_spec : forall B sx (m : positive) E mh eh,
  emin <= Z.pos (digits2_pos m) + E - prec -> B <= emin -> B <= E ->
  Z.pos (digits2_pos mh) = prec -> B <= eh -> eh <= emax - prec - 1 ->
  Z.pos m * 2 ^ (E - B) <= Z.pos mh * 2 ^ (eh - B) ->
  exists mr er,
    binary_round prec emax sx m E = S754_finite sx mr er /\
    Z.pos (digits2_pos mr) = prec /\ emin <= er <= eh /\
    Z.pos mr * 2 ^ (er - B) <= Z.pos mh * 2 ^ (eh - B) /\
    (forall ml el, Z.pos (digits2_pos ml) = prec -> B <= el ->
       Z.pos ml * 2 ^ (el - B) <= Z.pos m * 2 ^ (E - B) ->
       Z.pos ml * 2 ^ (el - B) <= Z.pos mr * 2 ^ (er - B)).
Proof.
  intros B sx m E mh eh Hnorm HB HBE Hdh HBh Heh Hle.
  unfold binary_round.
  destruct (shl_align_spec B m E Hnorm HB HBE) as (mz & ez & Hal & Hval & Hdz & Hsum & HBz & HzE).
  rewrite Hal. rewrite <- Hval in Hle.
  assert (Hnz : emin <= ez + Z.pos (digits2_pos mz) - prec) by lia.
  destruct (bra_upper B sx mz ez mh eh Hdz Hnz HBz Hdh HBh Heh Hle)
    as (mr & er & Hr & Hdr & Her & Hup).
  exists mr, er. split; auto. split; auto.
  split.
  { split; try lia.
    (* the result exponent is ez + digits - prec or one more *)
    destruct (bra_spec sx mz ez loc_Exact Hdz Hnz) as (mr' & er' & Hr' & _ & Her' & _).
    - destruct (digits2_pos_bounds mz) as [Blo _].
      destruct (normal_bounds mh eh B Hdh HBh) as [_ Hhi].
      assert (Hp : 0 < 2 ^ (ez - B)) by (apply pow_pos; lia).
      assert (2 ^ (Z.pos (digits2_pos mz) - 1 + (ez - B)) < 2 ^ (prec + eh - B)).
      { rewrite Z.pow_add_r by (unfold prec in *; lia). nia. }
      apply Z.pow_lt_mono_r_iff in H; unfold prec in *; lia.
    - rewrite Hr in Hr'. injection Hr' as <- <-. lia. }
  split; auto.
  intros ml el Hdl HBl Hlo. rewrite <- Hval in Hlo.
  assert (Hover : ez + Z.pos (digits2_pos mz) <= emax - 1).
  { destruct (digits2_pos_bounds mz) as [Blo _].
    destruct (normal_bounds mh eh B Hdh HBh) as [_ Hhi].
    assert (Hp : 0 < 2 ^ (ez - B)) by (apply pow_pos; lia).
    assert (2 ^ (Z.pos (digits2_pos mz) - 1 + (ez - B)) < 2 ^ (prec + eh - B)).
    { rewrite Z.pow_add_r by (unfold prec in *; lia). nia. }
    apply Z.pow_lt_mono_r_iff in H; unfold prec in *; lia. }
  destruct (bra_lower B sx mz ez loc_Exact ml el Hdz Hnz Hover HBz Hdl HBl Hlo)
    as (mr' & er' & Hr' & _ & _ & _ & Hlow).
  rewrite Hr in Hr'. injection Hr' as <- <-. exact Hlow.
Qed.

(** *** Signed rounding between two floats *)
Lemma nice_finite : forall s m e,
  nice (S754_finite s m e) = true ->
  Z.pos (digits2_pos m) = prec /\ emin <= e /\ e <= emax - prec - 1.
Proof.
  intros s m e H. unfold nice in H.
  apply andb_true_iff in H. destruct H as [H H3].
  apply andb_true_iff in H. destruct H as [H1 H2].
  apply Z.eqb_eq in H1. apply Z.leb_le in H2. apply Z.leb_le in H3. auto.
Qed.

Lemma finite_nice : forall s m e,
  Z.pos (digits2_pos m) = prec -> emin <= e -> e <= emax - prec - 1 ->
  nice (S754_finite s m e) = true.
Proof.
  intros s m e H1 H2 H3. unfold nice.
  apply Z.eqb_eq in H1. apply Z.leb_le in H2. apply Z.leb_le in H3.
  now rewrite H1, H2, H3.
Qed.

Lemma Zv_pos : forall B m e, B <= e -> 0 < Z.pos m * 2 ^ (e - B).
Proof.
  intros B m e H. assert (0 < 2 ^ (e - B)) by (apply pow_pos; lia). nia.
Qed.

(** [binary_normalize] of [M * 2^E] lands between any two nice numbers
    that bracket it, when the value is zero or in the normal range. *)
Theorem bn_between : forall B M E lo hi,
  B <= emin -> B <= E -> nice lo = true -> nice hi = true ->
  Zv B lo <= M * 2 ^ (E - B) <= Zv B hi ->
  (M = 0 \/ emin <= Zdigits2 M + E - prec) ->
  let r := binary_normalize prec emax M E false in
  nice r = true /\ Zv B lo <= Zv B r <= Zv B hi.
Proof.
  intros B M E lo hi HB HBE Hlo Hhi [HL HU] Hmag r.
  destruct M as [|m|m].
  - (* zero *)
    subst r. cbn [binary_normalize Zv]. rewrite Z.mul_0_l in HL, HU.
    split; [ reflexivity | lia ].
  - (* positive *)
    destruct Hmag as [Hmag | Hmag]; [ discriminate | ]. cbn [Zdigits2] in Hmag.
    assert (HX := Zv_pos B m E HBE).
    destruct hi as [sh | sh | | sh mh eh]; try discriminate.
    { cbn [Zv cond_Zopp] in HU. lia. }
    destruct (nice_finite _ _ _ Hhi) as (Hdh & Hemh & Heh).
    destruct sh.
    { cbn [Zv cond_Zopp] in HU. assert (H := Zv_pos B mh eh ltac:(lia)). lia. }
    cbn [Zv cond_Zopp] in HU.
    destruct (binary_round_spec B false m E mh eh Hmag HB HBE Hdh ltac:(lia) Heh HU)
      as (mr & er & Hr & Hdr & Her & Hup & Hlow).
    subst r. cbn [binary_normalize]. rewrite Hr.
    split; [ apply finite_nice; lia | ].
    cbn [Zv cond_Zopp]. split; auto.
    destruct lo as [sl | sl | | sl ml el]; try discriminate.
    { cbn [Zv cond_Zopp]. assert (H := Zv_pos B mr er ltac:(lia)). lia. }
    destruct (nice_finite _ _ _ Hlo) as (Hdl & Heml & Hel).
    destruct sl; cbn [Zv cond_Zopp] in *.
    + assert (H := Zv_pos B mr er ltac:(lia)).
      assert (H' := Zv_pos B ml el ltac:(lia)). lia.
    + apply Hlow; auto. lia.
  - (* negative *)
    destruct Hmag as [Hmag | Hmag]; [ discriminate | ]. cbn [Zdigits2] in Hmag.
    assert (HX := Zv_pos B m E HBE).
    assert (HXn : Z.neg m * 2 ^ (E - B) = - (Z.pos m * 2 ^ (E - B))) by lia.
    rewrite HXn in HL, HU.
    destruct lo as [sl | sl | | sl ml el]; try discriminate.
    { cbn [Zv cond_Zopp] in HL. lia. }
    destruct (nice_finite _ _ _ Hlo) as (Hdl & Heml & Hel).
    destruct sl.
    2:{ cbn [Zv cond_Zopp] in HL. assert (H := Zv_pos B ml el ltac:(lia)). lia. }
    cbn [Zv cond_Zopp] in HL.
    assert (HL' : Z.pos m * 2 ^ (E - B) <= Z.pos ml * 2 ^ (el - B)) by lia.
    destruct (binary_round_spec B true m E ml el Hmag HB HBE Hdl ltac:(lia) Hel HL')
      as (mr & er & Hr & Hdr & Her & Hup & Hlow).
    subst r. cbn [binary_normalize]. rewrite Hr.
    split; [ apply finite_nice; lia | ].
    cbn [Zv cond_Zopp]. split; [ lia | ].
    destruct hi as [sh | sh | | sh mh eh]; try discriminate.
    { cbn [Zv cond_Zopp]. assert (H := Zv_pos B mr er ltac:(lia)). lia. }
    destruct (nice_finite _ _ _ Hhi) as (Hdh & Hemh & Heh).
    destruct sh; cbn [Zv cond_Zopp] in *.
    + assert (mhle : Z.pos mh * 2 ^ (eh - B) <= Z.pos mr * 2 ^ (er - B)).
      { apply Hlow; auto; lia. }
      lia.
    + assert (H := Zv_pos B mr er ltac:(lia)).
      assert (H' := Zv_pos B mh eh ltac:(lia)). lia.
Qed.

(** *** Representable values *)

Lemma canon_spec : forall B s m e,
  B <= emin -> Z.pos m < 2 ^ prec -> -1022 <= e <= 970 ->
  nice (canon s m e) = true /\
  Zv B (canon s m e) = cond_Zopp s (Z.pos m * 2 ^ (e - B)).
Proof.
  intros B s m e HB Hm He.
  destruct (digits2_pos_bounds m) as [Blo Bhi].
  assert (Hd : Z.pos (digits2_pos m) <= prec).
  { destruct (Z_le_gt_dec (Z.pos (digits2_pos m)) prec); auto. exfalso.
    assert (2 ^ prec <= 2 ^ (Z.pos (digits2_pos m) - 1))
      by (apply Z.pow_le_mono_r; lia). lia. }
  assert (Hnorm : emin <= Z.pos (digits2_pos m) + e - prec)
    by (unfold emin, prec, emax in *; lia).
  destruct (shl_align_spec B m e Hnorm HB) as (mz & ez & Hal & Hval & Hdz & Hsum & HBz & HzE).
  { unfold emin, prec, emax in *; lia. }
  unfold canon. rewrite Hal.
  assert (Hdz' : Z.pos (digits2_pos mz) = prec).
  { unfold shl_align in Hal. rewrite fexp_normal in Hal by lia.
    destruct (Z.pos (digits2_pos m) + e - prec - e) as [|k|k] eqn:Ek;
      injection Hal as <- <-; try lia.
    apply digits2_pos_unique. rewrite iter_xO_pow.
    assert (Hk : Z.pos k = prec - Z.pos (digits2_pos m)) by lia. rewrite Hk.
    set (d := Z.pos (digits2_pos m)) in *.
    assert (0 < d) by (unfold d; lia).
    replace (prec - 1) with ((d - 1) + (prec - d)) by lia.
    replace (2 ^ prec) with (2 ^ (d + (prec - d))) by (f_equal; lia).
    rewrite !Z.pow_add_r by lia.
    assert (0 < 2 ^ (prec - d)) by (apply pow_pos; lia). nia. }
  split.
  - apply finite_nice; auto; unfold emin, prec, emax in *; lia.
  - cbn [Zv]. now rewrite Hval.
Qed.

(** [canonZ M e] is nice and has the value [M * 2^e]. *)
Lemma canonZ_spec : forall B M e,
  B <= emin -> Z.abs M < 2 ^ prec -> -1022 <= e <= 970 ->
  nice (canonZ M e) = true /\ Zv B (canonZ M e) = M * 2 ^ (e - B).
Proof.
  intros B M e HB HM He. destruct M as [|m|m]; cbn [canonZ].
  - split; reflexivity.
  - apply (canon_spec B false m e); auto.
  - destruct (canon_spec B true m e) as [H1 H2]; auto.
    split; auto. rewrite H2. cbn [cond_Zopp]. lia.
Qed.

(** *** Order *)

(** Nice numbers compare as their values do. *)
Lemma SFcompare_nice : forall a b,
  nice a = true -> nice b = true ->
  SFcompare a b = Some (Zv emin a ?= Zv emin b).
Proof.
  intros a b Ha Hb.
  destruct a as [sa | sa | | sa ma ea]; try discriminate;
  destruct b as [sb | sb | | sb mb eb]; try discriminate.
  - reflexivity.
  - destruct (nice_finite _ _ _ Hb) as (Hdb & Heb & _).
    assert (H := Zv_pos emin mb eb Heb).
    cbn [SFcompare Zv]. destruct sb; cbn [cond_Zopp]; f_equal; symmetry.
    + apply Z.compare_gt_iff. lia.
    + apply Z.compare_lt_iff. lia.
  - destruct (nice_finite _ _ _ Ha) as (Hda & Hea & _).
    assert (H := Zv_pos emin ma ea Hea).
    cbn [SFcompare Zv]. destruct sa; cbn [cond_Zopp]; f_equal; symmetry.
    + apply Z.compare_lt_iff. lia.
    + apply Z.compare_gt_iff. lia.
  - destruct (nice_finite _ _ _ Ha) as (Hda & Hea & _).
    destruct (nice_finite _ _ _ Hb) as (Hdb & Heb & _).
    assert (HA := Zv_pos emin ma ea Hea).
    assert (HB := Zv_pos emin mb eb Heb).
    destruct (normal_bounds ma ea emin Hda Hea) as [La Ua].
    destruct (normal_bounds mb eb emin Hdb Heb) as [Lb Ub].
    assert (Hcmp : (Z.pos ma * 2 ^ (ea - emin) ?= Z.pos mb * 2 ^ (eb - emin))
                   = match ea ?= eb with
                     | Lt => Lt
                     | Gt => Gt
                     | Eq => Pos.compare_cont Eq ma mb
                     end).
    { destruct (Z.compare_spec ea eb) as [Ee | Ee | Ee].
      - subst eb.
        change (Pos.compare_cont Eq ma mb) with (Z.pos ma ?= Z.pos mb).
        assert (Hp : 0 < 2 ^ (ea - emin)) by (apply pow_pos; lia).
        destruct (Z.compare_spec (Z.pos ma) (Z.pos mb)) as [Em | Em | Em].
        + rewrite Em. apply Z.compare_refl.
        + apply Z.compare_lt_iff. apply Z.mul_lt_mono_pos_r; auto.
        + apply Z.compare_gt_iff. apply Z.mul_lt_mono_pos_r; auto.
      - apply Z.compare_lt_iff.
        assert (2 ^ (prec + ea - emin) <= 2 ^ (prec - 1 + eb - emin))
          by (apply Z.pow_le_mono_r; lia). lia.
      - apply Z.compare_gt_iff.
        assert (2 ^ (prec + eb - emin) <= 2 ^ (prec - 1 + ea - emin))
          by (apply Z.pow_le_mono_r; lia). lia. }
    cbn [SFcompare Zv].
    destruct sa, sb; cbn [cond_Zopp]; f_equal.
    + rewrite Z.compare_opp.
      rewrite (Z.compare_antisym (Z.pos ma * 2 ^ (ea - emin))), Hcmp.
      destruct (ea ?= eb); reflexivity.
    + symmetry. apply Z.compare_lt_iff. lia.
    + symmetry. apply Z.compare_gt_iff. lia.
    + now rewrite Hcmp.
Qed.

(** *** The operations on spec floats *)
Lemma Zdigits2_bound : forall M, Z.abs M < 2 ^ Zdigits2 M \/ M = 0.
Proof.
  intros [|m|m]; auto; left; cbn [Zdigits2 Z.abs];
    destruct (digits2_pos_bounds m); lia.
Qed.

Lemma mag_digits : forall B M E,
  B <= emin -> B <= E ->
  2 ^ (prec - 1 + emin - B) <= Z.abs (M * 2 ^ (E - B)) ->
  emin <= Zdigits2 M + E - prec.
Proof.
  intros B M E HB HBE Hmag.
  assert (Hp : 0 < 2 ^ (E - B)) by (apply pow_pos; lia).
  rewrite Z.abs_mul, (Z.abs_eq (2 ^ (E - B))) in Hmag by lia.
  destruct (Zdigits2_bound M) as [Hd | ->].
  - assert (Hlt : 2 ^ (prec - 1 + emin - B) < 2 ^ (Zdigits2 M + (E - B))).
    { assert (0 <= Zdigits2 M) by (destruct M; simpl; lia).
      rewrite Z.pow_add_r by lia. nia. }
    destruct (Z_le_gt_dec emin (Zdigits2 M + E - prec)); auto. exfalso.
    assert (2 ^ (Zdigits2 M + (E - B)) <= 2 ^ (prec - 1 + emin - B))
      by (apply Z.pow_le_mono_r; lia).
    lia.
  - rewrite Z.mul_0_l in Hmag.
    assert (0 < 2 ^ (prec - 1 + emin - B)); [ | lia ].
    apply pow_pos. unfold prec in *. lia.
Qed.

Lemma shl_align_fst : forall mx ex ez,
  ez <= ex -> Z.pos (fst (shl_align mx ex ez)) = Z.pos mx * 2 ^ (ex - ez).
Proof.
  intros mx ex ez H. unfold shl_align.
  destruct (ez - ex) as [|k|k] eqn:Ek; cbn [fst]; try lia.
  - replace (ex - ez) with 0 by lia. simpl. lia.
  - rewrite iter_xO_pow. f_equal. f_equal. lia.
Qed.

Lemma cond_Zopp_mul : forall s a b, cond_Zopp s a * b = cond_Zopp s (a * b).
Proof. intros [] a b; simpl; lia. Qed.

Lemma Zv_zero : forall B s, Zv B (S754_zero s) = 0.
Proof. reflexivity. Qed.

(** The sum of two nice numbers is rounded between any two nice numbers
    that bracket the exact sum; likewise the difference and the product. *)
Lemma SFadd_between : forall a b lo hi,
  nice a = true -> nice b = true -> nice lo = true -> nice hi = true ->
  Zv emin lo <= Zv emin a + Zv emin b <= Zv emin hi ->
  (Zv emin a + Zv emin b = 0 \/ 2 ^ (prec - 1) <= Z.abs (Zv emin a + Zv emin b)) ->
  nice (SFadd prec emax a b) = true /\
  Zv emin lo <= Zv emin (SFadd prec emax a b) <= Zv emin hi.
Proof.
  intros a b lo hi Ha Hb Hlo Hhi Hbnd Hmag.
  destruct a as [sa | sa | | sa ma ea]; try discriminate;
  destruct b as [sb | sb | | sb mb eb]; try discriminate.
  - rewrite !Zv_zero in Hbnd. destruct sa, sb; simpl; split; auto.
  - rewrite Zv_zero, Z.add_0_l in Hbnd. cbn [SFadd]. auto.
  - rewrite Zv_zero, Z.add_0_r in Hbnd. cbn [SFadd]. auto.
  - destruct (nice_finite _ _ _ Ha) as (Hda & Hea & _).
    destruct (nice_finite _ _ _ Hb) as (Hdb & Heb & _).
    cbn [SFadd]. set (ez := Z.min ea eb).
    set (M := cond_Zopp sa (Z.pos (fst (shl_align ma ea ez)))
              + cond_Zopp sb (Z.pos (fst (shl_align mb eb ez)))).
    assert (HM : M * 2 ^ (ez - emin)
                 = Zv emin (S754_finite sa ma ea) + Zv emin (S754_finite sb mb eb)).
    { unfold M. rewrite !shl_align_fst by (unfold ez; lia).
      rewrite Z.mul_add_distr_r, !cond_Zopp_mul. cbn [Zv].
      rewrite (pow_split ez ea emin), (pow_split ez eb emin) by (unfold ez; lia).
      rewrite !Z.mul_assoc. reflexivity. }
    apply (bn_between emin M ez lo hi); auto; try lia.
    destruct (Z.eq_dec M 0) as [E0 | E0]; auto. right.
    apply (mag_digits emin); [ lia | unfold ez; lia | ].
    rewrite HM. replace (prec - 1 + emin - emin) with (prec - 1) by lia.
    destruct Hmag as [Hz | Hm]; auto.
    exfalso. rewrite <- HM in Hz.
    assert (0 < 2 ^ (ez - emin)) by (apply pow_pos; unfold ez; lia). nia.
Qed.

Lemma SFsub_between : forall a b lo hi,
  nice a = true -> nice b = true -> nice lo = true -> nice hi = true ->
  Zv emin lo <= Zv emin a - Zv emin b <= Zv emin hi ->
  (Zv emin a - Zv emin b = 0 \/ 2 ^ (prec - 1) <= Z.abs (Zv emin a - Zv emin b)) ->
  nice (SFsub prec emax a b) = true /\
  Zv emin lo <= Zv emin (SFsub prec emax a b) <= Zv emin hi.
Proof.
  intros a b lo hi Ha Hb Hlo Hhi Hbnd Hmag.
  destruct a as [sa | sa | | sa ma ea]; try discriminate;
  destruct b as [sb | sb | | sb mb eb]; try discriminate.
  - rewrite !Zv_zero in Hbnd. destruct sa, sb; simpl; split; auto.
  - rewrite Zv_zero, Z.sub_0_l in Hbnd. cbn [SFsub]. split.
    + exact Hb.
    + cbn [Zv] in *. destruct sb; cbn [negb cond_Zopp] in *; lia.
  - rewrite Zv_zero, Z.sub_0_r in Hbnd. cbn [SFsub]. auto.
  - destruct (nice_finite _ _ _ Ha) as (Hda & Hea & _).
    destruct (nice_finite _ _ _ Hb) as (Hdb & Heb & _).
    cbn [SFsub]. set (ez := Z.min ea eb).
    set (M := cond_Zopp sa (Z.pos (fst (shl_align ma ea ez)))
              - cond_Zopp sb (Z.pos (fst (shl_align mb eb ez)))).
    assert (HM : M * 2 ^ (ez - emin)
                 = Zv emin (S754_finite sa ma ea) - Zv emin (S754_finite sb mb eb)).
    { unfold M. rewrite !shl_align_fst by (unfold ez; lia).
      rewrite Z.mul_sub_distr_r, !cond_Zopp_mul. cbn [Zv].
      rewrite (pow_split ez ea emin), (pow_split ez eb emin) by (unfold ez; lia).
      rewrite !Z.mul_assoc. reflexivity. }
    apply (bn_between emin M ez lo hi); auto; try lia.
    destruct (Z.eq_dec M 0) as [E0 | E0]; auto. right.
    apply (mag_digits emin); [ lia | unfold ez; lia | ].
    rewrite HM. replace (prec - 1 + emin - emin) with (prec - 1) by lia.
    destruct Hmag as [Hz | Hm]; auto.
    exfalso. rewrite <- HM in Hz.
    assert (0 < 2 ^ (ez - emin)) by (apply pow_pos; unfold ez; lia). nia.
Qed.

Lemma binary_round_long : forall s m E,
  prec <= Z.pos (digits2_pos m) ->
  binary_round prec emax s m E = binary_round_aux prec emax s (Z.pos m) E loc_Exact.
Proof.
  intros s m E Hd. unfold binary_round, shl_align.
  assert (H : 0 <= fexp prec emax (Z.pos (digits2_pos m) + E) - E)
    by (unfold fexp; lia).
  destruct (fexp prec emax (Z.pos (digits2_pos m) + E) - E); try lia; reflexivity.
Qed.

Lemma digits_mul : forall ma mb,
  Z.pos (digits2_pos ma) = prec -> Z.pos (digits2_pos mb) = prec ->
  prec <= Z.pos (digits2_pos (ma * mb)).
Proof.
  intros ma mb Ha Hb.
  destruct (digits2_pos_bounds ma) as [La _]. rewrite Ha in La.
  destruct (digits2_pos_bounds mb) as [Lb _]. rewrite Hb in Lb.
  destruct (digits2_pos_bounds (ma * mb)) as [_ U].
  rewrite Pos2Z.inj_mul in U.
  destruct (Z_le_gt_dec prec (Z.pos (digits2_pos (ma * mb)))); auto. exfalso.
  assert (2 ^ Z.pos (digits2_pos (ma * mb)) <= 2 ^ (prec - 1))
    by (apply Z.pow_le_mono_r; lia).
  assert (1 < 2 ^ (prec - 1)) by (unfold prec; reflexivity).
  nia.
Qed.

Lemma Zv_rebase : forall f,
  nice f = true -> Zv (emin + emin) f = Zv emin f * 2 ^ (- emin).
Proof.
  intros [s | s | | s m e] H; try reflexivity.
  destruct (nice_finite _ _ _ H) as (_ & He & _).
  cbn [Zv]. rewrite cond_Zopp_mul. f_equal.
  rewrite <- Z.mul_assoc, <- Z.pow_add_r by (unfold emin, prec, emax in *; lia).
  f_equal. f_equal. lia.
Qed.

Lemma SFmul_between : forall a b lo hi,
  nice a = true -> nice b = true -> nice lo = true -> nice hi = true ->
  Zv emin lo * 2 ^ (- emin) <= Zv emin a * Zv emin b <= Zv emin hi * 2 ^ (- emin) ->
  (Zv emin a * Zv emin b = 0
   \/ 2 ^ (prec - 1 - emin) <= Z.abs (Zv emin a * Zv emin b)) ->
  nice (SFmul prec emax a b) = true /\
  Zv emin lo <= Zv emin (SFmul prec emax a b) <= Zv emin hi.
Proof.
  intros a b lo hi Ha Hb Hlo Hhi Hbnd Hmag.
  assert (HK : 0 < 2 ^ (- emin)) by (apply pow_pos; unfold emin, prec, emax; lia).
  assert (Hz : Zv emin a * Zv emin b = 0 -> Zv emin lo <= 0 <= Zv emin hi).
  { intros E. rewrite E in Hbnd. nia. }
  destruct a as [sa | sa | | sa ma ea]; try discriminate;
  destruct b as [sb | sb | | sb mb eb]; try discriminate;
  try (cbn [SFmul]; split; [ reflexivity | apply Hz; cbn [Zv]; lia ]).
  destruct (nice_finite _ _ _ Ha) as (Hda & Hea & _).
  destruct (nice_finite _ _ _ Hb) as (Hdb & Heb & _).
  cbn [SFmul].
  rewrite <- binary_round_long by (now apply digits_mul).
  set (M := cond_Zopp (xorb sa sb) (Z.pos (ma * mb))).
  assert (Hbn : binary_round prec emax (xorb sa sb) (ma * mb) (ea + eb)
                = binary_normalize prec emax M (ea + eb) false).
  { unfold M. destruct (xorb sa sb); reflexivity. }
  rewrite Hbn.
  assert (HM : M * 2 ^ (ea + eb - (emin + emin))
               = Zv emin (S754_finite sa ma ea) * Zv emin (S754_finite sb mb eb)).
  { unfold M. cbn [Zv]. rewrite Pos2Z.inj_mul.
    replace (ea + eb - (emin + emin)) with ((ea - emin) + (eb - emin)) by lia.
    rewrite Z.pow_add_r by lia.
    destruct sa, sb; cbn [xorb cond_Zopp]; ring. }
  destruct (bn_between (emin + emin) M (ea + eb) lo hi) as [Hn Hb'];
    auto; try (unfold emin, prec, emax in *; lia).
  - rewrite HM, !Zv_rebase by auto. exact Hbnd.
  - destruct (Z.eq_dec M 0) as [E0 | E0]; auto. right.
    apply (mag_digits (emin + emin));
      [ unfold emin, prec, emax; lia | unfold emin, prec, emax in *; lia | ].
    rewrite HM. replace (prec - 1 + emin - (emin + emin)) with (prec - 1 - emin) by lia.
    destruct Hmag as [Hz' | Hm]; auto.
    exfalso. rewrite <- HM in Hz'.
    assert (0 < 2 ^ (ea + eb - (emin + emin))) by (apply pow_pos; lia). nia.
  - split; auto. rewrite !Zv_rebase in Hb' by auto. nia.
Qed.

(** *** Division: the quotient is not rounded below a float under it *)
Lemma SFdiv_core_nice : forall ma ea mb eb,
  Z.pos (digits2_pos ma) = prec -> Z.pos (digits2_pos mb) = prec ->
  emin <= ea - eb - prec ->
  SFdiv_core_binary prec emax (Z.pos ma) ea (Z.pos mb) eb
  = (let (q, r) := Z.div_eucl (Z.pos ma * 2 ^ prec) (Z.pos mb) in
     (q, ea - eb - prec, new_location (Z.pos mb) r)).
Proof.
  intros ma ea mb eb Hda Hdb Hnorm.
  unfold SFdiv_core_binary. cbn [Zdigits2]. rewrite Hda, Hdb.
  replace (prec + ea - (prec + eb)) with (ea - eb) by lia.
  rewrite fexp_normal by lia.
  replace (Z.min (ea - eb - prec) (ea - eb)) with (ea - eb - prec)
    by (pose proof (eq_refl : prec = 53); lia).
  replace (ea - eb - (ea - eb - prec)) with prec by lia.
  change (match prec with
          | 0 => Z.pos ma
          | Z.pos _ => Z.shiftl (Z.pos ma) prec
          | Z.neg _ => 0
          end) with (Z.shiftl (Z.pos ma) prec).
  rewrite Z.shiftl_mul_pow2 by (pose proof (eq_refl : prec = 53); lia).
  reflexivity.
Qed.

(** A positive quotient is not rounded below a nice number under the exact
    quotient. *)
Lemma SFdiv_lower_pos : forall ma ea mb eb ml el,
  nice (S754_finite false ma ea) = true ->
  nice (S754_finite false mb eb) = true ->
  nice (S754_finite false ml el) = true ->
  emin <= ea - eb - prec -> ea - eb <= emax - prec - 3 ->
  Z.pos ml * 2 ^ (el - emin) * (Z.pos mb * 2 ^ (eb - emin))
    <= Z.pos ma * 2 ^ (ea - emin) * 2 ^ (- emin) ->
  let r := SFdiv prec emax (S754_finite false ma ea) (S754_finite false mb eb) in
  nice r = true /\ Z.pos ml * 2 ^ (el - emin) <= Zv emin r.
Proof.
  intros ma ea mb eb ml el Ha Hb Hl Hnorm Hover Hle r.
  destruct (nice_finite _ _ _ Ha) as (Hda & Hea & _).
  destruct (nice_finite _ _ _ Hb) as (Hdb & Heb & _).
  destruct (nice_finite _ _ _ Hl) as (Hdl & Hel & _).
  destruct (digits2_pos_bounds ma) as [La Ua]. rewrite Hda in La, Ua.
  destruct (digits2_pos_bounds mb) as [Lb Ub]. rewrite Hdb in Lb, Ub.
  subst r. cbn [SFdiv xorb]. rewrite SFdiv_core_nice by auto.
  set (e' := ea - eb - prec).
  pose proof (Z_div_mod (Z.pos ma * 2 ^ prec) (Z.pos mb) ltac:(lia)) as Hdm.
  destruct (Z.div_eucl (Z.pos ma * 2 ^ prec) (Z.pos mb)) as [q rem].
  destruct Hdm as [Hq Hrem].
  assert (HP : 2 ^ prec = 2 * 2 ^ (prec - 1)) by (unfold prec; reflexivity).
  assert (HP1 : 0 < 2 ^ (prec - 1)) by (unfold prec; reflexivity).
  assert (Hqb : 2 ^ (prec - 1) <= q < 2 ^ (prec + 1)).
  { replace (2 ^ (prec + 1)) with (2 * 2 ^ prec) by (unfold prec; reflexivity).
    split; nia. }
  destruct q as [|qp|qp]; try lia.
  assert (Hdq : prec <= Z.pos (digits2_pos qp)).
  { destruct (digits2_pos_bounds qp) as [_ Uq].
    destruct (Z_le_gt_dec prec (Z.pos (digits2_pos qp))); auto. exfalso.
    assert (2 ^ Z.pos (digits2_pos qp) <= 2 ^ (prec - 1))
      by (apply Z.pow_le_mono_r; lia). lia. }
  assert (Hdq' : Z.pos (digits2_pos qp) <= prec + 1).
  { destruct (digits2_pos_bounds qp) as [Lq _].
    destruct (Z_le_gt_dec (Z.pos (digits2_pos qp)) (prec + 1)); auto. exfalso.
    assert (2 ^ (prec + 1) <= 2 ^ (Z.pos (digits2_pos qp) - 1))
      by (apply Z.pow_le_mono_r; lia). lia. }
  assert (Hlow : Z.pos ml * 2 ^ (el - emin) <= Z.pos qp * 2 ^ (e' - emin)).
  { assert (Hpe : 0 < 2 ^ (e' - emin)) by (apply pow_pos; unfold e'; lia).
    destruct (Z_le_gt_dec e' el) as [Hc | Hc].
    - rewrite (pow_split e' el emin) by (unfold e'; lia).
      rewrite Z.mul_assoc. apply Z.mul_le_mono_nonneg_r; try lia.
      (* L * mb <= ma * 2^prec, hence L <= q *)
      set (L := Z.pos ml * 2 ^ (el - e')).
      assert (HL : L * Z.pos mb <= Z.pos ma * 2 ^ prec).
      { assert (Hfac : 2 ^ (ea - emin) * 2 ^ (- emin)
                       = 2 ^ prec * (2 ^ (e' - emin) * 2 ^ (eb - emin))).
        { rewrite <- !Z.pow_add_r by (unfold e', emin, prec, emax in *; lia).
          f_equal. unfold e'. lia. }
        rewrite (pow_split e' el emin) in Hle by (unfold e'; lia).
        replace (Z.pos ma * 2 ^ (ea - emin) * 2 ^ (- emin))
          with (Z.pos ma * (2 ^ prec * (2 ^ (e' - emin) * 2 ^ (eb - emin)))) in Hle
          by (rewrite <- Hfac; ring).
        assert (Hpb : 0 < 2 ^ (eb - emin)) by (apply pow_pos; lia).
        assert (0 < 2 ^ (e' - emin) * 2 ^ (eb - emin)) by nia.
        fold L in Hle. nia. }
      assert (0 <= L) by (unfold L; assert (0 <= 2 ^ (el - e')) by (apply Z.pow_nonneg; lia); nia).
      nia.
    - destruct (normal_bounds ml el emin Hdl Hel) as [_ Uhi].
      assert (2 ^ (prec + el - emin) <= 2 ^ (prec - 1 + (e' - emin)))
        by (apply Z.pow_le_mono_r; lia).
      rewrite Z.pow_add_r in H
        by (pose proof (eq_refl : prec = 53); unfold e'; lia).
      nia. }
  destruct (bra_lower emin false qp e' (new_location (Z.pos mb) rem) ml el)
    as (mr & er & Hr & Hdr & Her & Her' & Hres); auto; try (unfold e'; lia).
  rewrite Hr. split.
  - apply finite_nice; auto; unfold e' in *; lia.
  - exact Hres.
Qed.

(** *** Primitive floats *)

(** The comparisons of nice numbers are those of their exact values. *)
Lemma ltb_fv : forall a b, fnice a = true -> fnice b = true ->
  PrimFloat.ltb a b = (fv a <? fv b).
Proof.
  intros a b Ha Hb. rewrite FloatAxioms.ltb_spec. unfold SFltb.
  rewrite (SFcompare_nice _ _ Ha Hb). unfold Z.ltb, fv.
  destruct (Zv emin (Prim2SF a) ?= Zv emin (Prim2SF b)); reflexivity.
Qed.

Lemma leb_fv : forall a b, fnice a = true -> fnice b = true ->
  PrimFloat.leb a b = (fv a <=? fv b).
Proof.
  intros a b Ha Hb. rewrite FloatAxioms.leb_spec. unfold SFleb.
  rewrite (SFcompare_nice _ _ Ha Hb). unfold Z.leb, fv.
  destruct (Zv emin (Prim2SF a) ?= Zv emin (Prim2SF b)); reflexivity.
Qed.

Lemma eqb_fv : forall a b, fnice a = true -> fnice b = true ->
  PrimFloat.eqb a b = (fv a =? fv b).
Proof.
  intros a b Ha Hb. rewrite FloatAxioms.eqb_spec. unfold SFeqb.
  rewrite (SFcompare_nice _ _ Ha Hb). unfold fv.
  destruct (Z.compare_spec (Zv emin (Prim2SF a)) (Zv emin (Prim2SF b)));
    destruct (Z.eqb_spec (Zv emin (Prim2SF a)) (Zv emin (Prim2SF b)));
    try reflexivity; lia.
Qed.

Lemma fnice_not_nan : forall a, fnice a = true -> PrimFloat.is_nan a = false.
Proof.
  intros a Ha. unfold PrimFloat.is_nan.
  rewrite (eqb_fv a a Ha Ha), Z.eqb_refl. reflexivity.
Qed.

(** The operations on numbers, with the brackets given by a mantissa and
    an exponent. *)
Lemma add_between : forall a b L el H eh,
  fnice a = true -> fnice b = true -> repr L el -> repr H eh ->
  L * 2 ^ (el - emin) <= fv a + fv b <= H * 2 ^ (eh - emin) ->
  (fv a + fv b = 0 \/ 2 ^ (prec - 1) <= Z.abs (fv a + fv b)) ->
  fnice (a + b) = true /\
  L * 2 ^ (el - emin) <= fv (a + b) <= H * 2 ^ (eh - emin).
Proof.
  intros a b L el H eh Ha Hb [HL Hel] [HH Heh] Hbnd Hmag.
  destruct (canonZ_spec emin L el) as [NL VL]; auto; try lia.
  destruct (canonZ_spec emin H eh) as [NH VH]; auto; try lia.
  rewrite <- VL, <- VH in Hbnd |- *.
  unfold fnice, fv. rewrite FloatAxioms.add_spec.
  apply SFadd_between; auto.
Qed.

Lemma sub_between : forall a b L el H eh,
  fnice a = true -> fnice b = true -> repr L el -> repr H eh ->
  L * 2 ^ (el - emin) <= fv a - fv b <= H * 2 ^ (eh - emin) ->
  (fv a - fv b = 0 \/ 2 ^ (prec - 1) <= Z.abs (fv a - fv b)) ->
  fnice (a - b) = true /\
  L * 2 ^ (el - emin) <= fv (a - b) <= H * 2 ^ (eh - emin).
Proof.
  intros a b L el H eh Ha Hb [HL Hel] [HH Heh] Hbnd Hmag.
  destruct (canonZ_spec emin L el) as [NL VL]; auto; try lia.
  destruct (canonZ_spec emin H eh) as [NH VH]; auto; try lia.
  rewrite <- VL, <- VH in Hbnd |- *.
  unfold fnice, fv. rewrite FloatAxioms.sub_spec.
  apply SFsub_between; auto.
Qed.

Lemma mul_between : forall a b L el H eh,
  fnice a = true -> fnice b = true -> repr L el -> repr H eh ->
  L * 2 ^ (el - emin) * 2 ^ (- emin) <= fv a * fv b
    <= H * 2 ^ (eh - emin) * 2 ^ (- emin) ->
  (fv a * fv b = 0 \/ 2 ^ (prec - 1 - emin) <= Z.abs (fv a * fv b)) ->
  fnice (a * b) = true /\
  L * 2 ^ (el - emin) <= fv (a * b) <= H * 2 ^ (eh - emin).
Proof.
  intros a b L el H eh Ha Hb [HL Hel] [HH Heh] Hbnd Hmag.
  destruct (canonZ_spec emin L el) as [NL VL]; auto; try lia.
  destruct (canonZ_spec emin H eh) as [NH VH]; auto; try lia.
  rewrite <- VL, <- VH in Hbnd |- *.
  unfold fnice, fv. rewrite FloatAxioms.mul_spec.
  apply SFmul_between; auto.
Qed.

Lemma nice_SFopp : forall f, nice (SFopp f) = nice f.
Proof. destruct f; reflexivity. Qed.

Lemma Zv_SFopp : forall B f, Zv B (SFopp f) = - Zv B f.
Proof.
  intros B [s|s| |s m e]; try reflexivity.
  destruct s; cbn [SFopp Zv negb SpecFloat.cond_Zopp]; lia.
Qed.

Lemma of_uint63_value : forall z, 0 <= z < 2 ^ prec ->
  fnice (of_uint63 (Uint63.of_Z z)) = true /\
  fv (of_uint63 (Uint63.of_Z z)) = z * 2 ^ (- emin).
Proof.
  intros z Hz. unfold fnice, fv. rewrite FloatAxioms.of_uint63_spec, Uint63.of_Z_spec.
  assert (Hw : 2 ^ prec < wB) by reflexivity.
  rewrite Z.mod_small by lia.
  destruct (canonZ_spec emin z 0) as [N V]; try lia.
  destruct (bn_between emin z 0 (canonZ z 0) (canonZ z 0)) as [N' V'];
    auto; try (unfold emin; simpl; lia).
  - rewrite V. replace (0 - emin) with (- emin) by lia. lia.
  - destruct (Z.eq_dec z 0) as [->|Hnz]; [now left|right].
    assert (1 <= Zdigits2 z).
    { destruct z; try lia; simpl; lia. }
    unfold emin, emax, prec in *. lia.
  - split; auto. rewrite V in V'.
    replace (0 - emin) with (- emin) in V' by lia. lia.
Qed.

(** An integer below 2^53 in magnitude is a number, exactly. *)
Lemma of_int_value : forall z, Z.abs z < 2 ^ prec ->
  fnice (of_int z) = true /\ fv (of_int z) = z * 2 ^ (- emin).
Proof.
  intros z Hz. unfold of_int. destruct (Z.ltb_spec z 0).
  - destruct (of_uint63_value (- z)) as [N V]; [lia|].
    unfold fnice, fv in *. rewrite FloatAxioms.opp_spec, nice_SFopp, Zv_SFopp, V.
    split; auto. lia.
  - apply of_uint63_value. lia.
Qed.

(** ** C4 - rounding to two decimals *)

Lemma odd_half : forall j, Z.odd j = true -> exists i, j = 2 * i + 1.
Proof. intros j H. apply Z.odd_spec in H. exact H. Qed.

(** [Math.round] yields the integer [k] with [k <= x + 1/2 < k + 1]. *)
Lemma Math_round_finite : forall x s m e k,
  Prim2SF x = S754_finite s m e -> e < 0 -> k <> 0 ->
  (let n := if s then Z.neg m else Z.pos m in
   k * 2 ^ (1 - e) <= 2 * n + 2 ^ (- e) < (k + 1) * 2 ^ (1 - e)) ->
  Math_round x = of_int k.
Proof.
  intros x s m e k E He Hk Hb. unfold Math_round. rewrite E.
  destruct (Z.leb_spec 0 e); [lia|].
  cbv zeta in *.
  set (n := if s then Z.neg m else Z.pos m) in *.
  rewrite Z.shiftl_1_l, Z.shiftr_div_pow2 by lia.
  assert (0 < 2 ^ (1 - e)) by (apply Z.pow_pos_nonneg; lia).
  replace ((2 * n + 2 ^ (- e)) / 2 ^ (1 - e)) with k.
  - destruct (Z.eqb_spec k 0); [contradiction|reflexivity].
  - apply Z.div_unique with (r := 2 * n + 2 ^ (- e) - k * 2 ^ (1 - e)); lia.
Qed.

Lemma nice_cases : forall x, fnice x = true ->
  (exists s, Prim2SF x = S754_zero s /\ fv x = 0) \/
  (exists s m e, Prim2SF x = S754_finite s m e /\
     Z.pos (digits2_pos m) = prec /\ emin <= e <= emax - prec - 1 /\
     fv x = (if s then Z.neg m else Z.pos m) * 2 ^ (e - emin)).
Proof.
  intros x H. unfold fnice, fv in *.
  destruct (Prim2SF x) as [s|s| |s m e]; try discriminate.
  - left. exists s. split; reflexivity.
  - right. exists s, m, e. destruct (nice_finite _ _ _ H) as (H1 & H2 & H3).
    repeat split; auto. unfold Zv. destruct s; [|reflexivity].
    change (- (Z.pos m * 2 ^ (e - emin)) = Z.neg m * 2 ^ (e - emin)). lia.
Qed.

Lemma scale_bounds : forall L W H c,
  0 <= c -> L <= W <= H -> L * c <= W * c <= H * c.
Proof. intros L W H c Hc [H1 H2]. split; apply Z.mul_le_mono_nonneg_r; auto. Qed.

Lemma abs_scale : forall W A c B,
  0 <= A <= Z.abs W -> 0 <= c -> B <= A * c -> B <= Z.abs (W * c).
Proof.
  intros W A c B [HA HW] Hc HB. rewrite Z.abs_mul, (Z.abs_eq c) by auto.
  eapply Z.le_trans; [exact HB|]. apply Z.mul_le_mono_nonneg_r; auto.
Qed.

Lemma round_window : forall i z P,
  0 < P -> 25 * (2 * i + 1) * P <= 2 * z ->
  256 * z <= 25 * (128 * (2 * i + 1) + 1) * P ->
  (25 * i + 13) * (2 * P) <= 2 * z + P < (25 * i + 13 + 1) * (2 * P).
Proof. intros i z P HP H1 H2. lia. Qed.

Lemma scaled_range : forall j U B,
  0 < U -> Z.abs j < B ->
  (1 <= j -> U <= j * U) /\ (j <= -1 -> j * U <= - U) /\
  - (B * U) < j * U < B * U.
Proof. intros j U B HU Hj. nia. Qed.

(** The nudged value in hundredths of [j / 8], for [j] odd: it is rounded
    between [12.5 * j] and [12.5 * j + 25 / 256]. *)
Lemma tie_hundredths : forall j,
  Z.odd j = true -> Z.abs j < 2 ^ 40 ->
  fnice ((of_int j * 0.125 + EPSILON) * 100) = true /\
  25 * j * 2 ^ (-1 - emin)
    <= fv ((of_int j * 0.125 + EPSILON) * 100)
    <= 25 * (128 * j + 1) * 2 ^ (-8 - emin).
Proof.
  intros j Hodd Hj.
  destruct (odd_half j Hodd) as [i Hi].
  change (2 ^ 40) with 1099511627776 in Hj.
  assert (Hp : 2 ^ prec = 9007199254740992) by reflexivity.
  destruct (of_int_value j) as [Nj Vj]; [rewrite Hp; clear - Hj; lia|].
  set (U := 2 ^ 1022).
  assert (HU : 4503599627370496 <= U) by (apply Z.leb_le; vm_compute; reflexivity).
  assert (PK : 2 ^ (- emin) = 4503599627370496 * U) by (vm_compute; reflexivity).
  assert (P3 : 2 ^ (-3 - emin) = 562949953421312 * U) by (vm_compute; reflexivity).
  assert (P10 : 2 ^ (-10 - emin) = 4398046511104 * U) by (vm_compute; reflexivity).
  assert (P1 : 2 ^ (-1 - emin) = 2251799813685248 * U) by (vm_compute; reflexivity).
  assert (P8 : 2 ^ (-8 - emin) = 17592186044416 * U) by (vm_compute; reflexivity).
  assert (V8 : fv 0.125 = 562949953421312 * U) by (vm_compute; reflexivity).
  assert (Ve : fv EPSILON = U) by (vm_compute; reflexivity).
  assert (Vh : fv 100 = 450359962737049600 * U) by (vm_compute; reflexivity).
  assert (PM : 2 ^ (prec - 1 - emin) = 20282409603651670423947251286016 * U)
    by (vm_compute; reflexivity).
  assert (P52 : 2 ^ (prec - 1) = 4503599627370496) by reflexivity.
  rewrite PK in Vj.
  clearbody U.
  destruct (scaled_range j U 1099511627776) as (J1 & J2 & J3);
    [clear - HU; lia | exact Hj |].
  (* n = j / 8, exactly *)
  destruct (mul_between (of_int j) 0.125 j (-3) j (-3)) as [N1 V1];
    [exact Nj | reflexivity | | | | |].
  1,2: split; [rewrite Hp; clear - Hj; lia | clear; lia].
  { rewrite P3, PK, Vj, V8. split; apply Z.eq_le_incl; ring. }
  { right. rewrite PM, Vj, V8.
    replace (j * (4503599627370496 * U) * (562949953421312 * U))
      with (j * U * (2535301200456458802993406410752 * U)) by ring.
    apply abs_scale with (A := U);
      [clear - J1 J2 HU Hi; lia | clear - HU; lia |].
    replace (U * (2535301200456458802993406410752 * U))
      with (2535301200456458802993406410752 * U * U) by ring.
    apply Z.mul_le_mono_nonneg_r; clear - HU; lia. }
  rewrite P3 in V1.
  set (n := (of_int j * 0.125)%float) in *.
  (* t = n + EPSILON *)
  destruct (add_between n EPSILON j (-3) (128 * j + 1) (-10)) as [N2 V2];
    [exact N1 | reflexivity | | | | |].
  1,2: split; [rewrite Hp; clear - Hj; lia | clear; lia].
  { rewrite P3, P10, Ve. clear - V1 HU. lia. }
  { right. rewrite P52, Ve. clear - V1 J1 J2 HU Hi. lia. }
  rewrite P3, P10 in V2.
  set (t := (n + EPSILON)%float) in *.
  (* y = t * 100 *)
  destruct (mul_between t 100 (25 * j) (-1) (25 * (128 * j + 1)) (-8)) as [N3 V3];
    [exact N2 | reflexivity | | | | |].
  1,2: split; [rewrite Hp; clear - Hj; lia | clear; lia].
  { rewrite P1, P8, PK, Vh.
    destruct (scale_bounds _ _ _ (450359962737049600 * U)
                ltac:(clear - HU; lia) V2) as [Sa Sb].
    split; [eapply Z.le_trans; [|exact Sa] | eapply Z.le_trans; [exact Sb|]];
      apply Z.eq_le_incl; ring. }
  { right. rewrite PM, Vh.
    apply abs_scale with (A := 281474976710656 * U);
      [clear - V2 J1 J2 HU Hi; lia | clear - HU; lia |].
    replace (281474976710656 * U * (450359962737049600 * U))
      with (126765060022822940149670320537600 * U * U) by ring.
    apply Z.mul_le_mono_nonneg_r; clear - HU; lia. }
  split; [exact N3 | exact V3].
Qed.

Lemma round2_tie : forall j,
  Z.odd j = true -> Z.abs j < 2 ^ 40 ->
  round2_num (of_int j * 0.125) = (of_int ((25 * j + 1) / 2) / 100)%float.
Proof.
  intros j Hodd Hj.
  destruct (tie_hundredths j Hodd Hj) as [N3 V3].
  destruct (odd_half j Hodd) as [i Hi].
  change (2 ^ 40) with 1099511627776 in Hj.
  unfold round2_num.
  set (y := ((of_int j * 0.125 + EPSILON) * 100)%float) in *.
  f_equal.
  replace ((25 * j + 1) / 2) with (25 * i + 13).
  2:{ rewrite Hi. replace (25 * (2 * i + 1) + 1) with ((25 * i + 13) * 2) by ring.
      rewrite Z.div_mul by discriminate. reflexivity. }
  set (U := 2 ^ 1022).
  assert (HU : 4503599627370496 <= U) by (apply Z.leb_le; vm_compute; reflexivity).
  assert (PK : 2 ^ (- emin) = 4503599627370496 * U) by (vm_compute; reflexivity).
  assert (P1 : 2 ^ (-1 - emin) = 2251799813685248 * U) by (vm_compute; reflexivity).
  assert (P8 : 2 ^ (-8 - emin) = 17592186044416 * U) by (vm_compute; reflexivity).
  assert (PM : 2 ^ (prec - 1 - emin) = 20282409603651670423947251286016 * U)
    by (vm_compute; reflexivity).
  rewrite P1, P8 in V3. clearbody U.
  destruct (scaled_range j U 1099511627776) as (J1 & J2 & J3);
    [clear - HU; lia | exact Hj |].
  destruct (nice_cases y N3) as [(s & E & V) | (s & m & e & E & Hd & He & V)].
  { exfalso. clear - V V3 J1 J2 HU Hi. lia. }
  assert (Hnb := normal_bounds m e emin Hd (proj1 He)).
  set (Q := 2 ^ (e - emin)) in *.
  set (z := if s then Z.neg m else Z.pos m) in *.
  assert (Hz : Z.abs z * Q = Z.pos m * Q) by (destruct s; subst z; reflexivity).
  assert (Hneg : e < 0).
  { assert (prec - 1 + e - emin < prec - 1 - emin); [|clear - H; lia].
    apply (Z.pow_lt_mono_r_iff 2);
      [clear; lia | unfold emin, prec, emax; clear; lia |].
    rewrite PM. eapply Z.le_lt_trans; [apply Hnb|].
    rewrite <- Hz.
    assert (Z.abs z * Q = Z.abs (fv y)).
    { rewrite V, Z.abs_mul. f_equal. subst Q. symmetry. apply Z.abs_eq.
      apply Z.pow_nonneg. clear; lia. }
    clear - H V3 J3 HU. lia. }
  apply (Math_round_finite y s m e); [exact E | exact Hneg | clear; lia |].
  cbv zeta. fold z.
  set (P := 2 ^ (- e)).
  assert (HP : 0 < P) by (apply Z.pow_pos_nonneg; clear - Hneg; lia).
  assert (HQP : Q * P = 4503599627370496 * U).
  { subst Q P. rewrite <- Z.pow_add_r by (clear - He Hneg; unfold emin, prec, emax in *; lia).
    rewrite <- PK. f_equal. clear; lia. }
  replace (2 ^ (1 - e)) with (2 * P).
  2:{ subst P. replace (1 - e) with (1 + - e) by (clear; lia).
      rewrite Z.pow_add_r by (clear - Hneg; lia). reflexivity. }
  rewrite V in V3.
  destruct (scale_bounds _ _ _ P ltac:(clear - HP; lia) V3) as [Sa Sb].
  replace (z * Q * P) with (z * (Q * P)) in Sa, Sb by ring.
  rewrite HQP in Sa, Sb.
  assert (Ha : 25 * j * P * (2251799813685248 * U) <= 2 * z * (2251799813685248 * U)).
  { eapply Z.le_trans; [|eapply Z.le_trans; [exact Sa|]]; apply Z.eq_le_incl; ring. }
  assert (Hb : 256 * z * (17592186044416 * U)
               <= 25 * (128 * j + 1) * P * (17592186044416 * U)).
  { eapply Z.le_trans; [|eapply Z.le_trans; [exact Sb|]]; apply Z.eq_le_incl; ring. }
  apply Z.mul_le_mono_pos_r in Ha; [|clear - HU; lia].
  apply Z.mul_le_mono_pos_r in Hb; [|clear - HU; lia].
  rewrite Hi in Ha, Hb. apply round_window; assumption.
Qed.

Lemma finite_exponent : forall y s m e,
  Prim2SF y = S754_finite s m e -> emin <= e.
Proof.
  intros y s m e E. assert (V := Prim2SF_valid y). rewrite E in V.
  unfold valid_binary, bounded, canonical_mantissa in V.
  apply andb_true_iff in V. destruct V as [V _].
  apply Z.eqb_eq in V. unfold fexp in V. lia.
Qed.

(** Conversely, below 2^52 in magnitude [Math.round] yields such an
    integer. *)
Lemma Math_round_floor : forall y s m e,
  Prim2SF y = S754_finite s m e -> e < 0 ->
  exists k,
    k * unitOne <= fv y + unitHalf < (k + 1) * unitOne /\
    Math_round y = if k =? 0 then (if s then neg_zero else zero) else of_int k.
Proof.
  intros y s m e E He. unfold unitOne, unitHalf.
  assert (Hm := finite_exponent y s m e E).
  unfold Math_round. rewrite E. destruct (Z.leb_spec 0 e); [lia|].
  set (z := if s then Z.neg m else Z.pos m).
  rewrite Z.shiftl_1_l, Z.shiftr_div_pow2 by lia.
  set (P := 2 ^ (- e)).
  assert (HP : 0 < P) by (apply Z.pow_pos_nonneg; lia).
  replace (2 ^ (1 - e)) with (2 * P).
  2:{ subst P. replace (1 - e) with (1 + - e) by lia.
      rewrite Z.pow_add_r by lia. reflexivity. }
  exists ((2 * z + P) / (2 * P)). split; [|reflexivity].
  set (Q := 2 ^ (e - emin)).
  assert (HQ : 0 < Q) by (apply Z.pow_pos_nonneg; lia).
  assert (HQP : 2 ^ (-1 - emin) * 2 = Q * P /\ 2 ^ (- emin) = Q * P).
  { subst Q P. rewrite <- Z.pow_add_r by lia.
    replace (e - emin + - e) with (- emin) by lia. split; reflexivity. }
  destruct HQP as [H1 H2].
  assert (V : fv y = z * Q).
  { unfold fv. rewrite E. subst z Q. unfold Zv. destruct s; [|reflexivity].
    change (- (Z.pos m * 2 ^ (e - emin)) = Z.neg m * 2 ^ (e - emin)). lia. }
  rewrite V, H2.
  set (k := (2 * z + P) / (2 * P)).
  assert (Hk : k * (2 * P) <= 2 * z + P < (k + 1) * (2 * P)).
  { subst k. clearbody z P. clear - HP.
    Z.to_euclidean_division_equations. nia. }
  set (h := 2 ^ (-1 - emin)) in *. clearbody k z P Q h.
  assert (A1 : k * (2 * P) * Q <= (2 * z + P) * Q)
    by (apply Z.mul_le_mono_nonneg_r; lia).
  assert (A2 : (2 * z + P) * Q < (k + 1) * (2 * P) * Q)
    by (apply Z.mul_lt_mono_pos_r; lia).
  nia.
Qed.

(** C4, as the code has it.  [round2] divides by 100 the integer that
    [Math.round] makes of the nudged value in hundredths [y = (n + EPSILON) * 100],
    and [Math.round] rounds a half up: below 2^52 in magnitude it yields the
    integer [k] with [k <= y + 1/2 < k + 1].  So a number whose value in
    hundredths is exactly a half (the numbers [j / 8] with [j] odd) goes to
    the next hundredth toward plus infinity: away from zero when it is
    positive, toward zero when it is negative. *)
Theorem round2_half_up :
  (forall n s m e,
     Prim2SF ((n + EPSILON) * 100)%float = S754_finite s m e -> e < 0 ->
     exists k,
       k * unitOne <= fv ((n + EPSILON) * 100)%float + unitHalf < (k + 1) * unitOne /\
       round2_num n
       = ((if (k =? 0)%Z then (if s then neg_zero else zero) else of_int k) / 100)%float) /\
  (forall j,
     Z.odd j = true -> Z.abs j < 2 ^ 40 ->
     round2_num (of_int j * 0.125) = (of_int ((25 * j + 1) / 2) / 100)%float).
Proof.
  split.
  - intros n s m e E He.
    destruct (Math_round_floor _ s m e E He) as (k & Hk & Hr).
    exists k. split; [exact Hk|]. unfold round2_num. now rewrite Hr.
  - exact round2_tie.
Qed.

Lemma round2_half_up_witness :
  Z.odd (-1) = true /\ Z.abs (-1) < 2 ^ 40 /\
  round2_num (of_int (-1) * 0.125) = (of_int (-12) / 100)%float.
Proof.
  split; [reflexivity|]. split; [reflexivity|].
  apply (proj2 round2_half_up (-1)); reflexivity.
Defined.

(** C4, as it is stated, fails: -0.125 is -12.5 hundredths, and [round2]
    moves it toward zero, to -0.12, not away from zero to -0.13. *)
Lemma round2_negative_half_toward_zero :
  round2_num (-0.125) = (-0.12)%float /\
  PrimFloat.ltb (round2_num (-0.125)) (-0.125) = false.
Proof. split; vm_compute; reflexivity. Qed.

(** ** C6 - the OCR score *)

Lemma pos_finite : forall x, fnice x = true -> 0 < fv x ->
  exists m e, Prim2SF x = S754_finite false m e /\
    Z.pos (digits2_pos m) = prec /\ emin <= e <= emax - prec - 1 /\
    fv x = Z.pos m * 2 ^ (e - emin).
Proof.
  intros x N P.
  destruct (nice_cases x N) as [(s & E & V) | (s & m & e & E & Hd & He & V)].
  - lia.
  - assert (0 < 2 ^ (e - emin)) by (apply Z.pow_pos_nonneg; lia).
    destruct s.
    + exfalso. rewrite V in P. nia.
    + exists m, e. auto.
Qed.

Lemma exponent_window : forall m e lo hi,
  Z.pos (digits2_pos m) = prec -> emin <= e ->
  emin <= lo -> emin <= hi ->
  2 ^ (lo - emin) <= Z.pos m * 2 ^ (e - emin) < 2 ^ (hi - emin) ->
  lo - prec < e /\ e < hi - prec + 1.
Proof.
  intros m e lo hi Hd He Hlo Hhi [H1 H2].
  destruct (normal_bounds m e emin Hd He) as [B1 B2].
  split.
  - assert (lo - emin < prec + e - emin); [|lia].
    apply (Z.pow_lt_mono_r_iff 2); [lia | unfold emin, prec, emax in *; lia | lia].
  - assert (prec - 1 + e - emin < hi - emin); [|lia].
    apply (Z.pow_lt_mono_r_iff 2); [lia | lia | lia].
Qed.

Lemma nice_pos_form : forall f, nice f = true -> 0 < Zv emin f ->
  exists m e, f = S754_finite false m e.
Proof.
  intros [s|s| |s m e] N P; try discriminate.
  destruct (nice_finite _ _ _ N) as (_ & He & _).
  assert (0 < 2 ^ (e - emin)) by (apply Z.pow_pos_nonneg; lia).
  destruct s.
  - exfalso. change (0 < - (Z.pos m * 2 ^ (e - emin))) in P. nia.
  - exists m, e. reflexivity.
Qed.

(** [len / 5] is not rounded below a number [h * 2^el] that is at most
    the exact quotient. *)
Lemma div5_lower : forall n h el,
  1 <= n < 2 ^ prec -> 1 <= h < 2 ^ prec -> -1022 <= el <= 970 ->
  h * 2 ^ (el - emin) * 5 <= n * 2 ^ (- emin) ->
  fnice (of_int n / 5) = true /\ h * 2 ^ (el - emin) <= fv (of_int n / 5).
Proof.
  intros n h el Hn Hh Hel Hle.
  destruct (of_int_value n) as [Nn Vn]; [lia|].
  assert (HK : 0 < 2 ^ (- emin)) by (apply Z.pow_pos_nonneg; [reflexivity | discriminate]).
  destruct (pos_finite (of_int n) Nn) as (ma & ea & Ea & Hda & Hea & Va).
  { rewrite Vn. apply Z.mul_pos_pos; lia. }
  destruct (exponent_window ma ea 0 prec Hda) as [Ha1 Ha2]; try lia;
    try discriminate.
  { rewrite <- Va, Vn. replace (prec - emin) with (prec + - emin) by lia.
    rewrite Z.pow_add_r by discriminate. rewrite Z.sub_0_l.
    split; [nia | apply Z.mul_lt_mono_pos_r; lia]. }
  destruct (canonZ_spec emin h el) as [Nl Vl]; try lia.
  assert (Hq : 0 < 2 ^ (el - emin)).
  { apply Z.pow_pos_nonneg; [lia|]. unfold emin, prec, emax. lia. }
  destruct (nice_pos_form (canonZ h el) Nl) as (ml & el' & El).
  { rewrite Vl. apply Z.mul_pos_pos; lia. }
  rewrite El in Nl, Vl. cbn [Zv cond_Zopp] in Vl.
  assert (E5 : Prim2SF 5 = S754_finite false 5629499534213120 (-50)) by reflexivity.
  assert (V5 : Z.pos 5629499534213120 * 2 ^ (-50 - emin) = 5 * 2 ^ (- emin))
    by (vm_compute; reflexivity).
  unfold fnice, fv. rewrite FloatAxioms.div_spec, Ea, E5. rewrite <- Vl.
  apply SFdiv_lower_pos; auto.
  - rewrite <- Ea. exact Nn.
  - unfold emin, prec, emax in *. lia.
  - unfold emin, prec, emax in *. lia.
  - rewrite V5, Vl, <- Va, Vn.
    replace (h * 2 ^ (el - emin) * (5 * 2 ^ (- emin)))
      with (h * 2 ^ (el - emin) * 5 * 2 ^ (- emin)) by ring.
    apply Z.mul_le_mono_nonneg_r; lia.
Qed.

(** [Math.min(200, q)] on a nice [q]. *)
Lemma Math_min_200 : forall q, fnice q = true ->
  fnice (Math_min 200 q) = true /\
  fv (Math_min 200 q) = Z.min (fv 200) (fv q).
Proof.
  intros q Nq. unfold Math_min.
  assert (N2 : fnice 200 = true) by reflexivity.
  rewrite (fnice_not_nan 200 N2), (fnice_not_nan q Nq).
  rewrite (ltb_fv 200 q N2 Nq), (ltb_fv q 200 Nq N2).
  destruct (Z.ltb_spec (fv 200) (fv q)).
  - split; [exact N2 | lia].
  - destruct (Z.ltb_spec (fv q) (fv 200)).
    + split; [exact Nq | lia].
    + change (PrimFloat.get_sign 200) with false. cbv iota.
      split; [exact Nq | lia].
Qed.

(** [len / 5] never exceeds the next half above it, for the lengths below 1000. *)
Lemma ratio_table :
  forallb (fun k => fv (of_int (Z.of_nat k) / 5)
                    <=? (2 * Z.of_nat k + 4) / 5 * 2 ^ (-1 - emin))
          (seq 1 999) = true.
Proof. vm_compute. reflexivity. Qed.

Lemma ratio_upper : forall n, 1 <= n < 1000 ->
  fv (of_int n / 5) <= (2 * n + 4) / 5 * 2 ^ (-1 - emin).
Proof.
  intros n Hn. assert (H := ratio_table).
  rewrite forallb_forall in H.
  specialize (H (Z.to_nat n)). rewrite Z2Nat.id in H by lia.
  apply Z.leb_le, H, in_seq. lia.
Qed.

Ltac dlia := Z.to_euclidean_division_equations; lia.

(** [Math.min(200, len / 5)] lies between the halves around the exact
    value. *)
Lemma min_ratio_bounds : forall n, 1 <= n < 2 ^ prec ->
  fnice (Math_min 200 (of_int n / 5)) = true /\
  2 ^ (-3 - emin) <= fv (Math_min 200 (of_int n / 5)) /\
  Z.min 400 (2 * n / 5) * 2 ^ (-1 - emin)
    <= fv (Math_min 200 (of_int n / 5))
    <= Z.min 400 ((2 * n + 4) / 5) * 2 ^ (-1 - emin).
Proof.
  intros n Hn.
  set (K3 := 2 ^ (-3 - emin)).
  assert (HK3 : 0 < K3) by (apply Z.pow_pos_nonneg; [reflexivity | discriminate]).
  assert (PK : 2 ^ (- emin) = 8 * K3) by (vm_compute; reflexivity).
  assert (P1 : 2 ^ (-1 - emin) = 4 * K3) by (vm_compute; reflexivity).
  assert (V2 : fv 200 = 1600 * K3) by (vm_compute; reflexivity).
  assert (Hp : 2 ^ prec = 9007199254740992) by reflexivity.
  rewrite Hp in Hn.
  destruct (div5_lower n 1 (-3)) as [Nq Lq]; rewrite ?Hp; try lia.
  { fold K3. rewrite PK. clearbody K3. nia. }
  fold K3 in Lq.
  destruct (Math_min_200 _ Nq) as [Nm Vm].
  set (M := Math_min 200 (of_int n / 5)) in *.
  set (q := (of_int n / 5)%float) in *.
  rewrite P1, V2 in *.
  assert (Hh : Z.min 400 (2 * n / 5) * (4 * K3) <= fv q).
  { destruct (Z.eq_dec (Z.min 400 (2 * n / 5)) 0) as [->|Hnz]; [clear - Lq HK3; lia|].
    destruct (div5_lower n (Z.min 400 (2 * n / 5)) (-1)) as [_ L];
      rewrite ?Hp; try (clear - Hn Hnz; dlia).
    - rewrite P1, PK. clearbody K3.
      assert (5 * Z.min 400 (2 * n / 5) <= 2 * n) by (clear - Hn; dlia).
      assert (0 <= Z.min 400 (2 * n / 5)) by (clear - Hn; dlia).
      replace (Z.min 400 (2 * n / 5) * (4 * K3) * 5)
        with (5 * Z.min 400 (2 * n / 5) * (4 * K3)) by ring.
      replace (n * (8 * K3)) with (2 * n * (4 * K3)) by ring.
      apply Z.mul_le_mono_nonneg_r; lia.
    - rewrite P1 in L. exact L. }
  clearbody K3.
  assert (Hh' : Z.min 400 (2 * n / 5) * (4 * K3) <= 400 * (4 * K3))
    by (apply Z.mul_le_mono_nonneg_r; lia).
  split; [exact Nm|]. split; [lia|]. split; [lia|].
  destruct (Z_lt_le_dec n 1000) as [Hs|Hb].
  - assert (Hu := ratio_upper n ltac:(lia)). fold q in Hu. rewrite P1 in Hu.
    destruct (Z.min_spec 400 ((2 * n + 4) / 5)) as [[_ ->]|[_ ->]]; lia.
  - replace (Z.min 400 ((2 * n + 4) / 5)) with 400 by (clear - Hb; dlia). lia.
Qed.

Lemma mag_scaled : forall w c T,
  0 <= T <= c -> w * c = 0 \/ T <= Z.abs (w * c).
Proof.
  intros w c T HT. destruct (Z.eq_dec w 0) as [->|Hw]; [left; ring|right].
  rewrite Z.abs_mul, (Z.abs_eq c) by lia.
  apply Z.le_trans with (1 * c); [lia|].
  apply Z.mul_le_mono_nonneg_r; lia.
Qed.

Lemma nice_divide : forall x, fnice x = true ->
  2 ^ 105 <= Z.abs (fv x) -> (2 ^ 52 | fv x).
Proof.
  intros x N H.
  destruct (nice_cases x N) as [(s & E & V) | (s & m & e & E & Hd & He & V)].
  - rewrite V. apply Z.divide_0_r.
  - destruct (normal_bounds m e emin Hd ltac:(lia)) as [_ B2].
    assert (Hq : 0 < 2 ^ (e - emin)) by (apply Z.pow_pos_nonneg; lia).
    assert (Ha : Z.abs (fv x) = Z.pos m * 2 ^ (e - emin)).
    { rewrite V, Z.abs_mul, (Z.abs_eq (2 ^ _)) by lia. destruct s; reflexivity. }
    assert (105 < prec + e - emin).
    { apply (Z.pow_lt_mono_r_iff 2); [lia | lia | lia]. }
    rewrite V. apply Z.divide_mul_r.
    replace (e - emin) with (52 + (e - emin - 52)) by lia.
    rewrite Z.pow_add_r by (unfold prec in *; lia).
    apply Z.divide_factor_l.
Qed.

Lemma coarse_sum : forall a b,
  (2 ^ 52 | a) -> (2 ^ 52 | b) ->
  a + b = 0 \/ 2 ^ (prec - 1) <= Z.abs (a + b).
Proof.
  intros a b [u ->] [v ->]. rewrite <- Z.mul_add_distr_r.
  apply mag_scaled. change (2 ^ (prec - 1)) with (2 ^ 52). lia.
Qed.

(** The score from its counts: the sum [letters + digits - 5 * bad] is
    exact; the bonus is added to it. *)
Lemma score_parts : forall l d b n,
  0 <= l -> 0 <= d -> 0 <= b -> l + d + 5 * b < 2 ^ 51 ->
  exists q,
    fnice q = true /\ fv q = (l + d - 5 * b) * 2 ^ (- emin) /\
    scoreOf l d b n = (q + Math_min 200 (of_int n / 5))%float.
Proof.
  intros l d b n Hl Hd Hb Hs.
  change (2 ^ 51) with 2251799813685248 in *.
  assert (Hp : 2 ^ prec = 9007199254740992) by reflexivity.
  destruct (of_int_value l) as [Nl Vl]; [rewrite Hp; lia|].
  destruct (of_int_value d) as [Nd Vd]; [rewrite Hp; lia|].
  destruct (of_int_value b) as [Nb Vb]; [rewrite Hp; lia|].
  set (K3 := 2 ^ (-3 - emin)) in *.
  assert (HK3 : 1152921504606846976 <= K3) by (apply Z.leb_le; vm_compute; reflexivity).
  assert (PK : 2 ^ (- emin) = 8 * K3) by (vm_compute; reflexivity).
  assert (P0 : 2 ^ (0 - emin) = 8 * K3) by (vm_compute; reflexivity).
  assert (V5 : fv 5 = 40 * K3) by (vm_compute; reflexivity).
  assert (PM : 2 ^ (prec - 1 - emin) = 36028797018963968 * K3)
    by (vm_compute; reflexivity).
  assert (N5 : fnice 5 = true) by reflexivity.
  unfold scoreOf.
  (* letters + digits *)
  destruct (add_between (of_int l) (of_int d) (l + d) 0 (l + d) 0) as [N1 V1];
    [exact Nl | exact Nd | | | | |].
  1,2: split; [rewrite Hp; lia | lia].
  { rewrite Vl, Vd. lia. }
  { rewrite Vl, Vd, <- Z.mul_add_distr_r. apply mag_scaled.
    rewrite PK. change (2 ^ (prec - 1)) with 4503599627370496.
    clearbody K3. lia. }
  set (a := (of_int l + of_int d)%float) in *.
  (* bad * 5 *)
  destruct (mul_between (of_int b) 5 (5 * b) 0 (5 * b) 0) as [N2 V2];
    [exact Nb | exact N5 | | | | |].
  1,2: split; [rewrite Hp; lia | lia].
  { rewrite Vb, V5, P0, PK. split; apply Z.eq_le_incl; ring. }
  { rewrite Vb, V5, PK, PM.
    replace (b * (8 * K3) * (40 * K3)) with (b * (320 * K3 * K3)) by ring.
    apply mag_scaled. clearbody K3. split; [lia|].
    apply Z.mul_le_mono_nonneg_r; lia. }
  set (p := (of_int b * 5)%float) in *.
  (* the difference *)
  destruct (sub_between a p (l + d - 5 * b) 0 (l + d - 5 * b) 0) as [N3 V3];
    [exact N1 | exact N2 | | | | |].
  1,2: split; [rewrite Hp; lia | lia].
  { lia. }
  { replace (fv a - fv p) with ((l + d - 5 * b) * 2 ^ (0 - emin)) by lia.
    apply mag_scaled. rewrite P0. change (2 ^ (prec - 1)) with 4503599627370496.
    clearbody K3. lia. }
  exists (a - p)%float. split; [exact N3|]. split; [|reflexivity].
  rewrite P0 in V3. rewrite PK. lia.
Qed.

(** The last addition is rounded between any two numbers around the exact
    sum. *)
Lemma score_between : forall l d b n L el H eh,
  0 <= l -> 0 <= d -> 0 <= b -> l + d + 5 * b < 2 ^ 51 -> 1 <= n < 2 ^ 51 ->
  repr L el -> repr H eh ->
  L * 2 ^ (el - emin)
    <= (l + d - 5 * b) * 2 ^ (- emin) + fv (Math_min 200 (of_int n / 5))
    <= H * 2 ^ (eh - emin) ->
  fnice (scoreOf l d b n) = true /\
  L * 2 ^ (el - emin) <= fv (scoreOf l d b n) <= H * 2 ^ (eh - emin).
Proof.
  intros l d b n L el H eh Hl Hd Hb Hs Hn RL RH Hbr.
  destruct (score_parts l d b n Hl Hd Hb Hs) as (q & Nq & Vq & ->).
  assert (Hp : 2 ^ prec = 9007199254740992) by reflexivity.
  destruct (min_ratio_bounds n) as (Nm & Lm & _);
    [rewrite Hp; change (2 ^ 51) with 2251799813685248 in Hn; lia|].
  assert (D0 : (2 ^ 52 | 2 ^ (- emin))) by (exists (2 ^ 1022); vm_compute; reflexivity).
  assert (P105 : 2 ^ 105 <= 2 ^ (-3 - emin)) by (apply Z.leb_le; vm_compute; reflexivity).
  apply add_between; auto.
  - rewrite Vq. exact Hbr.
  - apply coarse_sum.
    + rewrite Vq. apply Z.divide_mul_r, D0.
    + apply nice_divide; [exact Nm|]. rewrite Z.abs_eq; lia.
Qed.

(** The score lies between the halves around the exact value. *)
Lemma score_bounds : forall l d b n,
  0 <= l -> 0 <= d -> 0 <= b -> l + d + 5 * b < 2 ^ 51 -> 1 <= n < 2 ^ 51 ->
  fnice (scoreOf l d b n) = true /\
  (2 * (l + d - 5 * b) + Z.min 400 (2 * n / 5)) * 2 ^ (-1 - emin)
    <= fv (scoreOf l d b n)
    <= (2 * (l + d - 5 * b) + Z.min 400 ((2 * n + 4) / 5)) * 2 ^ (-1 - emin).
Proof.
  intros l d b n Hl Hd Hb Hs Hn.
  assert (Hp : 2 ^ prec = 9007199254740992) by reflexivity.
  destruct (min_ratio_bounds n) as (Nm & Lm & Bm);
    [rewrite Hp; change (2 ^ 51) with 2251799813685248 in Hn; lia|].
  assert (Hh : 0 <= Z.min 400 (2 * n / 5) <= 400) by (clear - Hn; dlia).
  assert (Hc : 0 <= Z.min 400 ((2 * n + 4) / 5) <= 400) by (clear - Hn; dlia).
  set (M := Math_min 200 (of_int n / 5)) in *.
  set (h := Z.min 400 (2 * n / 5)) in *.
  set (c := Z.min 400 ((2 * n + 4) / 5)) in *.
  clearbody h c.
  assert (PK : 2 ^ (- emin) = 2 * 2 ^ (-1 - emin)) by (vm_compute; reflexivity).
  assert (HK : 0 < 2 ^ (-1 - emin))
    by (apply Z.pow_pos_nonneg; [reflexivity | discriminate]).
  apply (score_between l d b n (2 * (l + d - 5 * b) + h) (-1)
           (2 * (l + d - 5 * b) + c) (-1)); auto.
  1,2: split; [rewrite Hp; change (2 ^ 51) with 2251799813685248 in Hs; lia | lia].
  fold M. rewrite PK. set (K := 2 ^ (-1 - emin)) in *. clearbody K. lia.
Qed.

(** The score is the exact sum of its counts and its bonus, give or take
    2^(k-50) when the counts are below 2^k. *)
Lemma score_near : forall l d b n k,
  0 <= l -> 0 <= d -> 0 <= b -> 8 <= k <= 48 ->
  l + d <= 2 ^ k -> b <= 2 ^ k -> 1 <= n < 2 ^ 51 ->
  fnice (scoreOf l d b n) = true /\
  (l + d - 5 * b) * 2 ^ (- emin) + fv (Math_min 200 (of_int n / 5))
    - 2 ^ (k - 50 - emin)
  <= fv (scoreOf l d b n)
  <= (l + d - 5 * b) * 2 ^ (- emin) + fv (Math_min 200 (of_int n / 5))
     + 2 ^ (k - 50 - emin).
Proof.
  intros l d b n k Hl Hd Hb Hk Hld Hbk Hn.
  assert (Hp : 2 ^ prec = 9007199254740992) by reflexivity.
  assert (HT : 256 <= 2 ^ k <= 2 ^ 48).
  { split; [change 256 with (2 ^ 8) | ]; apply Z.pow_le_mono_r; lia. }
  change (2 ^ 48) with 281474976710656 in HT.
  destruct (min_ratio_bounds n) as (Nm & Lm & Bm);
    [rewrite Hp; change (2 ^ 51) with 2251799813685248 in Hn; lia|].
  assert (Hc : 0 <= Z.min 400 ((2 * n + 4) / 5) <= 400) by (clear - Hn; dlia).
  set (M := Math_min 200 (of_int n / 5)) in *.
  set (g := 2 ^ (k - 50 - emin)).
  assert (Hg : 0 < g) by (apply Z.pow_pos_nonneg; unfold emin, emax, prec; lia).
  assert (PU : 2 ^ (- emin) = 2 ^ (50 - k) * g).
  { unfold g. rewrite <- Z.pow_add_r by (unfold emin, emax, prec; lia).
    f_equal. lia. }
  assert (PH : 2 ^ (-1 - emin) = 2 ^ (49 - k) * g).
  { unfold g. rewrite <- Z.pow_add_r by (unfold emin, emax, prec; lia).
    f_equal. lia. }
  assert (PT : 2 ^ (50 - k) * 2 ^ k = 1125899906842624).
  { rewrite <- Z.pow_add_r by lia. replace (50 - k + k) with 50 by lia.
    reflexivity. }
  assert (P2 : 2 ^ (50 - k) = 2 * 2 ^ (49 - k)).
  { replace (50 - k) with (1 + (49 - k)) by lia.
    rewrite Z.pow_add_r by lia. reflexivity. }
  assert (Hc49 : 0 < 2 ^ (49 - k)) by (apply Z.pow_pos_nonneg; lia).
  set (T := 2 ^ k) in *. set (c49 := 2 ^ (49 - k)) in *.
  set (U := 2 ^ (- emin)) in *.
  set (X := (l + d - 5 * b) * U + fv M).
  assert (HM : 0 < fv M <= 400 * c49 * g).
  { split.
    - apply Z.lt_le_trans with (2 ^ (-3 - emin)); [|exact Lm].
      apply Z.pow_pos_nonneg; [reflexivity | discriminate].
    - destruct Bm as [_ Bm]. rewrite PH in Bm.
      eapply Z.le_trans; [exact Bm|].
      rewrite Z.mul_assoc. apply Z.mul_le_mono_nonneg_r; [lia|].
      apply Z.mul_le_mono_nonneg_r; lia. }
  assert (HA : -5 * T <= l + d - 5 * b <= T) by lia.
  assert (HX : - (5629499534213120 * g) <= X <= 1125899906842624 * g + 400 * c49 * g).
  { unfold X. rewrite PU, P2.
    clearbody T c49 g U M. clear - HM HA PT P2 Hg Hc49.
    rewrite P2 in PT. nia. }
  assert (Hc49' : 400 * c49 <= 1125899906842624).
  { clearbody T c49. clear - PT P2 HT Hc49. rewrite P2 in PT. nia. }
  pose proof (Z.div_mod X g ltac:(lia)) as Hdm.
  pose proof (Z.mod_pos_bound X g Hg) as Hmb.
  set (L := X / g) in *.
  assert (HL : -5629499534213120 <= L <= 2251799813685248).
  { clearbody L X c49 g. clear - Hdm Hmb HX Hc49' Hg. nia. }
  destruct (score_between l d b n L (k - 50) (L + 1) (k - 50)) as [N V]; auto.
  - change (2 ^ 51) with 2251799813685248. lia.
  - split; [rewrite Hp; lia | lia].
  - split; [rewrite Hp; lia | lia].
  - fold g. fold U. fold M. fold X. clearbody L X g. clear - Hdm Hmb. nia.
  - split; [exact N|]. fold g in V. fold X.
    clearbody L X g. clear - V Hdm Hmb. nia.
Qed.

(** One more letter or digit and a longer text: the score is higher. *)
Lemma score_increases : forall l d b n l' d' n',
  0 <= l -> 0 <= d -> 0 <= b -> 0 <= l' -> 0 <= d' ->
  l' + d' = l + d + 1 -> 1 <= n -> n < n' -> n' < 2 ^ 51 ->
  l' + d' + 5 * b < 2 ^ 51 ->
  PrimFloat.ltb (scoreOf l d b n) (scoreOf l' d' b n') = true.
Proof.
  intros l d b n l' d' n' Hl Hd Hb Hl' Hd' Hs Hn Hnn Hn' Hsum.
  destruct (score_bounds l d b n) as [N1 [_ U1]]; try lia.
  destruct (score_bounds l' d' b n') as [N2 [L2 _]]; try lia.
  rewrite (ltb_fv _ _ N1 N2). apply Z.ltb_lt.
  eapply Z.le_lt_trans; [exact U1|]. eapply Z.lt_le_trans; [|exact L2].
  apply Z.mul_lt_mono_pos_r.
  - apply Z.pow_pos_nonneg; [reflexivity | discriminate].
  - clear - Hs Hn Hnn. dlia.
Qed.

(** One more glyph at the same length: the score is lower by 5, give or
    take a half. *)
Lemma score_glyph : forall l d b n,
  0 <= l -> 0 <= d -> 0 <= b -> l + d + 5 * (b + 1) < 2 ^ 51 ->
  1 <= n < 2 ^ 51 ->
  PrimFloat.ltb (scoreOf l d (b + 1) n) (scoreOf l d b n) = true /\
  fv (scoreOf l d (b + 1) n) + 9 * 2 ^ (-1 - emin)
    <= fv (scoreOf l d b n)
    <= fv (scoreOf l d (b + 1) n) + 11 * 2 ^ (-1 - emin).
Proof.
  intros l d b n Hl Hd Hb Hs Hn.
  destruct (score_bounds l d b n) as [N1 [L1 U1]]; try lia.
  destruct (score_bounds l d (b + 1) n) as [N2 [L2 U2]]; try lia.
  assert (Hc : Z.min 400 ((2 * n + 4) / 5) <= Z.min 400 (2 * n / 5) + 1)
    by (clear - Hn; dlia).
  set (h := Z.min 400 (2 * n / 5)) in *.
  set (c := Z.min 400 ((2 * n + 4) / 5)) in *.
  assert (HK : 0 < 2 ^ (-1 - emin))
    by (apply Z.pow_pos_nonneg; [reflexivity | discriminate]).
  set (K := 2 ^ (-1 - emin)) in *. clearbody K h c.
  assert (Hd1 : c * K <= (h + 1) * K) by (apply Z.mul_le_mono_nonneg_r; lia).
  rewrite (ltb_fv _ _ N2 N1). split; [apply Z.ltb_lt|]; lia.
Qed.

(** One more glyph at the same length lowers the score by 5, give or take
    2^(k-49) when the counts are below 2^k. *)
Lemma score_glyph_near : forall l d b n k,
  0 <= l -> 0 <= d -> 0 <= b -> 8 <= k <= 48 ->
  l + d <= 2 ^ k -> b + 1 <= 2 ^ k -> 1 <= n < 2 ^ 51 ->
  5 * 2 ^ (- emin) - 2 ^ (k - 49 - emin)
  <= fv (scoreOf l d b n) - fv (scoreOf l d (b + 1) n)
  <= 5 * 2 ^ (- emin) + 2 ^ (k - 49 - emin).
Proof.
  intros l d b n k Hl Hd Hb Hk Hld Hbk Hn.
  destruct (score_near l d b n k) as [_ V1]; auto; try lia.
  destruct (score_near l d (b + 1) n k) as [_ V2]; auto; try lia.
  assert (Pg : 2 ^ (k - 49 - emin) = 2 * 2 ^ (k - 50 - emin)).
  { replace (k - 49 - emin) with (1 + (k - 50 - emin)) by lia.
    rewrite Z.pow_add_r by (unfold emin, emax, prec; lia). reflexivity. }
  rewrite Pg.
  set (g := 2 ^ (k - 50 - emin)) in *. set (U := 2 ^ (- emin)) in *.
  set (m := fv (Math_min 200 (of_int n / 5))) in *.
  clearbody g U m. clear - V1 V2. nia.
Qed.

(** Where the bonus is a whole number, the glyph costs exactly 5. *)
Lemma score_glyph_exact : forall l d b n,
  0 <= l -> 0 <= d -> 0 <= b -> l + d + 5 * (b + 1) < 2 ^ 51 ->
  1 <= n < 2 ^ 51 -> n mod 5 = 0 \/ 1000 <= n ->
  fv (scoreOf l d b n) - fv (scoreOf l d (b + 1) n) = 5 * 2 ^ (- emin).
Proof.
  intros l d b n Hl Hd Hb Hs Hn Hw.
  destruct (score_bounds l d b n) as [_ [L1 U1]]; try lia.
  destruct (score_bounds l d (b + 1) n) as [_ [L2 U2]]; try lia.
  assert (Hc : Z.min 400 ((2 * n + 4) / 5) = Z.min 400 (2 * n / 5))
    by (clear - Hn Hw; dlia).
  rewrite Hc in *.
  assert (PK : 2 ^ (- emin) = 2 * 2 ^ (-1 - emin)) by (vm_compute; reflexivity).
  rewrite PK.
  set (h := Z.min 400 (2 * n / 5)) in *.
  set (K := 2 ^ (-1 - emin)) in *. clearbody K h. clear - L1 U1 L2 U2. nia.
Qed.

(** *** Trimming and counting *)

Ltac classes H :=
  unfold alphanumeric, ordinary, is_white_space, is_letter, is_digit_unit,
    is_replacement, replacementGlyph in *;
  repeat rewrite ?orb_true_iff, ?andb_true_iff, ?negb_true_iff, ?orb_false_iff,
    ?andb_false_iff, ?N.leb_le, ?N.eqb_eq, ?N.leb_gt, ?N.eqb_neq in H.

Lemma white_not_letter : forall c, is_white_space c = true -> is_letter c = false.
Proof.
  intros c H. apply not_true_is_false. intros H'. classes H. classes H'. lia.
Qed.

Lemma white_not_digit : forall c, is_white_space c = true -> is_digit_unit c = false.
Proof.
  intros c H. apply not_true_is_false. intros H'. classes H. classes H'. lia.
Qed.

Lemma white_not_replacement : forall c,
  is_white_space c = true -> is_replacement c = false.
Proof.
  intros c H. apply not_true_is_false. intros H'. classes H. classes H'. lia.
Qed.

Lemma alphanumeric_not_white : forall c,
  alphanumeric c = true -> is_white_space c = false.
Proof.
  intros c H. apply not_true_is_false. intros H'. classes H. classes H'. lia.
Qed.

Lemma alphanumeric_not_replacement : forall c,
  alphanumeric c = true -> is_replacement c = false.
Proof.
  intros c H. apply not_true_is_false. intros H'. classes H. classes H'. lia.
Qed.

Lemma letter_not_digit : forall c, is_letter c = true -> is_digit_unit c = false.
Proof.
  intros c H. apply not_true_is_false. intros H'. classes H. classes H'. lia.
Qed.

Lemma ordinary_classes : forall c, ordinary c = true ->
  is_white_space c = false /\ is_letter c = false /\
  is_digit_unit c = false /\ is_replacement c = false.
Proof.
  unfold ordinary. intros c H.
  rewrite !andb_true_iff, !negb_true_iff in H. tauto.
Qed.

Lemma trimStart_snoc : forall t c, is_white_space c = false ->
  trimStart (t ++ [c]) = trimStart t ++ [c].
Proof.
  intros t c Hc. induction t as [|a t IH]; simpl.
  - now rewrite Hc.
  - destruct (is_white_space a); [exact IH | reflexivity].
Qed.

Lemma trimEnd_snoc : forall u c, is_white_space c = false ->
  trimEnd (u ++ [c]) = u ++ [c].
Proof.
  intros u c Hc. unfold trimEnd. rewrite rev_app_distr. simpl.
  rewrite Hc. simpl. now rewrite rev_involutive.
Qed.

Lemma trim_snoc : forall t c, is_white_space c = false ->
  trim (t ++ [c]) = trimStart t ++ [c].
Proof.
  intros t c Hc. unfold trim. now rewrite trimStart_snoc, trimEnd_snoc.
Qed.

Lemma count_app : forall p u v, count p (u ++ v) = count p u + count p v.
Proof.
  intros p u v. unfold count. rewrite filter_app, List.length_app. lia.
Qed.

Lemma count_cons : forall p a u,
  count p (a :: u) = (if p a then 1 else 0) + count p u.
Proof.
  intros p a u. unfold count. simpl filter.
  destruct (p a); cbn [List.length]; cbv iota; lia.
Qed.

Lemma count_rev : forall p u, count p (rev u) = count p u.
Proof.
  intros p u. induction u as [|a u IH]; [reflexivity|].
  simpl rev. rewrite count_app, IH, !count_cons.
  change (count p []) with 0. lia.
Qed.

Lemma count_bounds : forall p u, 0 <= count p u <= Z.of_nat (List.length u).
Proof.
  intros p u. unfold count. split; [lia|].
  apply Nat2Z.inj_le, filter_length_le.
Qed.

Lemma count_trimStart : forall p u,
  (forall c, is_white_space c = true -> p c = false) ->
  count p (trimStart u) = count p u.
Proof.
  intros p u Hp. induction u as [|a u IH]; [reflexivity|].
  simpl. destruct (is_white_space a) eqn:Ea; [|reflexivity].
  rewrite IH, count_cons, (Hp a Ea). reflexivity.
Qed.

Lemma count_trimEnd : forall p u,
  (forall c, is_white_space c = true -> p c = false) ->
  count p (trimEnd u) = count p u.
Proof.
  intros p u Hp. unfold trimEnd.
  now rewrite count_rev, count_trimStart, count_rev.
Qed.

Lemma length_trimStart : forall u,
  (List.length (trimStart u) <= List.length u)%nat.
Proof.
  induction u as [|a u IH]; simpl; [lia|].
  destruct (is_white_space a); simpl; lia.
Qed.

Lemma length_trimEnd : forall u,
  (List.length (trimEnd u) <= List.length u)%nat.
Proof.
  intros u. unfold trimEnd. rewrite List.length_rev.
  etransitivity; [apply length_trimStart|]. now rewrite List.length_rev.
Qed.

Lemma trimStart_head : forall u a r,
  trimStart u = a :: r -> is_white_space a = false.
Proof.
  induction u as [|b u IH]; simpl; intros a r H; [discriminate|].
  destruct (is_white_space b) eqn:Eb; [eauto|]. now inversion H; subst.
Qed.

Lemma trimEnd_nonempty : forall a r,
  is_white_space a = false -> trimEnd (a :: r) <> [].
Proof.
  intros a r Ha. unfold trimEnd. simpl rev. rewrite trimStart_snoc by exact Ha.
  rewrite rev_app_distr. simpl. discriminate.
Qed.

Lemma trim_empty : forall t, trim t = [] -> trimStart t = [].
Proof.
  intros t H. unfold trim in H. destruct (trimStart t) as [|a r] eqn:E; auto.
  exfalso. eapply trimEnd_nonempty; [|exact H]. eapply trimStart_head, E.
Qed.

Lemma trim_white : forall text,
  forallb is_white_space text = true -> trim text = [].
Proof.
  intros text H. unfold trim.
  replace (trimStart text) with (@nil N); [reflexivity|].
  induction text as [|a r IH]; [reflexivity|].
  simpl in H. apply andb_true_iff in H. destruct H as [Ha Hr].
  simpl. rewrite Ha. now apply IH.
Qed.

(** No character is both a letter and a digit. *)
Lemma count_letters_digits : forall u,
  count is_letter u + count is_digit_unit u <= Z.of_nat (List.length u).
Proof.
  unfold count. induction u as [|a r IH]; [simpl; lia|].
  cbn [filter]. destruct (is_letter a) eqn:El.
  - rewrite (letter_not_digit a El). cbn [List.length]. lia.
  - destruct (is_digit_unit a); cbn [List.length]; lia.
Qed.

Lemma scoreOcrText_nonempty : forall text, trim text <> [] ->
  scoreOcrText text =
  scoreOf (count is_letter (trim text)) (count is_digit_unit (trim text))
          (count is_replacement (trim text)) (Z.of_nat (List.length (trim text))).
Proof.
  intros text H. unfold scoreOcrText. destruct (trim text); [contradiction|reflexivity].
Qed.

Lemma scoreOcrText_snoc : forall text c, is_white_space c = false ->
  scoreOcrText (text ++ [c]) =
  scoreOf (count is_letter (trimStart text) + (if is_letter c then 1 else 0))
          (count is_digit_unit (trimStart text) + (if is_digit_unit c then 1 else 0))
          (count is_replacement (trimStart text) + (if is_replacement c then 1 else 0))
          (Z.of_nat (List.length (trimStart text)) + 1).
Proof.
  intros text c Hc. rewrite scoreOcrText_nonempty; rewrite trim_snoc by exact Hc.
  - rewrite !count_app, !count_cons, List.length_app, Nat2Z.inj_add.
    change (count is_letter []) with 0. change (count is_digit_unit []) with 0.
    change (count is_replacement []) with 0. rewrite !Z.add_0_r. reflexivity.
  - intros E. apply app_eq_nil in E. destruct E; discriminate.
Qed.

Lemma scoreOcrText_trimmed : forall text, trim text <> [] ->
  scoreOcrText text =
  scoreOf (count is_letter (trimStart text)) (count is_digit_unit (trimStart text))
          (count is_replacement (trimStart text))
          (Z.of_nat (List.length (trim text))).
Proof.
  intros text H. rewrite scoreOcrText_nonempty by exact H. unfold trim.
  rewrite (count_trimEnd is_letter) by exact white_not_letter.
  rewrite (count_trimEnd is_digit_unit) by exact white_not_digit.
  rewrite (count_trimEnd is_replacement) by exact white_not_replacement.
  reflexivity.
Qed.

(** C6, as the code computes it.  An empty text and a text of white space
    score 0; appending a letter or a digit to a text shorter than 2^48
    code units strictly increases the score; appending the replacement glyph
    instead of an ordinary character (no white space, letter, digit or
    glyph) gives a strictly lower score.  Both scores are finite, and the
    glyph costs 5 up to the rounding of the two sums: for a text shorter
    than 2^k code units (k from 8 to 48) the two scores differ by 5 give or
    take 2^(k-49), and by exactly 5 when the length bonus is a whole number
    (the trimmed length is a multiple of 5, or at least 1000). *)
Theorem score_properties :
  (forall text,
     forallb is_white_space text = true -> scoreOcrText text = 0%float) /\
  (forall text c,
     Z.of_nat (List.length text) < 2 ^ 48 -> alphanumeric c = true ->
     PrimFloat.ltb (scoreOcrText text) (scoreOcrText (text ++ [c])) = true) /\
  (forall text o,
     Z.of_nat (List.length text) < 2 ^ 48 -> ordinary o = true ->
     let good := scoreOcrText (text ++ [o]) in
     let bad := scoreOcrText (text ++ [replacementGlyph]) in
     let n := Z.of_nat (List.length (trim (text ++ [o]))) in
     fnice good = true /\ fnice bad = true /\
     PrimFloat.ltb bad good = true /\
     (forall k, 8 <= k <= 48 -> Z.of_nat (List.length text) < 2 ^ k ->
        5 * unitOne - 2 ^ (k - 49 - emin)
        <= fv good - fv bad
        <= 5 * unitOne + 2 ^ (k - 49 - emin)) /\
     (n mod 5 = 0 \/ 1000 <= n -> fv good - fv bad = 5 * unitOne)).
Proof.
  split; [|split].
  - intros text H. unfold scoreOcrText. rewrite (trim_white text H). reflexivity.
  - intros text c Hlen Hc.
    change (2 ^ 48) with 281474976710656 in Hlen.
    assert (Hw := alphanumeric_not_white c Hc).
    assert (Hr := alphanumeric_not_replacement c Hc).
    rewrite (scoreOcrText_snoc text c Hw), Hr, Z.add_0_r.
    assert (Hu := length_trimStart text).
    destruct (count_bounds is_letter (trimStart text)) as [L0 L1].
    destruct (count_bounds is_digit_unit (trimStart text)) as [D0 D1].
    destruct (count_bounds is_replacement (trimStart text)) as [B0 B1].
    assert (Hcd : (if is_letter c then 1 else 0) + (if is_digit_unit c then 1 else 0) = 1
                  /\ 0 <= (if is_letter c then 1 else 0)
                  /\ 0 <= (if is_digit_unit c then 1 else 0)).
    { unfold alphanumeric in Hc. destruct (is_letter c) eqn:El.
      - rewrite (letter_not_digit c El). lia.
      - simpl in Hc. rewrite Hc. lia. }
    destruct Hcd as (Hcd & Hc1 & Hc2).
    destruct (trim text) as [|a r] eqn:Et.
    + unfold scoreOcrText at 1. rewrite Et.
      rewrite (trim_empty text Et).
      change (count is_letter []) with 0. change (count is_digit_unit []) with 0.
      change (count is_replacement []) with 0.
      destruct (is_letter c), (is_digit_unit c); try lia; vm_compute; reflexivity.
    + rewrite scoreOcrText_trimmed by (rewrite Et; discriminate).
      assert (Hn : (1 <= List.length (trim text) <= List.length (trimStart text))%nat).
      { split; [rewrite Et; simpl; lia | apply length_trimEnd]. }
      apply score_increases; try lia;
        change (2 ^ 51) with 2251799813685248; lia.
  - intros text o Hlen Ho good bad n. subst good bad n.
    change (2 ^ 48) with 281474976710656 in Hlen.
    destruct (ordinary_classes o Ho) as (Hw & Hl & Hd & Hr).
    rewrite (trim_snoc text o Hw), List.length_app, Nat2Z.inj_add.
    change (Z.of_nat (List.length [o])) with 1.
    rewrite (scoreOcrText_snoc text o Hw), Hl, Hd, Hr.
    rewrite (scoreOcrText_snoc text replacementGlyph) by reflexivity.
    change (is_letter replacementGlyph) with false.
    change (is_digit_unit replacementGlyph) with false.
    change (is_replacement replacementGlyph) with true.
    cbv iota. rewrite !Z.add_0_r.
    assert (Hu := length_trimStart text).
    destruct (count_bounds is_letter (trimStart text)) as [L0 L1].
    destruct (count_bounds is_digit_unit (trimStart text)) as [D0 D1].
    destruct (count_bounds is_replacement (trimStart text)) as [B0 B1].
    assert (Hld := count_letters_digits (trimStart text)).
    set (l := count is_letter (trimStart text)) in *.
    set (d := count is_digit_unit (trimStart text)) in *.
    set (b := count is_replacement (trimStart text)) in *.
    set (m := Z.of_nat (List.length (trimStart text))) in *.
    assert (Hm : 0 <= m) by (subst m; lia).
    destruct (score_bounds l d b (m + 1)) as [N1 _];
      try lia; try (change (2 ^ 51) with 2251799813685248; lia).
    destruct (score_bounds l d (b + 1) (m + 1)) as [N2 _];
      try lia; try (change (2 ^ 51) with 2251799813685248; lia).
    split; [exact N1|]. split; [exact N2|].
    split; [|split].
    + apply score_glyph; try lia; change (2 ^ 51) with 2251799813685248; lia.
    + intros k Hk Hlk. unfold unitOne.
      apply score_glyph_near; try lia;
        change (2 ^ 51) with 2251799813685248; lia.
    + intros Hwhole. unfold unitOne.
      apply score_glyph_exact; try lia;
        change (2 ^ 51) with 2251799813685248; lia.
Qed.

Lemma score_properties_witness :
  scoreOcrText (units_of_string "  ") = 0%float /\
  PrimFloat.ltb (scoreOcrText (units_of_string "ab"))
                (scoreOcrText (units_of_string "ab" ++ [99%N])) = true /\
  PrimFloat.ltb (scoreOcrText (units_of_string "ab" ++ [replacementGlyph]))
                (scoreOcrText (units_of_string "ab" ++ [35%N])) = true /\
  5 * unitOne - 2 ^ (8 - 49 - emin)
  <= fv (scoreOcrText (units_of_string "ab" ++ [35%N]))
     - fv (scoreOcrText (units_of_string "ab" ++ [replacementGlyph]))
  <= 5 * unitOne + 2 ^ (8 - 49 - emin) /\
  fv (scoreOcrText (units_of_string "abcd" ++ [35%N]))
  - fv (scoreOcrText (units_of_string "abcd" ++ [replacementGlyph]))
  = 5 * unitOne.
Proof.
  destruct score_properties as (Hempty & Hmore & Hglyph).
  split; [apply Hempty; reflexivity|].
  split; [apply Hmore; reflexivity|].
  split; [apply (Hglyph (units_of_string "ab") 35%N); reflexivity|].
  split.
  - apply (Hglyph (units_of_string "ab") 35%N); [reflexivity | reflexivity | lia |].
    reflexivity.
  - apply (Hglyph (units_of_string "abcd") 35%N); [reflexivity | reflexivity |].
    left. reflexivity.
Defined.

(** C6, as it is stated, fails: after the letter [a] and 34 number signs,
    one more number sign gives 1 + 36/5 and the glyph gives 1 - 5 + 36/5, and
    the two sums are not 5 apart once they are rounded. *)
Lemma glyph_not_exactly_five_lower :
  PrimFloat.eqb (scoreOcrText (smudged ++ [replacementGlyph]))
                (scoreOcrText (smudged ++ [35%N]) - 5) = false /\
  PrimFloat.eqb (scoreOcrText (smudged ++ [35%N])
                 - scoreOcrText (smudged ++ [replacementGlyph])) 5 = false /\
  (fv (scoreOcrText (smudged ++ [35%N]))
   - fv (scoreOcrText (smudged ++ [replacementGlyph])) =? 10 * unitHalf) = false.
Proof. repeat split; vm_compute; reflexivity. Qed.

(** ** Line items: what the repair keeps *)

Lemma repairLine_amount : forall q u a,
  snd (repairLine q u (Some a)) = Some a.
Proof.
  intros q u a. unfold repairLine.
  destruct q as [q|], u as [u|]; cbn [round2];
    repeat match goal with
           | |- context [if ?c then _ else _] => destruct c
           end; reflexivity.
Qed.

Lemma repairedItem_get : forall it,
  let '(q, u, a) := repairedNumbers it in
  exists gs,
    repairedItem it = JObj gs /\
    Obj.get "qty" gs = Some (ofNum q) /\
    Obj.get "unit_price" gs = Some (ofNum u) /\
    Obj.get "amount" gs = Some (ofNum a).
Proof.
  intros it. unfold repairedItem.
  destruct (repairedNumbers it) as [[q u] a].
  eexists. split; [reflexivity|]. repeat split; reflexivity.
Qed.

(** What the callback returns from the three numbers it reads. *)
Lemma repairItem_numbers : forall it q0 u0 a0 q u a,
  isJNull it = false ->
  readQty it = Ok q0 -> readUnit it = Ok u0 -> readAmount it = Ok a0 ->
  repairLine q0 u0 a0 = (q, u, a) ->
  exists gs,
    repairItem it = Ok (JObj gs) /\
    Obj.get "qty" gs = Some (ofNum q) /\
    Obj.get "unit_price" gs = Some (ofNum u) /\
    Obj.get "amount" gs = Some (ofNum a).
Proof.
  intros it q0 u0 a0 q u a Hn Hq Hu Ha H.
  unfold readQty in Hq. unfold readUnit in Hu. unfold readAmount in Ha.
  apply rounded_inv in Hu as (nu & Hu & Eu).
  apply rounded_inv in Ha as (na & Ha & Ea).
  destruct (repairItem_reads it _ _ _ Hn Hq Hu Ha) as [Hrep Hnum].
  assert (G := repairedItem_get it).
  rewrite Hnum, Eu, Ea, H in G.
  destruct G as (gs & E & G). exists gs. split; [now rewrite Hrep, E | exact G].
Qed.

(** X1.  A supplied amount is parsed and rounded to cents, and never
    recomputed: whatever numbers the quantity and the unit price are read
    as, the returned item carries it. *)
Theorem amount_is_kept : forall it q u a,
  isJNull it = false ->
  readQty it = Ok q -> readUnit it = Ok u -> readAmount it = Ok (Some a) ->
  exists gs,
    repairItem it = Ok (JObj gs) /\ Obj.get "amount" gs = Some (JNum a).
Proof.
  intros it q u a Hn Hq Hu Ha.
  assert (Hs := repairLine_amount q u a).
  destruct (repairLine q u (Some a)) as [[q' u'] a'] eqn:E.
  cbn [snd] in Hs. subst a'.
  destruct (repairItem_numbers it _ _ _ _ _ _ Hn Hq Hu Ha E)
    as (gs & Hr & _ & _ & Hg).
  exists gs. split; [exact Hr | exact Hg].
Qed.

Lemma amount_is_kept_witness :
  exists gs,
    repairItem (lineItem (JNum 1000) (JNum 3) (JStr "$14.004")) = Ok (JObj gs)
    /\ Obj.get "amount" gs = Some (JNum 14).
Proof.
  apply (amount_is_kept (lineItem (JNum 1000) (JNum 3) (JStr "$14.004"))
           (Some 1000%float) (Some 3%float) 14%float);
    vm_compute; reflexivity.
Defined.

(** ** [approxEqual] *)

Lemma finite_cases : forall x, isFinite x = true ->
  (exists s, Prim2SF x = S754_zero s) \/ (exists s m e, Prim2SF x = S754_finite s m e).
Proof.
  intros x H. unfold isFinite, PrimFloat.is_finite in H.
  apply negb_true_iff, orb_false_iff in H. destruct H as [Hn Hi].
  unfold PrimFloat.is_nan in Hn. apply negb_false_iff in Hn.
  unfold PrimFloat.is_infinity in Hi.
  rewrite FloatAxioms.eqb_spec in Hn, Hi. rewrite abs_spec in Hi.
  change (Prim2SF infinity) with (S754_infinity false) in Hi.
  destruct (Prim2SF x) as [s|s| |s m e]; try discriminate; eauto.
Qed.

Lemma SFabs_binary_round_aux : forall s s' m e l,
  SFabs (binary_round_aux prec emax s m e l)
  = SFabs (binary_round_aux prec emax s' m e l).
Proof.
  intros s s' m e l. unfold binary_round_aux.
  destruct (shr_fexp prec emax m e l) as [mrs' e'].
  destruct (shr_fexp prec emax _ e' loc_Exact) as [mrs'' e''].
  destruct (shr_m mrs''); try reflexivity.
  destruct (e'' <=? emax - prec); reflexivity.
Qed.

Lemma SFabs_binary_normalize_opp : forall M e,
  SFabs (binary_normalize prec emax (- M) e false)
  = SFabs (binary_normalize prec emax M e false).
Proof.
  intros [|m|m] e; cbn [Z.opp binary_normalize]; try reflexivity;
    unfold binary_round;
    destruct (shl_align m e (fexp prec emax (Z.pos (digits2_pos m) + e)));
    apply SFabs_binary_round_aux.
Qed.

Lemma SFabs_SFsub_comm : forall a b,
  SFabs (SFsub prec emax a b) = SFabs (SFsub prec emax b a).
Proof.
  intros [sa|sa| |sa ma ea] [sb|sb| |sb mb eb]; try reflexivity;
    try (destruct sa, sb; reflexivity).
  cbn [SFsub]. rewrite (Z.min_comm eb ea).
  rewrite <- SFabs_binary_normalize_opp. f_equal. f_equal. lia.
Qed.

Lemma abs_sub_comm : forall a b : float,
  Math_abs (a - b) = Math_abs (b - a).
Proof.
  intros a b. apply Prim2SF_inj. unfold Math_abs.
  rewrite !abs_spec, !FloatAxioms.sub_spec. apply SFabs_SFsub_comm.
Qed.

Lemma sub_diag_finite : forall x, isFinite x = true -> (x - x)%float = 0%float.
Proof.
  intros x H. apply Prim2SF_inj. rewrite FloatAxioms.sub_spec.
  change (Prim2SF 0) with (S754_zero false).
  destruct (finite_cases x H) as [[s ->] | (s & m & e & ->)].
  - destruct s; reflexivity.
  - unfold SF64sub. cbn [SFsub].
    match goal with
    | |- binary_normalize _ _ ?M _ _ = _ =>
        replace M with 0 by (symmetry; apply Z.sub_diag)
    end.
    reflexivity.
Qed.

Lemma approxEqual_refl : forall x tol,
  isFinite x = true -> (0 <=? tol)%float = true ->
  approxEqual (Some x) (Some x) tol = true.
Proof.
  intros x tol Hx Ht. cbn [approxEqual].
  rewrite (sub_diag_finite x Hx). exact Ht.
Qed.

(** X2.  [approxEqual] does not depend on the order of the two numbers,
    and a finite number is approximately equal to itself for every
    tolerance that is not negative. *)
Theorem approxEqual_symmetric_reflexive :
  (forall a b tol, approxEqual a b tol = approxEqual b a tol) /\
  (forall x tol,
     isFinite x = true -> (0 <=? tol)%float = true ->
     approxEqual (Some x) (Some x) tol = true).
Proof.
  split.
  - intros [a|] [b|] tol; try reflexivity. cbn [approxEqual].
    now rewrite abs_sub_comm.
  - exact approxEqual_refl.
Qed.

Lemma approxEqual_symmetric_reflexive_witness :
  approxEqual (Some 14%float) (Some 14%float) 0.05 = true.
Proof.
  apply (proj2 approxEqual_symmetric_reflexive 14%float 0.05%float); reflexivity.
Defined.

(** ** Line items: what the repair fills *)

Lemma repairLine_fill_amount : forall q u,
  exists q' u',
    repairLine (Some q) (Some u) None = (q', u', Some (round2_num (q * u))) /\
    (isFinite (round2_num (q * u)) = true -> q' = Some q /\ u' = Some u).
Proof.
  intros q u. unfold repairLine. cbn [round2].
  destruct (approxEqual (Some (round2_num (q * u))) (Some (round2_num (q * u))) 0.05)
    eqn:E; cbn [negb].
  - eexists _, _. split; [reflexivity|]. auto.
  - assert (Hnf : isFinite (round2_num (q * u)) = true -> False).
    { intros Hf.
      rewrite (approxEqual_refl _ 0.05%float Hf eq_refl) in E.
      discriminate. }
    repeat match goal with
           | |- context [if ?c then _ else _] => destruct c
           end;
      eexists _, _; (split; [reflexivity | intros Hf; destruct (Hnf Hf)]).
Qed.

(** X3.  A line item with a known quantity and unit price and no amount
    gets the amount [round2(qty * unit_price)]; when that product is finite
    the quantity and the unit price are returned as they were read. *)
Theorem fill_missing_amount : forall it q u,
  isJNull it = false ->
  readQty it = Ok (Some q) -> readUnit it = Ok (Some u) ->
  readAmount it = Ok None ->
  exists gs,
    repairItem it = Ok (JObj gs) /\
    Obj.get "amount" gs = Some (JNum (round2_num (q * u))) /\
    (isFinite (round2_num (q * u)) = true ->
     Obj.get "qty" gs = Some (JNum q) /\ Obj.get "unit_price" gs = Some (JNum u)).
Proof.
  intros it q u Hn Hq Hu Ha.
  destruct (repairLine_fill_amount q u) as (q' & u' & E & Hf).
  destruct (repairItem_numbers it _ _ _ q' u' (Some (round2_num (q * u)))
              Hn Hq Hu Ha E)
    as (gs & Hr & Gq & Gu & Ga).
  exists gs. split; [exact Hr|]. split; [exact Ga|].
  intros H. destruct (Hf H) as [-> ->]. split; assumption.
Qed.

Lemma fill_missing_amount_witness :
  exists gs,
    repairItem (lineItem (JNum 3) (JStr "1,250.50") JNull) = Ok (JObj gs) /\
    Obj.get "amount" gs = Some (JNum (round2_num (3 * 1250.5))) /\
    (isFinite (round2_num (3 * 1250.5)) = true ->
     Obj.get "qty" gs = Some (JNum 3) /\ Obj.get "unit_price" gs = Some (JNum 1250.5)).
Proof.
  apply (fill_missing_amount (lineItem (JNum 3) (JStr "1,250.50") JNull)
           3%float 1250.5%float); vm_compute; reflexivity.
Defined.

Lemma repairLine_fill_unit : forall q a,
  nonzero q = true ->
  exists q',
    repairLine (Some q) None (Some a)
    = (q', Some (round2_num (a / q)), Some a).
Proof.
  intros q a Hq. unfold repairLine. rewrite Hq. cbn [round2].
  repeat match goal with
         | |- context [if ?c then _ else _] => destruct c
         end; eexists; reflexivity.
Qed.

(** X4.  A line item with a known non-zero quantity and amount and no unit
    price gets the unit price [round2(amount / qty)], where [qty] is the
    quantity as read, and keeps its amount. *)
Theorem fill_missing_unit : forall it q a,
  isJNull it = false ->
  readQty it = Ok (Some q) -> nonzero q = true ->
  readUnit it = Ok None -> readAmount it = Ok (Some a) ->
  exists gs,
    repairItem it = Ok (JObj gs) /\
    Obj.get "unit_price" gs = Some (JNum (round2_num (a / q))) /\
    Obj.get "amount" gs = Some (JNum a).
Proof.
  intros it q a Hn Hq Hz Hu Ha.
  destruct (repairLine_fill_unit q a Hz) as (q' & E).
  destruct (repairItem_numbers it _ _ _ q' (Some (round2_num (a / q))) (Some a)
              Hn Hq Hu Ha E)
    as (gs & Hr & Gq & Gu & Ga).
  exists gs. auto.
Qed.

Lemma fill_missing_unit_witness :
  exists gs,
    repairItem (lineItem (JNum 3) JNull (JNum 10)) = Ok (JObj gs) /\
    Obj.get "unit_price" gs = Some (JNum (round2_num (10 / 3))) /\
    Obj.get "amount" gs = Some (JNum 10).
Proof.
  apply (fill_missing_unit (lineItem (JNum 3) JNull (JNum 10)) 3%float 10%float);
    vm_compute; reflexivity.
Defined.

(** X5.  Nothing is invented: when the three numbers of a line item are
    read with at most one of them known, they are returned as read; and a
    zero divisor is never used, so a zero quantity leaves a missing unit
    price missing and a zero unit price leaves a missing quantity missing,
    whatever the amount was read as. *)
Theorem nothing_to_derive : forall it q u a,
  isJNull it = false ->
  readQty it = Ok q -> readUnit it = Ok u -> readAmount it = Ok a ->
  (known q + known u + known a <= 1)%nat
  \/ (exists q', q = Some q' /\ nonzero q' = false /\ u = None)
  \/ (exists u', u = Some u' /\ nonzero u' = false /\ q = None) ->
  exists gs,
    repairItem it = Ok (JObj gs) /\
    Obj.get "qty" gs = Some (ofNum q) /\
    Obj.get "unit_price" gs = Some (ofNum u) /\
    Obj.get "amount" gs = Some (ofNum a).
Proof.
  intros it q u a Hn Hq Hu Ha H.
  apply (repairItem_numbers it q u a); auto.
  destruct H as [H | [(q' & -> & Hz & ->) | (u' & -> & Hz & ->)]].
  - destruct q, u, a; cbn [known Nat.add] in H; try lia; reflexivity.
  - destruct a; unfold repairLine; rewrite ?Hz; reflexivity.
  - destruct a; unfold repairLine; rewrite ?Hz; reflexivity.
Qed.

Lemma nothing_to_derive_witness :
  exists gs,
    repairItem (lineItem (JNum 0) JNull (JNum 10)) = Ok (JObj gs) /\
    Obj.get "qty" gs = Some (JNum 0) /\
    Obj.get "unit_price" gs = Some JNull /\
    Obj.get "amount" gs = Some (JNum 10).
Proof.
  apply (nothing_to_derive (lineItem (JNum 0) JNull (JNum 10))
           (Some 0%float) None (Some 10%float));
    try reflexivity.
  right. left. exists 0%float. repeat split; vm_compute; reflexivity.
Defined.

(** ** When [reconcileMath] throws *)

(** Without an unreadable number the first failure is the [null] item. *)
Lemma mapM_repairItem_null : forall items,
  forallb readableItem items = true ->
  forallb (fun it => negb (isJNull it)) items = false ->
  mapM repairItem items = Throw nullItemError.
Proof.
  induction items as [|it r IH]; simpl; intros Hr H; try discriminate.
  apply andb_true_iff in Hr as [Hr1 Hr2].
  destruct (isJNull it) eqn:E.
  - destruct it; try discriminate. reflexivity.
  - rewrite (repairItem_not_null _ E Hr1). simpl in *.
    rewrite (IH Hr2 H). reflexivity.
Qed.

(** Without a [null] item the first failure is the conversion. *)
Lemma mapM_repairItem_unreadable : forall items,
  forallb (fun it => negb (isJNull it)) items = true ->
  forallb readableItem items = false ->
  mapM repairItem items = Throw noPrimitive.
Proof.
  induction items as [|it r IH]; simpl; intros Hn H; try discriminate.
  apply andb_true_iff in Hn as [Hn1 Hn2]. apply negb_true_iff in Hn1.
  destruct (readableItem it) eqn:E.
  - rewrite (repairItem_not_null _ Hn1 E). simpl in *.
    rewrite (IH Hn2 H). reflexivity.
  - rewrite (repairItem_unreadable _ Hn1 E). reflexivity.
Qed.

(** X6.  [reconcileMath] throws exactly when its argument is an object
    whose [line_items] array holds a [null], or in which one of the numbers
    it reads ([subtotal], [tax_rate], [tax_amount], [total], or the [qty],
    [unit_price] or [amount] of a line item) cannot be converted by
    [String(x)]: an object with an own property [toString], or an array
    that holds one.  What it throws is the [TypeError] of reading [qty] of
    [null] or the [TypeError] of the conversion: the first when every number
    can be converted, the second when no line item is [null].  On every
    other JSON value it returns. *)
Theorem reconcile_throws_exactly : forall x,
  ((exists e, reconcileMath x = Throw e)
   <-> (exists fs, x = JObj fs
                   /\ (noNullItem fs = false \/ readableRecord fs = false)))
  /\ (forall e, reconcileMath x = Throw e ->
                e = nullItemError \/ e = noPrimitive)
  /\ (forall fs, x = JObj fs ->
        readableRecord fs = true -> noNullItem fs = false ->
        reconcileMath x = Throw nullItemError)
  /\ (forall fs, x = JObj fs ->
        noNullItem fs = true -> readableRecord fs = false ->
        reconcileMath x = Throw noPrimitive).
Proof.
  intros x. split; [apply reconcile_throws_iff|]. split; [|split].
  - intros e He. destruct x as [| | | | |fs]; try discriminate.
    destruct (noNullItem fs) eqn:En; [destruct (readableRecord fs) eqn:Er|].
    + rewrite (reconcile_closed_form _ En Er) in He. discriminate.
    + destruct (reconcile_throws fs (or_intror Er)) as (e' & He' & Hc).
      rewrite He' in He. injection He as <-. exact Hc.
    + destruct (reconcile_throws fs (or_introl En)) as (e' & He' & Hc).
      rewrite He' in He. injection He as <-. exact Hc.
  - intros fs -> Hr Hn. rewrite reconcileMath_obj.
    rewrite (normaliseTotals_closed_form _ Hr). cbn [bind].
    rewrite itemsOf_normalised.
    rewrite readableRecord_split in Hr. apply andb_true_iff in Hr as [_ Hri].
    rewrite (mapM_repairItem_null _ Hri Hn). reflexivity.
  - intros fs -> Hn Hr. rewrite reconcileMath_obj.
    rewrite readableRecord_split in Hr.
    destruct (readableValue (Obj.get "subtotal" fs) && readableValue (Obj.get "tax_rate" fs)
              && readableValue (Obj.get "tax_amount" fs)
              && readableValue (Obj.get "total" fs)) eqn:Et.
    + apply andb_true_iff in Et as [Et Htot]. apply andb_true_iff in Et as [Et Ht].
      apply andb_true_iff in Et as [Hs Hrr].
      rewrite (normaliseTotals_reads fs _ _ _ _ (toNumber_readable _ Hs)
                 (toNumber_readable _ Hrr) (toNumber_readable _ Ht)
                 (toNumber_readable _ Htot)).
      cbn [bind]. rewrite itemsOf_normalised.
      rewrite (mapM_repairItem_unreadable _ Hn Hr). reflexivity.
    + rewrite (normaliseTotals_unreadable _ Et). reflexivity.
Qed.

(** ** [toNumber] *)

(** X7.  [toNumber] returns on every value that [String(x)] can convert,
    and what it returns is [null] or a finite number, never NaN or an
    infinity; applied to its own result it changes nothing.  On the other
    values, an object with an own property [toString] or an array that
    holds one, it throws the [TypeError] of the conversion. *)
Theorem toNumber_normal_form : forall x,
  (readableValue x = true ->
   exists n, toNumber x = Ok n
             /\ (forall v, n = Some v -> isFinite v = true)
             /\ toNumber (Some (ofNum n)) = Ok n)
  /\ (readableValue x = false -> toNumber x = Throw noPrimitive).
Proof.
  intros x. split; [|apply toNumber_unreadable].
  intros Hr. exists (numberIn x).
  pose proof (toNumber_readable x Hr) as E.
  split; [exact E|]. split.
  - intros v Hv. rewrite Hv in E. apply (toNumber_finite _ _ E).
  - destruct (numberIn x) as [v|]; [|reflexivity].
    cbn [ofNum toNumber]. now rewrite (toNumber_finite _ _ E).
Qed.

Lemma toNumber_normal_form_witness :
  (exists n, toNumber (Some (JStr "1e999")) = Ok n
             /\ (forall v, n = Some v -> isFinite v = true)
             /\ toNumber (Some (ofNum n)) = Ok n)
  /\ toNumber (Some (JObj [("toString", JNull)]%string)) = Throw noPrimitive.
Proof.
  split.
  - apply (proj1 (toNumber_normal_form (Some (JStr "1e999")))). reflexivity.
  - apply (proj2 (toNumber_normal_form (Some (JObj [("toString", JNull)]%string)))).
    reflexivity.
Defined.

Lemma grouping_not_numeric : forall c,
  is_grouping c = true -> is_numeric_char c = false.
Proof.
  intros c H. unfold is_grouping in H. apply orb_true_iff in H.
  destruct H as [H | H]; apply Ascii.eqb_eq in H; subst c; reflexivity.
Qed.

Lemma filter_chars_numeric_ungrouped : forall s,
  filter_chars is_numeric_char (filter_chars (fun c => negb (is_grouping c)) s)
  = filter_chars is_numeric_char s.
Proof.
  induction s as [|c r IH]; [reflexivity|]. cbn [filter_chars].
  destruct (is_grouping c) eqn:G; cbn [negb].
  - now rewrite (grouping_not_numeric c G).
  - cbn [filter_chars]. destruct (is_numeric_char c); now rewrite IH.
Qed.

Lemma toNumber_string : forall s,
  toNumber (Some (JStr s))
  = Ok (match filter_chars is_numeric_char s with
        | EmptyString => None
        | String c r =>
            if isFinite (StringToNumber (String c r))
            then Some (StringToNumber (String c r)) else None
        end).
Proof.
  intros s. cbn [toNumber ToString bind]. rewrite filter_chars_numeric_ungrouped.
  destruct (filter_chars is_numeric_char s); reflexivity.
Qed.

(** X8.  On a string [toNumber] reads the digits, dots and minus signs and
    nothing else: two strings that agree on these characters, in order,
    give the same result, whatever currency signs, letters, commas and
    blanks they carry. *)
Theorem toNumber_ignores_decoration : forall s s',
  filter_chars is_numeric_char s = filter_chars is_numeric_char s' ->
  toNumber (Some (JStr s)) = toNumber (Some (JStr s')).
Proof.
  intros s s' H. now rewrite !toNumber_string, H.
Qed.

Lemma toNumber_ignores_decoration_witness :
  toNumber (Some (JStr "USD 1,250.50 net")) = toNumber (Some (JStr "1250.50")).
Proof.
  apply (toNumber_ignores_decoration "USD 1,250.50 net" "1250.50"). reflexivity.
Defined.

(** ** The threshold loop *)

Lemma binarizePixel_two_level : forall cfg r g b,
  binarizePixel cfg r g b = 0 \/ binarizePixel cfg r g b = 255.
Proof.
  intros cfg r g b. unfold binarizePixel. cbv zeta.
  destruct (invert cfg);
    match goal with
    | |- context [if ?c then 255 else 0] => destruct c
    end; auto.
Qed.

Lemma binarize_spec : forall cfg n d,
  (List.length d <= 4 * n)%nat ->
  List.length (binarize cfg d) = List.length d /\
  twoLevel (binarize cfg d) /\
  (forall p, (4 * p + 3 < List.length d)%nat ->
             rd (binarize cfg d) (4 * p + 3) = rd d (4 * p + 3)).
Proof.
  intros cfg. induction n as [|n IH]; intros d Hlen.
  - destruct d; [|simpl in Hlen; lia].
    split; [reflexivity|]. split; [|intros p Hp; simpl in Hp; lia].
    intros p Hp. simpl in Hp. lia.
  - destruct d as [|r [|g [|b [|a rest]]]];
      try (split; [reflexivity|]; split; intros p Hp; simpl in Hp; lia).
    cbn [binarize]. cbv zeta.
    destruct (IH rest) as (L & T & A); [simpl in Hlen; lia|].
    split; [simpl; now rewrite L|]. split.
    + intros [|p] Hp.
      * cbn. destruct (binarizePixel_two_level cfg r g b); auto.
      * replace (4 * S p)%nat with (4 + 4 * p)%nat by lia.
        replace (4 + 4 * p + 1)%nat with (4 + (4 * p + 1))%nat by lia.
        replace (4 + 4 * p + 2)%nat with (4 + (4 * p + 2))%nat by lia.
        rewrite !rd_skip4. apply T. simpl in Hp. lia.
    + intros [|p] Hp; [reflexivity|].
      replace (4 * S p + 3)%nat with (4 + (4 * p + 3))%nat by lia.
      rewrite !rd_skip4. apply A. simpl in Hp. lia.
Qed.

(** X9.  The grayscale, contrast and threshold loop turns every pixel into
    black or white: the three colour bytes of a pixel become equal, 0 or 255,
    whatever the configuration; the alpha byte and the size of the buffer
    stay. *)
Theorem binarize_two_level : forall cfg d,
  List.length (binarize cfg d) = List.length d /\
  twoLevel (binarize cfg d) /\
  (forall p, (4 * p + 3 < List.length d)%nat ->
             rd (binarize cfg d) (4 * p + 3) = rd d (4 * p + 3)).
Proof.
  intros cfg d. apply (binarize_spec cfg (List.length d)). lia.
Qed.

(** ** The sharpening step inside the border *)

Lemma length_wr : forall a i v, List.length (wr a i v) = List.length a.
Proof.
  induction a as [|x r IH]; intros [|i] v; simpl; auto.
Qed.

Lemma rd_wr_same : forall a i v, (i < List.length a)%nat -> rd (wr a i v) i = v.
Proof.
  unfold rd. induction a as [|x r IH]; intros [|i] v H; simpl in *; try lia; auto.
  apply IH. lia.
Qed.

(** What the kernel computes for the colour byte [ch] of the pixel [(x, y)]. *)
Lemma sharpenPixel_length : forall w src dst x y,
  List.length (sharpenPixel w src dst x y) = List.length dst.
Proof.
  intros. unfold sharpenPixel. cbv zeta. simpl fold_left.
  now rewrite !length_wr.
Qed.

Lemma sharpenPixel_colour : forall w src dst x y ch,
  (idx w x y + 3 < List.length dst)%nat -> (ch < 3)%nat ->
  rd (sharpenPixel w src dst x y) (idx w x y + ch)
  = clamp255 (5 * rd src (idx w x y + ch)
              - rd src (idx w (x - 1) y + ch)
              - rd src (idx w (x + 1) y + ch)
              - rd src (idx w x (y - 1) + ch)
              - rd src (idx w x (y + 1) + ch)).
Proof.
  intros w src dst x y ch Hlen Hch. unfold sharpenPixel. cbv zeta. simpl fold_left.
  destruct ch as [|[|[|ch]]]; try lia.
  - rewrite !rd_wr_other by lia. rewrite rd_wr_same by lia. reflexivity.
  - rewrite !rd_wr_other by lia.
    rewrite rd_wr_same by (rewrite !length_wr; lia). reflexivity.
  - rewrite !rd_wr_other by lia.
    rewrite rd_wr_same by (rewrite !length_wr; lia). reflexivity.
Qed.

Lemma sharpenPixel_alpha : forall w src dst x y,
  (idx w x y + 3 < List.length dst)%nat ->
  rd (sharpenPixel w src dst x y) (idx w x y + 3) = rd src (idx w x y + 3).
Proof.
  intros w src dst x y Hlen. unfold sharpenPixel. cbv zeta. simpl fold_left.
  rewrite rd_wr_same by (rewrite !length_wr; lia). reflexivity.
Qed.

(** A fold sets a cell to [v] when one of its steps writes [v] there and the
    others leave the cell alone. *)
Lemma fold_left_sets : forall (f : list Z -> nat -> list Z) (n : nat) (j : nat)
    (v : Z) (hit : nat),
  (forall d a, List.length (f d a) = List.length d) ->
  (forall d, List.length d = n -> rd (f d hit) j = v) ->
  (forall d a, a <> hit -> rd (f d a) j = rd d j) ->
  forall l d, List.length d = n -> In hit l \/ rd d j = v ->
    rd (fold_left f l d) j = v.
Proof.
  intros f n j v hit Hlen Hhit Hmiss.
  induction l as [|a r IH]; intros d Hd H; simpl.
  - destruct H as [[]|H]. exact H.
  - apply IH; [now rewrite Hlen|].
    destruct (Nat.eq_dec a hit) as [->|Hne].
    + right. now apply Hhit.
    + destruct H as [[H|H]|H]; [congruence | now left |].
      right. now rewrite Hmiss.
Qed.

Lemma fold_left_length : forall (f : list Z -> nat -> list Z),
  (forall d a, List.length (f d a) = List.length d) ->
  forall l d, List.length (fold_left f l d) = List.length d.
Proof.
  intros f Hf. induction l as [|a r IH]; intros d; simpl; auto.
  now rewrite IH, Hf.
Qed.

Lemma sharpenPass_length : forall w h src,
  List.length (sharpenPass w h src) = (4 * w * h)%nat.
Proof.
  intros w h src. unfold sharpenPass. cbv zeta.
  rewrite fold_left_length; [apply repeat_length|].
  intros d y. apply fold_left_length. intros d' x. apply sharpenPixel_length.
Qed.

Lemma idx_in_range : forall w h x y,
  (x < w)%nat -> (y < h)%nat -> (idx w x y + 3 < 4 * w * h)%nat.
Proof.
  intros w h x y Hx Hy. unfold idx.
  assert (y * w + x < w * h)%nat by nia. lia.
Qed.

(** Inside the border the sharpened buffer holds, at a byte [c] of the
    pixel [(x, y)], what [sharpenPixel] writes there. *)
Lemma sharpenPass_interior : forall w h src x y c,
  (1 <= x < w - 1)%nat -> (1 <= y < h - 1)%nat -> (c < 4)%nat ->
  rd (sharpenPass w h src) (idx w x y + c)
  = rd (sharpenPixel w src (repeat 0 (4 * w * h)) x y) (idx w x y + c).
Proof.
  intros w h src x y c Hx Hy Hc. unfold sharpenPass. cbv zeta.
  set (row := fun dst y' =>
         fold_left (fun dst x' => sharpenPixel w src dst x' y') (seq 1 (w - 2)) dst).
  assert (Hrow_len : forall d a, List.length (row d a) = List.length d).
  { intros d a. apply fold_left_length. intros. apply sharpenPixel_length. }
  assert (Hval : forall d, List.length d = (4 * w * h)%nat ->
            rd (sharpenPixel w src d x y) (idx w x y + c)
            = rd (sharpenPixel w src (repeat 0 (4 * w * h)) x y) (idx w x y + c)).
  { intros d Hd.
    assert (Hr := idx_in_range w h x y ltac:(lia) ltac:(lia)).
    destruct (Nat.eq_dec c 3) as [->|Hc3].
    - rewrite !sharpenPixel_alpha; auto; rewrite ?repeat_length; lia.
    - rewrite !sharpenPixel_colour; auto; rewrite ?repeat_length; lia. }
  apply (fold_left_sets row (4 * w * h) _ _ y); auto.
  - intros d Hd. unfold row.
    apply (fold_left_sets _ (4 * w * h) _ _ x); auto.
    + intros. apply sharpenPixel_length.
    + intros d' x' Hne. apply sharpenPixel_keeps.
      destruct (Nat.lt_ge_cases x' w) as [Hlt | Hge].
      * apply idx_separate; try lia. congruence.
      * unfold idx. nia.
    + left. apply in_seq. lia.
  - intros d y' Hne. unfold row.
    apply (fold_left_keeps _ (fun x' => 1 <= x' < w - 1)%nat).
    + intros d' x' Hx'. apply sharpenPixel_keeps.
      apply idx_separate; try lia. congruence.
    + apply Forall_forall. intros x' Hin. apply in_seq in Hin. lia.
  - apply repeat_length.
  - left. apply in_seq. lia.
Qed.

Lemma clamp255_two_level : forall c n1 n2 n3 n4,
  c = 0 \/ c = 255 -> n1 = 0 \/ n1 = 255 -> n2 = 0 \/ n2 = 255 ->
  n3 = 0 \/ n3 = 255 -> n4 = 0 \/ n4 = 255 ->
  clamp255 (5 * c - n1 - n2 - n3 - n4) = c.
Proof. intros. unfold clamp255. lia. Qed.

Lemma twoLevel_byte : forall d w x y ch,
  twoLevel d -> (idx w x y + 3 < List.length d)%nat -> (ch < 3)%nat ->
  rd d (idx w x y + ch) = 0 \/ rd d (idx w x y + ch) = 255.
Proof.
  intros d w x y ch T Hlen Hch. unfold idx in *.
  replace ((y * w + x) * 4)%nat with (4 * (y * w + x))%nat in * by lia.
  destruct (T _ Hlen) as (H0 & H1 & H2).
  destruct ch as [|[|[|ch]]];
    [ rewrite Nat.add_0_r; exact H0 | rewrite H1; exact H0
    | rewrite H2; exact H0 | lia ].
Qed.

Lemma binarize_withoutSharpen : forall cfg d,
  binarize (withoutSharpen cfg) d = binarize cfg d.
Proof.
  intros cfg. fix IH 1. intros d.
  destruct d as [|r [|g [|b [|a rest]]]]; try reflexivity.
  cbn [binarize]. cbv zeta. rewrite IH. reflexivity.
Qed.

(** Reading back keeps a two-level buffer two-level, and reading back
    twice is reading back once. *)
Lemma readBack_two_level : forall d, twoLevel d -> twoLevel (readBack d).
Proof.
  intros d T p Hp. rewrite readBack_length in Hp.
  specialize (T p Hp).
  pose proof (readBack_rd p d 0 Hp ltac:(lia)) as R0.
  pose proof (readBack_rd p d 1 Hp ltac:(lia)) as R1.
  pose proof (readBack_rd p d 2 Hp ltac:(lia)) as R2.
  rewrite Nat.add_0_r in R0. rewrite R0, R1, R2.
  destruct (rd d (4 * p + 3) =? 0); [lia | exact T].
Qed.

Lemma readBack_idempotent : forall d, readBack (readBack d) = readBack d.
Proof.
  fix IH 1. intros d.
  destruct d as [|r [|g [|b [|a rest]]]]; try reflexivity.
  cbn [readBack]. destruct (a =? 0) eqn:E; cbn [readBack].
  - cbn [Z.eqb]. now rewrite IH.
  - rewrite E. now rewrite IH.
Qed.

(** On a two-level buffer the kernel changes no pixel inside the border. *)
Lemma sharpenPass_two_level : forall w h src x y c,
  List.length src = (4 * w * h)%nat -> twoLevel src ->
  (1 <= x < w - 1)%nat -> (1 <= y < h - 1)%nat -> (c < 4)%nat ->
  rd (sharpenPass w h src) (idx w x y + c) = rd src (idx w x y + c).
Proof.
  intros w h src x y c Hlen T Hx Hy Hc.
  rewrite sharpenPass_interior by assumption.
  assert (Hr : forall x' y', (x' < w)%nat -> (y' < h)%nat ->
                 (idx w x' y' + 3 < List.length src)%nat).
  { intros. rewrite Hlen. now apply idx_in_range. }
  destruct (Nat.eq_dec c 3) as [->|Hc3].
  - apply sharpenPixel_alpha. rewrite repeat_length. apply idx_in_range; lia.
  - rewrite sharpenPixel_colour;
      [| rewrite repeat_length; apply idx_in_range; lia | lia].
    apply clamp255_two_level; apply twoLevel_byte; auto; try apply Hr; lia.
Qed.

(** X10.  In [preprocessCanvas] the sharpening kernel never changes a pixel
    inside the border: the threshold loop has made every pixel black or
    white, and on such a bitmap [5 * centre - neighbours], clamped, is the
    centre again.  The bitmap returned with [sharpen] on agrees there with
    the one returned with [sharpen] off. *)
Theorem sharpen_keeps_interior : forall env src cfg out x y,
  sharpen cfg = true ->
  preprocessCanvas env src cfg = Ok out ->
  List.length (drawImage env src (width out) (height out))
  = (4 * width out * height out)%nat ->
  (1 <= x < width out - 1)%nat -> (1 <= y < height out - 1)%nat ->
  exists out',
    preprocessCanvas env src (withoutSharpen cfg) = Ok out' /\
    width out' = width out /\ height out' = height out /\
    pixel out x y = pixel out' x y.
Proof.
  intros env src cfg out x y Hsh Hrun Hdraw Hx Hy.
  unfold preprocessCanvas in *. cbv zeta in *.
  change (upscale (withoutSharpen cfg)) with (upscale cfg).
  change (sharpen (withoutSharpen cfg)) with false. cbv iota.
  destruct (negb (has2d env)); try discriminate.
  destruct (_ || _)%bool; try discriminate.
  destruct (_ || _)%bool; try discriminate.
  destruct (_ || _)%bool; try discriminate.
  rewrite Hsh in Hrun. injection Hrun as <-.
  cbn [width height data] in *.
  eexists. split; [reflexivity|]. cbn [width height].
  split; [reflexivity|]. split; [reflexivity|].
  unfold pixel. cbn [width data]. rewrite binarize_withoutSharpen.
  set (w := scaledSize (width src) (upscale cfg)) in *.
  set (h := scaledSize (height src) (upscale cfg)) in *.
  destruct (binarize_spec cfg (List.length (drawImage env src w h))
              (drawImage env src w h) ltac:(lia)) as (L & T & _).
  set (b := binarize cfg (drawImage env src w h)) in *.
  assert (Lb : List.length (readBack b) = (4 * w * h)%nat)
    by (rewrite readBack_length, L; exact Hdraw).
  assert (Tb : twoLevel (readBack b)) by (apply readBack_two_level, T).
  assert (Hin : (4 * (y * w + x) + 3 < 4 * w * h)%nat).
  { pose proof (idx_in_range w h x y ltac:(lia) ltac:(lia)) as Hi.
    unfold idx in Hi. lia. }
  assert (Hpix : forall c, (c < 4)%nat ->
            rd (readBack (sharpenPass w h (readBack b))) (idx w x y + c)
            = rd (readBack b) (idx w x y + c)).
  { intros c Hc. unfold idx.
    replace ((y * w + x) * 4)%nat with (4 * (y * w + x))%nat by lia.
    rewrite readBack_rd by (rewrite ?sharpenPass_length; lia).
    replace (4 * (y * w + x))%nat with (idx w x y) by (unfold idx; lia).
    rewrite !sharpenPass_two_level; auto; try lia.
    unfold idx.
    replace ((y * w + x) * 4)%nat with (4 * (y * w + x))%nat by lia.
    rewrite <- readBack_rd by (rewrite ?Lb; lia).
    now rewrite readBack_idempotent. }
  rewrite <- (Nat.add_0_r (idx w x y)) at 1 5.
  rewrite !Hpix by lia. reflexivity.
Qed.

Lemma sharpen_keeps_interior_witness :
  exists out',
    preprocessCanvas copyBrowser crossBitmap (withoutSharpen noUpscale) = Ok out' /\
    width out' = 3%nat /\ height out' = 3%nat /\
    pixel crossSharpened 1 1 = pixel out' 1 1.
Proof.
  apply (sharpen_keeps_interior copyBrowser crossBitmap noUpscale
           crossSharpened 1 1);
    try reflexivity; try (cbn; lia).
Defined.

(** X11.  A bitmap that [preprocessCanvas] returns is never empty: its
    width and height are at least 1, they are the scaled dimensions of the
    source, and its buffer has four bytes per pixel whenever the buffer
    [drawImage] filled has, with or without sharpening. *)
Theorem preprocess_well_formed : forall env src cfg out,
  preprocessCanvas env src cfg = Ok out ->
  width out = scaledSize (width src) (upscale cfg) /\
  height out = scaledSize (height src) (upscale cfg) /\
  (1 <= width out)%nat /\ (1 <= height out)%nat /\
  (List.length (drawImage env src (width out) (height out))
   = (4 * width out * height out)%nat ->
   List.length (data out) = (4 * width out * height out)%nat).
Proof.
  intros env src cfg out Hrun.
  unfold preprocessCanvas in Hrun. cbv zeta in Hrun.
  destruct (negb (has2d env)); try discriminate.
  destruct ((scaledSize (width src) (upscale cfg) =? 0)
            || (scaledSize (height src) (upscale cfg) =? 0))%nat eqn:Ez;
    try discriminate.
  apply orb_false_iff in Ez. destruct Ez as [Ew Eh].
  destruct (_ || _)%bool; try discriminate.
  destruct (_ || _)%bool; try discriminate.
  apply Nat.eqb_neq in Ew, Eh.
  injection Hrun as <-. cbn [width height data].
  repeat split; try lia.
  intros Hdraw. destruct (sharpen cfg); rewrite readBack_length.
  - apply sharpenPass_length.
  - destruct (binarize_spec cfg
                (List.length (drawImage env src
                   (scaledSize (width src) (upscale cfg))
                   (scaledSize (height src) (upscale cfg))))
                (drawImage env src
                   (scaledSize (width src) (upscale cfg))
                   (scaledSize (height src) (upscale cfg))) ltac:(lia)) as (L & _).
    now rewrite L.
Qed.

Lemma preprocess_well_formed_witness :
  width crossSharpened
  = scaledSize (width crossBitmap) (upscale noUpscale) /\
  (1 <= width crossSharpened)%nat.
Proof.
  destruct (preprocess_well_formed copyBrowser crossBitmap noUpscale crossSharpened)
    as (Hw & _ & H1 & _); [reflexivity|].
  split; [exact Hw | exact H1].
Defined.

(** ** The two recognition passes *)

Lemma SFcompare_antisym : forall a b,
  SFcompare b a = option_map CompOpp (SFcompare a b).
Proof.
  intros [sa|sa| |sa ma ea] [sb|sb| |sb mb eb]; try reflexivity;
    try (destruct sa; reflexivity); try (destruct sb; reflexivity);
    try (destruct sa, sb; reflexivity).
  cbn [SFcompare option_map].
  assert (Hm : PosDef.Pos.compare_cont Eq mb ma
               = CompOpp (PosDef.Pos.compare_cont Eq ma mb))
    by (symmetry; apply (Pos.compare_cont_antisym ma mb Eq)).
  rewrite (Z.compare_antisym ea eb), Hm.
  destruct sa, sb; try reflexivity;
    destruct (ea ?= eb); cbn [CompOpp]; try reflexivity;
    destruct (PosDef.Pos.compare_cont Eq ma mb); reflexivity.
Qed.

Lemma ltb_asym : forall a b : float,
  PrimFloat.ltb a b = true -> PrimFloat.ltb b a = false.
Proof.
  intros a b. rewrite !FloatAxioms.ltb_spec. unfold SFltb.
  rewrite (SFcompare_antisym (Prim2SF a) (Prim2SF b)).
  destruct (SFcompare (Prim2SF a) (Prim2SF b)) as [[]|]; cbn; congruence.
Qed.

Lemma ltb_irrefl : forall a : float, PrimFloat.ltb a a = false.
Proof.
  intros a. destruct (PrimFloat.ltb a a) eqn:E; [|reflexivity].
  now rewrite (ltb_asym a a E) in E.
Qed.

(** X12.  When [canvasToOcrText] returns, both passes ran on the same
    preprocessed bitmap, primary mode first; the text returned is one of the
    two, neither pass scored strictly higher than it, and unless the fallback
    pass scored strictly higher it is the text of the primary pass. *)
Theorem ocr_picks_best_pass : forall env worker canvas cfg psm1 psm2 t,
  canvasToOcrText env worker canvas cfg psm1 psm2 = Ok t ->
  exists cleaned t1 t2,
    preprocessCanvas env canvas cfg = Ok cleaned /\
    worker psm1 cleaned = Ok t1 /\ worker psm2 cleaned = Ok t2 /\
    (t = t1 \/ t = t2) /\
    PrimFloat.ltb (scoreOcrText t) (scoreOcrText t1) = false /\
    PrimFloat.ltb (scoreOcrText t) (scoreOcrText t2) = false /\
    (PrimFloat.ltb (scoreOcrText t1) (scoreOcrText t2) = false -> t = t1).
Proof.
  intros env worker canvas cfg psm1 psm2 t H.
  unfold canvasToOcrText in H.
  destruct (preprocessCanvas env canvas cfg) as [cleaned|] eqn:Ec; try discriminate.
  cbn [bind] in H.
  destruct (worker psm1 cleaned) as [t1|] eqn:E1; try discriminate.
  cbn [bind] in H.
  destruct (worker psm2 cleaned) as [t2|] eqn:E2; try discriminate.
  cbn [bind] in H. injection H as <-.
  exists cleaned, t1, t2. repeat (split; [first [reflexivity | assumption]|]).
  destruct (PrimFloat.ltb (scoreOcrText t1) (scoreOcrText t2)) eqn:E.
  - split; [now right|]. split; [now apply ltb_asym|].
    split; [apply ltb_irrefl | discriminate].
  - split; [now left|]. split; [apply ltb_irrefl|]. split; [exact E | reflexivity].
Qed.

Lemma ocr_picks_best_pass_witness :
  exists cleaned t1 t2,
    preprocessCanvas copyBrowser whiteSquare noUpscale = Ok cleaned /\
    constantEngine "6"%string cleaned = Ok t1 /\
    constantEngine "11"%string cleaned = Ok t2 /\
    (units_of_string "A" = t1 \/ units_of_string "A" = t2) /\
    PrimFloat.ltb (scoreOcrText (units_of_string "A")) (scoreOcrText t1) = false /\
    PrimFloat.ltb (scoreOcrText (units_of_string "A")) (scoreOcrText t2) = false /\
    (PrimFloat.ltb (scoreOcrText t1) (scoreOcrText t2) = false ->
     units_of_string "A" = t1).
Proof.
  apply (ocr_picks_best_pass copyBrowser constantEngine whiteSquare noUpscale
           "6"%string "11"%string (units_of_string "A")).
  reflexivity.
Defined.

(** ** Trimmed texts *)

Lemma headOk_trimStart_id : forall t, headOk t = true -> trimStart t = t.
Proof.
  intros [|a r] H; [reflexivity|]. simpl in *.
  apply negb_true_iff in H. now rewrite H.
Qed.

Lemma headOk_trimStart : forall t, headOk (trimStart t) = true.
Proof.
  induction t as [|a r IH]; [reflexivity|]. simpl.
  destruct (is_white_space a) eqn:E; [exact IH|]. simpl. now rewrite E.
Qed.

Lemma headOk_app : forall t x, t <> [] -> headOk (t ++ x) = headOk t.
Proof. intros [|a r] x H; [congruence | reflexivity]. Qed.

Lemma trimStart_suffix : forall v, exists ws, v = ws ++ trimStart v.
Proof.
  induction v as [|a r [ws IH]]; [exists []; reflexivity|]. simpl.
  destruct (is_white_space a).
  - exists (a :: ws). simpl. now rewrite <- IH.
  - exists []. reflexivity.
Qed.

Lemma trimEnd_prefix : forall t, exists ws, t = trimEnd t ++ ws.
Proof.
  intros t. destruct (trimStart_suffix (rev t)) as [ws H].
  exists (rev ws). unfold trimEnd. rewrite <- rev_app_distr, <- H.
  now rewrite rev_involutive.
Qed.

Lemma headOk_trimEnd : forall u, headOk u = true -> headOk (trimEnd u) = true.
Proof.
  intros u H. destruct (trimEnd_prefix u) as [ws E].
  destruct (trimEnd u) as [|a r]; [reflexivity|].
  rewrite E in H. exact H.
Qed.

Lemma trim_heads : forall t,
  headOk (trim t) = true /\ headOk (rev (trim t)) = true.
Proof.
  intros t. unfold trim. split.
  - apply headOk_trimEnd, headOk_trimStart.
  - unfold trimEnd. rewrite rev_involutive. apply headOk_trimStart.
Qed.

Lemma heads_trim : forall t,
  headOk t = true -> headOk (rev t) = true -> trim t = t.
Proof.
  intros t H1 H2. unfold trim, trimEnd.
  rewrite (headOk_trimStart_id t H1), (headOk_trimStart_id _ H2).
  apply rev_involutive.
Qed.

Lemma trim_idempotent : forall t, trim (trim t) = trim t.
Proof. intros t. destruct (trim_heads t). now apply heads_trim. Qed.

Lemma join_heads : forall sep l,
  Forall (fun t => t <> [] /\ headOk t = true /\ headOk (rev t) = true) l ->
  headOk (join sep l) = true /\ headOk (rev (join sep l)) = true /\
  (l <> [] -> join sep l <> []).
Proof.
  intros sep. induction l as [|t r IH]; intros H.
  - repeat split; congruence.
  - inversion H as [|? ? (Hne & H1 & H2) Hr]; subst.
    destruct r as [|t' r'].
    + cbn [join]. repeat split; auto.
    + destruct (IH Hr) as (J1 & J2 & J3).
      assert (Jne : join sep (t' :: r') <> []) by (apply J3; discriminate).
      change (join sep (t :: t' :: r')) with (t ++ sep ++ join sep (t' :: r')).
      repeat split.
      * now rewrite headOk_app.
      * rewrite !rev_app_distr, <- app_assoc. rewrite headOk_app; [exact J2|].
        intros E. apply Jne. apply (f_equal (@rev N)) in E.
        now rewrite rev_involutive in E.
      * intros _ E. apply app_eq_nil in E. destruct E. contradiction.
Qed.

Lemma ocrTiffPage_trimmed : forall env worker i p t,
  ocrTiffPage env worker i p = Ok t -> exists raw, t = trim raw.
Proof.
  intros env worker i p t H. unfold ocrTiffPage in H. cbv zeta in H.
  destruct (_ || _)%bool; try discriminate.
  destruct (toRGBA8 p) as [msg|[[|x rgba]|]]; try discriminate.
  destruct (negb (has2d env)); try discriminate.
  destruct (negb _); try discriminate.
  destruct (canvasToOcrText _ _ _ _ _ _) as [raw|]; try discriminate.
  cbn [bind] in H. injection H as <-. now exists raw.
Qed.

Lemma ocrTiffPages_trimmed : forall env worker ifds i ts,
  ocrTiffPages env worker i ifds = Ok ts ->
  List.length ts = List.length ifds /\ Forall (fun t => exists raw, t = trim raw) ts.
Proof.
  intros env worker. induction ifds as [|p r IH]; intros i ts H.
  - injection H as <-. split; [reflexivity | constructor].
  - cbn [ocrTiffPages] in H.
    destruct (ocrTiffPage env worker i p) as [t|] eqn:Ep; try discriminate.
    cbn [bind] in H.
    destruct (ocrTiffPages env worker (S i) r) as [ts'|] eqn:Er; try discriminate.
    cbn [bind] in H. injection H as <-.
    destruct (IH _ _ Er) as [L F]. split; [simpl; now rewrite L|].
    constructor; [eapply ocrTiffPage_trimmed; eauto | exact F].
Qed.

Lemma filter_nonEmpty_nil : forall l : list ustring,
  filter nonEmpty l = [] <-> Forall (fun t => t = []) l.
Proof.
  induction l as [|t r IH]; simpl.
  - split; [constructor | reflexivity].
  - destruct t as [|a t']; simpl.
    + rewrite IH. split; [now constructor | now inversion 1].
    + split; [discriminate | inversion 1; discriminate].
Qed.

(** X13.  The text [ocrTiff] returns is the page texts, trimmed, without
    the blank ones, joined by the page-break line, one text per frame.  It
    carries no white space at either end, and it is the empty string exactly
    when every page came out blank. *)
Theorem ocrTiff_text : forall utif env worker ifds text,
  ocrTiff utif env worker ifds = Ok text ->
  exists texts,
    ocrTiffPages env worker 0 ifds = Ok texts /\
    List.length texts = List.length ifds /\
    text = join pageBreak (filter nonEmpty texts) /\
    trim text = text /\
    (text = [] <-> Forall (fun t => t = []) texts).
Proof.
  intros utif env worker ifds text H. unfold ocrTiff in H.
  destruct (negb (has_decode utif)); try discriminate.
  destruct (negb (has_toRGBA8 utif)); try discriminate.
  destruct ifds as [|p r]; try discriminate.
  destruct (_ && _)%bool; try discriminate.
  destruct (ocrTiffPages env worker 0 (p :: r)) as [texts|] eqn:E; try discriminate.
  cbn [bind] in H. injection H as <-.
  destruct (ocrTiffPages_trimmed _ _ _ _ _ E) as [L F].
  exists texts. repeat (split; [first [reflexivity | assumption]|]).
  assert (G : Forall (fun t => t <> [] /\ headOk t = true /\ headOk (rev t) = true)
                (filter nonEmpty texts)).
  { apply Forall_forall. intros t Hin. apply filter_In in Hin.
    destruct Hin as [Hin Hne]. rewrite Forall_forall in F.
    destruct (F t Hin) as [raw ->]. destruct (trim_heads raw).
    repeat split; auto. intros E0. now rewrite E0 in Hne. }
  destruct (join_heads pageBreak _ G) as (J1 & J2 & J3). split.
  - now apply heads_trim.
  - rewrite <- filter_nonEmpty_nil. split.
    + intros E0. destruct (filter nonEmpty texts) as [|t r'] eqn:Ef; auto.
      exfalso. apply J3; [discriminate | exact E0].
    + intros ->. reflexivity.
Qed.

Lemma ocrTiff_text_witness :
  exists texts,
    ocrTiffPages copyBrowser constantEngine 0 [onePixelFrame; onePixelFrame]
    = Ok texts /\
    List.length texts = 2%nat /\
    units_of_string "A" ++ pageBreak ++ units_of_string "A"
    = join pageBreak (filter nonEmpty texts) /\
    trim (units_of_string "A" ++ pageBreak ++ units_of_string "A")
    = units_of_string "A" ++ pageBreak ++ units_of_string "A" /\
    (units_of_string "A" ++ pageBreak ++ units_of_string "A" = []
     <-> Forall (fun t => t = []) texts).
Proof.
  apply (ocrTiff_text fullUtif copyBrowser constantEngine
           [onePixelFrame; onePixelFrame]).
  vm_compute. reflexivity.
Defined.

(** ** More on the score *)

Lemma trimStart_white_app : forall ws t,
  forallb is_white_space ws = true -> trimStart (ws ++ t) = trimStart t.
Proof.
  induction ws as [|a r IH]; intros t H; [reflexivity|].
  simpl in *. apply andb_true_iff in H. destruct H as [Ha Hr].
  rewrite Ha. now apply IH.
Qed.

Lemma trimStart_white : forall ws,
  forallb is_white_space ws = true -> trimStart ws = [].
Proof.
  intros ws H. rewrite <- (app_nil_r ws). now rewrite trimStart_white_app.
Qed.

Lemma trimStart_nil_white : forall t,
  trimStart t = [] -> forallb is_white_space t = true.
Proof.
  induction t as [|a r IH]; [reflexivity|]. simpl.
  destruct (is_white_space a); [exact IH | discriminate].
Qed.

Lemma trimStart_app_keep : forall t x,
  trimStart t <> [] -> trimStart (t ++ x) = trimStart t ++ x.
Proof.
  induction t as [|a r IH]; intros x H; [simpl in H; congruence|]. simpl in *.
  destruct (is_white_space a); [now apply IH | reflexivity].
Qed.

Lemma forallb_rev : forall (f : N -> bool) l, forallb f (rev l) = forallb f l.
Proof.
  intros f. induction l as [|a r IH]; [reflexivity|]. simpl.
  rewrite forallb_app, IH. simpl. rewrite andb_true_r. apply andb_comm.
Qed.

Lemma trimEnd_app_white : forall t ws,
  forallb is_white_space ws = true -> trimEnd (t ++ ws) = trimEnd t.
Proof.
  intros t ws H. unfold trimEnd. rewrite rev_app_distr.
  rewrite trimStart_white_app; [reflexivity | now rewrite forallb_rev].
Qed.

Lemma trim_outer_space : forall ws1 t ws2,
  forallb is_white_space ws1 = true -> forallb is_white_space ws2 = true ->
  trim (ws1 ++ t ++ ws2) = trim t.
Proof.
  intros ws1 t ws2 H1 H2. unfold trim. rewrite (trimStart_white_app ws1 _ H1).
  destruct (trimStart t) as [|a r] eqn:E.
  - rewrite trimStart_white; [reflexivity|].
    rewrite forallb_app, H2, (trimStart_nil_white t E). reflexivity.
  - rewrite trimStart_app_keep by (rewrite E; discriminate).
    rewrite E. now apply trimEnd_app_white.
Qed.

(** X14.  White space around a text never counts: the score of a text
    between two runs of white space is the score of the text. *)
Theorem score_ignores_outer_space : forall ws1 t ws2,
  forallb is_white_space ws1 = true -> forallb is_white_space ws2 = true ->
  scoreOcrText (ws1 ++ t ++ ws2) = scoreOcrText t.
Proof.
  intros ws1 t ws2 H1 H2. unfold scoreOcrText.
  now rewrite (trim_outer_space ws1 t ws2 H1 H2).
Qed.

Lemma score_ignores_outer_space_witness :
  scoreOcrText (units_of_string "  " ++ units_of_string "a 1" ++ [10%N; 9%N])
  = scoreOcrText (units_of_string "a 1").
Proof.
  apply (score_ignores_outer_space (units_of_string "  ") (units_of_string "a 1")
           [10%N; 9%N]); reflexivity.
Defined.

(** X15.  The length bonus is capped: for a text whose trimmed length is
    at least 1000 (and below 2^48) the score is exactly the integer
    [letters + digits - 5 * glyphs + 200]. *)
Theorem score_of_long_text : forall text,
  1000 <= Z.of_nat (List.length (trim text)) ->
  Z.of_nat (List.length text) < 2 ^ 48 ->
  PrimFloat.eqb (scoreOcrText text)
    (of_int (count is_letter (trim text) + count is_digit_unit (trim text)
             - 5 * count is_replacement (trim text) + 200)) = true.
Proof.
  intros text Hlong Hlen.
  change (2 ^ 48) with 281474976710656 in Hlen.
  set (t := trim text) in *.
  assert (Hn : (List.length t <= List.length text)%nat).
  { unfold t, trim. etransitivity; [apply length_trimEnd | apply length_trimStart]. }
  rewrite scoreOcrText_nonempty
    by (fold t; intros E; rewrite E in Hlong; simpl in Hlong; lia).
  fold t.
  destruct (count_bounds is_letter t) as [L0 L1].
  destruct (count_bounds is_digit_unit t) as [D0 D1].
  destruct (count_bounds is_replacement t) as [B0 B1].
  set (l := count is_letter t) in *. set (d := count is_digit_unit t) in *.
  set (b := count is_replacement t) in *. set (n := Z.of_nat (List.length t)) in *.
  destruct (score_bounds l d b n) as (N1 & Lo & Hi); try lia;
    try (change (2 ^ 51) with 2251799813685248; lia).
  destruct (of_int_value (l + d - 5 * b + 200)) as [N2 V2].
  { change (2 ^ prec) with 9007199254740992. lia. }
  rewrite (eqb_fv _ _ N1 N2). apply Z.eqb_eq. rewrite V2.
  replace (Z.min 400 (2 * n / 5)) with 400 in Lo by (clear - Hlong; dlia).
  replace (Z.min 400 ((2 * n + 4) / 5)) with 400 in Hi by (clear - Hlong; dlia).
  assert (PK : 2 ^ (- emin) = 2 * 2 ^ (-1 - emin)) by (vm_compute; reflexivity).
  rewrite PK. lia.
Qed.

Lemma score_of_long_text_witness :
  PrimFloat.eqb (scoreOcrText longText) (of_int 1400) = true.
Proof.
  apply (score_of_long_text longText);
    [vm_compute; discriminate | vm_compute; reflexivity].
Defined.

(** ** The router and the upload filter *)

Section RouterFacts.

Import Router.

Lemma ustring_eqb_eq (a b : ustring) : ustring_eqb a b = true <-> a = b.
Proof.
  revert b; induction a as [|x a IH]; intros [|y b]; simpl; split; intro H;
    try reflexivity; try discriminate.
  - apply andb_true_iff in H as [H1 H2]. apply N.eqb_eq in H1.
    apply IH in H2. congruence.
  - injection H as -> ->. rewrite N.eqb_refl. apply IH. reflexivity.
Qed.

Lemma endsWith_spec (s suffix : ustring) :
  endsWith s suffix = true <-> exists pre, s = pre ++ suffix.
Proof.
  unfold endsWith. rewrite andb_true_iff, Nat.leb_le, ustring_eqb_eq. split.
  - intros [_ H]. exists (firstn (List.length s - List.length suffix) s).
    pose proof (firstn_skipn (List.length s - List.length suffix) s) as E.
    rewrite H in E. symmetry. exact E.
  - intros [pre ->]. rewrite length_app. split; [lia|].
    replace (List.length pre + List.length suffix - List.length suffix)%nat
      with (List.length pre + 0)%nat by lia.
    rewrite skipn_app, Nat.add_comm. simpl.
    rewrite skipn_all. replace (List.length pre - List.length pre)%nat with 0%nat by lia.
    reflexivity.
Qed.

Lemma tifTest_spec (name : ustring) :
  tifTest name = true <-> exists pre suf, name = pre ++ suf /\ tifAtEnd suf = true.
Proof.
  induction name as [|c r IH].
  - simpl. split; [discriminate|]. intros (pre & suf & H & Hs).
    symmetry in H. apply app_eq_nil in H as [_ ->]. discriminate.
  - change (tifTest (c :: r)) with (tifAtEnd (c :: r) || tifTest r).
    rewrite orb_true_iff, IH. split.
    + intros [H | (pre & suf & -> & H)].
      * exists [], (c :: r). split; [reflexivity | exact H].
      * exists (c :: pre), suf. split; [reflexivity | exact H].
    + intros ([|x pre] & suf & H & Hs).
      * simpl in H. subst suf. left. exact Hs.
      * injection H as -> ->. right. exists pre, suf. split; [reflexivity | exact Hs].
Qed.

Lemma lowerUnit_dot (c : N) : lowerUnit c = 46%N <-> c = 46%N.
Proof.
  unfold lowerUnit.
  destruct (65 <=? c)%N eqn:H1; destruct (c <=? 90)%N eqn:H2; simpl;
    try (apply N.leb_le in H1); try (apply N.leb_le in H2); lia.
Qed.

Lemma lowerUnit_letter (l c : N) :
  (97 <= l <= 122)%N -> lowerUnit c = l <-> letterCI l c = true.
Proof.
  intro Hl. unfold lowerUnit, letterCI.
  rewrite orb_true_iff, !N.eqb_eq.
  destruct (65 <=? c)%N eqn:H1; destruct (c <=? 90)%N eqn:H2; simpl;
    try (apply N.leb_le in H1); try (apply N.leb_le in H2);
    try (apply N.leb_gt in H1); try (apply N.leb_gt in H2); lia.
Qed.

Lemma tifAtEnd_lower (suf : ustring) :
  tifAtEnd suf = true <->
  toLowerCase suf = units_of_string ".tif" \/ toLowerCase suf = units_of_string ".tiff".
Proof.
  assert (Ht := fun c => lowerUnit_letter 116 c ltac:(lia)).
  assert (Hi := fun c => lowerUnit_letter 105 c ltac:(lia)).
  assert (Hf := fun c => lowerUnit_letter 102 c ltac:(lia)).
  change (units_of_string ".tif") with [46; 116; 105; 102]%N.
  change (units_of_string ".tiff") with [46; 116; 105; 102; 102]%N.
  destruct suf as [|d [|t [|i [|f [|f' [|x r]]]]]]; simpl;
    try (split; [discriminate | intros [H | H]; discriminate]).
  - rewrite !andb_true_iff, N.eqb_eq, <- Ht, <- Hi, <- Hf, <- lowerUnit_dot.
    split.
    + intros [[[-> ->] ->] ->]. left. reflexivity.
    + intros [H | H]; [|discriminate]. injection H as -> -> -> ->. tauto.
  - rewrite !andb_true_iff, N.eqb_eq, <- Ht, <- Hi, <- !Hf, <- lowerUnit_dot.
    split.
    + intros [[[[-> ->] ->] ->] ->]. right. reflexivity.
    + intros [H | H]; [discriminate|]. injection H as -> -> -> -> ->. tauto.
Qed.

Lemma tifTest_endsWith (name : ustring) :
  tifTest name =
  endsWith (toLowerCase name) (units_of_string ".tif")
  || endsWith (toLowerCase name) (units_of_string ".tiff").
Proof.
  apply eq_true_iff_eq.
  rewrite orb_true_iff, tifTest_spec, !endsWith_spec. split.
  - intros (pre & suf & -> & H). apply tifAtEnd_lower in H.
    unfold toLowerCase in *. rewrite map_app.
    destruct H as [H | H]; rewrite H; [left | right]; eexists; reflexivity.
  - unfold toLowerCase.
    intros [[pre H] | [pre H]]; apply map_eq_app in H as (p & s & -> & _ & H);
      exists p, s; (split; [reflexivity|]); apply tifAtEnd_lower; auto.
Qed.

(** X16. The pattern of the upload filter and the two suffix tests of the
    router agree: on a name of code units below 128,
    [/\.tif{1,2}$/i.test(name)] holds exactly when the lower-cased name ends
    with [.tif] or [.tiff]. *)
Theorem tif_pattern_is_suffix_test (name : ustring) :
  isAscii name = true ->
  tifTest name =
  endsWith (toLowerCase name) (units_of_string ".tif")
  || endsWith (toLowerCase name) (units_of_string ".tiff").
Proof. intros _. apply tifTest_endsWith. Qed.

Lemma tif_pattern_is_suffix_test_witness :
  tifTest scanName =
  endsWith (toLowerCase scanName) (units_of_string ".tif")
  || endsWith (toLowerCase scanName) (units_of_string ".tiff").
Proof. apply (tif_pattern_is_suffix_test scanName). reflexivity. Defined.

Lemma route_cases (f : File) :
  route f =
  if ustring_eqb (file_type f) (units_of_string "application/pdf") then ToPdf
  else if ustring_eqb (file_type f) (units_of_string "image/tiff")
          || ustring_eqb (file_type f) (units_of_string "image/tif")
          || tifTest (file_name f)
  then ToTiff else ToImage.
Proof.
  unfold route. rewrite tifTest_endsWith.
  destruct (ustring_eqb (file_type f) (units_of_string "application/pdf")); [reflexivity|].
  rewrite <- !orb_assoc. reflexivity.
Qed.

(** X17. Every file with a name of code units below 128 that the upload
    filter lets through reaches the handler of its kind: a file of type
    [application/pdf] goes to [ocrPdf]; any other file whose name matches
    the TIFF pattern, or whose type is [image/tiff], goes to [ocrTiff],
    whatever else its type says; and a file that reaches [ocrImage] has one
    of the types [image/png], [image/jpeg], [image/jpg]. *)
Theorem accepted_file_route {A : Type} (ocrPdf ocrTiff ocrImage : File -> A) (f : File) :
  isAscii (file_name f) = true ->
  accepted f = true ->
  (file_type f = units_of_string "application/pdf"
   /\ ocrAny ocrPdf ocrTiff ocrImage f = ocrPdf f)
  \/ (file_type f <> units_of_string "application/pdf"
      /\ (file_type f = units_of_string "image/tiff" \/ tifTest (file_name f) = true)
      /\ ocrAny ocrPdf ocrTiff ocrImage f = ocrTiff f)
  \/ (In (file_type f)
         (map units_of_string ["image/png"; "image/jpeg"; "image/jpg"]%string)
      /\ tifTest (file_name f) = false
      /\ ocrAny ocrPdf ocrTiff ocrImage f = ocrImage f).
Proof.
  intros _ Hacc. unfold ocrAny. rewrite route_cases.
  unfold accepted in Hacc.
  destruct (ustring_eqb (file_type f) (units_of_string "application/pdf")) eqn:Hpdf.
  { left. apply ustring_eqb_eq in Hpdf. split; [exact Hpdf | reflexivity]. }
  right.
  assert (Hnp : file_type f <> units_of_string "application/pdf").
  { intro H. apply ustring_eqb_eq in H. congruence. }
  destruct (tifTest (file_name f)) eqn:Htif.
  { left. rewrite orb_true_r. split; [exact Hnp|]. split; [right; reflexivity | reflexivity]. }
  rewrite orb_false_r in Hacc |- *.
  unfold ALLOWED in Hacc. cbn [map existsb] in Hacc. rewrite Hpdf in Hacc.
  cbn [orb] in Hacc.
  destruct (ustring_eqb (file_type f) (units_of_string "image/tiff")) eqn:Htiff.
  { left. split; [exact Hnp|]. split; [left; apply ustring_eqb_eq; exact Htiff | reflexivity]. }
  right. cbn [orb] in Hacc.
  assert (Htif' : ustring_eqb (file_type f) (units_of_string "image/tif") = false).
  { destruct (ustring_eqb (file_type f) (units_of_string "image/tif")) eqn:E; [|reflexivity].
    apply ustring_eqb_eq in E. rewrite E in Hacc. vm_compute in Hacc. discriminate. }
  rewrite Htif'. cbn [orb]. split; [|split; reflexivity].
  rewrite orb_false_r in Hacc. apply orb_true_iff in Hacc as [Hacc | Hacc].
  - apply ustring_eqb_eq in Hacc; rewrite Hacc; cbn [map In]; auto.
  - apply orb_true_iff in Hacc as [Hacc | Hacc]; apply ustring_eqb_eq in Hacc;
      rewrite Hacc; cbn [map In]; auto.
Qed.

Lemma accepted_file_route_witness :
  (file_type misnamedScan = units_of_string "application/pdf"
   /\ ocrAny (fun _ => ToPdf) (fun _ => ToTiff) (fun _ => ToImage) misnamedScan = ToPdf)
  \/ (file_type misnamedScan <> units_of_string "application/pdf"
      /\ (file_type misnamedScan = units_of_string "image/tiff"
          \/ tifTest (file_name misnamedScan) = true)
      /\ ocrAny (fun _ => ToPdf) (fun _ => ToTiff) (fun _ => ToImage) misnamedScan = ToTiff)
  \/ (In (file_type misnamedScan)
         (map units_of_string ["image/png"; "image/jpeg"; "image/jpg"]%string)
      /\ tifTest (file_name misnamedScan) = false
      /\ ocrAny (fun _ => ToPdf) (fun _ => ToTiff) (fun _ => ToImage) misnamedScan = ToImage).
Proof.
  apply (accepted_file_route (fun _ => ToPdf) (fun _ => ToTiff) (fun _ => ToImage) misnamedScan);
    reflexivity.
Defined.

End RouterFacts.

(** ** The shared worker *)

Section WorkerCacheFacts.

Import WorkerCache.

Variable Worker : Type.
Variable create : nat -> result Worker.
Variable terminate : Worker -> result unit.


Lemma failed_call (c : Call) (st : State Worker) (e : exn) :
  workerPromise st = Some (Throw e) ->
  call Worker create terminate c st = (Failed e, st).
Proof.
  intro H. destruct c; unfold call, getWorker, terminateOcrWorker; rewrite H; reflexivity.
Qed.

Lemma failed_calls (cs : list Call) (st : State Worker) (e : exn) :
  workerPromise st = Some (Throw e) ->
  calls Worker create terminate cs st = (map (fun _ => Failed e) cs, st).
Proof.
  intro H. induction cs as [|c r IH]; [reflexivity|].
  cbn [calls map]. rewrite (failed_call c st e H), IH. reflexivity.
Qed.

Lemma call_created (c : Call) (st : State Worker) :
  (created (snd (call Worker create terminate c st)) <=
     created st + missing Worker st)%nat
  /\ (isTerminate c = false ->
      workerPromise (snd (call Worker create terminate c st)) <> None).
Proof.
  destruct c; unfold call, getWorker, terminateOcrWorker, missing;
    destruct (workerPromise st) as [[w|e]|] eqn:E; cbn.
  - rewrite E. split; [lia | discriminate].
  - rewrite E. split; [lia | discriminate].
  - split; [lia | discriminate].
  - destruct (terminate w); cbn; split; try lia; discriminate.
  - split; [lia | discriminate].
  - split; [lia | discriminate].
Qed.

Lemma calls_created (cs : list Call) (st : State Worker) :
  (created (snd (calls Worker create terminate cs st)) <=
     created st + missing Worker st
     + List.length (filter isTerminate cs))%nat.
Proof.
  revert st. induction cs as [|c r IH]; intro st.
  - cbn. lia.
  - cbn [calls]. destruct (call Worker create terminate c st) as [o st1] eqn:E1.
    specialize (IH st1). destruct (calls Worker create terminate r st1) as [os st2] eqn:E2. cbn [snd] in *.
    pose proof (call_created c st) as [H1 H2]. rewrite E1 in H1, H2. cbn [snd] in H1, H2.
    cbn [filter]. destruct c; cbn [isTerminate] in *.
    + unfold missing in *. specialize (H2 eq_refl).
      destruct (workerPromise st1); [|congruence].
      destruct (workerPromise st); lia.
    + cbn [List.length]. unfold missing in *.
      destruct (workerPromise st); destruct (workerPromise st1); lia.
Qed.

Lemma cached_gets (n : nat) (st : State Worker) (p : result Worker) :
  workerPromise st = Some p ->
  calls Worker create terminate (repeat Get n) st
  = (repeat (match p with Ok w => Got w | Throw e => Failed e end) n, st).
Proof.
  intro H. induction n as [|n IH]; [reflexivity|].
  cbn [repeat calls]. unfold call at 1, getWorker. rewrite H, IH. reflexivity.
Qed.

Lemma gets_agree (n : nat) (st : State Worker) :
  exists o, fst (calls Worker create terminate (repeat Get n) st) = repeat o n.
Proof.
  destruct n as [|n]; [exists Done; reflexivity|].
  cbn [repeat calls].
  destruct (call Worker create terminate Get st) as [o st1] eqn:E.
  unfold call, getWorker in E.
  destruct (workerPromise st) as [p|] eqn:Es.
  - injection E as <- <-. rewrite (cached_gets n st p Es). eexists. reflexivity.
  - injection E as <- <-.
    rewrite (cached_gets n (mkState (Some (create (created st))) (S (created st)))
               (create (created st)) eq_refl).
    eexists. reflexivity.
Qed.

End WorkerCacheFacts.

(** X18. A worker that failed to start is never replaced: once the cached
    promise is a rejected one, every later call of [getWorker] and of
    [terminateOcrWorker] fails with that same error, the cache is not
    cleared and Tesseract is not asked for a worker again. *)
Theorem failed_worker_is_never_replaced (Worker : Type)
    (create : nat -> result Worker) (terminate : Worker -> result unit)
    (cs : list WorkerCache.Call) (st : WorkerCache.State Worker) (e : exn) :
  WorkerCache.workerPromise st = Some (Throw e) ->
  WorkerCache.calls Worker create terminate cs st
  = (map (fun _ => WorkerCache.Failed e) cs, st).
Proof. apply failed_calls. Qed.

Lemma failed_worker_is_never_replaced_witness :
  WorkerCache.calls nat flakyStart (fun _ => Ok tt)
    [WorkerCache.Get; WorkerCache.Terminate; WorkerCache.Get]
    (snd (WorkerCache.getWorker nat flakyStart (WorkerCache.mkState None 0)))
  = (map (fun _ => WorkerCache.Failed (Error "NetworkError: failed to load eng.traineddata"))
         [WorkerCache.Get; WorkerCache.Terminate; WorkerCache.Get],
     snd (WorkerCache.getWorker nat flakyStart (WorkerCache.mkState None 0))).
Proof.
  apply (failed_worker_is_never_replaced nat flakyStart (fun _ => Ok tt)
           [WorkerCache.Get; WorkerCache.Terminate; WorkerCache.Get]
           (snd (WorkerCache.getWorker nat flakyStart (WorkerCache.mkState None 0)))).
  reflexivity.
Defined.

(** X19. The worker is shared: any number of calls of [getWorker] in a row
    settle to the same worker (or the same error), and over any sequence of
    calls that do not overlap Tesseract is asked for a worker at most once
    at the start (not at all if a promise is cached) plus once for each call
    of [terminateOcrWorker]. *)
Theorem worker_is_shared (Worker : Type)
    (create : nat -> result Worker) (terminate : Worker -> result unit)
    (st : WorkerCache.State Worker) :
  (forall n, exists o,
      fst (WorkerCache.calls Worker create terminate (repeat WorkerCache.Get n) st)
      = repeat o n)
  /\ (forall cs,
      (WorkerCache.created (snd (WorkerCache.calls Worker create terminate cs st)) <=
         WorkerCache.created st
         + WorkerCache.missing Worker st
         + List.length (filter WorkerCache.isTerminate cs))%nat).
Proof.
  split; [intro n; apply gets_agree | intro cs; apply calls_created].
Qed.

(** ** The PDF assembler *)

Lemma mapM_length {A B : Type} (f : A -> result B) (l : list A) (bs : list B) :
  mapM f l = Ok bs ->
  List.length bs = List.length l /\ Forall (fun b => exists a, f a = Ok b) bs.
Proof.
  revert bs. induction l as [|a r IH]; intros bs H.
  - injection H as <-. split; [reflexivity | constructor].
  - cbn [mapM] in H. destruct (f a) as [b|] eqn:Ea; [|discriminate].
    cbn [bind] in H. destruct (mapM f r) as [bs'|]; [|discriminate].
    cbn [bind] in H. injection H as <-. destruct (IH bs' eq_refl) as [L F].
    split; [simpl; now rewrite L | constructor; [now exists a | assumption]].
Qed.

Lemma mapM_app {A B : Type} (f : A -> result B) (pre post : list A) :
  mapM f (pre ++ post)
  = (bs <- mapM f pre ;; bs' <- mapM f post ;; Ok (bs ++ bs')).
Proof.
  induction pre as [|a r IH]; simpl.
  - destruct (mapM f post); reflexivity.
  - destruct (f a); simpl; [|reflexivity]. rewrite IH.
    destruct (mapM f r); simpl; [|reflexivity].
    destruct (mapM f post); reflexivity.
Qed.

Lemma ocrPdfPage_trimmed (env : Browser) (worker : Engine) (p : Pdf.Page) (t : ustring) :
  Pdf.ocrPdfPage env worker p = Ok t -> exists raw, t = trim raw.
Proof.
  intro H. unfold Pdf.ocrPdfPage in H.
  destruct p as [e|[canvas|e]]; try discriminate;
    destruct (negb (has2d env)); try discriminate.
  cbn [bind] in H. destruct (_ || _)%bool; try discriminate.
  destruct (canvasToOcrText _ _ _ _ _ _) as [raw|]; try discriminate.
  cbn [bind] in H. injection H as <-. now exists raw.
Qed.

(** X20. The text [ocrPdf] returns is the page texts, trimmed, without the
    blank ones, joined by the page-break line, one text per page of the
    document.  It carries no white space at either end and is the empty
    string exactly when every page came out blank. *)
Theorem ocrPdf_text (env : Browser) (worker : Engine) (pages : list Pdf.Page)
    (text : ustring) :
  Pdf.ocrPdf env worker (Ok pages) = Ok text ->
  exists texts,
    mapM (Pdf.ocrPdfPage env worker) pages = Ok texts /\
    List.length texts = List.length pages /\
    text = join pageBreak (filter nonEmpty texts) /\
    trim text = text /\
    (text = [] <-> Forall (fun t => t = []) texts).
Proof.
  intro H. unfold Pdf.ocrPdf in H. cbn [bind] in H.
  destruct (mapM (Pdf.ocrPdfPage env worker) pages) as [texts|] eqn:E; try discriminate.
  cbn [bind] in H. injection H as <-.
  destruct (mapM_length _ _ _ E) as [L F].
  exists texts. repeat (split; [first [reflexivity | assumption]|]).
  assert (G : Forall (fun t => t <> [] /\ headOk t = true /\ headOk (rev t) = true)
                (filter nonEmpty texts)).
  { apply Forall_forall. intros t Hin. apply filter_In in Hin.
    destruct Hin as [Hin Hne].
    rewrite Forall_forall in F. destruct (F t Hin) as (p & Hp).
    destruct (ocrPdfPage_trimmed _ _ _ _ Hp) as [raw ->]. destruct (trim_heads raw).
    repeat split; auto. intros E0. now rewrite E0 in Hne. }
  destruct (join_heads pageBreak _ G) as (J1 & J2 & J3). split.
  - now apply heads_trim.
  - rewrite <- filter_nonEmpty_nil. split.
    + intros E0. destruct (filter nonEmpty texts) as [|t r'] eqn:Ef; auto.
      exfalso. apply J3; [discriminate | exact E0].
    + intros ->. reflexivity.
Qed.

Lemma ocrPdf_text_witness :
  exists texts,
    mapM (Pdf.ocrPdfPage copyBrowser constantEngine) [whitePage; whitePage] = Ok texts /\
    List.length texts = 2%nat /\
    units_of_string "A" ++ pageBreak ++ units_of_string "A"
    = join pageBreak (filter nonEmpty texts) /\
    trim (units_of_string "A" ++ pageBreak ++ units_of_string "A")
    = units_of_string "A" ++ pageBreak ++ units_of_string "A" /\
    (units_of_string "A" ++ pageBreak ++ units_of_string "A" = []
     <-> Forall (fun t => t = []) texts).
Proof.
  apply (ocrPdf_text copyBrowser constantEngine [whitePage; whitePage]).
  vm_compute. reflexivity.
Defined.

(** X21. One page that cannot be read loses the whole document: [ocrPdf]
    rejects with the error of the first page that fails, whatever was read
    on the pages before it; and a document without pages is not an error,
    it gives the empty string. *)
Theorem ocrPdf_first_failure (env : Browser) (worker : Engine) :
  Pdf.ocrPdf env worker (Ok []) = Ok []
  /\ forall (pre post : list Pdf.Page) (p : Pdf.Page) (texts : list ustring) (e : exn),
      mapM (Pdf.ocrPdfPage env worker) pre = Ok texts ->
      Pdf.ocrPdfPage env worker p = Throw e ->
      Pdf.ocrPdf env worker (Ok (pre ++ p :: post)) = Throw e.
Proof.
  split; [reflexivity|].
  intros pre post p texts e Hpre Hp. unfold Pdf.ocrPdf. cbn [bind].
  rewrite mapM_app, Hpre. cbn [bind mapM]. rewrite Hp. reflexivity.
Qed.

Lemma ocrPdf_first_failure_witness :
  Pdf.ocrPdf copyBrowser constantEngine (Ok [whitePage; brokenPage; whitePage])
  = Throw (Error "Invalid page content stream.").
Proof.
  apply (proj2 (ocrPdf_first_failure copyBrowser constantEngine)
           [whitePage] [whitePage] brokenPage [units_of_string "A"]);
    vm_compute; reflexivity.
Defined.

(** ** The [/api/structure] handler *)


(** X23. A [null] among the line items of the model's reply costs the
    whole request: with a text, a key and a reply that parses to an object
    with a [null] line item, the answer is the 500 failure and nothing of
    the reply is returned. *)
Theorem null_item_reply_fails (groq : option json -> string -> result (option string))
    (parse : string -> result json) (fs : list (string * json))
    (text : string) (content : option string) (fields : list (string * json)) :
  Obj.get "text" fs = Some (JStr text) ->
  trim (units_of_string text) <> [] ->
  groq (Obj.get "fileName" fs) text = Ok content ->
  parse (Api.rawReply content) = Ok (JObj fields) ->
  noNullItem fields = false ->
  Api.structureHandler true groq parse (Some (JObj fs))
  = Api.mkResponse 500 (Api.errorBody "Failed to structure OCR output.").
Proof.
  intros Ht Hne Hg Hp Hnull.
  unfold Api.structureHandler, Api.attempt. cbn [Api.destructure bind].
  rewrite Ht. cbn [bind Api.usableText].
  destruct (trim (units_of_string text)) as [|c t] eqn:E; [congruence|].
  cbn [bind].
  destruct (Api.fileLabel (Obj.get "fileName" fs)) as [label|]; [|reflexivity].
  cbn [bind negb]. rewrite Hg. cbn [bind]. rewrite Hp. cbn [bind].
  destruct (proj2 (reconcile_throws_iff (JObj fields))) as [e He].
  { exists fields. split; [reflexivity | left; exact Hnull]. }
  rewrite He. reflexivity.
Qed.

Lemma null_item_reply_fails_witness :
  Api.structureHandler true sampleGroq sampleParse receiptRequest
  = Api.mkResponse 500 (Api.errorBody "Failed to structure OCR output.").
Proof.
  apply (null_item_reply_fails sampleGroq sampleParse
           [("fileName"%string, JStr "till.png"); ("text"%string, JStr "MILK 2 x 1.50")]
           "MILK 2 x 1.50" (Some nullItemReply) [("line_items"%string, JArr [JNull])]).
  - reflexivity.
  - vm_compute. discriminate.
  - reflexivity.
  - reflexivity.
  - reflexivity.
Defined.

(** ** The origin check *)

Lemma substring_all (s : string) : substring 0 (String.length s) s = s.
Proof. induction s as [|c s IH]; simpl; [reflexivity | now rewrite IH]. Qed.

Lemma substring_append (pre suf : string) :
  substring (String.length pre) (String.length suf) (pre ++ suf) = suf.
Proof. induction pre as [|c pre IH]; simpl; [apply substring_all | exact IH]. Qed.

Lemma string_length_append (a b : string) :
  String.length (a ++ b) = (String.length a + String.length b)%nat.
Proof. induction a as [|c a IH]; simpl; [reflexivity | now rewrite IH]. Qed.

Lemma substring_split (s : string) (k m : nat) :
  (k + m)%nat = String.length s ->
  s = (substring 0 k s ++ substring k m s)%string.
Proof.
  revert k. induction s as [|c s IH]; intros k H.
  - simpl in H. assert (k = 0%nat) by lia. assert (m = 0%nat) by lia. subst. reflexivity.
  - destruct k as [|k].
    + simpl in H. subst m. cbn [substring append]. now rewrite substring_all.
    + simpl in H. cbn [substring append]. f_equal. apply IH. lia.
Qed.

Lemma api_endsWith_spec (s suffix : string) :
  Api.endsWith s suffix = true <-> exists pre, s = (pre ++ suffix)%string.
Proof.
  unfold Api.endsWith. rewrite andb_true_iff, Nat.leb_le, String.eqb_eq. split.
  - intros [Hle H]. exists (substring 0 (String.length s - String.length suffix) s).
    pose proof (substring_split s (String.length s - String.length suffix)
                  (String.length suffix) ltac:(lia)) as E.
    rewrite H in E. exact E.
  - intros [pre ->]. rewrite string_length_append. split; [lia|].
    replace (String.length pre + String.length suffix - String.length suffix)%nat
      with (String.length pre) by lia.
    apply substring_append.
Qed.

(** X24. Any origin whose text ends with [.vercel.app] is let in, whoever
    owns that name; and an origin that is turned away is a non-empty one
    that does not end so, the error naming it. *)
Theorem vercel_suffix_is_allowed :
  (forall pre : string, Api.corsOrigin (Some (pre ++ ".vercel.app")%string) = Ok true)
  /\ (forall origin,
        Api.corsOrigin origin = Ok true
        \/ exists o, origin = Some o /\ o <> EmptyString
             /\ (forall pre, o <> (pre ++ ".vercel.app")%string)
             /\ Api.corsOrigin origin = Throw (Error ("CORS blocked: " ++ o))).
Proof.
  split.
  - intro pre. unfold Api.corsOrigin, Api.isAllowedOrigin.
    assert (H : Api.endsWith (pre ++ ".vercel.app") ".vercel.app" = true).
    { apply api_endsWith_spec. now exists pre. }
    rewrite H. destruct (pre ++ ".vercel.app")%string; [reflexivity|].
    destruct (existsb _ _); reflexivity.
  - intros [o|]; [|left; reflexivity].
    unfold Api.corsOrigin, Api.isAllowedOrigin.
    destruct o as [|c o]; [left; reflexivity|].
    destruct (existsb _ _); [left; reflexivity|].
    destruct (Api.endsWith (String c o) ".vercel.app") eqn:E; [left; reflexivity|].
    right. exists (String c o). repeat split; try discriminate.
    intros pre Hp. assert (Api.endsWith (String c o) ".vercel.app" = true).
    { apply api_endsWith_spec. now exists pre. }
    congruence.
Qed.

(** ** The OCR queue *)

Section QueueFacts.

Import App.

Variable File : Type.
Variable ocrAny : File -> result ustring.

Lemma setText_other (i : string) (text : ustring) (l : list (Item File)) :
  ~ In i (map id l) -> map (setText i text) l = l.
Proof.
  induction l as [|x r IH]; intro H; [reflexivity|].
  cbn [map]. rewrite IH by (intro; apply H; right; assumption).
  unfold setText. destruct (String.eqb (id x) i) eqn:E; [|reflexivity].
  apply String.eqb_eq in E. exfalso. apply H. left. exact E.
Qed.

Lemma setError_other (i : string) (msg : string) (l : list (Item File)) :
  ~ In i (map id l) -> map (setError i msg) l = l.
Proof.
  induction l as [|x r IH]; intro H; [reflexivity|].
  cbn [map]. rewrite IH by (intro; apply H; right; assumption).
  unfold setError. destruct (String.eqb (id x) i) eqn:E; [|reflexivity].
  apply String.eqb_eq in E. exfalso. apply H. left. exact E.
Qed.

Lemma id_afterOcr (x : Item File) : id (afterOcr File ocrAny x) = id x.
Proof.
  unfold afterOcr. destruct (isPending x); [|reflexivity].
  destruct (ocrAny (file x)); reflexivity.
Qed.

Lemma ids_afterOcr (l : list (Item File)) :
  map id (map (afterOcr File ocrAny) l) = map id l.
Proof.
  induction l as [|x r IH]; [reflexivity|].
  cbn [map]. now rewrite IH, id_afterOcr.
Qed.

(** The loop, turn by turn: the items done are as [afterOcr] leaves them,
    the others untouched; the selection follows the last file read. *)
Lemma turns (captured : option string) (todo : list (Item File)) :
  forall (done : list (Item File)) (b : bool) (a : option string) (t : Tab),
  NoDup (map id (done ++ todo)) ->
  items (fold_left (turn File ocrAny captured) todo
           (mkApp (map (afterOcr File ocrAny) done ++ todo) b a t))
  = map (afterOcr File ocrAny) (done ++ todo).
Proof.
  induction todo as [|x r IH]; intros done b a t Hnd.
  - cbn [fold_left items]. now rewrite map_app.
  - cbn [fold_left].
    assert (Hx1 : ~ In (id x) (map id (map (afterOcr File ocrAny) done))).
    { rewrite ids_afterOcr. rewrite map_app in Hnd. cbn [map] in Hnd.
      apply NoDup_remove_2 in Hnd. intro H. apply Hnd. apply in_or_app. now left. }
    assert (Hx2 : ~ In (id x) (map id r)).
    { rewrite map_app in Hnd. cbn [map] in Hnd.
      apply NoDup_remove_2 in Hnd. intro H. apply Hnd. apply in_or_app. now right. }
    assert (Hnd' : NoDup (map id ((done ++ [x]) ++ r))).
    { now rewrite <- app_assoc. }
    assert (Hgoal : forall st',
      items st' = map (afterOcr File ocrAny) (done ++ [x]) ++ r ->
      items (fold_left (turn File ocrAny captured) r st')
      = map (afterOcr File ocrAny) (done ++ x :: r)).
    { intros [its b' a' t'] Hi. cbn [items] in Hi. subst its.
      rewrite (IH (done ++ [x]) b' a' t' Hnd'). now rewrite <- app_assoc. }
    apply Hgoal. rewrite map_app. cbn [map]. rewrite <- app_assoc. cbn [app].
    assert (Hax : afterOcr File ocrAny x =
                  if isPending x then
                    match ocrAny (file x) with
                    | Ok text => mkItem (id x) (file x) ocr_done text (structured x) (err x)
                    | Throw e => mkItem (id x) (file x) error (ocrText x) (structured x)
                                   (Some (errText e))
                    end
                  else x) by reflexivity.
    rewrite Hax. clear Hax. unfold turn.
    destruct (isPending x) eqn:Ep; cbn [negb items]; [|reflexivity].
    destruct (ocrAny (file x)) as [text|e]; cbn [items];
      rewrite map_app; cbn [map].
    + rewrite (setText_other _ _ _ Hx1), (setText_other _ _ _ Hx2).
      unfold setText. now rewrite String.eqb_refl.
    + rewrite (setError_other _ _ _ Hx1), (setError_other _ _ _ Hx2).
      unfold setError. now rewrite String.eqb_refl.
Qed.

Lemma afterOcr_settled (l : list (Item File)) :
  existsb isPending l = false -> map (afterOcr File ocrAny) l = l.
Proof.
  induction l as [|x r IH]; intro H; [reflexivity|].
  cbn [existsb] in H. apply orb_false_iff in H as [H1 H2].
  cbn [map]. rewrite (IH H2). unfold afterOcr. now rewrite H1.
Qed.

Lemma runOcr_items_eq (st : State File) :
  NoDup (map id (items st)) ->
  items (runOcr File ocrAny st) = map (afterOcr File ocrAny) (items st).
Proof.
  intro Hnd. unfold runOcr.
  destruct (existsb isPending (items st)) eqn:E; cbn [negb].
  - cbn [items]. apply (turns (activeId st) (items st) [] true (activeId st) (tab st) Hnd).
  - symmetry. now apply afterOcr_settled.
Qed.

(** The selection and the tab after the loop. *)
Lemma turns_selection (captured : option string) (todo : list (Item File)) :
  forall st,
  let st' := fold_left (turn File ocrAny captured) todo st in
  activeId st' =
    (if unset captured then
       match rev (filter (readable File ocrAny) todo) with
       | x :: _ => Some (id x)
       | [] => activeId st
       end
     else activeId st)
  /\ tab st' =
    (if existsb (readable File ocrAny) todo then tab_ocr else tab st)
  /\ busy st' = busy st.
Proof.
  induction todo as [|x r IH] using rev_ind; intro st.
  - cbn. destruct (unset captured); auto.
  - intro st'. subst st'. rewrite fold_left_app. cbn [fold_left].
    destruct (IH st) as (Ha & Ht & Hb).
    set (st1 := fold_left (turn File ocrAny captured) r st) in *.
    rewrite filter_app, rev_app_distr, existsb_app. cbn [filter existsb].
    rewrite orb_false_r.
    generalize dependent (existsb (readable File ocrAny) r).
    generalize dependent (rev (filter (readable File ocrAny) r)).
    intros l Ha e Ht.
    unfold turn, readable.
    destruct (isPending x); cbn [negb andb rev app].
    + destruct (ocrAny (file x)) as [text|e']; cbn [activeId tab busy rev app].
      * rewrite orb_true_r. destruct (unset captured); auto.
      * rewrite orb_false_r. auto.
    + rewrite orb_false_r. auto.
Qed.

Lemma settled_unreadable (l : list (Item File)) :
  existsb isPending l = false ->
  filter (readable File ocrAny) l = [] /\ existsb (readable File ocrAny) l = false.
Proof.
  induction l as [|x r IH]; intro H; [split; reflexivity|].
  cbn [existsb] in H. apply orb_false_iff in H as [H1 H2].
  destruct (IH H2) as [F E]. cbn [filter existsb].
  assert (Hx : readable File ocrAny x = false) by (unfold readable; now rewrite H1).
  rewrite Hx. cbn [orb]. now split.
Qed.

Lemma runOcr_selection_eq (st : State File) :
  activeId (runOcr File ocrAny st) =
    (if unset (activeId st) then
       match rev (filter (readable File ocrAny) (items st)) with
       | x :: _ => Some (id x)
       | [] => activeId st
       end
     else activeId st)
  /\ tab (runOcr File ocrAny st) =
    (if existsb (readable File ocrAny) (items st) then tab_ocr else tab st).
Proof.
  unfold runOcr. destruct (existsb isPending (items st)) eqn:E; cbn [negb].
  - cbn [activeId tab].
    destruct (turns_selection (activeId st) (items st)
                (mkApp (items st) true (activeId st) (tab st))) as (Ha & Ht & _).
    cbn [activeId tab] in Ha, Ht. split; assumption.
  - destruct (settled_unreadable (items st) E) as [F X]. rewrite F, X. cbn [rev].
    destruct (unset (activeId st)); split; reflexivity.
Qed.

End QueueFacts.

(** X25. [runOcr] reads every pending file once and leaves the others as
    they are: with distinct ids, each pending item ends as [ocr_done] with
    its text or as [error] with the message of its failure (["OCR failed."]
    when there is none), in place; a file that fails does not stop the
    queue, and no item is pending afterwards. *)
Theorem runOcr_items (File : Type) (ocrAny : File -> result ustring)
    (st : App.State File) :
  NoDup (map App.id (App.items st)) ->
  App.items (App.runOcr File ocrAny st) = map (App.afterOcr File ocrAny) (App.items st)
  /\ existsb App.isPending (App.items (App.runOcr File ocrAny st)) = false
  /\ App.busy (App.runOcr File ocrAny st) = App.busy st && negb (existsb App.isPending (App.items st)).
Proof.
  intro Hnd. rewrite (runOcr_items_eq File ocrAny st Hnd). split; [reflexivity|]. split.
  - induction (App.items st) as [|x r IH]; [reflexivity|].
    cbn [map existsb]. rewrite IH by (cbn [map] in Hnd; now inversion Hnd).
    rewrite orb_false_r. unfold App.afterOcr.
    destruct (App.isPending x) eqn:E; [|exact E].
    destruct (ocrAny (App.file x)); reflexivity.
  - unfold App.runOcr. destruct (existsb App.isPending (App.items st)); cbn [negb App.busy].
    + now rewrite andb_false_r.
    + now rewrite andb_true_r.
Qed.

Lemma runOcr_items_witness :
  App.items (App.runOcr nat sampleOcr sampleQueue)
  = map (App.afterOcr nat sampleOcr) (App.items sampleQueue)
  /\ existsb App.isPending (App.items (App.runOcr nat sampleOcr sampleQueue)) = false
  /\ App.busy (App.runOcr nat sampleOcr sampleQueue)
     = App.busy sampleQueue && negb (existsb App.isPending (App.items sampleQueue)).
Proof.
  apply (runOcr_items nat sampleOcr sampleQueue).
  repeat constructor; cbn; intuition discriminate.
Defined.

(** X26. With no file selected when [runOcr] starts, the selection ends on
    the last file that was read, not the first: every turn that succeeds
    sets it again, since the loop tests the [activeId] it started with.  A
    selection already made is kept.  The view moves to the OCR tab exactly
    when at least one file was read. *)
Theorem runOcr_selection (File : Type) (ocrAny : File -> result ustring)
    (st : App.State File) :
  App.activeId (App.runOcr File ocrAny st) =
    (if App.unset (App.activeId st) then
       match rev (filter (App.readable File ocrAny) (App.items st)) with
       | x :: _ => Some (App.id x)
       | [] => App.activeId st
       end
     else App.activeId st)
  /\ App.tab (App.runOcr File ocrAny st) =
    (if existsb (App.readable File ocrAny) (App.items st) then App.tab_ocr
     else App.tab st).
Proof. apply runOcr_selection_eq. Qed.

(** ** Whole cents *)

(** A quotient is rounded to within one unit in the last place of the exact
    quotient, whatever the signs. *)
Lemma SFdiv_near : forall sa ma ea sb mb eb,
  nice (S754_finite sa ma ea) = true ->
  nice (S754_finite sb mb eb) = true ->
  emin <= ea - eb - prec -> ea - eb <= emax - prec - 3 ->
  exists mr er,
    SFdiv prec emax (S754_finite sa ma ea) (S754_finite sb mb eb)
    = S754_finite (xorb sa sb) mr er /\
    nice (S754_finite (xorb sa sb) mr er) = true /\
    (Z.pos mr * 2 ^ (er - emin) - 2 ^ (er - emin)) * (Z.pos mb * 2 ^ (eb - emin))
      <= Z.pos ma * 2 ^ (ea - emin) * 2 ^ (- emin) /\
    Z.pos ma * 2 ^ (ea - emin) * 2 ^ (- emin)
      <= (Z.pos mr * 2 ^ (er - emin) + 2 ^ (er - emin)) * (Z.pos mb * 2 ^ (eb - emin)).
Proof.
  intros sa ma ea sb mb eb Ha Hb Hnorm Hover.
  destruct (nice_finite _ _ _ Ha) as (Hda & Hea & _).
  destruct (nice_finite _ _ _ Hb) as (Hdb & Heb & _).
  destruct (digits2_pos_bounds ma) as [La Ua]. rewrite Hda in La, Ua.
  destruct (digits2_pos_bounds mb) as [Lb Ub]. rewrite Hdb in Lb, Ub.
  cbn [SFdiv]. rewrite SFdiv_core_nice by auto.
  set (e' := ea - eb - prec).
  pose proof (Z_div_mod (Z.pos ma * 2 ^ prec) (Z.pos mb) ltac:(lia)) as Hdm.
  destruct (Z.div_eucl (Z.pos ma * 2 ^ prec) (Z.pos mb)) as [q rem].
  destruct Hdm as [Hq Hrem].
  assert (HP : 2 ^ prec = 2 * 2 ^ (prec - 1)) by (unfold prec; reflexivity).
  assert (HP1 : 0 < 2 ^ (prec - 1)) by (unfold prec; reflexivity).
  assert (Hqb : 2 ^ (prec - 1) <= q < 2 ^ (prec + 1)).
  { replace (2 ^ (prec + 1)) with (2 * 2 ^ prec) by (unfold prec; reflexivity).
    split; nia. }
  destruct q as [|qp|qp]; try lia.
  assert (Hdq : prec <= Z.pos (digits2_pos qp)).
  { destruct (digits2_pos_bounds qp) as [_ Uq].
    destruct (Z_le_gt_dec prec (Z.pos (digits2_pos qp))); auto. exfalso.
    assert (2 ^ Z.pos (digits2_pos qp) <= 2 ^ (prec - 1))
      by (apply Z.pow_le_mono_r; lia). lia. }
  assert (Hdq' : Z.pos (digits2_pos qp) <= prec + 1).
  { destruct (digits2_pos_bounds qp) as [Lq _].
    destruct (Z_le_gt_dec (Z.pos (digits2_pos qp)) (prec + 1)); auto. exfalso.
    assert (2 ^ (prec + 1) <= 2 ^ (Z.pos (digits2_pos qp) - 1))
      by (apply Z.pow_le_mono_r; lia). lia. }
  destruct (bra_spec (xorb sa sb) qp e' (new_location (Z.pos mb) rem))
    as (mr & er & Hr & Hdr & Her & Hval & _);
    try (unfold e', emin, prec, emax in *; lia).
  set (n := Z.pos (digits2_pos qp) - prec) in *.
  set (m' := Z.pos qp / 2 ^ n) in *.
  exists mr, er. split; [exact Hr|]. split.
  { apply finite_nice; auto; unfold e', n, emin, prec, emax in *; lia. }
  assert (Hn : 0 <= n <= 1) by (unfold n; lia).
  assert (H2n : 0 < 2 ^ n) by (apply pow_pos; lia).
  assert (Hm' : m' * 2 ^ n <= Z.pos qp < (m' + 1) * 2 ^ n).
  { unfold m'. split.
    - rewrite Z.mul_comm. apply Z.mul_div_le. exact H2n.
    - rewrite Z.mul_comm. apply Z.mul_succ_div_gt. exact H2n. }
  set (F := 2 ^ (e' - emin)).
  assert (HF : 0 < F) by (apply pow_pos; unfold e'; lia).
  set (G := 2 ^ (eb - emin)).
  assert (HG : 0 < G) by (apply pow_pos; lia).
  assert (Hfac : 2 ^ (ea - emin) * 2 ^ (- emin) = 2 ^ prec * (F * G)).
  { unfold F, G. rewrite <- !Z.pow_add_r by (unfold e', emin, prec, emax in *; lia).
    f_equal. unfold e'. lia. }
  set (u := 2 ^ (er - (e' + n))) in *.
  assert (Hu : 1 <= u) by (assert (0 < u) by (apply pow_pos; lia); lia).
  assert (Eu : 2 ^ (er - emin) = u * (2 ^ n * F)).
  { unfold u, F. rewrite <- !Z.pow_add_r by (unfold e' in *; lia).
    f_equal. lia. }
  rewrite Eu.
  replace (Z.pos ma * 2 ^ (ea - emin) * 2 ^ (- emin))
    with (Z.pos ma * 2 ^ prec * (F * G)) by (rewrite <- Z.mul_assoc, <- Hfac; ring).
  set (A := Z.pos ma * 2 ^ prec) in *.
  set (Q := Z.pos qp) in *. set (B := Z.pos mb) in *. set (R := Z.pos mr) in *.
  set (N := 2 ^ n) in *.
  assert (HB : 0 < B) by (unfold B; lia).
  assert (HQ1 : Q * B <= A) by lia.
  assert (HQ2 : A < (Q + 1) * B) by lia.
  assert (HRl : m' <= R * u <= m' + 1) by lia.
  clearbody A Q B R N u F G m'. clear - HB HQ1 HQ2 HRl Hm' Hu H2n HF HG.
  assert (HFG : 0 < F * G) by nia.
  split.
  - replace ((R * (u * (N * F)) - u * (N * F)) * (B * G))
      with ((R * u - u) * N * B * (F * G)) by ring.
    apply Z.mul_le_mono_nonneg_r; [lia|].
    assert ((R * u - u) * N <= Q) by nia.
    assert ((R * u - u) * N * B <= Q * B) by (apply Z.mul_le_mono_nonneg_r; lia).
    lia.
  - replace ((R * (u * (N * F)) + u * (N * F)) * (B * G))
      with ((R * u + u) * N * B * (F * G)) by ring.
    apply Z.mul_le_mono_nonneg_r; [lia|].
    assert (Q + 1 <= (R * u + u) * N) by nia.
    assert ((Q + 1) * B <= (R * u + u) * N * B) by (apply Z.mul_le_mono_nonneg_r; lia).
    lia.
Qed.

(** The number nearest to [k / 100]: in hundredths it is within 2^-11 of
    [k]. *)
Lemma cents_value : forall k,
  k <> 0 -> Z.abs k < 2 ^ 40 ->
  fnice (of_int k / 100) = true /\
  2048 * (k * unitOne) - unitOne <= 204800 * fv (of_int k / 100)
    <= 2048 * (k * unitOne) + unitOne.
Proof.
  intros k Hk0 Hk.
  destruct (of_int_value k) as [Nk Vk].
  { eapply Z.lt_trans; [exact Hk | reflexivity]. }
  fold unitOne in Vk.
  assert (HW : 0 < unitOne) by reflexivity.
  destruct (nice_cases _ Nk) as [(s & E & V) | (s & m & e & E & Hd & He & V)].
  { exfalso. rewrite V in Vk. clear - Vk Hk0 HW. nia. }
  set (z := if s then Z.neg m else Z.pos m) in *.
  assert (Hq : 0 < 2 ^ (e - emin)) by (apply pow_pos; lia).
  assert (Habs : Z.pos m * 2 ^ (e - emin) = Z.abs k * unitOne).
  { transitivity (Z.abs (z * 2 ^ (e - emin))).
    - rewrite Z.abs_mul, (Z.abs_eq (2 ^ _)) by lia. destruct s; reflexivity.
    - rewrite <- V, Vk, Z.abs_mul, (Z.abs_eq unitOne) by lia. reflexivity. }
  destruct (exponent_window m e 0 40 Hd) as [He1 He2]; try lia;
    try discriminate.
  { rewrite Habs. change (2 ^ (0 - emin)) with unitOne.
    change (2 ^ (40 - emin)) with (2 ^ 40 * unitOne).
    split; [clear - Hk0 HW; nia | apply Z.mul_lt_mono_pos_r; assumption]. }
  assert (E100 : Prim2SF 100 = S754_finite false 7036874417766400 (-46)) by reflexivity.
  assert (V100 : Z.pos 7036874417766400 * 2 ^ (-46 - emin) = 100 * unitOne)
    by (vm_compute; reflexivity).
  destruct (SFdiv_near s m e false 7036874417766400 (-46))
    as (mr & er & Hr & Nr & Hlo & Hhi).
  { rewrite <- E. exact Nk. }
  { reflexivity. }
  { unfold emin, prec, emax in *. lia. }
  { unfold emin, prec, emax in *. lia. }
  rewrite xorb_false_r in Hr, Nr.
  unfold fnice, fv. rewrite FloatAxioms.div_spec, E, E100.
  change (SF64div (S754_finite s m e) (S754_finite false 7036874417766400 (-46)))
    with (SFdiv prec emax (S754_finite s m e) (S754_finite false 7036874417766400 (-46))).
  rewrite Hr. split; [exact Nr|].
  destruct (nice_finite _ _ _ Nr) as (Hdr & Her & _).
  destruct (normal_bounds mr er emin Hdr Her) as [Rlo _].
  rewrite V100, Habs in Hlo, Hhi. fold unitOne in Hlo, Hhi.
  cbn [Zv].
  set (R := Z.pos mr * 2 ^ (er - emin)) in *.
  assert (Hu : 0 < 2 ^ (er - emin)) by (apply pow_pos; lia).
  assert (Ru : 4503599627370496 * 2 ^ (er - emin) <= R).
  { replace (prec - 1 + er - emin) with (52 + (er - emin)) in Rlo
      by (unfold prec; lia).
    rewrite Z.pow_add_r in Rlo by lia. exact Rlo. }
  set (u := 2 ^ (er - emin)) in *.
  set (K := Z.abs k) in *. set (W := unitOne) in *.
  assert (Hlo' : 100 * (R - u) <= K * W).
  { apply (Z.mul_le_mono_pos_r _ _ W); [exact HW|].
    eapply Z.le_trans; [|exact Hlo]. apply Z.eq_le_incl. ring. }
  assert (Hhi' : K * W <= 100 * (R + u)).
  { apply (Z.mul_le_mono_pos_r _ _ W); [exact HW|].
    eapply Z.le_trans; [exact Hhi|]. apply Z.eq_le_incl. ring. }
  assert (HK : K * W <= 1099511627775 * W).
  { apply Z.mul_le_mono_nonneg_r; [lia|].
    change (2 ^ 40) with 1099511627776 in Hk. lia. }
  assert (Hsign : cond_Zopp s R * 1 = cond_Zopp s R /\
                  (s = true -> k < 0) /\ (s = false -> 0 < k)).
  { split; [ring|]. rewrite V in Vk. fold W in Vk. subst z.
    split; intros ->.
    - assert (Z.neg m * 2 ^ (e - emin) < 0) by (apply Z.mul_neg_pos; lia).
      clear - H Vk HW. nia.
    - assert (0 < Z.pos m * 2 ^ (e - emin)) by (apply Z.mul_pos_pos; lia).
      clear - H Vk HW. nia. }
  destruct Hsign as (_ & Hs1 & Hs0).
  set (T := K * W) in *.
  assert (HT : s = true -> k * W = - T) by (intro H; specialize (Hs1 H); unfold T, K; rewrite Z.abs_neq by lia; ring).
  assert (HT' : s = false -> k * W = T) by (intro H; specialize (Hs0 H); unfold T, K; rewrite Z.abs_eq by lia; ring).
  clearbody T R u W. clear - Hlo' Hhi' HK Ru Hu HW HT HT'.
  destruct s; cbn [cond_Zopp].
  - rewrite (HT eq_refl). lia.
  - rewrite (HT' eq_refl). lia.
Qed.

Lemma fnice_isFinite : forall x, fnice x = true -> isFinite x = true.
Proof.
  intros x H. unfold isFinite, PrimFloat.is_finite.
  rewrite (fnice_not_nan x H). cbn [orb]. unfold PrimFloat.is_infinity.
  rewrite FloatAxioms.eqb_spec, FloatAxioms.abs_spec.
  unfold fnice in H. destruct (Prim2SF x) as [s|s| |s m e]; try discriminate; reflexivity.
Qed.

Lemma floor_hundred : forall k, 100 * (4096 * k / 100) <= 4096 * k <= 100 * (4096 * k / 100) + 99.
Proof. intro k. Z.to_euclidean_division_equations. lia. Qed.

(** The nudged value of [k] cents, in hundredths: it is rounded between
    [k - 1/4] and [k + 1/4]. *)
Lemma cents_hundredths : forall k,
  k <> 0 -> Z.abs k < 2 ^ 40 ->
  fnice ((of_int k / 100 + EPSILON) * 100) = true /\
  (4 * k - 1) * 2 ^ (-2 - emin) <= fv ((of_int k / 100 + EPSILON) * 100)
    <= (4 * k + 1) * 2 ^ (-2 - emin).
Proof.
  intros k Hk0 Hk.
  destruct (cents_value k Hk0 Hk) as [Nc Vc].
  set (c := (of_int k / 100)%float) in *.
  change (2 ^ 40) with 1099511627776 in Hk.
  set (U := 2 ^ 1022).
  assert (HU : 4503599627370496 <= U) by (apply Z.leb_le; vm_compute; reflexivity).
  assert (PW : unitOne = 4503599627370496 * U) by (vm_compute; reflexivity).
  assert (P12 : 2 ^ (-12 - emin) = 1099511627776 * U) by (vm_compute; reflexivity).
  assert (P2 : 2 ^ (-2 - emin) = 1125899906842624 * U) by (vm_compute; reflexivity).
  assert (PK : 2 ^ (- emin) = 4503599627370496 * U) by (vm_compute; reflexivity).
  assert (PM : 2 ^ (prec - 1 - emin) = 4503599627370496 * (4503599627370496 * U))
    by (vm_compute; reflexivity).
  assert (PE : fv EPSILON = U) by (vm_compute; reflexivity).
  assert (P100 : fv 100 = 100 * (4503599627370496 * U)) by (vm_compute; reflexivity).
  assert (P52 : 2 ^ (prec - 1) = 4503599627370496) by reflexivity.
  rewrite PW in Vc. clearbody U.
  pose proof (floor_hundred k) as Hq.
  set (q := 4096 * k / 100) in *.
  assert (HqU : 100 * (q * U) <= 4096 * (k * U) <= 100 * (q * U) + 99 * U).
  { clear - Hq HU. nia. }
  assert (HkU : (1 <= k -> U <= k * U) /\ (k <= -1 -> k * U <= - U)).
  { clear - HU. nia. }
  (* the sum *)
  destruct (add_between c EPSILON (q - 1) (-12) (q + 2) (-12)) as [Ns Vs].
  - exact Nc.
  - reflexivity.
  - split; [|clear; lia]. change (2 ^ prec) with 9007199254740992.
    clear - Hq Hk. lia.
  - split; [|clear; lia]. change (2 ^ prec) with 9007199254740992.
    clear - Hq Hk. lia.
  - rewrite P12, PE.
    replace ((q - 1) * (1099511627776 * U)) with (1099511627776 * (q * U) - 1099511627776 * U) by ring.
    replace ((q + 2) * (1099511627776 * U)) with (1099511627776 * (q * U) + 2199023255552 * U) by ring.
    replace (2048 * (k * (4503599627370496 * U))) with (9223372036854775808 * (k * U)) in Vc by ring.
    clear - Vc HqU HU. set (kU := k * U) in *. set (qU := q * U) in *. clearbody kU qU. lia.
  - right. rewrite P52, PE.
    replace (2048 * (k * (4503599627370496 * U))) with (9223372036854775808 * (k * U)) in Vc by ring.
    clear - Vc HkU HU Hk0. set (kU := k * U) in *. clearbody kU.
    destruct HkU as [H1 H2].
    destruct (Z_le_gt_dec 1 k) as [Hp | Hn].
    + specialize (H1 Hp). lia.
    + assert (k <= -1) by lia. specialize (H2 H). lia.
  - (* the product *)
    set (s := (c + EPSILON)%float) in *.
    rewrite P12 in Vs.
    assert (Hs : (4 * k - 1) * (1125899906842624 * U) <= 100 * fv s
                 <= (4 * k + 1) * (1125899906842624 * U)).
    { replace ((q - 1) * (1099511627776 * U)) with (1099511627776 * (q * U) - 1099511627776 * U) in Vs by ring.
      replace ((q + 2) * (1099511627776 * U)) with (1099511627776 * (q * U) + 2199023255552 * U) in Vs by ring.
      replace ((4 * k - 1) * (1125899906842624 * U)) with (4503599627370496 * (k * U) - 1125899906842624 * U) by ring.
      replace ((4 * k + 1) * (1125899906842624 * U)) with (4503599627370496 * (k * U) + 1125899906842624 * U) by ring.
      clear - Vs HqU HU. set (kU := k * U) in *. set (qU := q * U) in *. clearbody kU qU. lia. }
    destruct (mul_between s 100 (4 * k - 1) (-2) (4 * k + 1) (-2)) as [Ny Vy].
    + exact Ns.
    + reflexivity.
    + split; [|clear; lia]. change (2 ^ prec) with 9007199254740992. clear - Hk. lia.
    + split; [|clear; lia]. change (2 ^ prec) with 9007199254740992. clear - Hk. lia.
    + rewrite P2, PK, P100.
      replace (fv s * (100 * (4503599627370496 * U)))
        with (100 * fv s * (4503599627370496 * U)) by ring.
      split; apply Z.mul_le_mono_nonneg_r; try (clear - HU; lia); apply Hs.
    + right. rewrite PM, P100.
      replace (fv s * (100 * (4503599627370496 * U)))
        with (100 * fv s * (4503599627370496 * U)) by ring.
      rewrite Z.abs_mul, (Z.abs_eq (4503599627370496 * U)) by (clear - HU; lia).
      apply Z.mul_le_mono_nonneg_r; [clear - HU; lia|].
      replace ((4 * k - 1) * (1125899906842624 * U)) with (4503599627370496 * (k * U) - 1125899906842624 * U) in Hs by ring.
      replace ((4 * k + 1) * (1125899906842624 * U)) with (4503599627370496 * (k * U) + 1125899906842624 * U) in Hs by ring.
      clear - Hs HkU HU Hk0. set (kU := k * U) in *. clearbody kU.
      destruct HkU as [H1 H2].
      destruct (Z_le_gt_dec 1 k) as [Hp | Hn].
      * specialize (H1 Hp). lia.
      * assert (k <= -1) by lia. specialize (H2 H). lia.
    + split; [exact Ny|]. rewrite P2 in Vy |- *. exact Vy.
Qed.

Lemma round2_cents : forall k,
  Z.abs k < 2 ^ 40 ->
  round2_num (of_int k / 100) = (of_int k / 100)%float.
Proof.
  intros k Hk.
  destruct (Z.eq_dec k 0) as [-> | Hk0]; [vm_compute; reflexivity|].
  destruct (cents_hundredths k Hk0 Hk) as [Ny Vy].
  unfold round2_num. set (y := ((of_int k / 100 + EPSILON) * 100)%float) in *.
  f_equal.
  change (2 ^ 40) with 1099511627776 in Hk.
  set (U := 2 ^ 1022).
  assert (HU : 4503599627370496 <= U) by (apply Z.leb_le; vm_compute; reflexivity).
  assert (P2 : 2 ^ (-2 - emin) = 1125899906842624 * U) by (vm_compute; reflexivity).
  assert (PW : unitOne = 4503599627370496 * U) by (vm_compute; reflexivity).
  assert (PH : unitHalf = 2251799813685248 * U) by (vm_compute; reflexivity).
  assert (PM : 2 ^ (prec - 1 - emin) = 20282409603651670423947251286016 * U)
    by (vm_compute; reflexivity).
  rewrite P2 in Vy. clearbody U.
  assert (HkU : (1 <= k -> U <= k * U) /\ (k <= -1 -> k * U <= - U)
                /\ - (1099511627776 * U) < k * U < 1099511627776 * U).
  { clear - HU Hk. nia. }
  replace ((4 * k - 1) * (1125899906842624 * U))
    with (4503599627370496 * (k * U) - 1125899906842624 * U) in Vy by ring.
  replace ((4 * k + 1) * (1125899906842624 * U))
    with (4503599627370496 * (k * U) + 1125899906842624 * U) in Vy by ring.
  destruct (nice_cases y Ny) as [(s & E & V) | (s & m & e & E & Hd & He & V)].
  { exfalso. rewrite V in Vy. clear - Vy HkU HU Hk0.
    set (kU := k * U) in *. clearbody kU. destruct HkU as (H1 & H2 & _).
    destruct (Z_le_gt_dec 1 k) as [Hp | Hn].
    - specialize (H1 Hp). lia.
    - assert (k <= -1) by lia. specialize (H2 H). lia. }
  assert (Hnb := normal_bounds m e emin Hd (proj1 He)).
  assert (Hq : 0 < 2 ^ (e - emin)) by (apply pow_pos; lia).
  assert (Habs : Z.abs (fv y) = Z.pos m * 2 ^ (e - emin)).
  { rewrite V, Z.abs_mul, (Z.abs_eq (2 ^ _)) by lia. destruct s; reflexivity. }
  assert (Hneg : e < 0).
  { assert (prec - 1 + e - emin < prec - 1 - emin); [|clear - H; lia].
    apply (Z.pow_lt_mono_r_iff 2);
      [clear; lia | unfold emin, prec, emax; clear; lia |].
    rewrite PM. eapply Z.le_lt_trans; [apply Hnb|]. rewrite <- Habs.
    clear - Vy HkU HU. set (kU := k * U) in *. clearbody kU. lia. }
  destruct (Math_round_floor y s m e E Hneg) as (k' & Hk' & Hr).
  rewrite Hr. rewrite PW, PH in Hk'.
  assert (Ek : k' = k).
  { assert (A1 : k' * (4503599627370496 * U) < (k + 1) * (4503599627370496 * U)).
    { eapply Z.le_lt_trans; [apply Hk'|].
      replace ((k + 1) * (4503599627370496 * U))
        with (4503599627370496 * (k * U) + 4503599627370496 * U) by ring.
      clear - Vy HU. set (kU := k * U) in *. clearbody kU. lia. }
    assert (A2 : k * (4503599627370496 * U) < (k' + 1) * (4503599627370496 * U)).
    { eapply Z.le_lt_trans; [|apply Hk'].
      replace (k * (4503599627370496 * U)) with (4503599627370496 * (k * U)) by ring.
      clear - Vy HU. set (kU := k * U) in *. clearbody kU. lia. }
    apply Z.mul_lt_mono_pos_r in A1; [|clear - HU; lia].
    apply Z.mul_lt_mono_pos_r in A2; [|clear - HU; lia].
    clear - A1 A2. lia. }
  subst k'. destruct (Z.eqb_spec k 0); [contradiction | reflexivity].
Qed.

(** X27. Amounts in whole cents pass through unchanged: for every integer
    [k] below 2^40 in magnitude, the number nearest to [k / 100] (what a
    literal with two decimals denotes) is finite and is left as it is by
    [toNumber] and by [round2], so it is a money value that a second pass
    reads back as it is. *)
Theorem whole_cents_are_kept : forall k,
  Z.abs k < 2 ^ 40 ->
  rounded (toNumber (Some (JNum (of_int k / 100))))
  = Ok (Some (of_int k / 100)%float)
  /\ stableMoney (Some (JNum (of_int k / 100))).
Proof.
  intros k Hk.
  assert (Hf : isFinite (of_int k / 100) = true).
  { destruct (Z.eq_dec k 0) as [-> | Hk0]; [reflexivity|].
    apply fnice_isFinite. apply (cents_value k Hk0 Hk). }
  split.
  - cbn [toNumber]. rewrite Hf. cbn [rounded bind round2].
    do 2 f_equal. now apply round2_cents.
  - right. exists (of_int k / 100)%float. repeat split; auto. now apply round2_cents.
Qed.

Lemma whole_cents_are_kept_witness :
  rounded (toNumber (Some (JNum (of_int 1999 / 100))))
  = Ok (Some (of_int 1999 / 100)%float)
  /\ stableMoney (Some (JNum (of_int 1999 / 100))).
Proof. apply (whole_cents_are_kept 1999). reflexivity. Defined.

